(** * traefikoidc: session and token persistence, token exchange, logout

    A shallow embedding of [session.go] (cookie-backed session data with
    compressed, chunked tokens) and of the token-exchange and logout helpers,
    followed by the properties the specification states about them.

    Conventions of the embedding.
    - A Go [string] is a byte string: Rocq's [string] (a list of 8-bit
      [ascii]); [len] is [String.length].
    - A Go [error] is its message; [nil] is [None].  A function returning
      [(T, error)] returns an [errorOr T].
    - A [*sessions.Session] is a pointer [ptr]; the sessions themselves live
      in a [World], which every method reads and updates (state passing).
      Dereferencing [nil] is a run-time panic, result [Panic].
    - Loops without a bound in the source ([for i := 0; ; i++]) run on a
      budget; the budget is shown to be sufficient, so [OutOfFuel] is never
      the result of a call.
    - The libraries the code calls (compress/gzip, encoding/base64,
      encoding/json, net/url, net/http, gorilla/sessions) are taken through
      the interfaces below. *)

From Stdlib Require Import ZArith String Ascii List Lia.
From stdpp Require Import base option gmap sets list strings pretty.

Open Scope string_scope.
Open Scope nat_scope.
Open Scope list_scope.

(** ** Go strings *)

Module GoString.

(** [s[:n]] for [n <= len(s)]. *)
Fixpoint take (n : nat) (s : string) : string :=
  match n, s with
  | S n', String c s' => String c (take n' s')
  | _, _ => ""
  end.

(** [s[n:]] for [n <= len(s)]. *)
Fixpoint drop (n : nat) (s : string) : string :=
  match n, s with
  | S n', String _ s' => drop n' s'
  | _, _ => s
  end.

(** [strings.Join(elems, "")]. *)
Fixpoint Join (elems : list string) : string :=
  match elems with
  | [] => ""
  | e :: rest => e +:+ Join rest
  end.

(** [strings.HasPrefix(s, prefix)]. *)
Definition HasPrefix (s prefix : string) : bool := String.prefix prefix s.

(** [strings.Repeat(s, n)], used to build long tokens. *)
Fixpoint Repeat (s : string) (n : nat) : string :=
  match n with
  | O => ""
  | S n' => s +:+ Repeat s n'
  end.

End GoString.

(** ** Constants of [session.go] *)

Definition mainCookieName : string := "_oidc_raczylo_m".
Definition accessTokenCookie : string := "_oidc_raczylo_a".
Definition refreshTokenCookie : string := "_oidc_raczylo_r".

(** [maxCookieSize]: the cap on one cookie's payload. *)
Definition maxCookieSize : nat := 2000.

(** [time.Duration] counts nanoseconds. *)
Definition time_Second : Z := 1000000000%Z.
Definition time_Hour : Z := (3600 * time_Second)%Z.

(** [absoluteSessionTimeout = 24 * time.Hour]. *)
Definition absoluteSessionTimeout : Z := (24 * time_Hour)%Z.

Definition minEncryptionKeyLength : nat := 32.

(** ** Errors *)

(** The result of a Go function with signature [(T, error)]. *)
Inductive errorOr (A : Type) : Type :=
| Value (a : A)
| Error (msg : string).
Arguments Value {A} a.
Arguments Error {A} msg.

(** [fmt.Errorf("<prefix>: %w", err)]. *)
Definition wrap (prefix cause : string) : string := prefix +:+ ": " +:+ cause.

(** ** compress/gzip and encoding/base64

    Both codecs are library code.  The writer side of gzip has the two
    fallible steps the source checks ([Write], then [Close], which yields the
    buffer's bytes); the reader side has the two it checks ([NewReader], which
    parses the header, then [io.ReadAll]). *)

Class Codec : Type := {
  gzipWriter : Type;
  gzipReader : Type;
  gzip_Write : string -> option gzipWriter;
  gzip_Close : gzipWriter -> option string;
  gzip_NewReader : string -> option gzipReader;
  io_ReadAll : gzipReader -> option string;
  base64_EncodeToString : string -> string;
  base64_DecodeString : string -> option string
}.

(** What the code relies on when it expects a stored token to come back:
    base64 decoding inverts encoding, reading a gzip stream inverts writing
    it, and neither encoder produces an empty output for a gzip stream (a
    gzip stream has a header and a trailer). *)
Class CodecLaws (C : Codec) : Prop := {
  base64_decode_encode :
    forall b, base64_DecodeString (base64_EncodeToString b) = Some b;
  gzip_read_write :
    forall t st z, gzip_Write t = Some st -> gzip_Close st = Some z ->
      exists rd, gzip_NewReader z = Some rd /\ io_ReadAll rd = Some t;
  gzip_nonempty :
    forall st z, gzip_Close st = Some z -> z <> "";
  base64_nonempty :
    forall b, b <> "" -> base64_EncodeToString b <> ""
}.

Section Compression.
Context {codec : Codec}.

(** [compressToken]: gzip, then standard base64; the token itself when
    gzip reports an error. *)
Definition compressToken (token : string) : string :=
  match gzip_Write token with
  | None => token
  | Some gz =>
      match gzip_Close gz with
      | None => token
      | Some b => base64_EncodeToString b
      end
  end.

(** [decompressToken]: base64-decode, then gunzip; the input itself when
    any step fails. *)
Definition decompressToken (compressed : string) : string :=
  match base64_DecodeString compressed with
  | None => compressed
  | Some data =>
      match gzip_NewReader data with
      | None => compressed
      | Some gz =>
          match io_ReadAll gz with
          | None => compressed
          | Some decompressed => decompressed
          end
      end
  end.

End Compression.

(** ** [splitIntoChunks]

    The loop [for len(s) > 0 { ... }] with the accumulator [chunks].  One
    unit of [fuel] is spent per iteration that continues. *)
Fixpoint splitIntoChunks_loop (fuel : nat) (s : string) (chunkSize : nat)
    (chunks : list string) : option (list string) :=
  if 0 <? String.length s then
    if chunkSize <? String.length s then
      match fuel with
      | O => None
      | S fuel' =>
          splitIntoChunks_loop fuel' (GoString.drop chunkSize s) chunkSize
            (chunks ++ [GoString.take chunkSize s])
      end
    else Some (chunks ++ [s])
  else Some chunks.

Definition splitIntoChunks_fuel (fuel : nat) (s : string) (chunkSize : nat)
    : option (list string) :=
  splitIntoChunks_loop fuel s chunkSize [].

(** With a positive chunk size every continuing iteration shortens [s], so
    [len(s)] iterations are enough; [splitIntoChunks_total] below shows the
    budget is never exhausted. *)
Definition splitIntoChunks (s : string) (chunkSize : nat) : list string :=
  default [] (splitIntoChunks_fuel (String.length s) s chunkSize).

(** ** gorilla/sessions: values, options and sessions *)

(** What a session's [Values] map holds under the keys this code uses
    ([map[interface{}]interface{}] with string keys). *)
Inductive value : Type :=
| VBool (b : bool)
| VInt64 (n : Z)
| VString (s : string).

(** The comma-ok type assertions [v, _ := m[k].(T)]: the zero value when the
    key is absent or holds another type. *)
Definition as_string (v : option value) : string :=
  match v with Some (VString s) => s | _ => "" end.

Definition as_bool (v : option value) : bool :=
  match v with Some (VBool b) => b | _ => false end.

(** [n, ok := m[k].(int64)]: [None] is [ok = false]. *)
Definition as_int64 (v : option value) : option Z :=
  match v with Some (VInt64 n) => Some n | _ => None end.

Inductive SameSiteMode : Type :=
| SameSiteDefaultMode | SameSiteLaxMode | SameSiteStrictMode | SameSiteNoneMode.

Record Options : Type := mkOptions {
  Path : string;
  MaxAge : Z;
  Secure : bool;
  HttpOnly : bool;
  SameSite : SameSiteMode
}.

(** A [sessions.Session].  [Opts] is the [Options] field, kept by value.
    In the source it is a pointer, and [Save] gives all partitions one
    shared options object; a later write of [MaxAge] through one partition
    would then show in the others.  No property below reads the options of
    a partition other than the one written, so the sharing is left out. *)
Record Session : Type := mkSession {
  name : string;
  ID : string;
  Values : gmap string value;
  Opts : Options;
  IsNew : bool
}.

Definition set_MaxAge (n : Z) (o : Options) : Options :=
  mkOptions (Path o) n (Secure o) (HttpOnly o) (SameSite o).

Definition with_ID (id : string) (s : Session) : Session :=
  mkSession (name s) id (Values s) (Opts s) (IsNew s).

Definition with_Values (vals : gmap string value) (s : Session) : Session :=
  mkSession (name s) (ID s) vals (Opts s) (IsNew s).

Definition with_Opts (o : Options) (s : Session) : Session :=
  mkSession (name s) (ID s) (Values s) o (IsNew s).

(** [session.Values[k] = v]. *)
Definition set_value (k : string) (v : value) (s : Session) : Session :=
  with_Values (<[k := v]> (Values s)) s.

(** [session.Options.MaxAge = -1]. *)
Definition expire_options (s : Session) : Session :=
  with_Opts (set_MaxAge (-1) (Opts s)) s.

(** A partition that has been cleared and marked for deletion. *)
Definition expired (s : Session) : Prop :=
  Values s = ∅ /\ MaxAge (Opts s) = (-1)%Z.

(** ** The request and the world around one request *)

(** A cookie of the request as the store's codec sees it: it decodes to a
    [Values] map, or decoding fails with an error. *)
Inductive cookie : Type :=
| Decodes (vals : gmap string value)
| Garbled (err : string).

Record httpRequest : Type := mkRequest {
  URL_Scheme : string;
  Cookies : gmap string cookie
}.

(** A [*sessions.Session]: the session the request's registry keeps under a
    name, or a session left over from an earlier request (a pooled
    [SessionData] still points to the partitions of the request it last
    served). *)
Inductive ptr : Type :=
| Reg (name : string)
| Retired (n : nat).

(** [SessionData].  A [nil] pointer is [None].  The [manager] field always
    points to the manager that owns the pool; the manager is passed along
    explicitly. *)
Record SessionData : Type := mkSessionData {
  request : option httpRequest;
  mainSession : option ptr;
  accessSession : option ptr;
  refreshSession : option ptr;
  accessTokenChunks : gmap nat ptr;
  refreshTokenChunks : gmap nat ptr
}.

Definition with_request (r : option httpRequest) (sd : SessionData) :=
  mkSessionData r (mainSession sd) (accessSession sd) (refreshSession sd)
    (accessTokenChunks sd) (refreshTokenChunks sd).

Definition with_mainSession (p : option ptr) (sd : SessionData) :=
  mkSessionData (request sd) p (accessSession sd) (refreshSession sd)
    (accessTokenChunks sd) (refreshTokenChunks sd).

Definition with_accessSession (p : option ptr) (sd : SessionData) :=
  mkSessionData (request sd) (mainSession sd) p (refreshSession sd)
    (accessTokenChunks sd) (refreshTokenChunks sd).

Definition with_refreshSession (p : option ptr) (sd : SessionData) :=
  mkSessionData (request sd) (mainSession sd) (accessSession sd) p
    (accessTokenChunks sd) (refreshTokenChunks sd).

Definition with_accessTokenChunks (m : gmap nat ptr) (sd : SessionData) :=
  mkSessionData (request sd) (mainSession sd) (accessSession sd)
    (refreshSession sd) m (refreshTokenChunks sd).

Definition with_refreshTokenChunks (m : gmap nat ptr) (sd : SessionData) :=
  mkSessionData (request sd) (mainSession sd) (accessSession sd)
    (refreshSession sd) (accessTokenChunks sd) m.

(** One [Set-Cookie] header written by [http.SetCookie]. *)
Record SetCookie : Type := mkSetCookie {
  cookie_name : string;
  cookie_value : string;
  cookie_options : Options
}.

(** The state while one request is served.
    - [registry]: gorilla's per-request registry, name to session and the
      error the first load returned; [store.Get] answers from it, so every
      [Get] of one name yields the same session object.
    - [retired]: sessions of earlier requests.
    - [pool]: the objects handed to [sessionPool.Put].
    - [response]: the [Set-Cookie] headers written so far. *)
Record World : Type := mkWorld {
  registry : gmap string (Session * option string);
  retired : gmap nat Session;
  pool : list SessionData;
  response : list SetCookie
}.

Definition with_registry (reg : gmap string (Session * option string))
    (w : World) : World :=
  mkWorld reg (retired w) (pool w) (response w).

Definition with_retired (old : gmap nat Session) (w : World) : World :=
  mkWorld (registry w) old (pool w) (response w).

Definition with_pool (p : list SessionData) (w : World) : World :=
  mkWorld (registry w) (retired w) p (response w).

Definition with_response (h : list SetCookie) (w : World) : World :=
  mkWorld (registry w) (retired w) (pool w) h.

(** The session a pointer designates. *)
Definition session_at (w : World) (p : ptr) : option Session :=
  match p with
  | Reg n => fst <$> registry w !! n
  | Retired k => retired w !! k
  end.

(** The error the registry remembers for a name. *)
Definition load_error (w : World) (n : string) : option string :=
  match registry w !! n with
  | Some (_, e) => e
  | None => None
  end.

(** Writing through a pointer. *)
Definition write_at (p : ptr) (s : Session) (w : World) : World :=
  match p with
  | Reg n => with_registry (<[n := (s, load_error w n)]> (registry w)) w
  | Retired k => with_retired (<[k := s]> (retired w)) w
  end.

(** ** Computations: state, panics and loop budgets *)

Inductive outcome (A : Type) : Type :=
| Ok (a : A) (w : World)
| Panic
| OutOfFuel.
Arguments Ok {A} a w.
Arguments Panic {A}.
Arguments OutOfFuel {A}.

Definition M (A : Type) : Type := World -> outcome A.

Definition ret {A : Type} (a : A) : M A := fun w => Ok a w.

Definition bind {A B : Type} (c : M A) (k : A -> M B) : M B :=
  fun w =>
    match c w with
    | Ok a w' => k a w'
    | Panic => Panic
    | OutOfFuel => OutOfFuel
    end.

Declare Scope go_scope.
Delimit Scope go_scope with go.
Notation "x <- c ;; k" := (bind c (fun x => k))
  (at level 100, c at next level, right associativity) : go_scope.
Notation "c ;; k" := (bind c (fun _ => k))
  (at level 100, right associativity) : go_scope.
Open Scope go_scope.

Definition panic {A : Type} : M A := fun _ => Panic.
Definition out_of_fuel {A : Type} : M A := fun _ => OutOfFuel.
Definition get_world : M World := fun w => Ok w w.
Definition update_world (f : World -> World) : M unit := fun w => Ok tt (f w).

(** [*p]: a nil pointer panics.  (A pointer to a session the world does not
    hold cannot arise in Go; the properties below are stated for worlds that
    hold the sessions pointed to.) *)
Definition deref (p : option ptr) : M Session :=
  fun w =>
    match p with
    | None => Panic
    | Some q =>
        match session_at w q with
        | Some s => Ok s w
        | None => Panic
        end
    end.

(** [p.field = ...]: read the session, write the changed one back. *)
Definition modify (p : option ptr) (f : Session -> Session) : M unit :=
  s <- deref p ;;
  match p with
  | Some q => update_world (write_at q (f s))
  | None => panic
  end.

(** [for _, x := range xs { body }]. *)
Fixpoint for_each {A : Type} (xs : list A) (body : A -> M unit) : M unit :=
  match xs with
  | [] => ret tt
  | x :: rest => body x ;; for_each rest body
  end.

(** ** The cookie store *)

(** [SessionManager].  [store_Options] stands for the default options the
    cookie store gives a session it creates. *)
Record SessionManager : Type := mkSessionManager {
  store_Options : Options;
  forceHTTPS : bool
}.

(** securecookie's encoder, used when a session is saved. *)
Class CookieCodec : Type := {
  securecookie_Encode : string -> gmap string value -> errorOr string
}.

(** [CookieStore.New]: a session is new unless the request carries a cookie
    of that name that decodes. *)
Definition store_New (sm : SessionManager) (r : httpRequest) (n : string)
    : Session * option string :=
  match Cookies r !! n with
  | Some (Decodes vals) => (mkSession n "" vals (store_Options sm) false, None)
  | Some (Garbled e) => (mkSession n "" ∅ (store_Options sm) true, Some e)
  | None => (mkSession n "" ∅ (store_Options sm) true, None)
  end.

(** [sm.store.Get(r, name)]: the registry's session of that name, created
    and registered on first use.  With a nil request the store dereferences
    it and panics. *)
Definition store_Get (sm : SessionManager) (r : option httpRequest) (n : string)
    : M (ptr * option string) :=
  match r with
  | None => panic
  | Some r =>
      fun w =>
        match registry w !! n with
        | Some (_, e) => Ok (Reg n, e) w
        | None =>
            let se := store_New sm r n in
            Ok (Reg n, snd se) (with_registry (<[n := se]> (registry w)) w)
        end
  end.

(** [fmt.Sprintf("%s_%d", baseName, i)]. *)
Definition sessionName (baseName : string) (i : nat) : string :=
  baseName +:+ "_" +:+ pretty i.

(** [session.Save(r, w)]: encode the values, then [http.SetCookie]. *)
Definition session_Save {cc : CookieCodec} (p : option ptr) : M (option string) :=
  s <- deref p ;;
  match securecookie_Encode (name s) (Values s) with
  | Error e => ret (Some e)
  | Value encoded =>
      update_world (fun w =>
        with_response (response w ++ [mkSetCookie (name s) encoded (Opts s)]) w) ;;
      ret None
  end.

(** [sessionPool.Put]. *)
Definition sessionPool_Put (sd : SessionData) : M unit :=
  update_world (fun w => with_pool (sd :: pool w) w).

(** [sessionPool.New]: the session pointers of a fresh object are nil. *)
Definition sessionPool_New : SessionData :=
  mkSessionData None None None None ∅ ∅.

(** ** Time *)

(** A [time.Time] is its distance from the Unix epoch in nanoseconds.  Go
    keeps the whole seconds of a time as an [int64] that counts from January
    1 of year 1, [unixToInternal] seconds before the Unix epoch; a time Go
    can hold is [representable]. *)
Definition minDuration : Z := (- 2 ^ 63)%Z.
Definition maxDuration : Z := (2 ^ 63 - 1)%Z.

(** [int64] arithmetic: the result wraps around. *)
Definition int64 (z : Z) : Z := ((z + 2 ^ 63) mod 2 ^ 64 - 2 ^ 63)%Z.

Definition unixToInternal : Z :=
  ((1969 * 365 + 1969 / 4 - 1969 / 100 + 1969 / 400) * 86400)%Z.
Definition internalToUnix : Z := (- unixToInternal)%Z.

(** [t.sec()]: the seconds since January 1 of year 1. *)
Definition Time_sec (t : Z) : Z := (t / time_Second + unixToInternal)%Z.

Definition representable (t : Z) : Prop :=
  (- 2 ^ 63 <= Time_sec t < 2 ^ 63)%Z.

(** [time.Unix(sec, 0)]: the time whose seconds are [sec + unixToInternal],
    an [int64] sum.  For [sec] above [2^63 - 1 - unixToInternal] the sum
    wraps around and the time lies [2^64] seconds earlier. *)
Definition time_Unix (sec : Z) : Z :=
  ((int64 (sec + unixToInternal) - unixToInternal) * time_Second)%Z.

(** [t.Unix()]: [t.sec() + internalToUnix], an [int64] sum. *)
Definition Time_Unix (t : Z) : Z := int64 (Time_sec t + internalToUnix).

(** [t.Sub(u)]: the difference, saturated to the range of a [Duration]. *)
Definition Time_Sub (t u : Z) : Z :=
  Z.max minDuration (Z.min maxDuration (t - u)).

(** [time.Since(t)], with [now] what [time.Now()] reads. *)
Definition time_Since (now t : Z) : Z := Time_Sub now t.

(** ** Randomness and hex *)

(** crypto/rand: [rand.Read] fails, or fills the buffer it is given. *)
Record RandSource : Type := mkRand {
  rand_failure : option string;
  rand_byte : nat -> ascii
}.

Fixpoint fill (f : nat -> ascii) (from len : nat) : string :=
  match len with
  | O => ""
  | S len' => String (f from) (fill f (S from) len')
  end.

(** [bytes := make([]byte, length); rand.Read(bytes)]. *)
Definition rand_Read (rnd : RandSource) (length : nat) : errorOr string :=
  match rand_failure rnd with
  | Some e => Error e
  | None => Value (fill (rand_byte rnd) 0 length)
  end.

Definition hextable : string := "0123456789abcdef".

Definition hexdigit (n : nat) : ascii :=
  default "0"%char (String.get n hextable).

(** [hex.EncodeToString]. *)
Fixpoint hex_EncodeToString (src : string) : string :=
  match src with
  | "" => ""
  | String c rest =>
      let v := nat_of_ascii c in
      String (hexdigit (v / 16)) (String (hexdigit (v mod 16))
        (hex_EncodeToString rest))
  end.

Definition generateSecureRandomString (rnd : RandSource) (length : nat)
    : errorOr string :=
  match rand_Read rnd length with
  | Error e => Error (wrap "failed to generate random bytes" e)
  | Value bytes => Value (hex_EncodeToString bytes)
  end.

Definition is_hex (c : ascii) : bool :=
  bool_decide (c ∈ list_ascii_of_string hextable).

Fixpoint all_chars (P : ascii -> bool) (s : string) : bool :=
  match s with
  | "" => true
  | String c rest => P c && all_chars P rest
  end.

(** ** [SessionManager] and [SessionData] methods *)

Inductive httpResponseWriter : Type := ResponseWriter.

Definition is_error (e : option string) : bool :=
  match e with Some _ => true | None => false end.

(** The values of a chunk map, as [range] visits them.  (Go fixes no order;
    the loops that use it do the same to every session.) *)
Definition chunk_sessions (chunks : gmap nat ptr) : list ptr :=
  snd <$> map_to_list chunks.

Section Sessions.
Context {codec : Codec} {cc : CookieCodec}.
Variable sm : SessionManager.

Definition getSessionOptions (isSecure : bool) : Options :=
  mkOptions "/" (absoluteSessionTimeout / time_Second)%Z
    (isSecure || forceHTTPS sm) true SameSiteLaxMode.

(** The budget of the loops that probe [<base>_0], [<base>_1], ...: a
    probe continues only at a name the registry or the request knows. *)
Definition probe_budget (r : option httpRequest) : M nat :=
  w <- get_world ;;
  ret (size (registry w) + from_option (fun r => size (Cookies r)) 0 r).

(** [getTokenChunkSessions]: the loop body at index [i]. *)
Fixpoint getTokenChunkSessions_loop (fuel : nat) (r : httpRequest)
    (baseName : string) (chunks : gmap nat ptr) (i : nat) : M (gmap nat ptr) :=
  pe <- store_Get sm (Some r) (sessionName baseName i) ;;
  session <- deref (Some (fst pe)) ;;
  if is_error (snd pe) || IsNew session then ret chunks
  else
    match fuel with
    | O => out_of_fuel
    | S fuel' =>
        getTokenChunkSessions_loop fuel' r baseName
          (<[i := fst pe]> chunks) (S i)
    end.

Definition getTokenChunkSessions (r : httpRequest) (baseName : string)
    (chunks : gmap nat ptr) : M (gmap nat ptr) :=
  fuel <- probe_budget (Some r) ;;
  getTokenChunkSessions_loop fuel r baseName chunks 0.

(** The chunk loops of [Save]: stop at the first session that fails. *)
Fixpoint Save_chunks (what : string) (options : Options) (sessions : list ptr)
    : M (option string) :=
  match sessions with
  | [] => ret None
  | p :: rest =>
      modify (Some p) (with_Opts options) ;;
      e <- session_Save (Some p) ;;
      match e with
      | Some e => ret (Some (wrap what e))
      | None => Save_chunks what options rest
      end
  end.

Definition Save (sd : SessionData) (r : httpRequest) (w : httpResponseWriter)
    : M (option string) :=
  let isSecure := GoString.HasPrefix (URL_Scheme r) "https" || forceHTTPS sm in
  let options := getSessionOptions isSecure in
  modify (mainSession sd) (with_Opts options) ;;
  modify (accessSession sd) (with_Opts options) ;;
  modify (refreshSession sd) (with_Opts options) ;;
  e <- session_Save (mainSession sd) ;;
  match e with
  | Some e => ret (Some (wrap "failed to save main session" e))
  | None =>
      e <- session_Save (accessSession sd) ;;
      match e with
      | Some e => ret (Some (wrap "failed to save access token session" e))
      | None =>
          e <- session_Save (refreshSession sd) ;;
          match e with
          | Some e => ret (Some (wrap "failed to save refresh token session" e))
          | None =>
              e <- Save_chunks "failed to save access token chunk session"
                     options (chunk_sessions (accessTokenChunks sd)) ;;
              match e with
              | Some e => ret (Some e)
              | None =>
                  Save_chunks "failed to save refresh token chunk session"
                    options (chunk_sessions (refreshTokenChunks sd))
              end
          end
      end
  end.

(** [clearTokenChunks]. *)
Definition clearTokenChunks (chunks : gmap nat ptr) : M unit :=
  for_each (chunk_sessions chunks) (fun p =>
    modify (Some p) expire_options ;;
    modify (Some p) (with_Values ∅)).

(** [Clear]: returns the error of [Save], if any; the object, detached
    from its request, goes back to the pool. *)
Definition Clear (sd : SessionData) (r : httpRequest)
    (w : option httpResponseWriter) : M (SessionData * option string) :=
  modify (mainSession sd) expire_options ;;
  modify (accessSession sd) expire_options ;;
  modify (refreshSession sd) expire_options ;;
  modify (mainSession sd) (with_Values ∅) ;;
  modify (accessSession sd) (with_Values ∅) ;;
  modify (refreshSession sd) (with_Values ∅) ;;
  clearTokenChunks (accessTokenChunks sd) ;;
  clearTokenChunks (refreshTokenChunks sd) ;;
  err <- match w with
         | Some w => Save sd r w
         | None => ret None
         end ;;
  let sd := with_request None sd in
  sessionPool_Put sd ;;
  ret (sd, err).

(** [GetSession], from line 208 on: the token partitions and their
    chunks. *)
Definition GetSession_tokens (sd : SessionData) (r : httpRequest)
    : M (errorOr SessionData) :=
  pe <- store_Get sm (Some r) accessTokenCookie ;;
  let sd := with_accessSession (Some (fst pe)) sd in
  match snd pe with
  | Some e =>
      sessionPool_Put sd ;;
      ret (Error (wrap "failed to get access token session" e))
  | None =>
      pe <- store_Get sm (Some r) refreshTokenCookie ;;
      let sd := with_refreshSession (Some (fst pe)) sd in
      match snd pe with
      | Some e =>
          sessionPool_Put sd ;;
          ret (Error (wrap "failed to get refresh token session" e))
      | None =>
          let sd := with_accessTokenChunks ∅ sd in
          let sd := with_refreshTokenChunks ∅ sd in
          a <- getTokenChunkSessions r accessTokenCookie (accessTokenChunks sd) ;;
          let sd := with_accessTokenChunks a sd in
          b <- getTokenChunkSessions r refreshTokenCookie (refreshTokenChunks sd) ;;
          let sd := with_refreshTokenChunks b sd in
          ret (Value sd)
      end
  end.

(** [GetSession].  [pooled] is the object [sessionPool.Get()] hands out: a
    fresh one ([sessionPool_New]) or one that served an earlier request.
    [now] is the clock reading of [time.Since]. *)
Definition GetSession (pooled : SessionData) (now : Z) (r : httpRequest)
    : M (errorOr SessionData) :=
  let sd := with_request (Some r) pooled in
  pe <- store_Get sm (Some r) mainCookieName ;;
  let sd := with_mainSession (Some (fst pe)) sd in
  match snd pe with
  | Some e =>
      sessionPool_Put sd ;;
      ret (Error (wrap "failed to get main session" e))
  | None =>
      main <- deref (mainSession sd) ;;
      match as_int64 (Values main !! "created_at") with
      | Some createdAt =>
          if (absoluteSessionTimeout <? time_Since now (time_Unix createdAt))%Z
          then
            Clear sd r None ;;
            ret (Error "session expired")
          else GetSession_tokens sd r
      | None => GetSession_tokens sd r
      end
  end.

(** [GetAuthenticated]. *)
Definition GetAuthenticated (sd : SessionData) (now : Z) : M bool :=
  main <- deref (mainSession sd) ;;
  let auth := as_bool (Values main !! "authenticated") in
  if negb auth then ret false
  else
    match as_int64 (Values main !! "created_at") with
    | None => ret false
    | Some createdAt =>
        ret (time_Since now (time_Unix createdAt) <=? absoluteSessionTimeout)%Z
    end.

(** [SetAuthenticated]; [now] is what [time.Now()] reads, [rnd] the
    state of crypto/rand. *)
Definition SetAuthenticated (sd : SessionData) (value : bool) (now : Z)
    (rnd : RandSource) : M (option string) :=
  err <- (if value then
            match generateSecureRandomString rnd 32 with
            | Error e =>
                ret (Some (wrap "failed to generate secure session id" e))
            | Value id =>
                modify (mainSession sd) (with_ID id) ;;
                modify (mainSession sd)
                  (set_value "created_at" (VInt64 (Time_Unix now))) ;;
                ret None
            end
          else ret None) ;;
  match err with
  | Some e => ret (Some e)
  | None =>
      modify (mainSession sd) (set_value "authenticated" (VBool value)) ;;
      ret None
  end.

(** [GetAccessToken]: the loop that collects the chunks from index [i]
    until the first index the map does not hold. *)
Fixpoint GetAccessToken_loop (fuel : nat) (m : gmap nat ptr) (i : nat)
    (chunks : list string) : M (list string) :=
  match m !! i with
  | None => ret chunks
  | Some p =>
      session <- deref (Some p) ;;
      let chunk := as_string (Values session !! "token_chunk") in
      match fuel with
      | O => out_of_fuel
      | S fuel' => GetAccessToken_loop fuel' m (S i) (chunks ++ [chunk])
      end
  end.

Definition GetAccessToken (sd : SessionData) : M string :=
  access <- deref (accessSession sd) ;;
  let token := as_string (Values access !! "token") in
  if negb (String.eqb token "") then
    if as_bool (Values access !! "compressed")
    then ret (decompressToken token)
    else ret token
  else if size (accessTokenChunks sd) =? 0 then ret ""
  else
    chunks <- GetAccessToken_loop (size (accessTokenChunks sd))
                (accessTokenChunks sd) 0 [] ;;
    let token := GoString.Join chunks in
    access <- deref (accessSession sd) ;;
    if as_bool (Values access !! "compressed")
    then ret (decompressToken token)
    else ret token.

(** [expireAccessTokenChunks]: the loop body at index [i]. *)
Fixpoint expireAccessTokenChunks_loop (fuel : nat) (sd : SessionData)
    (w : option httpResponseWriter) (i : nat) : M unit :=
  pe <- store_Get sm (request sd) (sessionName accessTokenCookie i) ;;
  session <- deref (Some (fst pe)) ;;
  if is_error (snd pe) || IsNew session then ret tt
  else
    match fuel with
    | O => out_of_fuel
    | S fuel' =>
        modify (Some (fst pe)) expire_options ;;
        modify (Some (fst pe)) (with_Values ∅) ;;
        match w with
        | Some _ => session_Save (Some (fst pe)) ;; ret tt
        | None => ret tt
        end ;;
        expireAccessTokenChunks_loop fuel' sd w (S i)
    end.

Definition expireAccessTokenChunks (sd : SessionData)
    (w : option httpResponseWriter) : M unit :=
  fuel <- probe_budget (request sd) ;;
  expireAccessTokenChunks_loop fuel sd w 0.

(** [SetAccessToken]: the loop [for i, chunk := range chunks]. *)
Fixpoint SetAccessToken_chunks (sd : SessionData) (i : nat)
    (chunks : list string) : M SessionData :=
  match chunks with
  | [] => ret sd
  | chunk :: rest =>
      pe <- store_Get sm (request sd) (sessionName accessTokenCookie i) ;;
      modify (Some (fst pe)) (set_value "token_chunk" (VString chunk)) ;;
      SetAccessToken_chunks
        (with_accessTokenChunks (<[i := fst pe]> (accessTokenChunks sd)) sd)
        (S i) rest
  end.

(** [SetAccessToken], after the old chunks were expired. *)
Definition SetAccessToken_store (sd : SessionData) (token : string)
    : M SessionData :=
  let sd := with_accessTokenChunks ∅ sd in
  let compressed := compressToken token in
  if String.length compressed <=? maxCookieSize then
    modify (accessSession sd) (set_value "token" (VString compressed)) ;;
    modify (accessSession sd) (set_value "compressed" (VBool true)) ;;
    ret sd
  else
    modify (accessSession sd) (set_value "token" (VString "")) ;;
    modify (accessSession sd) (set_value "compressed" (VBool true)) ;;
    SetAccessToken_chunks sd 0 (splitIntoChunks compressed maxCookieSize).

Definition SetAccessToken (sd : SessionData) (token : string) : M SessionData :=
  match request sd with
  | Some _ => expireAccessTokenChunks sd None
  | None => ret tt
  end ;;
  SetAccessToken_store sd token.

End Sessions.

(** ** Token exchange *)

(** [url.Values]: form fields, each with its list of values. *)
Abbreviation url_Values := (gmap string (list string)).

(** net/url, as far as the code uses it. *)
Class UrlLib : Type := {
  URL : Type;
  url_Parse : string -> errorOr URL;
  URL_Query : URL -> url_Values;
  URL_set_RawQuery : string -> URL -> URL;
  URL_String : URL -> string;
  Values_Encode : url_Values -> string
}.

Record TokenResponse : Type := mkTokenResponse {
  IDToken : string;
  AccessToken : string;
  RefreshToken : string;
  ExpiresIn : Z;
  TokenType : string
}.

(** A response body as a reader delivers it: the bytes that can be read,
    and the error, if any, that ends the reading. *)
Record bodyStream : Type := mkBody {
  content : string;
  read_error : option string
}.

Record httpResponse : Type := mkResponse {
  StatusCode : Z;
  Body : bodyStream
}.

(** The request [exchangeTokens] builds. *)
Record tokenRequest : Type := mkTokenRequest {
  Method : string;
  Target : string;
  ContentType : string;
  Payload : string
}.

(** net/http and encoding/json: [client.Do] with the redirect policy it is
    given, and [json.NewDecoder(body).Decode] into a [TokenResponse]. *)
Class Net : Type := {
  http_Do : (nat -> option string) -> tokenRequest -> errorOr httpResponse;
  json_Decode : bodyStream -> errorOr TokenResponse
}.

(** The fields of [TraefikOidc] the modelled methods read. *)
Record TraefikOidc : Type := mkTraefikOidc {
  clientID : string;
  clientSecret : string;
  tokenURL : string;
  enablePKCE : bool;
  endSessionURL : string;
  postLogoutRedirectURI : string;
  sessionManager : SessionManager
}.

Definition http_StatusOK : Z := 200.
Definition http_StatusFound : Z := 302.
Definition http_StatusInternalServerError : Z := 500.

(** [io.ReadAll(resp.Body)]: the bytes read and the error. *)
Definition Body_ReadAll (b : bodyStream) : string * option string :=
  (content b, read_error b).

Section Exchange.
Context {urllib : UrlLib} {net : Net}.
Variable t : TraefikOidc.

(** [exchangeTokens], lines 85-101: the form [data]. *)
Definition exchange_form (grantType codeOrToken redirectURL codeVerifier : string)
    : url_Values :=
  let data : url_Values :=
    <["client_secret" := [clientSecret t]]>
      (<["client_id" := [clientID t]]>
        (<["grant_type" := [grantType]]> ∅)) in
  if String.eqb grantType "authorization_code" then
    let data := <["code" := [codeOrToken]]> data in
    let data := <["redirect_uri" := [redirectURL]]> data in
    if negb (String.eqb codeVerifier "")
    then <["code_verifier" := [codeVerifier]]> data
    else data
  else if String.eqb grantType "refresh_token" then
    <["refresh_token" := [codeOrToken]]> data
  else data.

(** The redirect policy of the request-scoped client. *)
Definition CheckRedirect (via : nat) : option string :=
  if 50 <=? via then Some "stopped after 50 redirects" else None.

(** [exchangeTokens], lines 118-122: the POST request. *)
Definition exchange_request (grantType codeOrToken redirectURL codeVerifier : string)
    : errorOr tokenRequest :=
  let data := exchange_form grantType codeOrToken redirectURL codeVerifier in
  match url_Parse (tokenURL t) with
  | Error e => Error (wrap "failed to create token request" e)
  | Value _ =>
      Value (mkTokenRequest "POST" (tokenURL t)
               "application/x-www-form-urlencoded" (Values_Encode data))
  end.

(** [exchangeTokens], lines 130-140: what is made of the response. *)
Definition exchange_response (resp : httpResponse) : errorOr TokenResponse :=
  if negb (StatusCode resp =? http_StatusOK)%Z then
    let bodyBytes := fst (Body_ReadAll (Body resp)) in
    Error ("token endpoint returned status " +:+ pretty (StatusCode resp)
             +:+ ": " +:+ bodyBytes)
  else
    match json_Decode (Body resp) with
    | Error e => Error (wrap "failed to decode token response" e)
    | Value tokenResponse => Value tokenResponse
    end.

Definition exchangeTokens (grantType codeOrToken redirectURL codeVerifier : string)
    : errorOr TokenResponse :=
  match exchange_request grantType codeOrToken redirectURL codeVerifier with
  | Error e => Error e
  | Value req =>
      match http_Do CheckRedirect req with
      | Error e => Error (wrap "failed to exchange tokens" e)
      | Value resp => exchange_response resp
      end
  end.

Definition getNewTokenWithRefreshToken (refreshToken : string)
    : errorOr TokenResponse :=
  match exchangeTokens "refresh_token" refreshToken "" "" with
  | Error e => Error (wrap "failed to refresh token" e)
  | Value tokenResponse => Value tokenResponse
  end.

(** [exchangeCodeForToken]: the verifier that is passed on. *)
Definition effectiveCodeVerifier (codeVerifier : string) : string :=
  if enablePKCE t && negb (String.eqb codeVerifier "") then codeVerifier else "".

Definition exchangeCodeForToken (code redirectURL codeVerifier : string)
    : errorOr TokenResponse :=
  match exchangeTokens "authorization_code" code redirectURL
          (effectiveCodeVerifier codeVerifier) with
  | Error e => Error (wrap "failed to exchange code for token" e)
  | Value tokenResponse => Value tokenResponse
  end.

End Exchange.

(** ** Logout *)

(** What the handler answers: [http.Error] or [http.Redirect]. *)
Inductive reply : Type :=
| http_Error (msg : string) (code : Z)
| http_Redirect (url : string) (code : Z).

Section Logout.
Context {codec : Codec} {cc : CookieCodec} {urllib : UrlLib}.

(** [BuildLogoutURL]: the query of the end-session URL. *)
Definition BuildLogoutURL_query (u : URL) (idToken postLogoutRedirectURI : string)
    : url_Values :=
  let q := URL_Query u in
  let q := <["id_token_hint" := [idToken]]> q in
  if negb (String.eqb postLogoutRedirectURI "")
  then <["post_logout_redirect_uri" := [postLogoutRedirectURI]]> q
  else q.

Definition BuildLogoutURL (endSessionURL idToken postLogoutRedirectURI : string)
    : errorOr string :=
  match url_Parse endSessionURL with
  | Error e => Error (wrap "failed to parse end session URL" e)
  | Value u =>
      let q := BuildLogoutURL_query u idToken postLogoutRedirectURI in
      Value (URL_String (URL_set_RawQuery (Values_Encode q) u))
  end.

(** [determineHost] and [determineScheme] are methods of [TraefikOidc]
    defined outside the files at hand; they are parameters. *)
Variable determineHost : TraefikOidc -> httpRequest -> string.
Variable determineScheme : TraefikOidc -> httpRequest -> string.

(** [handleLogout], lines 269-278: where to go after logout. *)
Definition logout_target (t : TraefikOidc) (req : httpRequest) : string :=
  let host := determineHost t req in
  let scheme := determineScheme t req in
  let baseURL := scheme +:+ "://" +:+ host in
  if String.eqb (postLogoutRedirectURI t) "" then baseURL +:+ "/"
  else if negb (GoString.HasPrefix (postLogoutRedirectURI t) "http")
       then baseURL +:+ postLogoutRedirectURI t
       else postLogoutRedirectURI t.

(** [handleLogout], lines 280-291: the redirect. *)
Definition logout_redirect (t : TraefikOidc) (req : httpRequest)
    (accessToken : string) : reply :=
  let postLogoutRedirectURI := logout_target t req in
  if negb (String.eqb (endSessionURL t) "") && negb (String.eqb accessToken "")
  then
    match BuildLogoutURL (endSessionURL t) accessToken postLogoutRedirectURI with
    | Error e => http_Error "Logout error" http_StatusInternalServerError
    | Value logoutURL => http_Redirect logoutURL http_StatusFound
    end
  else http_Redirect postLogoutRedirectURI http_StatusFound.

(** [handleLogout]; [pooled] and [now] are the pool's and the clock's
    contribution to [GetSession]. *)
Definition handleLogout (t : TraefikOidc) (pooled : SessionData) (now : Z)
    (req : httpRequest) : M reply :=
  got <- GetSession (sessionManager t) pooled now req ;;
  match got with
  | Error e => ret (http_Error "Session error" http_StatusInternalServerError)
  | Value session =>
      accessToken <- GetAccessToken session ;;
      cleared <- Clear (sessionManager t) session req (Some ResponseWriter) ;;
      match snd cleared with
      | Some e => ret (http_Error "Session error" http_StatusInternalServerError)
      | None => ret (logout_redirect t req accessToken)
      end
  end.

End Logout.

(** ** Vocabulary of the properties *)

(** [ceil(n / c)]. *)
Definition ceil_div (n c : nat) : nat := (n + c - 1) / c.

(** What [store.Get(r, n)] answers in world [w]: the registered session
    and error, or the ones a first load creates. *)
Definition loaded (sm : SessionManager) (r : httpRequest) (w : World)
    (n : string) : Session * option string :=
  default (store_New sm r n) (registry w !! n).

(** The store has partition [n]: [Get] reports neither an error nor a new
    session.  This is the test on which the probing loops continue. *)
Definition present (sm : SessionManager) (r : httpRequest) (w : World)
    (n : string) : bool :=
  negb (is_error (snd (loaded sm r w n)) || IsNew (fst (loaded sm r w n))).

(** The names a probe can find present. *)
Definition known_names (r : httpRequest) (w : World) : gset string :=
  dom (registry w) ∪ dom (Cookies r).

(** The world after [store.Get(r, n)] and the assignments [f] to the
    session it returned. *)
Definition update_entry (sm : SessionManager) (r : httpRequest) (n : string)
    (f : Session -> Session) (w : World) : World :=
  with_registry
    (<[n := (f (fst (loaded sm r w n)), snd (loaded sm r w n))]> (registry w)) w.

(** [expireAccessTokenChunks] applied to one session. *)
Definition expire_session (s : Session) : Session :=
  with_Values ∅ (expire_options s).

(** The chunk map holds the partitions the store has for the slot: index
    [i] points to the registry's [<base>_i], and the partitions up to [i]
    are present.  [GetSession] returns the chunk maps in this shape. *)
Definition chunks_from_store (sm : SessionManager) (r : httpRequest)
    (w : World) (baseName : string) (chunks : gmap nat ptr) : Prop :=
  forall i p, chunks !! i = Some p ->
    p = Reg (sessionName baseName i) /\
    forall j, j <= i -> present sm r w (sessionName baseName j) = true.

(** What [GetSession] guarantees about the session data it returns: it
    is bound to the request, its three partitions are the registry's, and
    its chunk maps hold the chunk partitions the store has. *)
Definition loaded_session (sm : SessionManager) (r : httpRequest)
    (sd : SessionData) (w : World) : Prop :=
  request sd = Some r /\
  mainSession sd = Some (Reg mainCookieName) /\
  accessSession sd = Some (Reg accessTokenCookie) /\
  refreshSession sd = Some (Reg refreshTokenCookie) /\
  is_Some (registry w !! mainCookieName) /\
  is_Some (registry w !! accessTokenCookie) /\
  is_Some (registry w !! refreshTokenCookie) /\
  chunks_from_store sm r w accessTokenCookie (accessTokenChunks sd) /\
  chunks_from_store sm r w refreshTokenCookie (refreshTokenChunks sd) /\
  (forall i p, accessTokenChunks sd !! i = Some p -> is_Some (session_at w p)) /\
  (forall i p, refreshTokenChunks sd !! i = Some p -> is_Some (session_at w p)).

(** A pooled object that served an earlier request: its token partitions
    and chunk maps still point to the sessions of that request. *)
Definition recycled (pooled : SessionData) (w : World) : Prop :=
  (exists a, accessSession pooled = Some (Retired a) /\ is_Some (retired w !! a)) /\
  (exists b, refreshSession pooled = Some (Retired b) /\ is_Some (retired w !! b)) /\
  (forall i p, accessTokenChunks pooled !! i = Some p ->
     exists k, p = Retired k /\ is_Some (retired w !! k)) /\
  (forall i p, refreshTokenChunks pooled !! i = Some p ->
     exists k, p = Retired k /\ is_Some (retired w !! k)).

(** [w'] differs from [w] in the contents of retired sessions only. *)
Definition retired_only (w w' : World) : Prop :=
  registry w' = registry w /\ pool w' = pool w /\ response w' = response w /\
  forall k, is_Some (retired w !! k) -> is_Some (retired w' !! k).

Section Readback.
Context {codec : Codec}.

(** What [GetAccessToken] reads after [SetAccessToken(token)]: a function
    of the token alone. *)
Definition readback (token : string) : string :=
  if String.eqb (compressToken token) "" then ""
  else decompressToken (compressToken token).

(** The chunks [SetAccessToken(token)] writes: none when the encoded form
    fits one cookie. *)
Definition token_chunks (token : string) : list string :=
  if String.length (compressToken token) <=? maxCookieSize then []
  else splitIntoChunks (compressToken token) maxCookieSize.
End Readback.

(** ** The statements the code does not satisfy as worded *)

Section AsStated.
Context {codec : Codec} {cc : CookieCodec} {net : Net}.

(** "SetAuthenticated(true) always assigns a 64-character identifier and
    stamps created_at". *)
Definition always_rotates (sd : SessionData) (now : Z) (rnd : RandSource)
    (w : World) : Prop :=
  exists w' s,
    SetAuthenticated sd true now rnd w = Ok None w' /\
    (exists p, mainSession sd = Some p /\ session_at w' p = Some s) /\
    String.length (ID s) = 64 /\
    Values s !! "created_at" = Some (VInt64 (Time_Unix now)).


(** "A non-200 answer yields an error carrying the status code and a
    bounded portion of the body": some limit caps the part of the body
    that any error message repeats. *)
Definition error_body_bounded : Prop :=
  exists limit : nat,
    forall resp : httpResponse,
      StatusCode resp <> http_StatusOK ->
      exists portion,
        exchange_response resp =
          Error ("token endpoint returned status " +:+ pretty (StatusCode resp)
                   +:+ ": " +:+ portion) /\
        String.length portion <= limit.
End AsStated.

(** ** Sample instances

    A small framing codec and stand-ins for the libraries, on which the
    model runs. *)
Module Sample.

(** The two magic bytes that open a gzip stream. *)
Definition magic : string :=
  String (ascii_of_nat 31) (String (ascii_of_nat 139) "").

Definition gunzip (z : string) : option string :=
  if GoString.HasPrefix z magic then Some (GoString.drop 2 z) else None.

Definition codec : Codec := {|
  gzipWriter := string;
  gzipReader := string;
  gzip_Write := fun token => Some token;
  gzip_Close := fun gz => Some (magic +:+ gz);
  gzip_NewReader := gunzip;
  io_ReadAll := fun gz => Some gz;
  base64_EncodeToString := fun b => b;
  base64_DecodeString := fun s => Some s
|}.

Definition cookies : CookieCodec := {|
  securecookie_Encode := fun n vals => Value n
|}.

Definition urllib : UrlLib := {|
  URL := string;
  url_Parse := fun s => if String.eqb s "" then Error "empty url" else Value s;
  URL_Query := fun _ => ∅;
  URL_set_RawQuery := fun q u => u +:+ "?" +:+ q;
  URL_String := fun u => u;
  Values_Encode := fun q =>
    GoString.Join ((fun kv => fst kv +:+ "=" +:+ GoString.Join (snd kv) +:+ "&")
                     <$> map_to_list q)
|}.

(** A network whose token endpoint always answers [resp]. *)
Definition net (resp : httpResponse) : Net := {|
  http_Do := fun _ _ => Value resp;
  json_Decode := fun b =>
    if String.eqb (content b) "{}"
    then Value (mkTokenResponse "" "" "" 0 "")
    else Error "invalid character"
|}.

Definition sm : SessionManager :=
  mkSessionManager (mkOptions "/" 2592000 false false SameSiteDefaultMode) false.

Definition oidc : TraefikOidc :=
  mkTraefikOidc "client" "secret" "https://idp/token" false
    "https://idp/logout" "" sm.

Definition empty_world : World := mkWorld ∅ ∅ [] [].

(** A first visit: no cookies. *)
Definition fresh_request : httpRequest := mkRequest "https" ∅.

(** A request whose main cookie was created at Unix time 0. *)
Definition stale_request : httpRequest :=
  mkRequest "https"
    (<[mainCookieName :=
         Decodes (<["created_at" := VInt64 0]>
                    (<["authenticated" := VBool true]> ∅))]> ∅).

(** A request that carries an inline access token and a valid main cookie. *)
Definition returning_request : httpRequest :=
  mkRequest "https"
    (<[accessTokenCookie :=
         Decodes (<["token" := VString "opaque-access-token"]> ∅)]>
       (<[mainCookieName :=
            Decodes (<["created_at" := VInt64 1700000000]>
                       (<["authenticated" := VBool true]> ∅))]> ∅)).

(** 2023-11-14T22:13:20Z plus one hour, in nanoseconds. *)
Definition now : Z := (1700003600 * time_Second)%Z.

(** A token whose encoded form needs three cookies, and one that fits. *)
Definition big_token : string := GoString.Repeat "a" 4500.
Definition small_token : string := "small".

(** The session data of a first visit, as [GetSession] returns it. *)
Definition visit : outcome (errorOr SessionData) :=
  GetSession (cc := cookies) sm sessionPool_New now fresh_request empty_world.

(** Reading an outcome that is known to be [Ok]. *)
Definition session_of (o : outcome (errorOr SessionData)) : SessionData :=
  match o with
  | Ok (Value sd) _ => sd
  | _ => sessionPool_New
  end.

Definition world_of {A : Type} (o : outcome A) : World :=
  match o with
  | Ok _ w => w
  | _ => empty_world
  end.

Definition main_of (w : World) : Session :=
  default (mkSession "" "" ∅ (store_Options sm) true)
    (session_at w (Reg mainCookieName)).

(** A request of a session whose access token was stored in two chunks. *)
Definition old_token : string := GoString.Repeat "b" 2500.

Definition chunked_request : httpRequest :=
  let c := compressToken (codec := codec) old_token in
  mkRequest "https"
    (<[sessionName accessTokenCookie 1 :=
         Decodes (<["token_chunk" := VString (GoString.drop 2000 c)]> ∅)]>
    (<[sessionName accessTokenCookie 0 :=
         Decodes (<["token_chunk" := VString (GoString.take 2000 c)]> ∅)]>
    (<[accessTokenCookie :=
         Decodes (<["compressed" := VBool true]>
                    (<["token" := VString ""]> ∅))]>
    (<[mainCookieName :=
         Decodes (<["created_at" := VInt64 1700000000]>
                    (<["authenticated" := VBool true]> ∅))]> ∅)))).

Definition chunked_visit : outcome (errorOr SessionData) :=
  GetSession (cc := cookies) sm sessionPool_New now chunked_request empty_world.

Definition returning_visit : outcome (errorOr SessionData) :=
  GetSession (cc := cookies) sm sessionPool_New now returning_request empty_world.

Definition failing_rand : RandSource :=
  mkRand (Some "entropy source unavailable") (fun _ => "000"%char).

Definition counting_rand : RandSource :=
  mkRand None (fun i => ascii_of_nat (7 * i + 3)).

Definition host_of (t : TraefikOidc) (r : httpRequest) : string := "app.example".
Definition scheme_of (t : TraefikOidc) (r : httpRequest) : string := URL_Scheme r.

End Sample.

(** ** The refresh-token slot

    [GetRefreshToken], [SetRefreshToken] and [expireRefreshTokenChunks] are
    written out in the source beside their access-token twins; they read and
    write [refreshSession], [refreshTokenChunks] and the cookies
    [_oidc_raczylo_r_<i>]. *)

Section RefreshToken.
Context {codec : Codec} {cc : CookieCodec}.
Variable sm : SessionManager.

(** [GetRefreshToken]: the loop that collects the chunks from index [i]
    until the first index the map does not hold. *)
Fixpoint GetRefreshToken_loop (fuel : nat) (m : gmap nat ptr) (i : nat)
    (chunks : list string) : M (list string) :=
  match m !! i with
  | None => ret chunks
  | Some p =>
      session <- deref (Some p) ;;
      let chunk := as_string (Values session !! "token_chunk") in
      match fuel with
      | O => out_of_fuel
      | S fuel' => GetRefreshToken_loop fuel' m (S i) (chunks ++ [chunk])
      end
  end.

Definition GetRefreshToken (sd : SessionData) : M string :=
  refresh <- deref (refreshSession sd) ;;
  let token := as_string (Values refresh !! "token") in
  if negb (String.eqb token "") then
    if as_bool (Values refresh !! "compressed")
    then ret (decompressToken token)
    else ret token
  else if size (refreshTokenChunks sd) =? 0 then ret ""
  else
    chunks <- GetRefreshToken_loop (size (refreshTokenChunks sd))
                (refreshTokenChunks sd) 0 [] ;;
    let token := GoString.Join chunks in
    refresh <- deref (refreshSession sd) ;;
    if as_bool (Values refresh !! "compressed")
    then ret (decompressToken token)
    else ret token.

(** [expireRefreshTokenChunks]: the loop body at index [i]. *)
Fixpoint expireRefreshTokenChunks_loop (fuel : nat) (sd : SessionData)
    (w : option httpResponseWriter) (i : nat) : M unit :=
  pe <- store_Get sm (request sd) (sessionName refreshTokenCookie i) ;;
  session <- deref (Some (fst pe)) ;;
  if is_error (snd pe) || IsNew session then ret tt
  else
    match fuel with
    | O => out_of_fuel
    | S fuel' =>
        modify (Some (fst pe)) expire_options ;;
        modify (Some (fst pe)) (with_Values ∅) ;;
        match w with
        | Some _ => session_Save (Some (fst pe)) ;; ret tt
        | None => ret tt
        end ;;
        expireRefreshTokenChunks_loop fuel' sd w (S i)
    end.

Definition expireRefreshTokenChunks (sd : SessionData)
    (w : option httpResponseWriter) : M unit :=
  fuel <- probe_budget (request sd) ;;
  expireRefreshTokenChunks_loop fuel sd w 0.

(** [SetRefreshToken]: the loop [for i, chunk := range chunks]. *)
Fixpoint SetRefreshToken_chunks (sd : SessionData) (i : nat)
    (chunks : list string) : M SessionData :=
  match chunks with
  | [] => ret sd
  | chunk :: rest =>
      pe <- store_Get sm (request sd) (sessionName refreshTokenCookie i) ;;
      modify (Some (fst pe)) (set_value "token_chunk" (VString chunk)) ;;
      SetRefreshToken_chunks
        (with_refreshTokenChunks (<[i := fst pe]> (refreshTokenChunks sd)) sd)
        (S i) rest
  end.

(** [SetRefreshToken], after the old chunks were expired. *)
Definition SetRefreshToken_store (sd : SessionData) (token : string)
    : M SessionData :=
  let sd := with_refreshTokenChunks ∅ sd in
  let compressed := compressToken token in
  if String.length compressed <=? maxCookieSize then
    modify (refreshSession sd) (set_value "token" (VString compressed)) ;;
    modify (refreshSession sd) (set_value "compressed" (VBool true)) ;;
    ret sd
  else
    modify (refreshSession sd) (set_value "token" (VString "")) ;;
    modify (refreshSession sd) (set_value "compressed" (VBool true)) ;;
    SetRefreshToken_chunks sd 0 (splitIntoChunks compressed maxCookieSize).

Definition SetRefreshToken (sd : SessionData) (token : string) : M SessionData :=
  match request sd with
  | Some _ => expireRefreshTokenChunks sd None
  | None => ret tt
  end ;;
  SetRefreshToken_store sd token.

End RefreshToken.

(** ** The string fields of the main session *)

Definition GetCSRF (sd : SessionData) : M string :=
  main <- deref (mainSession sd) ;;
  ret (as_string (Values main !! "csrf")).

Definition SetCSRF (sd : SessionData) (token : string) : M unit :=
  modify (mainSession sd) (set_value "csrf" (VString token)).

Definition GetNonce (sd : SessionData) : M string :=
  main <- deref (mainSession sd) ;;
  ret (as_string (Values main !! "nonce")).

Definition SetNonce (sd : SessionData) (nonce : string) : M unit :=
  modify (mainSession sd) (set_value "nonce" (VString nonce)).

Definition GetCodeVerifier (sd : SessionData) : M string :=
  main <- deref (mainSession sd) ;;
  ret (as_string (Values main !! "code_verifier")).

Definition SetCodeVerifier (sd : SessionData) (codeVerifier : string) : M unit :=
  modify (mainSession sd) (set_value "code_verifier" (VString codeVerifier)).

Definition GetEmail (sd : SessionData) : M string :=
  main <- deref (mainSession sd) ;;
  ret (as_string (Values main !! "email")).

Definition SetEmail (sd : SessionData) (email : string) : M unit :=
  modify (mainSession sd) (set_value "email" (VString email)).

Definition GetIncomingPath (sd : SessionData) : M string :=
  main <- deref (mainSession sd) ;;
  ret (as_string (Values main !! "incoming_path")).

Definition SetIncomingPath (sd : SessionData) (path : string) : M unit :=
  modify (mainSession sd) (set_value "incoming_path" (VString path)).

(** The five accessor pairs, to state what they have in common. *)
Record accessor : Type := mkAccessor {
  setter : SessionData -> string -> M unit;
  getter : SessionData -> M string
}.

Definition string_fields : list accessor :=
  [ mkAccessor SetCSRF GetCSRF;
    mkAccessor SetNonce GetNonce;
    mkAccessor SetCodeVerifier GetCodeVerifier;
    mkAccessor SetEmail GetEmail;
    mkAccessor SetIncomingPath GetIncomingPath ].

(** ** encoding/base64, URL-safe alphabet

    [base64.URLEncoding] and [base64.RawURLEncoding] of RFC 4648, section 5:
    three bytes become four characters of the alphabet; a remainder of one or
    two bytes becomes two or three characters, padded with [=] to four by
    [URLEncoding] and left as they are by [RawURLEncoding]. *)

Definition encodeURL : string :=
  "ABCDEFGHIJKLMNOPQRSTUVWXYZabcdefghijklmnopqrstuvwxyz0123456789-_".

Definition base64_digit (n : nat) : ascii :=
  default "A"%char (String.get n encodeURL).

Fixpoint base64url_Encode (padding : bool) (src : string) : string :=
  match src with
  | "" => ""
  | String a "" =>
      let a := nat_of_ascii a in
      String (base64_digit (a / 4))
        (String (base64_digit (a mod 4 * 16))
           (if padding then "==" else ""))
  | String a (String b "") =>
      let a := nat_of_ascii a in
      let b := nat_of_ascii b in
      String (base64_digit (a / 4))
        (String (base64_digit (a mod 4 * 16 + b / 16))
           (String (base64_digit (b mod 16 * 4))
              (if padding then "=" else "")))
  | String a (String b (String c rest)) =>
      let a := nat_of_ascii a in
      let b := nat_of_ascii b in
      let c := nat_of_ascii c in
      String (base64_digit (a / 4))
        (String (base64_digit (a mod 4 * 16 + b / 16))
           (String (base64_digit (b mod 16 * 4 + c / 64))
              (String (base64_digit (c mod 64))
                 (base64url_Encode padding rest))))
  end.

(** [base64.URLEncoding.EncodeToString]. *)
Definition URLEncoding_EncodeToString : string -> string :=
  base64url_Encode true.

(** [base64.RawURLEncoding.EncodeToString]. *)
Definition RawURLEncoding_EncodeToString : string -> string :=
  base64url_Encode false.

(** A character of the URL-safe alphabet. *)
Definition is_url_safe (c : ascii) : bool :=
  bool_decide (c ∈ list_ascii_of_string encodeURL).

(** ** Nonce, PKCE verifier and challenge *)

Definition generateNonce (rnd : RandSource) : errorOr string :=
  match rand_Read rnd 32 with
  | Error e => Error (wrap "could not generate nonce" e)
  | Value nonceBytes => Value (URLEncoding_EncodeToString nonceBytes)
  end.

Definition generateCodeVerifier (rnd : RandSource) : errorOr string :=
  match rand_Read rnd 32 with
  | Error e => Error (wrap "could not generate code verifier" e)
  | Value verifierBytes => Value (RawURLEncoding_EncodeToString verifierBytes)
  end.

(** crypto/sha256: the digest of a byte string. *)
Class Sha256 : Type := {
  sha256_Sum : string -> string
}.

(** A SHA-256 digest has [sha256.Size = 32] bytes. *)
Class Sha256Laws (H : Sha256) : Prop := {
  sha256_Size : forall data, String.length (sha256_Sum data) = 32
}.

Definition deriveCodeChallenge {H : Sha256} (codeVerifier : string) : string :=
  let hash := sha256_Sum codeVerifier in
  RawURLEncoding_EncodeToString hash.

(** ** [extractClaims] *)

(** [strings.Split(s, sep)] for a separator of one byte: the pieces between
    the separators, one more than there are separators. *)
Fixpoint strings_Split (s : string) (sep : ascii) : list string :=
  match s with
  | "" => [""]
  | String c rest =>
      if Ascii.eqb c sep then "" :: strings_Split rest sep
      else
        match strings_Split rest sep with
        | piece :: more => String c piece :: more
        | [] => [String c ""]
        end
  end.

(** [base64.RawURLEncoding.DecodeString] and [json.Unmarshal] into a
    [map[string]interface{}], whose type is [claims]. *)
Class ClaimsCodec : Type := {
  claims : Type;
  RawURLEncoding_DecodeString : string -> errorOr string;
  json_Unmarshal : string -> errorOr claims
}.

Definition extractClaims {C : ClaimsCodec} (tokenString : string)
    : errorOr claims :=
  let parts := strings_Split tokenString "."%char in
  if negb (length parts =? 3) then Error "invalid token format"
  else
    match RawURLEncoding_DecodeString (nth 1 parts "") with
    | Error e => Error (wrap "failed to decode token payload" e)
    | Value payload =>
        match json_Unmarshal payload with
        | Error e => Error (wrap "failed to unmarshal claims" e)
        | Value c => Value c
        end
    end.

(** ** [createStringMap] *)

(** [map[string]struct{}] is a map to the one-element type. *)
Definition createStringMap (keys : list string) : gmap string unit :=
  foldl (fun result key => <[key := tt]> result) ∅ keys.

(** ** Further vocabulary *)

(** The number of separators [c] in [s]. *)
Fixpoint count_char (c : ascii) (s : string) : nat :=
  match s with
  | "" => 0
  | String d rest => (if Ascii.eqb d c then 1 else 0) + count_char c rest
  end.

(** [w'] comes from [w] by the assignments of [Clear] to registry sessions
    with names in [T]: the sessions of the names in [E] have been marked for
    deletion and those of the names in [V] emptied; a session keeps its
    identity, and what was emptied or marked before stays so. *)
Definition cleared_within (T E V : string -> Prop) (w w' : World) : Prop :=
  retired w' = retired w /\ pool w' = pool w /\ response w' = response w /\
  forall n,
    match registry w !! n with
    | None => registry w' !! n = None
    | Some (s, e) =>
        exists s', registry w' !! n = Some (s', e) /\
          (~ T n -> s' = s) /\
          name s' = name s /\ ID s' = ID s /\ IsNew s' = IsNew s /\
          (Values s = ∅ \/ V n -> Values s' = ∅) /\
          (MaxAge (Opts s) = (-1)%Z \/ E n -> MaxAge (Opts s') = (-1)%Z)
    end.

(** The sessions a session data points to. *)
Definition points_to (sd : SessionData) (p : ptr) : Prop :=
  mainSession sd = Some p \/ accessSession sd = Some p \/
  refreshSession sd = Some p \/
  (exists i, accessTokenChunks sd !! i = Some p) \/
  (exists i, refreshTokenChunks sd !! i = Some p).

(** [w'] comes from [w] by the assignments [session.Options = options] of
    [Save]: every session is as it was or has got the new options. *)
Definition options_assigned (options : Options) (w w' : World) : Prop :=
  pool w' = pool w /\
  forall q,
    match session_at w q with
    | None => session_at w' q = None
    | Some s =>
        session_at w' q = Some s \/ session_at w' q = Some (with_Opts options s)
    end.

(** A header [Save] wrote for a partition of [sd]: it carries [options],
    the partition's name and the encoding of the values the partition had in
    world [w]. *)
Definition saved_header {cc : CookieCodec} (options : Options) (w : World)
    (sd : SessionData) (h : SetCookie) : Prop :=
  cookie_options h = options /\
  exists q s, points_to sd q /\ session_at w q = Some s /\
    cookie_name h = name s /\
    securecookie_Encode (name s) (Values s) = Value (cookie_value h).

(** [Save] under way from world [w0]: the headers [acc] have been added. *)
Definition saving {cc : CookieCodec} (options : Options) (sd : SessionData)
    (w0 w : World) (acc : list SetCookie) : Prop :=
  options_assigned options w0 w /\
  response w = response w0 ++ acc /\
  Forall (saved_header options w0 sd) acc.

(** The registry names of a session data's partitions. *)
Definition partition_names (sd : SessionData) (n : string) : Prop :=
  n = mainCookieName \/ n = accessTokenCookie \/ n = refreshTokenCookie \/
  (exists i, is_Some (accessTokenChunks sd !! i) /\
             n = sessionName accessTokenCookie i) \/
  (exists i, is_Some (refreshTokenChunks sd !! i) /\
             n = sessionName refreshTokenCookie i).

(** The names of one token slot: the partition and its chunk cookies. *)
Definition slot_names (baseName : string) (n : string) : Prop :=
  n = baseName \/ exists i, n = sessionName baseName i.

(** ** The client between two requests *)

(** securecookie's decoder, which the cookie store applies to the cookie of
    a request when it loads a session. *)
Class CookieDecoder : Type := {
  securecookie_Decode : string -> string -> errorOr (gmap string value)
}.

(** With the keys unchanged and within the cookie's lifetime, a value that
    was encoded decodes to the values that were encoded. *)
Class CookieLaws (cc : CookieCodec) (cd : CookieDecoder) : Prop := {
  securecookie_Decode_Encode : forall n vals encoded,
    securecookie_Encode n vals = Value encoded ->
    securecookie_Decode n encoded = Value vals
}.

Section Client.
Context {cd : CookieDecoder}.

(** The cookie of a [Set-Cookie] header, as the store sees it when the
    client sends it back. *)
Definition cookie_of (h : SetCookie) : cookie :=
  match securecookie_Decode (cookie_name h) (cookie_value h) with
  | Value vals => Decodes vals
  | Error e => Garbled e
  end.

(** A client takes a header into its cookie jar: a negative [MaxAge]
    deletes the cookie of that name, any other [MaxAge] stores the new
    value under the name.  (All cookies of this code have [Path=/] and no
    domain, so the name identifies the cookie.) *)
Definition jar_set (jar : gmap string cookie) (h : SetCookie)
    : gmap string cookie :=
  if (MaxAge (cookie_options h) <? 0)%Z then delete (cookie_name h) jar
  else <[cookie_name h := cookie_of h]> jar.

(** The next request of the client that sent [r] and was answered with
    [headers]. *)
Definition next_request (r : httpRequest) (headers : list SetCookie)
    : httpRequest :=
  mkRequest (URL_Scheme r) (foldl jar_set (Cookies r) headers).
End Client.

(** The chunk a request carries in the cookie [_oidc_raczylo_a_<i>]. *)
Definition cookie_chunk (r : httpRequest) (i : nat) : string :=
  match Cookies r !! sessionName accessTokenCookie i with
  | Some (Decodes vals) => as_string (vals !! "token_chunk")
  | _ => ""
  end.

(** [h] is the header [session.Save] writes for the session that [q]
    points to in [w], once the session has been given [options]. *)
Definition header_for {cc : CookieCodec} (options : Options) (w : World)
    (q : ptr) (h : SetCookie) : Prop :=
  cookie_options h = options /\
  exists s, session_at w q = Some s /\
    cookie_name h = name s /\
    securecookie_Encode (name s) (Values s) = Value (cookie_value h).

(** Every session of the registry goes by the name it is registered
    under. *)
Definition names_kept (w : World) : Prop :=
  forall n s e, registry w !! n = Some (s, e) -> name s = n.

(** A binary numeral as text, and back. *)
Fixpoint pos_bits (p : positive) : string :=
  match p with
  | xH => ""
  | xO q => String "0" (pos_bits q)
  | xI q => String "1" (pos_bits q)
  end.

Fixpoint bits_pos (s : string) : positive :=
  match s with
  | "" => xH
  | String c rest =>
      if Ascii.eqb c "1" then xI (bits_pos rest) else xO (bits_pos rest)
  end.

(** Session values can be enumerated. *)
#[global] Instance value_eq_dec : EqDecision value.
Proof. solve_decision. Defined.

#[global] Instance value_countable : Countable value :=
  inj_countable'
    (fun v => match v with
              | VBool b => inl b
              | VInt64 n => inr (inl n)
              | VString s => inr (inr s)
              end)
    (fun x => match x with
              | inl b => VBool b
              | inr (inl n) => VInt64 n
              | inr (inr s) => VString s
              end)
    (fun v => match v with
              | VBool _ => eq_refl
              | VInt64 _ => eq_refl
              | VString _ => eq_refl
              end).

(** Stand-ins for the further libraries. *)
Module Demo.

(** A cookie codec that loses nothing: the values, enumerated, as a binary
    numeral. *)
Definition jar_cookies : CookieCodec := {|
  securecookie_Encode := fun n vals => Value (pos_bits (encode vals))
|}.

Definition jar_decoder : CookieDecoder := {|
  securecookie_Decode := fun n text =>
    match decode (bits_pos text) with
    | Some vals => Value vals
    | None => Error "securecookie: the value is not valid"
    end
|}.

(** A request of a session whose access token, [Sample.big_token], was
    stored in three chunks, and the shorter token that replaces it. *)
Definition three_chunk_request : httpRequest :=
  let c := compressToken (codec := Sample.codec) Sample.big_token in
  mkRequest "https"
    (<[sessionName accessTokenCookie 2 :=
         Decodes (<["token_chunk" := VString (GoString.drop 4000 c)]> ∅)]>
    (<[sessionName accessTokenCookie 1 :=
         Decodes (<["token_chunk" :=
                      VString (GoString.take 2000 (GoString.drop 2000 c))]> ∅)]>
    (<[sessionName accessTokenCookie 0 :=
         Decodes (<["token_chunk" := VString (GoString.take 2000 c)]> ∅)]>
    (<[accessTokenCookie :=
         Decodes (<["compressed" := VBool true]>
                    (<["token" := VString ""]> ∅))]>
    (<[mainCookieName :=
         Decodes (<["created_at" := VInt64 1700000000]>
                    (<["authenticated" := VBool true]> ∅))]> ∅))))).

Definition second_token : string := GoString.Repeat "b" 2500.

Definition three_chunk_visit : outcome (errorOr SessionData) :=
  GetSession (cc := jar_cookies) Sample.sm sessionPool_New Sample.now
    three_chunk_request Sample.empty_world.

(** A digest of the right size (not a hash function). *)
Definition sha256 : Sha256 := {|
  sha256_Sum := fun data => fill (fun i => ascii_of_nat (String.length data + i)) 0 32
|}.

(** Claims are kept as the payload text; every payload decodes. *)
Definition claims_codec : ClaimsCodec := {|
  claims := string;
  RawURLEncoding_DecodeString := fun s => Value s;
  json_Unmarshal := fun payload =>
    if String.eqb payload "" then Error "unexpected end of JSON input"
    else Value payload
|}.

(** A returning, authenticated visitor whose tokens are stored inline. *)
Definition session_request : httpRequest :=
  mkRequest "http"
    (<[refreshTokenCookie :=
         Decodes (<["token" := VString "opaque-refresh-token"]> ∅)]>
    (<[accessTokenCookie :=
         Decodes (<["token" := VString "opaque-access-token"]> ∅)]>
    (<[mainCookieName :=
         Decodes (<["email" := VString "user@example.org"]>
                 (<["created_at" := VInt64 1700000000]>
                 (<["authenticated" := VBool true]> ∅)))]> ∅))).

(** A request whose access-token cookie does not decode. *)
Definition garbled_request : httpRequest :=
  mkRequest "https"
    (<[accessTokenCookie := Garbled "securecookie: the value is not valid"]> ∅).

(** A session of an earlier request, and a pooled object that still
    points to two of them. *)
Definition old_session : Session :=
  mkSession accessTokenCookie "" (<["token" := VString "stale"]> ∅)
    (store_Options Sample.sm) false.

Definition used_world : World :=
  mkWorld ∅ (<[1 := old_session]> (<[0 := old_session]> ∅)) [] [].

Definition used_object : SessionData :=
  mkSessionData None None (Some (Retired 0)) (Some (Retired 1)) ∅ ∅.




End Demo.

(** * Properties *)

(** ** Go strings *)

Module GoStringFacts.
Import GoString.

Lemma app_nil (s : string) : "" +:+ s = s.
Proof. reflexivity. Qed.

Lemma app_cons (c : ascii) (s1 s2 : string) :
  String c s1 +:+ s2 = String c (s1 +:+ s2).
Proof. reflexivity. Qed.

Lemma length_app (s1 s2 : string) :
  String.length (s1 +:+ s2) = String.length s1 + String.length s2.
Proof.
  induction s1 as [|c s1 IH]; [reflexivity |].
  rewrite app_cons; simpl; now rewrite IH.
Qed.

Lemma app_empty_r (s : string) : s +:+ "" = s.
Proof.
  induction s as [|c s IH]; [reflexivity |].
  now rewrite app_cons, IH.
Qed.

Lemma app_assoc (s1 s2 s3 : string) : (s1 +:+ s2) +:+ s3 = s1 +:+ (s2 +:+ s3).
Proof.
  induction s1 as [|c s1 IH]; [reflexivity |].
  now rewrite !app_cons, IH.
Qed.

Lemma take_drop (n : nat) (s : string) : take n s +:+ drop n s = s.
Proof.
  revert s; induction n as [|n IH]; intros [|c s]; simpl; try reflexivity.
  now rewrite app_cons, IH.
Qed.

Lemma length_take (n : nat) (s : string) :
  String.length (take n s) = Nat.min n (String.length s).
Proof.
  revert s; induction n as [|n IH]; intros [|c s]; simpl; try reflexivity.
  f_equal; apply IH.
Qed.

Lemma length_drop (n : nat) (s : string) :
  String.length (drop n s) = String.length s - n.
Proof.
  revert s; induction n as [|n IH]; intros [|c s]; simpl; try reflexivity.
  apply IH.
Qed.

Lemma length_zero (s : string) : String.length s = 0 -> s = "".
Proof. destruct s; [reflexivity | discriminate]. Qed.

Lemma Join_app (l1 l2 : list string) : Join (l1 ++ l2) = Join l1 +:+ Join l2.
Proof.
  induction l1 as [|e l1 IH]; simpl; [reflexivity |].
  now rewrite IH, app_assoc.
Qed.

Lemma length_Repeat (s : string) (n : nat) :
  String.length (Repeat s n) = n * String.length s.
Proof. induction n as [|n IH]; simpl; [reflexivity |]. rewrite length_app; lia. Qed.

Lemma drop_drop (a b : nat) (s : string) :
  drop a (drop b s) = drop (b + a) s.
Proof.
  revert s; induction b as [|b IH]; intros s; simpl; [reflexivity |].
  destruct s as [|c s]; [destruct a; reflexivity | apply IH].
Qed.

Lemma app_nonempty_neq (s t : string) : t <> "" -> s <> s +:+ t.
Proof.
  intros Ht Heq. apply Ht.
  apply (f_equal String.length) in Heq. rewrite length_app in Heq.
  apply length_zero. lia.
Qed.

End GoStringFacts.

(** ** [splitIntoChunks] *)

Lemma ceil_div_zero (c : nat) : 0 < c -> ceil_div 0 c = 0.
Proof. intros Hc. unfold ceil_div. apply Nat.div_small. lia. Qed.

Lemma ceil_div_small (n c : nat) : 0 < n -> n <= c -> ceil_div n c = 1.
Proof.
  intros Hn Hc. unfold ceil_div.
  symmetry. apply (Nat.div_unique _ _ _ (n - 1)); lia.
Qed.

Lemma ceil_div_step (n c : nat) :
  0 < c -> c < n -> ceil_div n c = S (ceil_div (n - c) c).
Proof.
  intros Hc Hn. unfold ceil_div.
  replace (n + c - 1) with ((n - c + c - 1) + 1 * c) by lia.
  rewrite Nat.div_add by lia. lia.
Qed.

(** The loop, run on enough fuel, appends to the accumulator the pieces of
    [s]: piece [i] is [s[i*cs : min((i+1)*cs, len(s))]]. *)
Lemma splitIntoChunks_loop_spec (cs : nat) :
  0 < cs ->
  forall fuel s acc, String.length s <= fuel ->
    exists l,
      splitIntoChunks_loop fuel s cs acc = Some (acc ++ l) /\
      GoString.Join l = s /\
      length l = ceil_div (String.length s) cs /\
      (forall i, i < length l ->
         l !! i = Some (GoString.take cs (GoString.drop (i * cs) s))).
Proof.
  intros Hcs. induction fuel as [|fuel IH]; intros s acc Hfuel.
  - apply Nat.le_0_r, GoStringFacts.length_zero in Hfuel; subst s.
    exists []. simpl. rewrite app_nil_r.
    split; [reflexivity | split; [reflexivity | split]].
    + symmetry. now apply ceil_div_zero.
    + intros i Hi; simpl in Hi; lia.
  - cbn [splitIntoChunks_loop].
    destruct (0 <? String.length s) eqn:H0.
    + apply Nat.ltb_lt in H0.
      destruct (cs <? String.length s) eqn:H1.
      * apply Nat.ltb_lt in H1.
        destruct (IH (GoString.drop cs s) (acc ++ [GoString.take cs s]))
          as (l & Hl & HJ & Hlen & Hnth).
        { rewrite GoStringFacts.length_drop. lia. }
        exists (GoString.take cs s :: l). split; [|split; [|split]].
        -- rewrite Hl, <- app_assoc. reflexivity.
        -- simpl. rewrite HJ. apply GoStringFacts.take_drop.
        -- simpl. rewrite Hlen, GoStringFacts.length_drop.
           symmetry. apply ceil_div_step; lia.
        -- intros [|i] Hi; simpl in *; [reflexivity |].
           rewrite Hnth by lia. now rewrite GoStringFacts.drop_drop.
      * apply Nat.ltb_ge in H1.
        exists [s]. simpl. split; [reflexivity | split; [|split]].
        -- apply GoStringFacts.app_empty_r.
        -- symmetry. apply ceil_div_small; lia.
        -- intros [|i] Hi; simpl in *; [|lia].
           f_equal. rewrite <- (GoStringFacts.take_drop cs s) at 1.
           assert (Hd : GoString.drop cs s = "").
           { apply GoStringFacts.length_zero.
             rewrite GoStringFacts.length_drop. lia. }
           rewrite Hd. apply GoStringFacts.app_empty_r.
    + apply Nat.ltb_ge in H0. assert (String.length s = 0) as Hz by lia.
      apply GoStringFacts.length_zero in Hz; subst s.
      exists []. simpl. rewrite app_nil_r.
      split; [reflexivity | split; [reflexivity | split]].
      * symmetry. now apply ceil_div_zero.
      * intros i Hi; simpl in Hi; lia.
Qed.

(** [splitIntoChunks] with a positive chunk size returns: the budget
    [len(s)] is never exhausted. *)
Lemma splitIntoChunks_total (s : string) (cs : nat) :
  0 < cs ->
  splitIntoChunks_fuel (String.length s) s cs = Some (splitIntoChunks s cs).
Proof.
  intros Hcs. unfold splitIntoChunks, splitIntoChunks_fuel.
  destruct (splitIntoChunks_loop_spec cs Hcs (String.length s) s [])
    as (l & Hl & _); [lia |].
  now rewrite Hl.
Qed.

(** With chunk size 0 the loop of the source never ends: no budget is
    enough. *)
Lemma splitIntoChunks_zero_diverges (fuel : nat) (s : string) :
  s <> "" -> splitIntoChunks_fuel fuel s 0 = None.
Proof.
  unfold splitIntoChunks_fuel. generalize (@nil string) as acc.
  induction fuel as [|fuel IH]; intros acc Hs;
    destruct s as [|c s]; try congruence; simpl; [reflexivity |].
  now apply IH.
Qed.

Lemma splitIntoChunks_spec (s : string) (cs : nat) :
  0 < cs ->
  GoString.Join (splitIntoChunks s cs) = s /\
  length (splitIntoChunks s cs) = ceil_div (String.length s) cs /\
  (forall i, i < length (splitIntoChunks s cs) ->
     splitIntoChunks s cs !! i =
       Some (GoString.take cs (GoString.drop (i * cs) s))).
Proof.
  intros Hcs. unfold splitIntoChunks, splitIntoChunks_fuel.
  destruct (splitIntoChunks_loop_spec cs Hcs (String.length s) s [])
    as (l & Hl & HJ & Hlen & Hnth); [lia |].
  rewrite Hl. simpl. auto.
Qed.

Lemma splitIntoChunks_bound (s : string) (cs : nat) (i : nat) (c : string) :
  0 < cs -> splitIntoChunks s cs !! i = Some c -> String.length c <= cs.
Proof.
  intros Hcs Hc. destruct (splitIntoChunks_spec s cs Hcs) as (_ & _ & Hnth).
  rewrite Hnth in Hc by (eapply lookup_lt_Some; eauto).
  injection Hc as <-. rewrite GoStringFacts.length_take. lia.
Qed.

(** ** Computations *)

Lemma bind_Ok {A B : Type} (c : M A) (k : A -> M B) (w w' : World) (a : A) :
  c w = Ok a w' -> bind c k w = k a w'.
Proof. intros H. unfold bind. now rewrite H. Qed.

Lemma bind_inv {A B : Type} (c : M A) (k : A -> M B) (w w'' : World) (b : B) :
  bind c k w = Ok b w'' -> exists a w', c w = Ok a w' /\ k a w' = Ok b w''.
Proof.
  unfold bind. destruct (c w) as [a w'| |]; try discriminate. eauto.
Qed.

(** ** Pointers and the registry *)

Lemma with_registry_same (w : World) : with_registry (registry w) w = w.
Proof. now destruct w. Qed.

Lemma session_at_write_same (p : ptr) (s : Session) (w : World) :
  session_at (write_at p s w) p = Some s.
Proof. destruct p; simpl; now rewrite lookup_insert_eq. Qed.

Lemma session_at_write_other (p q : ptr) (s : Session) (w : World) :
  p <> q -> session_at (write_at p s w) q = session_at w q.
Proof.
  intros Hne. destruct p, q; simpl; try reflexivity;
    rewrite lookup_insert_ne; congruence.
Qed.

Lemma deref_Some (p : ptr) (s : Session) (w : World) :
  session_at w p = Some s -> deref (Some p) w = Ok s w.
Proof. intros H. unfold deref. now rewrite H. Qed.

Lemma modify_Some (p : ptr) (f : Session -> Session) (s : Session) (w : World) :
  session_at w p = Some s -> modify (Some p) f w = Ok tt (write_at p (f s) w).
Proof.
  intros H. unfold modify. now rewrite (bind_Ok _ _ _ _ _ (deref_Some _ _ _ H)).
Qed.

Lemma modify_nil (f : Session -> Session) (w : World) : modify None f w = Panic.
Proof. reflexivity. Qed.

(** ** Partition names *)

Lemma sessionName_inj (baseName : string) (i j : nat) :
  sessionName baseName i = sessionName baseName j -> i = j.
Proof.
  unfold sessionName. intros H.
  apply (inj (String.append baseName)) in H.
  apply (inj (String.append "_")) in H.
  now apply (inj pretty) in H.
Qed.

#[local] Instance sessionName_Inj (baseName : string) :
  Inj (=) (=) (sessionName baseName).
Proof. intros i j. apply sessionName_inj. Qed.

Lemma sessionName_not_base (baseName : string) (i : nat) :
  baseName <> sessionName baseName i.
Proof. unfold sessionName. now apply GoStringFacts.app_nonempty_neq. Qed.

(** As many names [<base>_0 .. <base>_(k-1)] as a set holds, so large it
    is. *)
Lemma names_size (K : gset string) (baseName : string) (k : nat) :
  (forall j, j < k -> sessionName baseName j ∈ K) -> k <= size K.
Proof.
  intros Hin.
  assert (Hsub : (sessionName baseName <$> seq 0 k) ⊆+ elements K).
  { apply NoDup_submseteq.
    - apply NoDup_fmap_2; [apply _ | apply NoDup_seq].
    - intros x Hx. apply list_elem_of_fmap in Hx as (j & -> & Hj).
      apply elem_of_seq in Hj. apply elem_of_elements, Hin. lia. }
  apply submseteq_length in Hsub.
  rewrite length_fmap, length_seq in Hsub. exact Hsub.
Qed.

(** The same for an index map: a map that holds [0 .. k-1] has at least
    [k] entries. *)
Lemma prefix_size {A : Type} (m : gmap nat A) (k : nat) :
  (forall j, j < k -> is_Some (m !! j)) -> k <= size m.
Proof.
  intros Hin. rewrite <- (size_dom (D := gset nat)).
  rewrite <- (size_set_seq (C := gset nat) 0 k).
  apply subseteq_size. intros j Hj. apply elem_of_set_seq in Hj.
  apply elem_of_dom, Hin. lia.
Qed.

(** ** [store.Get] and assignments through the session it returns *)

Section Store.
Variable sm : SessionManager.
Variable r : httpRequest.

Lemma loaded_registered (w : World) (n : string) (se : Session * option string) :
  registry w !! n = Some se -> loaded sm r w n = se.
Proof. intros H. unfold loaded. now rewrite H. Qed.

Lemma registry_update_same (n : string) (f : Session -> Session) (w : World) :
  registry (update_entry sm r n f w) !! n
  = Some (f (fst (loaded sm r w n)), snd (loaded sm r w n)).
Proof. unfold update_entry. simpl. apply lookup_insert_eq. Qed.

Lemma registry_update_other (n n' : string) (f : Session -> Session) (w : World) :
  n <> n' -> registry (update_entry sm r n f w) !! n' = registry w !! n'.
Proof. intros Hne. unfold update_entry. simpl. now apply lookup_insert_ne. Qed.

Lemma loaded_update_same (n : string) (f : Session -> Session) (w : World) :
  loaded sm r (update_entry sm r n f w) n
  = (f (fst (loaded sm r w n)), snd (loaded sm r w n)).
Proof. apply loaded_registered, registry_update_same. Qed.

Lemma loaded_update_other (n n' : string) (f : Session -> Session) (w : World) :
  n <> n' -> loaded sm r (update_entry sm r n f w) n' = loaded sm r w n'.
Proof. intros Hne. unfold loaded. now rewrite registry_update_other. Qed.

Lemma update_update (n : string) (f g : Session -> Session) (w : World) :
  update_entry sm r n f (update_entry sm r n g w)
  = update_entry sm r n (fun s => f (g s)) w.
Proof.
  unfold update_entry at 1. rewrite loaded_update_same. simpl.
  unfold update_entry. unfold with_registry. simpl.
  now rewrite insert_insert_eq.
Qed.

Lemma update_frame (n : string) (f : Session -> Session) (w : World) :
  retired (update_entry sm r n f w) = retired w /\
  pool (update_entry sm r n f w) = pool w /\
  response (update_entry sm r n f w) = response w.
Proof. now unfold update_entry. Qed.

Lemma loaded_known (w : World) (n : string) :
  present sm r w n = true -> n ∈ known_names r w.
Proof.
  unfold present, loaded, known_names, store_New. intros H.
  apply elem_of_union.
  destruct (registry w !! n) as [se|] eqn:Hreg.
  - left. apply elem_of_dom. eauto.
  - right. apply elem_of_dom. simpl in H.
    destruct (Cookies r !! n) as [[vals|e]|]; [eauto | discriminate..].
Qed.

Lemma known_names_size (w : World) :
  size (known_names r w) <= size (registry w) + size (Cookies r).
Proof.
  unfold known_names. rewrite size_union_alt, !size_dom.
  apply Nat.add_le_mono_l.
  rewrite <- (size_dom (D := gset string) (Cookies r)).
  apply subseteq_size. intros x [Hx _]%elem_of_difference. exact Hx.
Qed.

Lemma present_update_other (n n' : string) (f : Session -> Session) (w : World) :
  n <> n' ->
  present sm r (update_entry sm r n f w) n' = present sm r w n'.
Proof. intros Hne. unfold present. now rewrite loaded_update_other. Qed.

Lemma present_update_same (n : string) (f : Session -> Session) (w : World) :
  (forall s, IsNew (f s) = IsNew s) ->
  present sm r (update_entry sm r n f w) n = present sm r w n.
Proof. intros Hf. unfold present. rewrite loaded_update_same. simpl. now rewrite Hf. Qed.

(** [store.Get] registers the session and changes nothing else. *)
Lemma store_Get_Some (n : string) (w : World) :
  store_Get sm (Some r) n w
  = Ok (Reg n, snd (loaded sm r w n)) (update_entry sm r n (fun s => s) w).
Proof.
  unfold store_Get, update_entry, loaded.
  destruct (registry w !! n) as [[s e]|] eqn:Hreg; simpl.
  - rewrite insert_id by exact Hreg. now rewrite with_registry_same.
  - now destruct (store_New sm r n).
Qed.

Lemma session_at_update (n : string) (f : Session -> Session) (w : World) :
  session_at (update_entry sm r n f w) (Reg n) = Some (f (fst (loaded sm r w n))).
Proof. simpl. now rewrite lookup_insert_eq. Qed.

(** An assignment through the pointer [store.Get] returned. *)
Lemma modify_update (n : string) (f g : Session -> Session) (w : World) :
  modify (Some (Reg n)) g (update_entry sm r n f w)
  = Ok tt (update_entry sm r n (fun s => g (f s)) w).
Proof.
  rewrite (modify_Some _ _ _ _ (session_at_update n f w)).
  f_equal. unfold update_entry, write_at, load_error, with_registry. simpl.
  now rewrite lookup_insert_eq, insert_insert_eq.
Qed.

(** An assignment through a pointer to a registered session. *)
Lemma modify_registered (n : string) (g : Session -> Session) (w : World) :
  is_Some (registry w !! n) ->
  modify (Some (Reg n)) g w = Ok tt (update_entry sm r n g w).
Proof.
  intros [[s e] Hreg].
  assert (Hw : w = update_entry sm r n (fun s => s) w).
  { unfold update_entry. rewrite (loaded_registered _ _ _ Hreg). simpl.
    rewrite insert_id by exact Hreg. now rewrite with_registry_same. }
  rewrite Hw at 1. apply modify_update.
Qed.

Lemma deref_registered (n : string) (w : World) :
  is_Some (registry w !! n) ->
  deref (Some (Reg n)) w = Ok (fst (loaded sm r w n)) w.
Proof.
  intros [se Hreg]. apply deref_Some. simpl.
  rewrite Hreg, (loaded_registered _ _ _ Hreg). reflexivity.
Qed.

Lemma registered_update (n n' : string) (f : Session -> Session) (w : World) :
  is_Some (registry w !! n') ->
  is_Some (registry (update_entry sm r n f w) !! n').
Proof.
  intros H. destruct (decide (n = n')) as [->|Hne].
  - rewrite registry_update_same. eauto.
  - now rewrite registry_update_other.
Qed.

End Store.

(** ** [GetSession] *)

Section Loading.
Context {cc : CookieCodec}.
Variable sm : SessionManager.
Variable r : httpRequest.

(** A bare [store.Get] leaves what the store answers unchanged. *)
Lemma loaded_touch (n n' : string) (w : World) :
  loaded sm r (update_entry sm r n (fun s => s) w) n' = loaded sm r w n'.
Proof.
  destruct (decide (n = n')) as [<-|Hne].
  - rewrite loaded_update_same. symmetry. apply surjective_pairing.
  - now apply loaded_update_other.
Qed.

Lemma present_touch (n n' : string) (w : World) :
  present sm r (update_entry sm r n (fun s => s) w) n' = present sm r w n'.
Proof. unfold present. now rewrite loaded_touch. Qed.

Lemma getTokenChunkSessions_loop_unfold (fuel : nat) (baseName : string)
    (chunks : gmap nat ptr) (i : nat) (w : World) :
  getTokenChunkSessions_loop sm fuel r baseName chunks i w =
    if present sm r w (sessionName baseName i) then
      match fuel with
      | O => OutOfFuel
      | S fuel' =>
          getTokenChunkSessions_loop sm fuel' r baseName
            (<[i := Reg (sessionName baseName i)]> chunks) (S i)
            (update_entry sm r (sessionName baseName i) (fun s => s) w)
      end
    else Ok chunks (update_entry sm r (sessionName baseName i) (fun s => s) w).
Proof.
  destruct fuel as [|fuel']; cbn [getTokenChunkSessions_loop];
    rewrite (bind_Ok _ _ _ _ _ (store_Get_Some sm r _ w)); cbn [fst snd];
    rewrite (bind_Ok _ _ _ _ _ (deref_Some _ _ _ (session_at_update sm r _ _ w)));
    unfold present;
    destruct (is_error (snd (loaded sm r w (sessionName baseName i)))
              || IsNew (fst (loaded sm r w (sessionName baseName i))));
    reflexivity.
Qed.

(** The probing loop from index [i] returns; it adds to the chunk map the
    partitions [i .. k-1] the store has, and leaves what the store answers
    as it was. *)
Lemma getTokenChunkSessions_loop_spec (baseName : string) (K : gset string) :
  forall fuel i chunks w,
    (forall n, present sm r w n = true -> n ∈ K) ->
    (forall j, j < i -> sessionName baseName j ∈ K) ->
    size K <= i + fuel ->
    exists m' w' k,
      getTokenChunkSessions_loop sm fuel r baseName chunks i w = Ok m' w' /\
      i <= k /\
      (forall j, i <= j < k -> present sm r w (sessionName baseName j) = true) /\
      (forall j, i <= j < k -> m' !! j = Some (Reg (sessionName baseName j))) /\
      (forall j, ~ (i <= j < k) -> m' !! j = chunks !! j) /\
      (forall n, loaded sm r w' n = loaded sm r w n) /\
      (forall j, i <= j < k -> is_Some (registry w' !! sessionName baseName j)) /\
      (forall n, is_Some (registry w !! n) -> is_Some (registry w' !! n)) /\
      retired w' = retired w /\ pool w' = pool w /\ response w' = response w.
Proof.
  induction fuel as [|fuel IH]; intros i chunks w HK Hbelow Hsize;
    rewrite getTokenChunkSessions_loop_unfold;
    destruct (present sm r w (sessionName baseName i)) eqn:Hp.
  - exfalso. assert (S i <= size K); [|lia].
    apply (names_size K baseName). intros j Hj.
    destruct (decide (j = i)) as [->|]; [now apply HK | apply Hbelow; lia].
  - exists chunks, (update_entry sm r (sessionName baseName i) (fun s => s) w), i.
    split; [reflexivity |]. split; [lia |]. split; [intros j Hj; lia |].
    split; [intros j Hj; lia |]. split; [reflexivity |].
    split; [intros n; apply loaded_touch |]. split; [intros j Hj; lia |].
    split; [intros n; apply registered_update |]. now split.
  - set (w1 := update_entry sm r (sessionName baseName i) (fun s => s) w).
    destruct (IH (S i) (<[i := Reg (sessionName baseName i)]> chunks) w1)
      as (m' & w' & k & Hrun & Hik & Hpres & Hin & Hout & Hload & Hreg
            & Hmono & Hframe).
    + intros n Hn. apply HK. subst w1. now rewrite present_touch in Hn.
    + intros j Hj. destruct (decide (j = i)) as [->|];
        [now apply HK | apply Hbelow; lia].
    + lia.
    + exists m', w', k. split; [exact Hrun |]. split; [lia |].
      split; [|split; [|split; [|split; [|split; [|split]]]]].
      * intros j Hj. destruct (decide (j = i)) as [->|]; [exact Hp |].
        rewrite <- (Hpres j) by lia. subst w1. symmetry. apply present_touch.
      * intros j Hj. destruct (decide (j = i)) as [->|].
        -- rewrite Hout by lia. apply lookup_insert_eq.
        -- apply Hin. lia.
      * intros j Hj. rewrite Hout by lia. apply lookup_insert_ne. lia.
      * intros n. rewrite Hload. subst w1. apply loaded_touch.
      * intros j Hj. destruct (decide (j = i)) as [->|].
        -- apply Hmono. subst w1. rewrite registry_update_same. eauto.
        -- apply Hreg. lia.
      * intros n Hn. apply Hmono. subst w1. now apply registered_update.
      * exact Hframe.
  - exists chunks, (update_entry sm r (sessionName baseName i) (fun s => s) w), i.
    split; [reflexivity |]. split; [lia |]. split; [intros j Hj; lia |].
    split; [intros j Hj; lia |]. split; [reflexivity |].
    split; [intros n; apply loaded_touch |]. split; [intros j Hj; lia |].
    split; [intros n; apply registered_update |]. now split.
Qed.

(** [getTokenChunkSessions] into an empty map returns the chunk map in
    the shape [chunks_from_store]. *)
Lemma getTokenChunkSessions_spec (baseName : string) (w : World) :
  exists m' w',
    getTokenChunkSessions sm r baseName ∅ w = Ok m' w' /\
    chunks_from_store sm r w baseName m' /\
    (forall i p, m' !! i = Some p -> is_Some (session_at w' p)) /\
    (forall n, loaded sm r w' n = loaded sm r w n) /\
    (forall n, is_Some (registry w !! n) -> is_Some (registry w' !! n)) /\
    retired w' = retired w /\ pool w' = pool w /\ response w' = response w.
Proof.
  destruct (getTokenChunkSessions_loop_spec baseName (known_names r w)
              (size (registry w) + size (Cookies r)) 0 ∅ w)
    as (m' & w' & k & Hrun & _ & Hpres & Hin & Hout & Hload & Hreg
          & Hmono & Hframe).
  - apply loaded_known.
  - intros j Hj; lia.
  - apply known_names_size.
  - exists m', w'. split; [exact Hrun |].
    assert (Hshape : forall i p, m' !! i = Some p ->
              i < k /\ p = Reg (sessionName baseName i)).
    { intros i p Hp. destruct (decide (i < k)) as [Hi|Hi].
      - rewrite Hin in Hp by lia. injection Hp as <-. auto.
      - rewrite Hout, lookup_empty in Hp by lia. discriminate. }
    split; [|split; [|split; [|split]]].
    + intros i p Hp. destruct (Hshape i p Hp) as [Hi ->].
      split; [reflexivity |]. intros j Hj. apply Hpres. lia.
    + intros i p Hp. destruct (Hshape i p Hp) as [Hi ->].
      simpl. destruct (Hreg i) as [se Hse]; [lia |]. rewrite Hse. eauto.
    + exact Hload.
    + exact Hmono.
    + exact Hframe.
Qed.

Lemma chunks_from_store_loaded (w w' : World) (baseName : string)
    (chunks : gmap nat ptr) :
  (forall n, loaded sm r w' n = loaded sm r w n) ->
  chunks_from_store sm r w baseName chunks ->
  chunks_from_store sm r w' baseName chunks.
Proof.
  intros Hload Hshape i p Hp. destruct (Hshape i p Hp) as [-> Hpres].
  split; [reflexivity |]. intros j Hj. unfold present.
  rewrite !Hload. now apply Hpres.
Qed.

(** The second half of [GetSession] always returns. *)
Lemma GetSession_tokens_spec (sd : SessionData) (w : World) :
  request sd = Some r ->
  mainSession sd = Some (Reg mainCookieName) ->
  is_Some (registry w !! mainCookieName) ->
  exists res w',
    GetSession_tokens sm sd r w = Ok res w' /\
    (forall sd', res = Value sd' -> loaded_session sm r sd' w').
Proof.
  intros Hr Hmain Hreg. unfold GetSession_tokens.
  rewrite (bind_Ok _ _ _ _ _ (store_Get_Some sm r accessTokenCookie w)).
  cbn [fst snd].
  destruct (snd (loaded sm r w accessTokenCookie)) as [e|].
  { eexists. eexists. split; [reflexivity |]. discriminate. }
  set (w1 := update_entry sm r accessTokenCookie (fun s => s) w).
  rewrite (bind_Ok _ _ _ _ _ (store_Get_Some sm r refreshTokenCookie w1)).
  cbn [fst snd].
  destruct (snd (loaded sm r w1 refreshTokenCookie)) as [e|].
  { eexists. eexists. split; [reflexivity |]. discriminate. }
  set (w2 := update_entry sm r refreshTokenCookie (fun s => s) w1).
  cbn [accessTokenChunks refreshTokenChunks with_accessTokenChunks
         with_refreshTokenChunks with_accessSession with_refreshSession].
  destruct (getTokenChunkSessions_spec accessTokenCookie w2)
    as (a & w3 & Ha & Hashape & Havalid & Haload & Hamono & _).
  rewrite (bind_Ok _ _ _ _ _ Ha).
  destruct (getTokenChunkSessions_spec refreshTokenCookie w3)
    as (b & w4 & Hb & Hbshape & Hbvalid & Hbload & Hbmono & Hbret & _).
  rewrite (bind_Ok _ _ _ _ _ Hb).
  eexists. eexists. split; [reflexivity |].
  intros sd' [= <-].
  assert (Hreg2 : forall n, is_Some (registry w !! n) ->
                            is_Some (registry w4 !! n)).
  { intros n Hn. apply Hbmono, Hamono. subst w2 w1.
    now apply registered_update, registered_update. }
  assert (Hacc : is_Some (registry w4 !! accessTokenCookie)).
  { apply Hbmono, Hamono. subst w2. apply registered_update.
    subst w1. rewrite registry_update_same. eauto. }
  assert (Href : is_Some (registry w4 !! refreshTokenCookie)).
  { apply Hbmono, Hamono. subst w2. rewrite registry_update_same. eauto. }
  unfold loaded_session. cbn.
  split; [exact Hr |]. split; [exact Hmain |].
  split; [reflexivity |]. split; [reflexivity |].
  split; [now apply Hreg2 |]. split; [exact Hacc |]. split; [exact Href |].
  split; [|split; [|split]].
  - apply (chunks_from_store_loaded w2); [|exact Hashape].
    intros n. now rewrite Hbload, Haload.
  - apply (chunks_from_store_loaded w3); [exact Hbload | exact Hbshape].
  - intros i p Hp. destruct (Havalid i p Hp) as [s Hs].
    destruct p as [n|q]; simpl in *.
    + destruct (registry w3 !! n) as [se|] eqn:Hn; [|discriminate].
      destruct (Hbmono n) as [se' Hse']; [eauto |]. rewrite Hse'. eauto.
    + rewrite Hbret. eauto.
  - exact Hbvalid.
Qed.

(** [GetSession], when it returns a session, returns a loaded one. *)
Lemma GetSession_loaded (pooled : SessionData) (now : Z) (w w' : World)
    (sd : SessionData) :
  GetSession sm pooled now r w = Ok (Value sd) w' ->
  loaded_session sm r sd w'.
Proof.
  unfold GetSession.
  rewrite (bind_Ok _ _ _ _ _ (store_Get_Some sm r mainCookieName w)).
  cbn [fst snd].
  destruct (snd (loaded sm r w mainCookieName)) as [e|].
  { intros H. apply bind_inv in H as (? & ? & _ & H). discriminate. }
  cbn [mainSession with_mainSession].
  rewrite (bind_Ok _ _ _ _ _ (deref_Some _ _ _ (session_at_update sm r _ _ w))).
  set (w1 := update_entry sm r mainCookieName (fun s => s) w).
  set (sd1 := with_mainSession (Some (Reg mainCookieName))
                (with_request (Some r) pooled)).
  assert (Htokens : forall res,
    GetSession_tokens sm sd1 r w1 = Ok (Value res) w' -> loaded_session sm r res w').
  { intros res Hres.
    destruct (GetSession_tokens_spec sd1 w1) as (res' & w'' & Hrun & Hok);
      [reflexivity | reflexivity | |].
    - subst w1. rewrite registry_update_same. eauto.
    - rewrite Hrun in Hres. injection Hres as -> ->. now apply Hok. }
  destruct (as_int64 _) as [createdAt|]; [|apply Htokens].
  destruct (absoluteSessionTimeout <? _)%Z; [|apply Htokens].
  intros H. apply bind_inv in H as (? & ? & _ & H). discriminate.
Qed.

End Loading.

(** ** [expireAccessTokenChunks] *)

Section Expire.
Context {codec : Codec} {cc : CookieCodec}.
Variable sm : SessionManager.
Variable r : httpRequest.

Abbreviation chunk_name := (sessionName accessTokenCookie).

(** One turn of the loop: it stops at a partition the store does not
    have, and expires the one it has. *)
Lemma expire_loop_unfold (fuel : nat) (sd : SessionData) (i : nat) (w : World) :
  request sd = Some r ->
  expireAccessTokenChunks_loop sm fuel sd None i w =
    if present sm r w (chunk_name i) then
      match fuel with
      | O => OutOfFuel
      | S fuel' =>
          expireAccessTokenChunks_loop sm fuel' sd None (S i)
            (update_entry sm r (chunk_name i) expire_session w)
      end
    else Ok tt (update_entry sm r (chunk_name i) (fun s => s) w).
Proof.
  intros Hr.
  assert (Hstep : forall k : ptr * option string -> M unit,
    bind (store_Get sm (request sd) (chunk_name i)) k w
    = k (Reg (chunk_name i), snd (loaded sm r w (chunk_name i)))
        (update_entry sm r (chunk_name i) (fun s => s) w)).
  { intros k. rewrite Hr. apply bind_Ok, store_Get_Some. }
  assert (Hderef :
    deref (Some (Reg (chunk_name i)))
      (update_entry sm r (chunk_name i) (fun s => s) w)
    = Ok (fst (loaded sm r w (chunk_name i)))
         (update_entry sm r (chunk_name i) (fun s => s) w)).
  { apply deref_Some, session_at_update. }
  destruct fuel as [|fuel']; cbn [expireAccessTokenChunks_loop];
    rewrite Hstep; cbn [fst snd];
    rewrite (bind_Ok _ _ _ _ _ Hderef); unfold present;
    destruct (is_error (snd (loaded sm r w (chunk_name i)))
              || IsNew (fst (loaded sm r w (chunk_name i)))); cbn [negb];
    try reflexivity.
  rewrite (bind_Ok _ _ _ _ _ (modify_update sm r _ _ expire_options w)).
  rewrite (bind_Ok _ _ _ _ _ (modify_update sm r _ _ (with_Values ∅) w)).
  reflexivity.
Qed.

(** The loop from index [i]: it returns, having expired the partitions
    [i .. k-1] that the store had and touched nothing else. *)
Lemma expire_loop_spec (sd : SessionData) (K : gset string) :
  request sd = Some r ->
  forall fuel i w,
    (forall n, present sm r w n = true -> n ∈ K) ->
    (forall j, j < i -> chunk_name j ∈ K) ->
    size K <= i + fuel ->
    exists w' k,
      expireAccessTokenChunks_loop sm fuel sd None i w = Ok tt w' /\
      i <= k /\
      (forall j, i <= j < k -> present sm r w (chunk_name j) = true) /\
      present sm r w (chunk_name k) = false /\
      retired w' = retired w /\ pool w' = pool w /\ response w' = response w /\
      (forall j, i <= j < k ->
         registry w' !! chunk_name j
         = Some (expire_session (fst (loaded sm r w (chunk_name j))),
                 snd (loaded sm r w (chunk_name j)))) /\
      registry w' !! chunk_name k = Some (loaded sm r w (chunk_name k)) /\
      (forall n, (forall j, i <= j <= k -> n <> chunk_name j) ->
         registry w' !! n = registry w !! n).
Proof.
  intros Hr.
  assert (Hstopped : forall i w,
    present sm r w (chunk_name i) = false ->
    exists w' k,
      Ok tt (update_entry sm r (chunk_name i) (fun s => s) w) = Ok tt w' /\
      i <= k /\
      (forall j, i <= j < k -> present sm r w (chunk_name j) = true) /\
      present sm r w (chunk_name k) = false /\
      retired w' = retired w /\ pool w' = pool w /\ response w' = response w /\
      (forall j, i <= j < k ->
         registry w' !! chunk_name j
         = Some (expire_session (fst (loaded sm r w (chunk_name j))),
                 snd (loaded sm r w (chunk_name j)))) /\
      registry w' !! chunk_name k = Some (loaded sm r w (chunk_name k)) /\
      (forall n, (forall j, i <= j <= k -> n <> chunk_name j) ->
         registry w' !! n = registry w !! n)).
  { intros i w Hp.
    exists (update_entry sm r (chunk_name i) (fun s => s) w), i.
    split; [reflexivity |]. split; [lia |]. split; [intros j Hj; lia |].
    split; [exact Hp |]. split; [reflexivity |]. split; [reflexivity |].
    split; [reflexivity |]. split; [intros j Hj; lia |]. split.
    + rewrite registry_update_same. f_equal. symmetry. apply surjective_pairing.
    + intros n Hn. apply registry_update_other. intros <-. now apply (Hn i). }
  induction fuel as [|fuel IH]; intros i w HK Hbelow Hsize;
    rewrite (expire_loop_unfold _ _ _ _ Hr);
    destruct (present sm r w (chunk_name i)) eqn:Hp.
  - exfalso.
    assert (S i <= size K); [|lia].
    apply (names_size K accessTokenCookie). intros j Hj.
    destruct (decide (j = i)) as [->|]; [now apply HK | apply Hbelow; lia].
  - now apply Hstopped.
  - set (w1 := update_entry sm r (chunk_name i) expire_session w).
    destruct (IH (S i) w1) as
      (w' & k & Hrun & Hik & Hpres & Hstop & Hret & Hpool & Hresp
         & Hexp & Hlast & Hframe).
    + intros n Hn. apply HK.
      destruct (decide (chunk_name i = n)) as [<-|Hne]; [exact Hp |].
      subst w1. now rewrite present_update_other in Hn.
    + intros j Hj. destruct (decide (j = i)) as [->|];
        [now apply HK | apply Hbelow; lia].
    + lia.
    + assert (Hother : forall j, S i <= j -> chunk_name i <> chunk_name j).
      { intros j Hj Heq. apply sessionName_inj in Heq. lia. }
      exists w', k. split; [exact Hrun |]. split; [lia |].
      split; [|split; [|split; [|split; [|split; [|split; [|split]]]]]].
      * intros j Hj. destruct (decide (j = i)) as [->|]; [exact Hp |].
        rewrite <- (Hpres j) by lia. subst w1.
        symmetry. apply present_update_other, Hother. lia.
      * rewrite <- Hstop. subst w1.
        symmetry. apply present_update_other, Hother. lia.
      * exact Hret.
      * exact Hpool.
      * exact Hresp.
      * intros j Hj. destruct (decide (j = i)) as [->|].
        -- rewrite Hframe.
           ++ subst w1. apply registry_update_same.
           ++ intros j Hj'. apply Hother. lia.
        -- rewrite Hexp by lia. subst w1.
           rewrite loaded_update_other; [reflexivity | apply Hother; lia].
      * rewrite Hlast. subst w1.
        rewrite loaded_update_other; [reflexivity | apply Hother; lia].
      * intros n Hn. rewrite Hframe.
        -- subst w1. apply registry_update_other. intros <-. apply (Hn i); [lia | reflexivity].
        -- intros j Hj. apply Hn. lia.
  - now apply Hstopped.
Qed.

(** [expireAccessTokenChunks(nil)] on a session bound to a request
    returns; [k] is the number of chunk partitions the store had. *)
Lemma expireAccessTokenChunks_spec (sd : SessionData) (w : World) :
  request sd = Some r ->
  exists w' k,
    expireAccessTokenChunks sm sd None w = Ok tt w' /\
    (forall j, j < k -> present sm r w (chunk_name j) = true) /\
    present sm r w (chunk_name k) = false /\
    retired w' = retired w /\ pool w' = pool w /\ response w' = response w /\
    (forall j, j < k ->
       registry w' !! chunk_name j
       = Some (expire_session (fst (loaded sm r w (chunk_name j))),
               snd (loaded sm r w (chunk_name j)))) /\
    registry w' !! chunk_name k = Some (loaded sm r w (chunk_name k)) /\
    (forall n, (forall j, j <= k -> n <> chunk_name j) ->
       registry w' !! n = registry w !! n).
Proof.
  intros Hr.
  destruct (expire_loop_spec sd (known_names r w) Hr
              (size (registry w) + size (Cookies r)) 0 w)
    as (w' & k & Hrun & _ & Hpres & Hstop & Hret & Hpool & Hresp
          & Hexp & Hlast & Hframe).
  - apply loaded_known.
  - intros j Hj; lia.
  - apply known_names_size.
  - exists w', k. split.
    + unfold expireAccessTokenChunks, probe_budget. rewrite Hr. exact Hrun.
    + split; [intros j Hj; apply Hpres; lia |]. split; [exact Hstop |].
      split; [exact Hret |]. split; [exact Hpool |]. split; [exact Hresp |].
      split; [intros j Hj; apply Hexp; lia |]. split; [exact Hlast |].
      intros n Hn. apply Hframe. intros j Hj. apply Hn. lia.
Qed.

(** Pointers that were valid stay valid. *)
Lemma expireAccessTokenChunks_valid (sd : SessionData) (w w' : World) (p : ptr) :
  request sd = Some r ->
  expireAccessTokenChunks sm sd None w = Ok tt w' ->
  is_Some (session_at w p) -> is_Some (session_at w' p).
Proof.
  intros Hr Hrun.
  destruct (expireAccessTokenChunks_spec sd w Hr)
    as (w1 & k & Hrun1 & _ & _ & Hret & _ & _ & Hexp & Hlast & Hframe).
  rewrite Hrun in Hrun1. injection Hrun1 as <-.
  destruct p as [n|q]; simpl; [|now rewrite Hret].
  intros Hn.
  destruct (decide (n ∈ chunk_name <$> seq 0 (S k))) as [Hin|Hno].
  - apply list_elem_of_fmap in Hin as (j & -> & Hj). apply elem_of_seq in Hj.
    destruct (decide (j = k)) as [->|].
    + rewrite Hlast. eauto.
    + rewrite Hexp by lia. eauto.
  - rewrite Hframe; [exact Hn |]. intros j Hj ->. apply Hno.
    apply list_elem_of_fmap. exists j. split; [reflexivity |].
    apply elem_of_seq. lia.
Qed.

End Expire.

(** ** Writing and reading the chunks *)

Section Chunks.
Context {codec : Codec} {cc : CookieCodec}.
Variable sm : SessionManager.
Variable r : httpRequest.

Abbreviation chunk_name := (sessionName accessTokenCookie).

(** The loop [for i, chunk := range chunks] from index [i]: chunk [j]
    goes to the registry's session [<base>_(i+j)], which the chunk map
    then holds under [i+j]; nothing else changes. *)
Lemma SetAccessToken_chunks_spec (chunks : list string) :
  forall sd i w,
    request sd = Some r ->
    exists m' w',
      SetAccessToken_chunks sm sd i chunks w
        = Ok (with_accessTokenChunks m' sd) w' /\
      (forall j, i <= j < i + length chunks ->
         m' !! j = Some (Reg (chunk_name j))) /\
      (forall j, ~ (i <= j < i + length chunks) ->
         m' !! j = accessTokenChunks sd !! j) /\
      retired w' = retired w /\ pool w' = pool w /\ response w' = response w /\
      (forall j c, chunks !! j = Some c ->
         registry w' !! chunk_name (i + j)
         = Some (set_value "token_chunk" (VString c)
                   (fst (loaded sm r w (chunk_name (i + j)))),
                 snd (loaded sm r w (chunk_name (i + j))))) /\
      (forall n, (forall j, j < length chunks -> n <> chunk_name (i + j)) ->
         registry w' !! n = registry w !! n).
Proof.
  induction chunks as [|chunk rest IH]; intros sd i w Hr.
  - exists (accessTokenChunks sd), w. simpl.
    split; [now destruct sd |]. split; [intros j Hj; lia |].
    split; [reflexivity |]. split; [reflexivity |]. split; [reflexivity |].
    split; [reflexivity |]. split; [intros j c Hc; discriminate |].
    reflexivity.
  - cbn [SetAccessToken_chunks]. rewrite Hr.
    rewrite (bind_Ok _ _ _ _ _ (store_Get_Some sm r (chunk_name i) w)).
    cbn [fst snd].
    rewrite (bind_Ok _ _ _ _ _
               (modify_update sm r _ _ (set_value "token_chunk" (VString chunk)) w)).
    set (w1 := update_entry sm r (chunk_name i)
                 (fun s => set_value "token_chunk" (VString chunk) s) w).
    set (sd1 := with_accessTokenChunks
                  (<[i := Reg (chunk_name i)]> (accessTokenChunks sd)) sd).
    destruct (IH sd1 (S i) w1 Hr)
      as (m' & w' & Hrun & Hin & Hout & Hret & Hpool & Hresp & Hval & Hframe).
    assert (Hother : forall j, chunk_name i <> chunk_name (S i + j)).
    { intros j Heq. apply sessionName_inj in Heq. lia. }
    exists m', w'. split; [exact Hrun |].
    split; [|split; [|split; [|split; [|split; [|split]]]]].
    + intros j Hj. simpl in Hj. destruct (decide (j = i)) as [->|].
      * rewrite Hout by lia. subst sd1. simpl. apply lookup_insert_eq.
      * apply Hin. lia.
    + intros j Hj. simpl in Hj. rewrite Hout by lia.
      subst sd1. simpl. apply lookup_insert_ne. lia.
    + exact Hret.
    + exact Hpool.
    + exact Hresp.
    + intros [|j] c Hc; simpl in Hc.
      * injection Hc as ->. rewrite Nat.add_0_r.
        rewrite Hframe; [subst w1; apply registry_update_same |].
        intros j _. apply Hother.
      * replace (i + S j) with (S i + j) by lia.
        rewrite (Hval j c Hc). subst w1.
        rewrite loaded_update_other; [reflexivity | apply Hother].
    + intros n Hn. rewrite Hframe.
      * subst w1. apply registry_update_other. intros <-.
        apply (Hn 0); [simpl; lia | now rewrite Nat.add_0_r].
      * intros j Hj. replace (S i + j) with (i + S j) by lia.
        apply Hn. simpl. lia.
Qed.

(** The collecting loop of [GetAccessToken] over a map that holds
    exactly the chunks [l] under [0 .. len(l)-1]. *)
Lemma GetAccessToken_loop_reads (m : gmap nat ptr) (w : World) (l : list string) :
  (forall j c, l !! j = Some c ->
     exists p s, m !! j = Some p /\ session_at w p = Some s /\
                 as_string (Values s !! "token_chunk") = c) ->
  m !! length l = None ->
  forall fuel i acc, i <= length l -> length l <= i + fuel ->
    GetAccessToken_loop fuel m i acc w = Ok (acc ++ drop i l) w.
Proof.
  intros Hl Hend. induction fuel as [|fuel IH]; intros i acc Hi Hfuel.
  - assert (i = length l) as -> by lia. simpl. rewrite Hend.
    now rewrite drop_all, app_nil_r.
  - destruct (decide (i = length l)) as [->|Hne].
    + simpl. rewrite Hend. now rewrite drop_all, app_nil_r.
    + destruct (lookup_lt_is_Some_2 l i) as [c Hc]; [lia |].
      destruct (Hl i c Hc) as (p & s & Hm & Hs & Hchunk).
      cbn [GetAccessToken_loop]. rewrite Hm.
      rewrite (bind_Ok _ _ _ _ _ (deref_Some _ _ _ Hs)).
      rewrite Hchunk, IH by lia.
      rewrite (drop_S l c i Hc), <- app_assoc. reflexivity.
Qed.

(** The collecting loop returns whatever the chunk map holds, provided
    its pointers are valid: the budget [size m] is never exhausted. *)
Lemma GetAccessToken_loop_total (m : gmap nat ptr) (w : World) :
  (forall j p, m !! j = Some p -> is_Some (session_at w p)) ->
  forall fuel i acc,
    (forall j, j < i -> is_Some (m !! j)) -> size m <= i + fuel ->
    exists l, GetAccessToken_loop fuel m i acc w = Ok l w.
Proof.
  intros Hvalid. induction fuel as [|fuel IH]; intros i acc Hbelow Hsize;
    cbn [GetAccessToken_loop]; destruct (m !! i) as [p|] eqn:Hm;
    try (eexists; reflexivity).
  - exfalso. assert (S i <= size m); [|lia].
    apply prefix_size. intros j Hj.
    destruct (decide (j = i)) as [->|]; [eauto | apply Hbelow; lia].
  - destruct (Hvalid i p Hm) as [s Hs].
    rewrite (bind_Ok _ _ _ _ _ (deref_Some _ _ _ Hs)).
    apply IH; [|lia]. intros j Hj.
    destruct (decide (j = i)) as [->|]; [eauto | apply Hbelow; lia].
Qed.

(** [GetAccessToken] returns a string whenever the access partition and
    the chunk sessions exist. *)
Lemma GetAccessToken_total (sd : SessionData) (w : World) (a : ptr) :
  accessSession sd = Some a ->
  is_Some (session_at w a) ->
  (forall j p, accessTokenChunks sd !! j = Some p -> is_Some (session_at w p)) ->
  exists token, GetAccessToken sd w = Ok token w.
Proof.
  intros Ha [s Hs] Hvalid. unfold GetAccessToken. rewrite Ha.
  rewrite (bind_Ok _ _ _ _ _ (deref_Some _ _ _ Hs)).
  destruct (negb (as_string (Values s !! "token") =? "")%string).
  - destruct (as_bool (Values s !! "compressed")); eexists; reflexivity.
  - destruct (size (accessTokenChunks sd) =? 0); [eexists; reflexivity |].
    destruct (GetAccessToken_loop_total (accessTokenChunks sd) w Hvalid
                (size (accessTokenChunks sd)) 0 [])
      as [l Hl]; [intros j Hj; lia | lia |].
    rewrite (bind_Ok _ _ _ _ _ Hl).
    rewrite (bind_Ok _ _ _ _ _ (deref_Some _ _ _ Hs)).
    destruct (as_bool (Values s !! "compressed")); eexists; reflexivity.
Qed.

End Chunks.

(** ** Compression *)

Section CompressionFacts.
Context {codec : Codec} {laws : CodecLaws codec}.

Lemma compressToken_ok (token : string) (gz : gzipWriter) (z : string) :
  gzip_Write token = Some gz -> gzip_Close gz = Some z ->
  compressToken token = base64_EncodeToString z.
Proof. intros Hw Hc. unfold compressToken. now rewrite Hw, Hc. Qed.

Lemma decompress_compress (token : string) (gz : gzipWriter) (z : string) :
  gzip_Write token = Some gz -> gzip_Close gz = Some z ->
  decompressToken (base64_EncodeToString z) = token.
Proof.
  intros Hw Hc. unfold decompressToken.
  rewrite base64_decode_encode.
  destruct (gzip_read_write token gz z Hw Hc) as (rd & Hrd & Hall).
  now rewrite Hrd, Hall.
Qed.

Lemma compressed_nonempty (token : string) (gz : gzipWriter) (z : string) :
  gzip_Write token = Some gz -> gzip_Close gz = Some z ->
  base64_EncodeToString z <> "".
Proof. intros Hw Hc. eapply base64_nonempty, gzip_nonempty, Hc. Qed.

(** What is read back after a successful compression is the token. *)
Lemma readback_ok (token : string) (gz : gzipWriter) (z : string) :
  gzip_Write token = Some gz -> gzip_Close gz = Some z ->
  readback token = token.
Proof.
  intros Hw Hc. unfold readback. rewrite (compressToken_ok _ _ _ Hw Hc).
  destruct (String.eqb_spec (base64_EncodeToString z) "") as [He|_].
  - exfalso. exact (compressed_nonempty _ _ _ Hw Hc He).
  - eapply decompress_compress; eauto.
Qed.

End CompressionFacts.

(** ** [SetAccessToken] and [GetAccessToken] *)

Section AccessToken.
Context {codec : Codec} {cc : CookieCodec}.
Variable sm : SessionManager.
Variable r : httpRequest.

Abbreviation chunk_name := (sessionName accessTokenCookie).

Lemma token_chunks_inline (token : string) :
  String.length (compressToken token) <= maxCookieSize ->
  token_chunks token = [].
Proof.
  intros H. unfold token_chunks.
  now destruct (Nat.leb_spec (String.length (compressToken token)) maxCookieSize);
    [|lia].
Qed.

Lemma token_chunks_chunked (token : string) :
  maxCookieSize < String.length (compressToken token) ->
  token_chunks token = splitIntoChunks (compressToken token) maxCookieSize.
Proof.
  intros H. unfold token_chunks.
  now destruct (Nat.leb_spec (String.length (compressToken token)) maxCookieSize);
    [lia |].
Qed.

Lemma maxCookieSize_pos : 0 < maxCookieSize.
Proof. unfold maxCookieSize. lia. Qed.

Lemma token_chunks_Join (token : string) :
  maxCookieSize < String.length (compressToken token) ->
  GoString.Join (token_chunks token) = compressToken token.
Proof.
  intros H. rewrite (token_chunks_chunked _ H).
  apply splitIntoChunks_spec, maxCookieSize_pos.
Qed.

Lemma token_chunks_length (token : string) :
  maxCookieSize < String.length (compressToken token) ->
  length (token_chunks token)
  = ceil_div (String.length (compressToken token)) maxCookieSize.
Proof.
  intros H. rewrite (token_chunks_chunked _ H).
  apply splitIntoChunks_spec, maxCookieSize_pos.
Qed.

(** The part of [SetAccessToken] after the expiry, on a session whose
    access partition is the registry's: the inline fields and the chunk
    partitions are written, the chunk map is rebuilt, and nothing else
    changes. *)
Lemma SetAccessToken_store_spec (sd : SessionData) (token : string) (w : World) :
  request sd = Some r ->
  accessSession sd = Some (Reg accessTokenCookie) ->
  is_Some (registry w !! accessTokenCookie) ->
  exists m' w',
    SetAccessToken_store sm sd token w = Ok (with_accessTokenChunks m' sd) w' /\
    (forall j, j < length (token_chunks token) ->
       m' !! j = Some (Reg (chunk_name j))) /\
    (forall j, length (token_chunks token) <= j -> m' !! j = None) /\
    retired w' = retired w /\ pool w' = pool w /\ response w' = response w /\
    (forall j c, token_chunks token !! j = Some c ->
       registry w' !! chunk_name j
       = Some (set_value "token_chunk" (VString c)
                 (fst (loaded sm r w (chunk_name j))),
               snd (loaded sm r w (chunk_name j)))) /\
    registry w' !! accessTokenCookie
    = Some (set_value "compressed" (VBool true)
              (set_value "token"
                 (VString (if String.length (compressToken token) <=? maxCookieSize
                           then compressToken token else ""))
                 (fst (loaded sm r w accessTokenCookie))),
            snd (loaded sm r w accessTokenCookie)) /\
    (forall n, n <> accessTokenCookie ->
       (forall j, j < length (token_chunks token) -> n <> chunk_name j) ->
       registry w' !! n = registry w !! n).
Proof.
  intros Hr Ha Hreg. unfold SetAccessToken_store.
  cbn [accessSession with_accessTokenChunks]. rewrite Ha.
  pose proof (modify_registered sm r accessTokenCookie) as Hmod.
  destruct (Nat.leb_spec (String.length (compressToken token)) maxCookieSize)
    as [Hfit|Hbig].
  - rewrite (bind_Ok _ _ _ _ _ (Hmod _ w Hreg)).
    rewrite (bind_Ok _ _ _ _ _ (modify_update sm r _ _ _ w)).
    rewrite (token_chunks_inline _ Hfit).
    exists ∅. eexists. split; [reflexivity |].
    split; [intros j Hj; simpl in Hj; lia |].
    split; [intros j _; apply lookup_empty |].
    split; [reflexivity |]. split; [reflexivity |]. split; [reflexivity |].
    split; [intros j c Hc; discriminate |].
    split; [apply registry_update_same |].
    intros n Hn _. now apply registry_update_other.
  - rewrite (bind_Ok _ _ _ _ _ (Hmod _ w Hreg)).
    rewrite (bind_Ok _ _ _ _ _ (modify_update sm r _ _ _ w)).
    rewrite (token_chunks_chunked _ Hbig).
    set (w3 := update_entry sm r accessTokenCookie _ w).
    destruct (SetAccessToken_chunks_spec sm r
                (splitIntoChunks (compressToken token) maxCookieSize)
                (with_accessTokenChunks ∅ sd) 0 w3 Hr)
      as (m' & w' & Hrun & Hin & Hout & Hret & Hpool & Hresp & Hval & Hframe).
    exists m', w'.
    split; [rewrite Hrun; now destruct sd |].
    split; [intros j Hj; apply Hin; lia |].
    split; [intros j Hj; rewrite Hout by lia; apply lookup_empty |].
    split; [exact Hret |]. split; [exact Hpool |]. split; [exact Hresp |].
    split; [|split].
    + intros j c Hc. pose proof (Hval j c Hc) as Hv. cbn [Nat.add] in Hv.
      rewrite Hv. subst w3.
      rewrite loaded_update_other; [reflexivity | apply sessionName_not_base].
    + rewrite Hframe.
      * subst w3. apply registry_update_same.
      * intros j _. apply sessionName_not_base.
    + intros n Hn Hnot. rewrite Hframe by (intros j Hj; now apply Hnot).
      subst w3. now apply registry_update_other.
Qed.

(** What [GetAccessToken] reads from a session in the state
    [SetAccessToken_store] leaves. *)
Lemma GetAccessToken_after_store (sd : SessionData) (token : string)
    (m' : gmap nat ptr) (w' : World) (sa : Session) (ea : option string)
    (old : string -> Session * option string) :
  accessSession sd = Some (Reg accessTokenCookie) ->
  (forall j, j < length (token_chunks token) ->
     m' !! j = Some (Reg (chunk_name j))) ->
  (forall j, length (token_chunks token) <= j -> m' !! j = None) ->
  (forall j c, token_chunks token !! j = Some c ->
     registry w' !! chunk_name j
     = Some (set_value "token_chunk" (VString c) (fst (old (chunk_name j))),
             snd (old (chunk_name j)))) ->
  registry w' !! accessTokenCookie
  = Some (set_value "compressed" (VBool true)
            (set_value "token"
               (VString (if String.length (compressToken token) <=? maxCookieSize
                         then compressToken token else ""))
               sa), ea) ->
  GetAccessToken (with_accessTokenChunks m' sd) w' = Ok (readback token) w'.
Proof.
  intros Ha Hin Hout Hval Hacc. unfold GetAccessToken.
  cbn [accessSession accessTokenChunks with_accessTokenChunks]. rewrite Ha.
  assert (Hs : session_at w' (Reg accessTokenCookie)
               = Some (set_value "compressed" (VBool true)
                         (set_value "token"
                            (VString (if String.length (compressToken token)
                                           <=? maxCookieSize
                                      then compressToken token else "")) sa))).
  { simpl. now rewrite Hacc. }
  rewrite (bind_Ok _ _ _ _ _ (deref_Some _ _ _ Hs)).
  assert (Htok : Values (set_value "compressed" (VBool true)
                   (set_value "token"
                      (VString (if String.length (compressToken token)
                                     <=? maxCookieSize
                                then compressToken token else "")) sa)) !! "token"
                 = Some (VString (if String.length (compressToken token)
                                       <=? maxCookieSize
                                  then compressToken token else ""))).
  { simpl. rewrite lookup_insert_ne by discriminate. apply lookup_insert_eq. }
  assert (Hflag : Values (set_value "compressed" (VBool true)
                   (set_value "token"
                      (VString (if String.length (compressToken token)
                                     <=? maxCookieSize
                                then compressToken token else "")) sa)) !! "compressed"
                  = Some (VBool true)).
  { simpl. apply lookup_insert_eq. }
  rewrite Htok, Hflag. cbn [as_string as_bool].
  assert (Hempty : size m' = length (token_chunks token)).
  { rewrite <- (size_dom (D := gset nat)).
    rewrite <- (size_set_seq (C := gset nat) 0 (length (token_chunks token))).
    f_equal. apply set_eq. intros j.
    rewrite elem_of_dom, elem_of_set_seq.
    destruct (decide (j < length (token_chunks token))) as [Hj|Hj].
    - rewrite Hin by exact Hj. split; [intros _; lia | eauto].
    - rewrite Hout by lia. split; [intros [? ?]; discriminate | lia]. }
  destruct (Nat.leb_spec (String.length (compressToken token)) maxCookieSize)
    as [Hfit|Hbig].
  - unfold readback.
    destruct (String.eqb_spec (compressToken token) "") as [He|Hne]; cbn [negb].
    + rewrite Hempty, (token_chunks_inline _ Hfit). reflexivity.
    + reflexivity.
  - unfold readback.
    destruct (String.eqb_spec (compressToken token) "") as [He|Hne].
    { rewrite He in Hbig. simpl in Hbig. lia. }
    cbn [String.eqb negb].
    assert (Hpos : 0 < length (token_chunks token)).
    { rewrite (token_chunks_length _ Hbig).
      rewrite ceil_div_step by (unfold maxCookieSize in *; lia). lia. }
    rewrite Hempty.
    destruct (Nat.eqb_spec (length (token_chunks token)) 0) as [Hz|_]; [lia |].
    assert (Hloop :
      GetAccessToken_loop (length (token_chunks token)) m' 0 [] w'
      = Ok ([] ++ drop 0 (token_chunks token)) w').
    { apply GetAccessToken_loop_reads; [| apply Hout; lia | lia | lia].
      intros j c Hc. exists (Reg (chunk_name j)). eexists.
      split; [apply Hin; eapply lookup_lt_Some; eauto |].
      split; [simpl; rewrite (Hval j c Hc); reflexivity |].
      simpl. now rewrite lookup_insert_eq. }
    rewrite drop_0, app_nil_l in Hloop.
    rewrite (bind_Ok _ _ _ _ _ Hloop).
    rewrite (bind_Ok _ _ _ _ _ (deref_Some _ _ _ Hs)).
    rewrite Hflag. cbn [as_bool].
    now rewrite (token_chunks_Join _ Hbig).
Qed.

End AccessToken.

(** ** The sample codec satisfies the laws *)

Lemma Sample_codec_laws : CodecLaws Sample.codec.
Proof.
  split.
  - intros b. reflexivity.
  - intros t st z Hw Hc. simpl in *. injection Hw as <-. injection Hc as <-.
    exists t. split; [|reflexivity].
    unfold Sample.gunzip, Sample.magic, GoString.HasPrefix.
    rewrite !GoStringFacts.app_cons, GoStringFacts.app_nil. simpl.
    now destruct t.
  - intros st z Hc. simpl in *. injection Hc as <-. discriminate.
  - intros b Hb. exact Hb.
Qed.

(** ** Tokens: the stated properties *)

Section TokenTheorems.
Context {codec : Codec} {cc : CookieCodec}.
Variable sm : SessionManager.

Abbreviation chunk_name := (sessionName accessTokenCookie).

(** [SetAccessToken] on a session bound to a request: the expiry, then
    the store. *)
Lemma SetAccessToken_bound (sd : SessionData) (r : httpRequest)
    (token : string) (w w1 : World) :
  request sd = Some r ->
  expireAccessTokenChunks sm sd None w = Ok tt w1 ->
  SetAccessToken sm sd token w = SetAccessToken_store sm sd token w1.
Proof.
  intros Hr Hexp. unfold SetAccessToken. rewrite Hr.
  now rewrite (bind_Ok _ _ _ _ _ Hexp).
Qed.

Lemma SetAccessToken_unbound (sd : SessionData) (token : string) (w : World) :
  request sd = None ->
  SetAccessToken sm sd token w = SetAccessToken_store sm sd token w.
Proof. intros Hr. unfold SetAccessToken. now rewrite Hr. Qed.

End TokenTheorems.

(** C1.  For every token whose gzip-compressed, base64-encoded form [c] is
    longer than 2000 bytes, [SetAccessToken] (on a session bound to a
    request, with its access partition loaded) stores [c] in exactly
    [ceil(len(c)/2000)] chunks under the indices [0 .. n-1] and no other:
    chunk [i] is [c[2000*i : 2000*(i+1)]] (cut at the end of [c]), at most 2000
    bytes, held by partition [_oidc_raczylo_a_<i>]; the inline [token] field
    is empty and [compressed] is true; and [GetAccessToken] afterwards
    returns exactly the token. *)
Theorem SetAccessToken_chunked_roundtrip
    {codec : Codec} {laws : CodecLaws codec} {cc : CookieCodec}
    (sm : SessionManager) (sd : SessionData) (r : httpRequest) (w : World)
    (token : string) (gz : gzipWriter) (z : string) :
  request sd = Some r ->
  accessSession sd = Some (Reg accessTokenCookie) ->
  is_Some (registry w !! accessTokenCookie) ->
  gzip_Write token = Some gz ->
  gzip_Close gz = Some z ->
  maxCookieSize < String.length (base64_EncodeToString z) ->
  exists sd' w',
    SetAccessToken sm sd token w = Ok sd' w' /\
    size (accessTokenChunks sd')
      = ceil_div (String.length (base64_EncodeToString z)) maxCookieSize /\
    (forall i,
       i < ceil_div (String.length (base64_EncodeToString z)) maxCookieSize ->
       exists s chunk,
         accessTokenChunks sd' !! i = Some (Reg (sessionName accessTokenCookie i)) /\
         session_at w' (Reg (sessionName accessTokenCookie i)) = Some s /\
         Values s !! "token_chunk" = Some (VString chunk) /\
         chunk = GoString.take maxCookieSize
                   (GoString.drop (i * maxCookieSize) (base64_EncodeToString z)) /\
         String.length chunk <= maxCookieSize) /\
    (forall i,
       ceil_div (String.length (base64_EncodeToString z)) maxCookieSize <= i ->
       accessTokenChunks sd' !! i = None) /\
    (exists a,
       session_at w' (Reg accessTokenCookie) = Some a /\
       Values a !! "token" = Some (VString "") /\
       Values a !! "compressed" = Some (VBool true)) /\
    GetAccessToken sd' w' = Ok token w'.
Proof.
  intros Hr Ha Hreg Hw Hc Hbig.
  pose proof (compressToken_ok token gz z Hw Hc) as Hcomp.
  assert (Hbig' : maxCookieSize < String.length (compressToken token))
    by now rewrite Hcomp.
  destruct (expireAccessTokenChunks_spec sm r sd w Hr)
    as (w1 & k & Hexp & _ & _ & _ & _ & _ & _ & _ & Hframe1).
  assert (Hreg1 : is_Some (registry w1 !! accessTokenCookie)).
  { rewrite Hframe1; [exact Hreg |]. intros j _. apply sessionName_not_base. }
  destruct (SetAccessToken_store_spec sm r sd token w1 Hr Ha Hreg1)
    as (m' & w' & Hrun & Hin & Hout & _ & _ & _ & Hval & Hacc & _).
  pose proof (token_chunks_length token Hbig') as Hlen. rewrite Hcomp in Hlen.
  exists (with_accessTokenChunks m' sd), w'.
  split; [now rewrite (SetAccessToken_bound sm sd r token w w1 Hr Hexp) |].
  split; [|split; [|split; [|split]]].
  - cbn [accessTokenChunks with_accessTokenChunks]. rewrite <- Hlen.
    rewrite <- (size_dom (D := gset nat)).
    rewrite <- (size_set_seq (C := gset nat) 0 (length (token_chunks token))).
    f_equal. apply set_eq. intros j.
    rewrite elem_of_dom, elem_of_set_seq.
    destruct (decide (j < length (token_chunks token))) as [Hj|Hj].
    + rewrite Hin by exact Hj. split; [intros _; lia | eauto].
    + rewrite Hout by lia. split; [intros [? ?]; discriminate | lia].
  - intros i Hi. rewrite <- Hlen in Hi.
    destruct (lookup_lt_is_Some_2 (token_chunks token) i Hi) as [c Hci].
    exists (set_value "token_chunk" (VString c)
              (fst (loaded sm r w1 (sessionName accessTokenCookie i)))), c.
    split; [now apply Hin |].
    split; [simpl; now rewrite (Hval i c Hci) |].
    split; [simpl; apply lookup_insert_eq |].
    rewrite (token_chunks_chunked token Hbig'), Hcomp in Hci.
    split.
    + destruct (splitIntoChunks_spec (base64_EncodeToString z) maxCookieSize
                  maxCookieSize_pos) as (_ & _ & Hnth).
      rewrite Hnth in Hci by (eapply lookup_lt_Some; eauto).
      now injection Hci as <-.
    + eapply splitIntoChunks_bound; [apply maxCookieSize_pos | exact Hci].
  - intros i Hi. cbn [accessTokenChunks with_accessTokenChunks].
    apply Hout. now rewrite Hlen.
  - eexists. split; [simpl; rewrite Hacc; reflexivity |].
    destruct (Nat.leb_spec (String.length (compressToken token)) maxCookieSize);
      [lia |].
    split; simpl.
    + rewrite lookup_insert_ne by discriminate. apply lookup_insert_eq.
    + apply lookup_insert_eq.
  - rewrite (GetAccessToken_after_store sd token m' w' _ _ (loaded sm r w1)
               Ha Hin Hout Hval Hacc).
    f_equal. eapply readback_ok; eauto.
Qed.

(** C2.  For every token whose gzip-compressed, base64-encoded form is at
    most 2000 bytes, [SetAccessToken] leaves the chunk map empty and
    [GetAccessToken] afterwards returns exactly the token. *)
Theorem SetAccessToken_inline_roundtrip
    {codec : Codec} {laws : CodecLaws codec} {cc : CookieCodec}
    (sm : SessionManager) (sd : SessionData) (w : World) (a : ptr)
    (token : string) (gz : gzipWriter) (z : string) :
  accessSession sd = Some a ->
  is_Some (session_at w a) ->
  gzip_Write token = Some gz ->
  gzip_Close gz = Some z ->
  String.length (base64_EncodeToString z) <= maxCookieSize ->
  exists sd' w',
    SetAccessToken sm sd token w = Ok sd' w' /\
    accessTokenChunks sd' = ∅ /\
    GetAccessToken sd' w' = Ok token w'.
Proof.
  intros Ha Hvalid Hw Hc Hfit.
  pose proof (compressToken_ok token gz z Hw Hc) as Hcomp.
  assert (Hstore : forall w1, is_Some (session_at w1 a) ->
    exists w',
      SetAccessToken_store sm sd token w1 = Ok (with_accessTokenChunks ∅ sd) w' /\
      GetAccessToken (with_accessTokenChunks ∅ sd) w' = Ok token w').
  { intros w1 [s Hs]. unfold SetAccessToken_store.
    cbn [accessSession with_accessTokenChunks]. rewrite Ha, Hcomp.
    destruct (Nat.leb_spec (String.length (base64_EncodeToString z)) maxCookieSize);
      [|lia].
    rewrite (bind_Ok _ _ _ _ _ (modify_Some _ _ _ _ Hs)).
    rewrite (bind_Ok _ _ _ _ _
               (modify_Some _ _ _ _ (session_at_write_same a _ w1))).
    eexists. split; [reflexivity |].
    unfold GetAccessToken. cbn [accessSession with_accessTokenChunks]. rewrite Ha.
    rewrite (bind_Ok _ _ _ _ _ (deref_Some _ _ _ (session_at_write_same a _ _))).
    cbn [Values set_value with_Values].
    rewrite lookup_insert_eq, lookup_insert_ne, lookup_insert_eq by discriminate.
    cbn [as_string as_bool].
    destruct (String.eqb_spec (base64_EncodeToString z) "") as [He|_].
    - exfalso. exact (compressed_nonempty _ _ _ Hw Hc He).
    - cbn [negb]. f_equal. eapply decompress_compress; eauto. }
  destruct (request sd) as [r|] eqn:Hr.
  - destruct (expireAccessTokenChunks_spec sm r sd w Hr) as (w1 & k & Hexp & _).
    destruct (Hstore w1) as (w' & Hrun & Hget).
    { eapply expireAccessTokenChunks_valid; eauto. }
    exists (with_accessTokenChunks ∅ sd), w'.
    rewrite (SetAccessToken_bound sm sd r token w w1 Hr Hexp). auto.
  - destruct (Hstore w Hvalid) as (w' & Hrun & Hget).
    exists (with_accessTokenChunks ∅ sd), w'.
    rewrite (SetAccessToken_unbound sm sd token w Hr). auto.
Qed.

(** X30.  Within one request, on a session whose chunk map holds the chunk
    partitions the store has for the slot (the shape [GetSession] returns),
    [SetAccessToken(token)] returns, and then in the registry
    - every partition of the old chunk map is marked for deletion: its
      [MaxAge] is -1, and its values are empty or hold nothing but the chunk
      of the new token that was written to it after the expiry;
    - the chunk map holds the chunks of the new token and nothing else;
    - [GetAccessToken] on the same object reads back [readback token], a
      function of the new token alone. *)
Theorem SetAccessToken_overwrites
    {codec : Codec} {cc : CookieCodec}
    (sm : SessionManager) (sd : SessionData) (r : httpRequest) (w : World)
    (token : string) :
  request sd = Some r ->
  accessSession sd = Some (Reg accessTokenCookie) ->
  is_Some (registry w !! accessTokenCookie) ->
  chunks_from_store sm r w accessTokenCookie (accessTokenChunks sd) ->
  exists sd' w',
    SetAccessToken sm sd token w = Ok sd' w' /\
    (forall i p, accessTokenChunks sd !! i = Some p ->
       exists s, session_at w' p = Some s /\
         MaxAge (Opts s) = (-1)%Z /\
         (Values s = ∅ \/
          exists c, token_chunks token !! i = Some c /\
                    Values s = {[ "token_chunk" := VString c ]})) /\
    (forall i, accessTokenChunks sd' !! i
               = if decide (i < length (token_chunks token))
                 then Some (Reg (sessionName accessTokenCookie i)) else None) /\
    GetAccessToken sd' w' = Ok (readback token) w'.
Proof.
  intros Hr Ha Hreg Hchunks.
  destruct (expireAccessTokenChunks_spec sm r sd w Hr)
    as (w1 & k & Hexp & _ & Hstop & _ & _ & _ & Hexpired & _ & Hframe1).
  assert (Hreg1 : is_Some (registry w1 !! accessTokenCookie)).
  { rewrite Hframe1; [exact Hreg |]. intros j _. apply sessionName_not_base. }
  destruct (SetAccessToken_store_spec sm r sd token w1 Hr Ha Hreg1)
    as (m' & w' & Hrun & Hin & Hout & _ & _ & _ & Hval & Hacc & Hframe).
  exists (with_accessTokenChunks m' sd), w'.
  split; [now rewrite (SetAccessToken_bound sm sd r token w w1 Hr Hexp) |].
  split; [|split].
  - intros i p Hp. destruct (Hchunks i p Hp) as [-> Hpresent].
    assert (Hik : i < k).
    { destruct (decide (i < k)) as [|Hge]; [assumption | exfalso].
      rewrite (Hpresent k) in Hstop by lia. discriminate. }
    pose proof (Hexpired i Hik) as Hentry.
    destruct (decide (i < length (token_chunks token))) as [Hi|Hi].
    + destruct (lookup_lt_is_Some_2 (token_chunks token) i Hi) as [c Hc].
      eexists. split; [simpl; rewrite (Hval i c Hc); reflexivity |].
      rewrite (loaded_registered sm r w1 _ _ Hentry). simpl.
      split; [reflexivity |]. right. exists c. split; [exact Hc |].
      apply insert_empty.
    + eexists. split.
      * simpl. rewrite Hframe, Hentry; [reflexivity | |].
        -- intros Heq. symmetry in Heq. revert Heq. apply sessionName_not_base.
        -- intros j Hj Heq. apply sessionName_inj in Heq. lia.
      * simpl. split; [reflexivity | now left].
  - intros i. cbn [accessTokenChunks with_accessTokenChunks].
    destruct (decide (i < length (token_chunks token))) as [Hi|Hi].
    + now apply Hin.
    + apply Hout. lia.
  - exact (GetAccessToken_after_store sd token m' w' _ _ (loaded sm r w1)
             Ha Hin Hout Hval Hacc).
Qed.

(** ** Time *)

(** Saturation does not matter for the comparison with the timeout: the
    timeout lies inside the range of a [Duration]. *)
Lemma elapsed_within (now t : Z) :
  (time_Since now t <= absoluteSessionTimeout)%Z
  <-> (now - t <= absoluteSessionTimeout)%Z.
Proof.
  unfold time_Since, Time_Sub, absoluteSessionTimeout, time_Hour, time_Second,
    minDuration, maxDuration. lia.
Qed.

Lemma elapsed_beyond (now t : Z) :
  (absoluteSessionTimeout < time_Since now t)%Z
  <-> (absoluteSessionTimeout < now - t)%Z.
Proof. pose proof (elapsed_within now t). lia. Qed.


(** [int64] sums can be taken in steps. *)
Lemma int64_add (a b : Z) : int64 (int64 a + b) = int64 (a + b).
Proof.
  unfold int64. f_equal.
  replace (((a + 2 ^ 63) mod 2 ^ 64 - 2 ^ 63 + b + 2 ^ 63))%Z
    with (((a + 2 ^ 63) mod 2 ^ 64 + b))%Z by lia.
  rewrite Zplus_mod_idemp_l. f_equal. lia.
Qed.

Lemma int64_small (z : Z) : (- 2 ^ 63 <= z < 2 ^ 63)%Z -> int64 z = z.
Proof. intros H. unfold int64. rewrite Z.mod_small; lia. Qed.




(** ** Hex identifiers *)

Lemma length_fill (f : nat -> ascii) (from len : nat) :
  String.length (fill f from len) = len.
Proof.
  revert from; induction len as [|len IH]; intros from; simpl;
    [reflexivity | now rewrite IH].
Qed.

Lemma length_hex (src : string) :
  String.length (hex_EncodeToString src) = 2 * String.length src.
Proof. induction src as [|c src IH]; simpl; [reflexivity | rewrite IH; lia]. Qed.

Lemma hexdigit_is_hex (n : nat) : n < 16 -> is_hex (hexdigit n) = true.
Proof.
  intros Hn. do 16 (destruct n as [|n]; [reflexivity |]). lia.
Qed.

Lemma hex_all_hex (src : string) :
  all_chars is_hex (hex_EncodeToString src) = true.
Proof.
  induction src as [|c src IH]; [reflexivity |].
  cbn [hex_EncodeToString all_chars].
  pose proof (nat_ascii_bounded c) as Hc.
  rewrite !hexdigit_is_hex, IH; [reflexivity | |].
  - apply Nat.mod_upper_bound. lia.
  - apply Nat.Div0.div_lt_upper_bound. lia.
Qed.

Lemma generateSecureRandomString_ok (rnd : RandSource) (n : nat) :
  rand_failure rnd = None ->
  generateSecureRandomString rnd n
  = Value (hex_EncodeToString (fill (rand_byte rnd) 0 n)).
Proof.
  intros H. unfold generateSecureRandomString, rand_Read. now rewrite H.
Qed.

(** ** Authentication state *)



(** C4, as the code has it.  On a session whose main partition is loaded:
    - [SetAuthenticated(true)], when crypto/rand delivers, sets the
      identifier to the hex encoding of 32 bytes read from it (64 hex
      characters), sets [created_at] to the current Unix time and
      [authenticated] to true, and changes no other key and no other
      partition;
    - [SetAuthenticated(true)], when crypto/rand fails, returns an error and
      changes nothing;
    - [SetAuthenticated(false)] sets [authenticated] to false and changes
      nothing else: the identifier, [created_at] and all other keys stay. *)
Theorem SetAuthenticated_effect
    (sd : SessionData) (w : World) (p : ptr) (main : Session) (now : Z)
    (rnd : RandSource) :
  mainSession sd = Some p ->
  session_at w p = Some main ->
  (rand_failure rnd = None ->
   exists w' main',
     SetAuthenticated sd true now rnd w = Ok None w' /\
     session_at w' p = Some main' /\
     ID main' = hex_EncodeToString (fill (rand_byte rnd) 0 32) /\
     String.length (ID main') = 64 /\
     all_chars is_hex (ID main') = true /\
     Values main' = <["authenticated" := VBool true]>
                      (<["created_at" := VInt64 (Time_Unix now)]> (Values main)) /\
     (forall q, q <> p -> session_at w' q = session_at w q)) /\
  (forall e, rand_failure rnd = Some e ->
   exists msg, SetAuthenticated sd true now rnd w = Ok (Some msg) w) /\
  (exists w' main',
     SetAuthenticated sd false now rnd w = Ok None w' /\
     session_at w' p = Some main' /\
     ID main' = ID main /\
     Values main' = <["authenticated" := VBool false]> (Values main) /\
     Values main' !! "created_at" = Values main !! "created_at" /\
     (forall q, q <> p -> session_at w' q = session_at w q)).
Proof.
  intros Hp Hmain. split; [|split].
  - intros Hrand. unfold SetAuthenticated. rewrite Hp.
    rewrite (generateSecureRandomString_ok rnd 32 Hrand).
    unfold bind at 1.
    rewrite (bind_Ok _ _ _ _ _ (modify_Some _ _ _ _ Hmain)).
    rewrite (bind_Ok _ _ _ _ _
               (modify_Some _ _ _ _ (session_at_write_same p _ w))).
    cbn [ret].
    rewrite (bind_Ok _ _ _ _ _
               (modify_Some _ _ _ _ (session_at_write_same p _ _))).
    eexists. eexists. split; [reflexivity |].
    split; [apply session_at_write_same |].
    split; [reflexivity |].
    split; [cbn [ID set_value with_Values with_ID];
            now rewrite length_hex, length_fill |].
    split; [cbn [ID set_value with_Values with_ID]; apply hex_all_hex |].
    split; [reflexivity |].
    intros q Hq. now rewrite !session_at_write_other.
  - intros e Hrand. unfold SetAuthenticated, generateSecureRandomString, rand_Read.
    rewrite Hrand. eexists. reflexivity.
  - unfold SetAuthenticated. rewrite Hp. unfold bind at 1. cbn [ret].
    rewrite (bind_Ok _ _ _ _ _ (modify_Some _ _ _ _ Hmain)).
    eexists. eexists. split; [reflexivity |].
    split; [apply session_at_write_same |].
    split; [reflexivity |]. split; [reflexivity |].
    split; [cbn [Values set_value with_Values];
            now rewrite lookup_insert_ne by discriminate |].
    intros q Hq. now rewrite session_at_write_other.
Qed.

(** ** Loading an expired session *)

Lemma bind_Panic {A B : Type} (c : M A) (k : A -> M B) (w : World) :
  c w = Panic -> bind c k w = Panic.
Proof. intros H. unfold bind. now rewrite H. Qed.

(** [Clear] on an object whose access partition was never loaded. *)
Lemma Clear_without_access {cc : CookieCodec} (sm : SessionManager)
    (sd : SessionData) (r : httpRequest) (wr : option httpResponseWriter)
    (w : World) (p : ptr) (s : Session) :
  mainSession sd = Some p ->
  session_at w p = Some s ->
  accessSession sd = None ->
  Clear sm sd r wr w = Panic.
Proof.
  intros Hp Hs Ha. unfold Clear. rewrite Hp, Ha.
  now rewrite (bind_Ok _ _ _ _ _ (modify_Some _ _ _ _ Hs)).
Qed.

(** C6, at the input where the code fails.  When the pool hands out a fresh
    object and the request's main cookie is older than 24 hours, [GetSession]
    does not report "session expired": [Clear] runs before the access and
    refresh partitions are loaded, dereferences the nil [accessSession] and
    panics. *)
Theorem GetSession_expired_fresh_panics
    {cc : CookieCodec} (sm : SessionManager) (r : httpRequest) (w : World)
    (now : Z) (vals : gmap string value) (createdAt : Z) :
  registry w !! mainCookieName = None ->
  Cookies r !! mainCookieName = Some (Decodes vals) ->
  vals !! "created_at" = Some (VInt64 createdAt) ->
  (24 * time_Hour < now - time_Unix createdAt)%Z ->
  GetSession sm sessionPool_New now r w = Panic.
Proof.
  intros Hreg Hcookie Hcreated Hold. unfold GetSession.
  rewrite (bind_Ok _ _ _ _ _ (store_Get_Some sm r mainCookieName w)).
  assert (Hloaded : loaded sm r w mainCookieName
                    = (mkSession mainCookieName "" vals (store_Options sm) false, None)).
  { unfold loaded, store_New. now rewrite Hreg, Hcookie. }
  rewrite Hloaded. cbn [fst snd mainSession with_mainSession with_request].
  rewrite (bind_Ok _ _ _ _ _ (deref_Some _ _ _ (session_at_update sm r _ _ w))).
  rewrite Hloaded. cbn [fst Values]. rewrite Hcreated. cbn [as_int64].
  apply elapsed_beyond, Z.ltb_lt in Hold. rewrite Hold.
  apply bind_Panic.
  eapply Clear_without_access;
    [reflexivity | apply session_at_update | reflexivity].
Qed.

(** ** Token exchange *)

(** What [exchangeTokens] does with its form: when the token URL parses it
    posts the encoded form to that URL with the request-scoped client, and
    makes its result of the answer. *)
Lemma exchangeTokens_posts {urllib : UrlLib} {net : Net} (t : TraefikOidc)
    (grantType codeOrToken redirectURL codeVerifier : string) :
  exchangeTokens t grantType codeOrToken redirectURL codeVerifier
  = match url_Parse (tokenURL t) with
    | Error e => Error (wrap "failed to create token request" e)
    | Value _ =>
        match http_Do CheckRedirect
                (mkTokenRequest "POST" (tokenURL t)
                   "application/x-www-form-urlencoded"
                   (Values_Encode
                      (exchange_form t grantType codeOrToken redirectURL
                         codeVerifier))) with
        | Error e => Error (wrap "failed to exchange tokens" e)
        | Value resp => exchange_response resp
        end
    end.
Proof.
  unfold exchangeTokens, exchange_request.
  destruct (url_Parse (tokenURL t)); reflexivity.
Qed.

Lemma exchange_form_client {urllib : UrlLib} (t : TraefikOidc)
    (grantType codeOrToken redirectURL codeVerifier : string) :
  let data := exchange_form t grantType codeOrToken redirectURL codeVerifier in
  data !! "grant_type" = Some [grantType] /\
  data !! "client_id" = Some [clientID t] /\
  data !! "client_secret" = Some [clientSecret t].
Proof.
  unfold exchange_form.
  destruct (grantType =? "authorization_code")%string;
    [destruct (negb (codeVerifier =? "")%string) |
     destruct (grantType =? "refresh_token")%string];
    cbv zeta; repeat split;
    repeat (rewrite lookup_insert_ne by discriminate);
    apply lookup_insert_eq.
Qed.

(** C7.  The request [exchangeTokens] posts to the token endpoint has a body
    that is the encoding of a form with [grant_type], [client_id] and
    [client_secret], whatever the grant type; for the grant type
    [refresh_token] the form has [refresh_token] besides and nothing else,
    so neither [code] nor [redirect_uri]; and the form of the request
    [exchangeCodeForToken] posts with PKCE disabled has no [code_verifier],
    whatever verifier the call was given.  The request is the argument of
    [client.Do]: the result of either function is made of the answer to
    it. *)
Theorem exchange_form_fields {urllib : UrlLib} {net : Net} (t : TraefikOidc) :
  (forall grantType codeOrToken redirectURL codeVerifier,
     exists data : url_Values,
       let req := mkTokenRequest "POST" (tokenURL t)
                    "application/x-www-form-urlencoded" (Values_Encode data) in
       exchangeTokens t grantType codeOrToken redirectURL codeVerifier
       = match url_Parse (tokenURL t) with
         | Error e => Error (wrap "failed to create token request" e)
         | Value _ =>
             match http_Do CheckRedirect req with
             | Error e => Error (wrap "failed to exchange tokens" e)
             | Value resp => exchange_response resp
             end
         end /\
       data !! "grant_type" = Some [grantType] /\
       data !! "client_id" = Some [clientID t] /\
       data !! "client_secret" = Some [clientSecret t] /\
       (grantType = "refresh_token" ->
          dom data
          = {[ "grant_type"; "client_id"; "client_secret"; "refresh_token" ]} /\
          data !! "refresh_token" = Some [codeOrToken] /\
          data !! "code" = None /\
          data !! "redirect_uri" = None)) /\
  (forall code redirectURL codeVerifier,
     enablePKCE t = false ->
     exists data : url_Values,
       let req := mkTokenRequest "POST" (tokenURL t)
                    "application/x-www-form-urlencoded" (Values_Encode data) in
       exchangeCodeForToken t code redirectURL codeVerifier
       = match
           match url_Parse (tokenURL t) with
           | Error e => Error (wrap "failed to create token request" e)
           | Value _ =>
               match http_Do CheckRedirect req with
               | Error e => Error (wrap "failed to exchange tokens" e)
               | Value resp => exchange_response resp
               end
           end
         with
         | Error e => Error (wrap "failed to exchange code for token" e)
         | Value tokenResponse => Value tokenResponse
         end /\
       data !! "grant_type" = Some ["authorization_code"] /\
       data !! "client_id" = Some [clientID t] /\
       data !! "client_secret" = Some [clientSecret t] /\
       data !! "code_verifier" = None).
Proof.
  split.
  - intros grantType codeOrToken redirectURL codeVerifier.
    exists (exchange_form t grantType codeOrToken redirectURL codeVerifier).
    cbv zeta. split; [apply exchangeTokens_posts |].
    destruct (exchange_form_client t grantType codeOrToken redirectURL
                codeVerifier) as (Hg & Hi & Hs).
    repeat (split; [assumption |]).
    intros ->. unfold exchange_form.
    cbn [String.eqb Ascii.eqb Bool.eqb andb]. cbv zeta.
    split; [|split; [|split]].
    + rewrite !dom_insert_L, dom_empty_L. set_solver.
    + apply lookup_insert_eq.
    + now repeat (rewrite lookup_insert_ne by discriminate).
    + now repeat (rewrite lookup_insert_ne by discriminate).
  - intros code redirectURL codeVerifier Hpkce.
    exists (exchange_form t "authorization_code" code redirectURL
              (effectiveCodeVerifier t codeVerifier)).
    cbv zeta. split.
    { unfold exchangeCodeForToken. now rewrite exchangeTokens_posts. }
    destruct (exchange_form_client t "authorization_code" code redirectURL
                (effectiveCodeVerifier t codeVerifier)) as (Hg & Hi & Hs).
    repeat (split; [assumption |]).
    unfold effectiveCodeVerifier, exchange_form. rewrite Hpkce.
    cbn [String.eqb Ascii.eqb Bool.eqb andb negb]. cbv zeta.
    now repeat (rewrite lookup_insert_ne by discriminate).
Qed.

Lemma exchange_response_non200 {net : Net} (resp : httpResponse) :
  StatusCode resp <> http_StatusOK ->
  exchange_response resp
  = Error ("token endpoint returned status " +:+ pretty (StatusCode resp)
             +:+ ": " +:+ content (Body resp)).
Proof.
  intros Hstatus. unfold exchange_response.
  apply Z.eqb_neq in Hstatus. now rewrite Hstatus.
Qed.

(** C8, as the code has it.  When the token endpoint answers with a status
    other than 200, [exchangeTokens] returns an error made of the status
    code and the whole body that could be read (there is no size limit);
    when it answers 200 with a body that does not decode, it returns the
    decode error; in both cases no [TokenResponse]. *)
Theorem exchangeTokens_rejects {urllib : UrlLib} {net : Net} (t : TraefikOidc)
    (grantType codeOrToken redirectURL codeVerifier : string)
    (req : tokenRequest) (resp : httpResponse) :
  exchange_request t grantType codeOrToken redirectURL codeVerifier = Value req ->
  http_Do CheckRedirect req = Value resp ->
  (StatusCode resp <> http_StatusOK ->
   exchangeTokens t grantType codeOrToken redirectURL codeVerifier
   = Error ("token endpoint returned status " +:+ pretty (StatusCode resp)
              +:+ ": " +:+ content (Body resp))) /\
  (StatusCode resp = http_StatusOK ->
   forall e, json_Decode (Body resp) = Error e ->
   exchangeTokens t grantType codeOrToken redirectURL codeVerifier
   = Error (wrap "failed to decode token response" e)).
Proof.
  intros Hreq Hdo. unfold exchangeTokens. rewrite Hreq, Hdo. split.
  - apply exchange_response_non200.
  - intros Hstatus e He. unfold exchange_response.
    apply Z.eqb_eq in Hstatus. now rewrite Hstatus, He.
Qed.

(** C8 as worded fails: no limit caps the part of the body an error
    repeats.  Whatever the limit, a 500 answer with a longer body is
    repeated in full. *)
Lemma error_body_unbounded :
  ~ error_body_bounded
      (net := Sample.net (mkResponse 200 (mkBody "{}" None))).
Proof.
  intros (limit & Hbound).
  destruct (Hbound (mkResponse 500 (mkBody (GoString.Repeat "x" (S limit)) None)))
    as (portion & Heq & Hlen); [discriminate |].
  rewrite exchange_response_non200 in Heq by discriminate.
  injection Heq as Heq. apply (f_equal String.length) in Heq.
  cbn [StatusCode Body content] in Heq.
  rewrite !GoStringFacts.length_app, GoStringFacts.length_Repeat in Heq.
  cbn [String.length] in Heq. lia.
Qed.

(** ** Decompression *)

(** C9.  [decompressToken] returns its input unchanged when the input is
    not valid base64, and when the decoded bytes are not a gzip stream that
    can be read to its end; and [GetAccessToken] returns a string whatever
    the stored payload is, as long as the partitions it reads exist: an
    inline payload that does not decode is returned as it is. *)
Theorem decompressToken_degrades {codec : Codec} :
  (forall s, base64_DecodeString s = None -> decompressToken s = s) /\
  (forall s data,
     base64_DecodeString s = Some data ->
     gzip_NewReader data = None \/
       (exists gz, gzip_NewReader data = Some gz /\ io_ReadAll gz = None) ->
     decompressToken s = s) /\
  (forall sd w a,
     accessSession sd = Some a ->
     is_Some (session_at w a) ->
     (forall j p, accessTokenChunks sd !! j = Some p -> is_Some (session_at w p)) ->
     exists token, GetAccessToken sd w = Ok token w) /\
  (forall sd w a s payload,
     accessSession sd = Some a ->
     session_at w a = Some s ->
     Values s !! "token" = Some (VString payload) ->
     payload <> "" ->
     decompressToken payload = payload ->
     GetAccessToken sd w = Ok payload w).
Proof.
  split; [|split; [|split]].
  - intros s H. unfold decompressToken. now rewrite H.
  - intros s data Hdata [Hrd|(gz & Hrd & Hall)]; unfold decompressToken;
      rewrite Hdata, Hrd; [reflexivity | now rewrite Hall].
  - intros sd w a. apply GetAccessToken_total.
  - intros sd w a s payload Ha Hs Htok Hne Hdec.
    unfold GetAccessToken. rewrite Ha.
    rewrite (bind_Ok _ _ _ _ _ (deref_Some _ _ _ Hs)). rewrite Htok.
    cbn [as_string].
    destruct (String.eqb_spec payload "") as [|_]; [contradiction |].
    cbn [negb]. destruct (as_bool (Values s !! "compressed"));
      [now rewrite Hdec | reflexivity].
Qed.

(** ** Logout *)


(** ** An expired session on a recycled object

    On a recycled object [GetSession] does report "session expired", but
    what [Clear] empties besides the main partition are the partitions the
    object kept from the earlier request: the registry of the request at
    hand gains the cleared main partition and nothing else, so this
    request's access, refresh and chunk partitions are never loaded, and no
    header is written. *)

Section Recycled.
Context {cc : CookieCodec}.
Variable sm : SessionManager.
Variable r : httpRequest.

Lemma retired_only_refl (w : World) : retired_only w w.
Proof. unfold retired_only. auto. Qed.

Lemma retired_only_trans (w1 w2 w3 : World) :
retired_only w1 w2 -> retired_only w2 w3 -> retired_only w1 w3.
Proof.
intros (Hr1 & Hp1 & Hs1 & Hv1) (Hr2 & Hp2 & Hs2 & Hv2).
unfold retired_only. rewrite Hr2, Hp2, Hs2.
split; [exact Hr1 |]. split; [exact Hp1 |]. split; [exact Hs1 |].
intros k Hk. now apply Hv2, Hv1.
Qed.

Lemma modify_retired (k : nat) (f : Session -> Session) (w : World) :
is_Some (retired w !! k) ->
exists w', modify (Some (Retired k)) f w = Ok tt w' /\ retired_only w w'.
Proof.
intros [s Hs]. eexists. split; [apply (modify_Some (Retired k) f s), Hs |].
unfold retired_only. simpl. repeat split.
intros k' Hk'. destruct (decide (k = k')) as [<-|Hne].
- rewrite lookup_insert_eq. eauto.
- now rewrite lookup_insert_ne.
Qed.

Lemma clearTokenChunks_retired (chunks : gmap nat ptr) (w : World) :
(forall i p, chunks !! i = Some p ->
   exists k, p = Retired k /\ is_Some (retired w !! k)) ->
exists w', clearTokenChunks chunks w = Ok tt w' /\ retired_only w w'.
Proof.
intros Hchunks. unfold clearTokenChunks.
assert (Hlist : forall p, p ∈ chunk_sessions chunks ->
          exists k, p = Retired k /\ is_Some (retired w !! k)).
{ intros p Hp. unfold chunk_sessions in Hp.
  apply list_elem_of_fmap in Hp as ([i q] & -> & Hiq).
  apply elem_of_map_to_list in Hiq. eauto. }
clear Hchunks. revert w Hlist.
induction (chunk_sessions chunks) as [|p l IH]; intros w Hlist.
- exists w. split; [reflexivity | apply retired_only_refl].
- destruct (Hlist p) as (k & -> & Hk); [left |].
  destruct (modify_retired k expire_options w Hk) as (w1 & Hrun1 & Hstep1).
  destruct (modify_retired k (with_Values ∅) w1) as (w2 & Hrun2 & Hstep2);
    [now apply Hstep1 |].
  pose proof (retired_only_trans _ _ _ Hstep1 Hstep2) as Hstep.
  destruct (IH w2) as (w' & Hrun & Hrest).
  { intros q Hq. destruct (Hlist q) as (k' & -> & Hk'); [now right |].
    exists k'. split; [reflexivity |]. now apply Hstep. }
  exists w'. split; [|eapply retired_only_trans; eauto].
  assert (Hbody :
    (modify (Some (Retired k)) expire_options ;;
     modify (Some (Retired k)) (with_Values ∅)) w = Ok tt w2).
  { now rewrite (bind_Ok _ _ _ _ _ Hrun1). }
  cbn [for_each]. now rewrite (bind_Ok _ _ _ _ _ Hbody).
Qed.

Lemma GetSession_expired_recycled (pooled : SessionData) (w : World) (now : Z)
  (vals : gmap string value) (createdAt : Z) :
registry w !! mainCookieName = None ->
Cookies r !! mainCookieName = Some (Decodes vals) ->
vals !! "created_at" = Some (VInt64 createdAt) ->
(24 * time_Hour < now - time_Unix createdAt)%Z ->
recycled pooled w ->
exists w',
  GetSession sm pooled now r w = Ok (Error "session expired") w' /\
  registry w'
  = <[mainCookieName :=
        (expire_session
           (mkSession mainCookieName "" vals (store_Options sm) false), None)]>
      (registry w) /\
  response w' = response w.
Proof.
intros Hreg Hcookie Hcreated Hold
  ((a & Ha & Hva) & (b & Hb & Hvb) & Hac & Hrc).
unfold GetSession.
rewrite (bind_Ok _ _ _ _ _ (store_Get_Some sm r mainCookieName w)).
assert (Hloaded : loaded sm r w mainCookieName
                  = (mkSession mainCookieName "" vals (store_Options sm) false, None)).
{ unfold loaded, store_New. now rewrite Hreg, Hcookie. }
rewrite Hloaded. cbn [fst snd mainSession with_mainSession with_request].
rewrite (bind_Ok _ _ _ _ _ (deref_Some _ _ _ (session_at_update sm r _ _ w))).
rewrite Hloaded. cbn [fst Values]. rewrite Hcreated. cbn [as_int64].
apply elapsed_beyond, Z.ltb_lt in Hold. rewrite Hold.
set (s0 := mkSession mainCookieName "" vals (store_Options sm) false) in *.
(* the steps of Clear *)
pose proof (modify_update sm r mainCookieName (fun s => s) expire_options w)
  as Hrun1.
set (w1 := update_entry sm r mainCookieName (fun s => expire_options s) w) in *.
assert (Hw1 : registry w1 = <[mainCookieName := (expire_options s0, None)]> (registry w)
              /\ retired w1 = retired w /\ response w1 = response w).
{ subst w1. unfold update_entry. simpl. now rewrite Hloaded. }
destruct Hw1 as (Hreg1 & Hret1 & Hresp1).
destruct (modify_retired a expire_options w1) as (w2 & Hrun2 & Hs2);
  [now rewrite Hret1 |].
destruct (modify_retired b expire_options w2) as (w3 & Hrun3 & Hs3);
  [apply Hs2; now rewrite Hret1 |].
pose proof (retired_only_trans _ _ _ Hs2 Hs3) as Hs13.
assert (Hmain3 : registry w3 !! mainCookieName = Some (expire_options s0, None)).
{ destruct Hs13 as (-> & _). rewrite Hreg1. apply lookup_insert_eq. }
pose proof (modify_registered sm r mainCookieName (with_Values ∅) w3
              (ex_intro _ _ Hmain3)) as Hrun4.
set (w4 := update_entry sm r mainCookieName (with_Values ∅) w3) in *.
assert (Hreg4 : registry w4
                = <[mainCookieName := (expire_session s0, None)]> (registry w)).
{ subst w4. unfold update_entry. simpl.
  rewrite (loaded_registered sm r w3 _ _ Hmain3). simpl.
  destruct Hs13 as (-> & _). rewrite Hreg1. apply insert_insert_eq. }
assert (Hvalid4 : forall k, is_Some (retired w !! k) -> is_Some (retired w4 !! k)).
{ intros k Hk. subst w4. unfold update_entry. simpl.
  apply Hs13. now rewrite Hret1. }
assert (Hresp4 : response w4 = response w).
{ subst w4. unfold update_entry. simpl. destruct Hs13 as (_ & _ & -> & _).
  exact Hresp1. }
destruct (modify_retired a (with_Values ∅) w4) as (w5 & Hrun5 & Hs5);
  [now apply Hvalid4 |].
destruct (modify_retired b (with_Values ∅) w5) as (w6 & Hrun6 & Hs6);
  [now apply Hs5, Hvalid4 |].
pose proof (retired_only_trans _ _ _ Hs5 Hs6) as Hs46.
destruct (clearTokenChunks_retired (accessTokenChunks pooled) w6)
  as (w7 & Hrun7 & Hs7).
{ intros i p Hp. destruct (Hac i p Hp) as (k & -> & Hk).
  exists k. split; [reflexivity |]. now apply Hs46, Hvalid4. }
pose proof (retired_only_trans _ _ _ Hs46 Hs7) as Hs47.
destruct (clearTokenChunks_retired (refreshTokenChunks pooled) w7)
  as (w8 & Hrun8 & Hs8).
{ intros i p Hp. destruct (Hrc i p Hp) as (k & -> & Hk).
  exists k. split; [reflexivity |]. now apply Hs47, Hvalid4. }
pose proof (retired_only_trans _ _ _ Hs47 Hs8) as (Hreg8 & _ & Hresp8 & _).
eexists. split.
- unfold Clear.
  cbn [mainSession accessSession refreshSession accessTokenChunks
         refreshTokenChunks with_mainSession with_request].
  rewrite Ha, Hb.
  unfold bind at 1.
  rewrite (bind_Ok _ _ _ _ _ Hrun1), (bind_Ok _ _ _ _ _ Hrun2),
    (bind_Ok _ _ _ _ _ Hrun3), (bind_Ok _ _ _ _ _ Hrun4),
    (bind_Ok _ _ _ _ _ Hrun5), (bind_Ok _ _ _ _ _ Hrun6),
    (bind_Ok _ _ _ _ _ Hrun7), (bind_Ok _ _ _ _ _ Hrun8).
  reflexivity.
- simpl. rewrite Hreg8, Hresp8. auto.
Qed.

End Recycled.

(** ** The statements that fail as worded *)


(** C4 as worded fails.  When crypto/rand reports an error,
    [SetAuthenticated(true)] returns that error and assigns neither an
    identifier nor [created_at]. *)
Lemma rotation_can_fail :
  ~ always_rotates (Sample.session_of Sample.visit) Sample.now
      Sample.failing_rand (Sample.world_of Sample.visit).
Proof.
  intros (w' & s & Hrun & _). revert Hrun.
  unfold SetAuthenticated, generateSecureRandomString, rand_Read.
  cbn [Sample.failing_rand rand_failure]. unfold bind, ret. discriminate.
Qed.

(** ** The theorems at concrete inputs *)

Lemma chunked_visit_ok :
  Sample.chunked_visit = Ok (Value (Sample.session_of Sample.chunked_visit))
                            (Sample.world_of Sample.chunked_visit).
Proof. vm_compute. reflexivity. Qed.

Lemma returning_visit_ok :
  Sample.returning_visit = Ok (Value (Sample.session_of Sample.returning_visit))
                              (Sample.world_of Sample.returning_visit).
Proof. vm_compute. reflexivity. Qed.

(** A first visit stores the 4500-byte token in three chunks and reads it
    back. *)
Lemma SetAccessToken_chunked_roundtrip_witness :
  exists sd' w',
    SetAccessToken (codec := Sample.codec) (cc := Sample.cookies) Sample.sm
      (Sample.session_of Sample.visit) Sample.big_token
      (Sample.world_of Sample.visit) = Ok sd' w' /\
    size (accessTokenChunks sd') = 3 /\
    GetAccessToken (codec := Sample.codec) sd' w' = Ok Sample.big_token w'.
Proof.
  destruct (SetAccessToken_chunked_roundtrip (laws := Sample_codec_laws)
              (cc := Sample.cookies) Sample.sm
              (Sample.session_of Sample.visit) Sample.fresh_request
              (Sample.world_of Sample.visit) Sample.big_token
              Sample.big_token (Sample.magic +:+ Sample.big_token))
    as (sd' & w' & Hrun & Hsize & _ & _ & _ & Hget).
  - vm_compute. reflexivity.
  - vm_compute. reflexivity.
  - vm_compute. eauto.
  - reflexivity.
  - reflexivity.
  - apply Nat.ltb_lt. vm_compute. reflexivity.
  - exists sd', w'. split; [exact Hrun |]. split; [|exact Hget].
    rewrite Hsize. vm_compute. reflexivity.
Defined.

(** A first visit stores a small token inline and reads it back. *)
Lemma SetAccessToken_inline_roundtrip_witness :
  exists sd' w',
    SetAccessToken (codec := Sample.codec) (cc := Sample.cookies) Sample.sm
      (Sample.session_of Sample.visit) Sample.small_token
      (Sample.world_of Sample.visit) = Ok sd' w' /\
    accessTokenChunks sd' = ∅ /\
    GetAccessToken (codec := Sample.codec) sd' w' = Ok Sample.small_token w'.
Proof.
  apply (SetAccessToken_inline_roundtrip (laws := Sample_codec_laws)
           (cc := Sample.cookies) Sample.sm
           (Sample.session_of Sample.visit) (Sample.world_of Sample.visit)
           (Reg accessTokenCookie) Sample.small_token
           Sample.small_token (Sample.magic +:+ Sample.small_token)).
  - vm_compute. reflexivity.
  - vm_compute. eauto.
  - reflexivity.
  - reflexivity.
  - apply Nat.leb_le. vm_compute. reflexivity.
Defined.

(** A returning visit whose access token came in two chunk cookies stores a
    small token: both chunk partitions are expired and the small token is
    read back. *)
Lemma SetAccessToken_overwrites_witness :
  exists sd' w',
    SetAccessToken (codec := Sample.codec) (cc := Sample.cookies) Sample.sm
      (Sample.session_of Sample.chunked_visit) Sample.small_token
      (Sample.world_of Sample.chunked_visit) = Ok sd' w' /\
    (forall i p,
       accessTokenChunks (Sample.session_of Sample.chunked_visit) !! i = Some p ->
       exists s, session_at w' p = Some s /\ MaxAge (Opts s) = (-1)%Z /\
         (Values s = ∅ \/
          exists c, token_chunks (codec := Sample.codec) Sample.small_token !! i
                    = Some c /\
                    Values s = {[ "token_chunk" := VString c ]})) /\
    GetAccessToken (codec := Sample.codec) sd' w'
    = Ok (readback (codec := Sample.codec) Sample.small_token) w'.
Proof.
  pose proof (GetSession_loaded (cc := Sample.cookies) Sample.sm
                Sample.chunked_request sessionPool_New Sample.now
                Sample.empty_world _ _ chunked_visit_ok)
    as (Hr & _ & Ha & _ & _ & Hreg & _ & Hchunks & _).
  destruct (SetAccessToken_overwrites (codec := Sample.codec)
              (cc := Sample.cookies) Sample.sm
              (Sample.session_of Sample.chunked_visit) Sample.chunked_request
              (Sample.world_of Sample.chunked_visit) Sample.small_token
              Hr Ha Hreg Hchunks)
    as (sd' & w' & Hrun & Hexpired & _ & Hget).
  exists sd', w'. auto.
Defined.


(** [SetAuthenticated(true)] on a first visit, with crypto/rand
    delivering. *)
Lemma SetAuthenticated_effect_witness :
  exists w' main',
    SetAuthenticated (Sample.session_of Sample.visit) true Sample.now
      Sample.counting_rand (Sample.world_of Sample.visit) = Ok None w' /\
    session_at w' (Reg mainCookieName) = Some main' /\
    String.length (ID main') = 64 /\
    all_chars is_hex (ID main') = true /\
    Values main' !! "created_at" = Some (VInt64 1700003600).
Proof.
  destruct (SetAuthenticated_effect (Sample.session_of Sample.visit)
              (Sample.world_of Sample.visit) (Reg mainCookieName)
              (Sample.main_of (Sample.world_of Sample.visit))
              Sample.now Sample.counting_rand)
    as (Htrue & _ & _).
  - vm_compute. reflexivity.
  - vm_compute. reflexivity.
  - destruct Htrue as (w' & main' & Hrun & Hat & _ & Hlen & Hhex & Hvals & _);
      [reflexivity |].
    exists w', main'. split; [exact Hrun |]. split; [exact Hat |].
    split; [exact Hlen |]. split; [exact Hhex |].
    rewrite Hvals, lookup_insert_ne, lookup_insert_eq by discriminate.
    reflexivity.
Defined.

(** The first request that arrives with a main cookie created at Unix
    time 0 makes [GetSession] panic. *)
Lemma GetSession_expired_fresh_panics_witness :
  GetSession (cc := Sample.cookies) Sample.sm sessionPool_New Sample.now
    Sample.stale_request Sample.empty_world = Panic.
Proof.
  apply (GetSession_expired_fresh_panics (cc := Sample.cookies) Sample.sm
           Sample.stale_request Sample.empty_world Sample.now
           (<["created_at" := VInt64 0]> (<["authenticated" := VBool true]> ∅)) 0).
  - reflexivity.
  - vm_compute. reflexivity.
  - vm_compute. reflexivity.
  - vm_compute. reflexivity.
Defined.

(** A 503 answer with the body "upstream down" comes back whole in the
    error. *)
Lemma exchangeTokens_rejects_witness :
  exchangeTokens (urllib := Sample.urllib)
    (net := Sample.net (mkResponse 503 (mkBody "upstream down" None)))
    Sample.oidc "refresh_token" "r-token" "" ""
  = Error "token endpoint returned status 503: upstream down".
Proof.
  destruct (exchangeTokens_rejects (urllib := Sample.urllib)
              (net := Sample.net (mkResponse 503 (mkBody "upstream down" None)))
              Sample.oidc "refresh_token" "r-token" "" ""
              (mkTokenRequest "POST" (tokenURL Sample.oidc)
                 "application/x-www-form-urlencoded"
                 (Values_Encode (UrlLib := Sample.urllib)
                    (exchange_form Sample.oidc "refresh_token" "r-token" "" "")))
              (mkResponse 503 (mkBody "upstream down" None)))
    as (Hstatus & _).
  - reflexivity.
  - reflexivity.
  - rewrite Hstatus by discriminate. vm_compute. reflexivity.
Defined.


(** * Further properties of the code *)

(** ** [splitIntoChunks] *)

Lemma ceil_div_index (n c i : nat) :
  0 < c -> i < ceil_div n c -> i * c < n.
Proof.
  intros Hc Hi. unfold ceil_div in Hi.
  pose proof (Nat.div_mod_eq (n + c - 1) c) as Hdm.
  pose proof (Nat.mod_upper_bound (n + c - 1) c) as Hr.
  nia.
Qed.

Lemma ceil_div_full (n c i : nat) :
  0 < c -> S i < ceil_div n c -> S i * c < n.
Proof. intros Hc Hi. now apply ceil_div_index. Qed.

(** X1.  For a positive chunk size [splitIntoChunks] cuts the string into
    consecutive pieces: joined again they give the string back, there are
    [ceil(len(s) / chunkSize)] of them, none is empty or longer than the chunk
    size, and every piece but the last has exactly the chunk size. *)
Theorem splitIntoChunks_partition (s : string) (chunkSize : nat) :
  0 < chunkSize ->
  GoString.Join (splitIntoChunks s chunkSize) = s /\
  length (splitIntoChunks s chunkSize) = ceil_div (String.length s) chunkSize /\
  forall i chunk, splitIntoChunks s chunkSize !! i = Some chunk ->
    0 < String.length chunk <= chunkSize /\
    (S i < length (splitIntoChunks s chunkSize) ->
     String.length chunk = chunkSize).
Proof.
  intros Hcs.
  destruct (splitIntoChunks_spec s chunkSize Hcs) as (Hjoin & Hlen & Hnth).
  split; [exact Hjoin |]. split; [exact Hlen |].
  intros i chunk Hi.
  assert (Hlt : i < length (splitIntoChunks s chunkSize))
    by (eapply lookup_lt_Some; eauto).
  rewrite Hnth in Hi by exact Hlt. injection Hi as <-.
  rewrite GoStringFacts.length_take, GoStringFacts.length_drop.
  rewrite Hlen in *.
  pose proof (ceil_div_index _ _ _ Hcs Hlt) as Hidx.
  split; [lia |].
  intros HS. pose proof (ceil_div_full _ _ _ Hcs HS) as Hfull.
  simpl in Hfull. lia.
Qed.

(** X2.  With chunk size 0 the loop of [splitIntoChunks] never ends on a
    non-empty string: it appends the empty prefix and keeps the string, so no
    number of iterations yields a result. *)
Theorem splitIntoChunks_zero_never_returns (s : string) :
  s <> "" -> forall fuel, splitIntoChunks_fuel fuel s 0 = None.
Proof.
  intros Hs fuel. unfold splitIntoChunks_fuel. generalize (@nil string) as acc.
  induction fuel as [|fuel IH]; intros acc;
    destruct s as [|c s]; try congruence; simpl; [reflexivity |].
  apply IH.
Qed.

(** ** Random strings *)

(** X3.  [generateSecureRandomString(n)] yields [2n] lower-case hexadecimal
    digits when the random source delivers, and otherwise the source's error
    wrapped as "failed to generate random bytes: ...". *)
Theorem generateSecureRandomString_spec (rnd : RandSource) (n : nat) :
  match generateSecureRandomString rnd n with
  | Value id =>
      rand_failure rnd = None /\
      String.length id = 2 * n /\ all_chars is_hex id = true
  | Error e =>
      exists cause, rand_failure rnd = Some cause /\
        e = "failed to generate random bytes: " +:+ cause
  end.
Proof.
  unfold generateSecureRandomString, rand_Read.
  destruct (rand_failure rnd) as [cause|].
  - exists cause. split; reflexivity.
  - split; [reflexivity |]. split.
    + now rewrite length_hex, length_fill.
    + apply hex_all_hex.
Qed.

(** ** base64url *)

(** The test vectors of RFC 4648, section 10, and two bytes that need the
    URL-safe characters. *)
Example base64url_vectors :
  URLEncoding_EncodeToString "f" = "Zg==" /\
  URLEncoding_EncodeToString "fo" = "Zm8=" /\
  URLEncoding_EncodeToString "foo" = "Zm9v" /\
  URLEncoding_EncodeToString "foob" = "Zm9vYg==" /\
  URLEncoding_EncodeToString "fooba" = "Zm9vYmE=" /\
  RawURLEncoding_EncodeToString "fooba" = "Zm9vYmE" /\
  RawURLEncoding_EncodeToString "foobar" = "Zm9vYmFy" /\
  RawURLEncoding_EncodeToString
    (String (ascii_of_nat 251) (String (ascii_of_nat 255) "")) = "-_8".
Proof. repeat split; vm_compute; reflexivity. Qed.

Lemma base64_digit_safe (n : nat) : n < 64 -> is_url_safe (base64_digit n) = true.
Proof.
  intros Hn. do 64 (destruct n as [|n]; [reflexivity |]). lia.
Qed.

Lemma sextet_bounds (a b : nat) :
  a < 256 -> b < 256 ->
  a / 4 < 64 /\ a mod 4 * 16 < 64 /\ a mod 4 * 16 + b / 16 < 64 /\
  b mod 16 * 4 < 64 /\ b mod 16 * 4 + a / 64 < 64 /\ a mod 64 < 64.
Proof.
  intros Ha Hb.
  pose proof (Nat.mod_upper_bound a 4).
  pose proof (Nat.mod_upper_bound b 16).
  pose proof (Nat.mod_upper_bound a 64).
  assert (a / 4 < 64) by (apply Nat.Div0.div_lt_upper_bound; lia).
  assert (b / 16 < 16) by (apply Nat.Div0.div_lt_upper_bound; lia).
  assert (a / 64 < 4) by (apply Nat.Div0.div_lt_upper_bound; lia).
  lia.
Qed.

(** Every statement about the encoder is proved for a string and for the
    string with one and with two more bytes in front, which is how the
    encoder recurses. *)
Lemma base64url_ind (P : string -> Prop) :
  P "" ->
  (forall a, P (String a "")) ->
  (forall a b, P (String a (String b ""))) ->
  (forall a b c rest, P rest -> P (String a (String b (String c rest)))) ->
  forall s, P s.
Proof.
  intros H0 H1 H2 H3 s.
  assert (H : P s /\ (forall a, P (String a s)) /\
              (forall a b, P (String a (String b s)))).
  { induction s as [|c s (IHs & IH1 & IH2)].
    - split; [exact H0 |]. split; [exact H1 | exact H2].
    - split; [apply IH1 |]. split; [intros a; apply IH2 |].
      intros a b. apply H3. exact IHs. }
  apply H.
Qed.

Lemma length_RawURLEncoding (src : string) :
  String.length (RawURLEncoding_EncodeToString src)
  = (4 * String.length src + 2) / 3.
Proof.
  unfold RawURLEncoding_EncodeToString.
  induction src as [| a | a b | a b c rest IH] using base64url_ind;
    try reflexivity.
  cbn [base64url_Encode String.length]. rewrite IH.
  replace (4 * S (S (S (String.length rest))) + 2)
    with (4 * String.length rest + 2 + 4 * 3) by lia.
  rewrite Nat.div_add by lia. lia.
Qed.

Lemma length_URLEncoding (src : string) :
  String.length (URLEncoding_EncodeToString src)
  = 4 * ((String.length src + 2) / 3).
Proof.
  unfold URLEncoding_EncodeToString.
  induction src as [| a | a b | a b c rest IH] using base64url_ind;
    try reflexivity.
  cbn [base64url_Encode String.length]. rewrite IH.
  replace (S (S (S (String.length rest))) + 2)
    with (String.length rest + 2 + 1 * 3) by lia.
  rewrite Nat.div_add by lia. lia.
Qed.

Lemma RawURLEncoding_safe (src : string) :
  all_chars is_url_safe (RawURLEncoding_EncodeToString src) = true.
Proof.
  unfold RawURLEncoding_EncodeToString.
  induction src as [| a | a b | a b c rest IH] using base64url_ind.
  - reflexivity.
  - pose proof (sextet_bounds _ _ (nat_ascii_bounded a) (nat_ascii_bounded a)).
    cbn [base64url_Encode all_chars].
    rewrite !base64_digit_safe by lia. reflexivity.
  - pose proof (sextet_bounds _ _ (nat_ascii_bounded a) (nat_ascii_bounded b)).
    pose proof (sextet_bounds _ _ (nat_ascii_bounded b) (nat_ascii_bounded b)).
    cbn [base64url_Encode all_chars].
    rewrite !base64_digit_safe by lia. reflexivity.
  - pose proof (sextet_bounds _ _ (nat_ascii_bounded a) (nat_ascii_bounded b)).
    pose proof (sextet_bounds _ _ (nat_ascii_bounded c) (nat_ascii_bounded b)).
    cbn [base64url_Encode all_chars].
    rewrite !base64_digit_safe by lia. rewrite IH. reflexivity.
Qed.

(** The padded encoding is the unpadded one followed by the padding. *)
Lemma URLEncoding_padding (src : string) :
  URLEncoding_EncodeToString src
  = RawURLEncoding_EncodeToString src
    +:+ GoString.Repeat "=" ((3 - String.length src mod 3) mod 3).
Proof.
  unfold URLEncoding_EncodeToString, RawURLEncoding_EncodeToString.
  induction src as [| a | a b | a b c rest IH] using base64url_ind;
    try reflexivity.
  cbn [base64url_Encode String.length]. rewrite IH.
  rewrite !GoStringFacts.app_cons.
  replace (S (S (S (String.length rest)))) with (String.length rest + 1 * 3) by lia.
  now rewrite Nat.Div0.mod_add.
Qed.

(** X4.  [generateCodeVerifier] yields 43 characters of the URL-safe base64
    alphabet, without padding (within the 43 to 128 characters RFC 7636
    asks for), when the random source delivers; otherwise the source's error
    wrapped as "could not generate code verifier: ...". *)
Theorem generateCodeVerifier_spec (rnd : RandSource) :
  match generateCodeVerifier rnd with
  | Value verifier =>
      rand_failure rnd = None /\
      String.length verifier = 43 /\ all_chars is_url_safe verifier = true
  | Error e =>
      exists cause, rand_failure rnd = Some cause /\
        e = "could not generate code verifier: " +:+ cause
  end.
Proof.
  unfold generateCodeVerifier, rand_Read.
  destruct (rand_failure rnd) as [cause|].
  - exists cause. split; reflexivity.
  - split; [reflexivity |]. split.
    + rewrite length_RawURLEncoding, length_fill. reflexivity.
    + apply RawURLEncoding_safe.
Qed.

(** X5.  [generateNonce] yields 44 characters when the random source
    delivers: 43 characters of the URL-safe alphabet, the same a code
    verifier of these bytes has, and one padding character [=]; otherwise the
    source's error wrapped as "could not generate nonce: ...". *)
Theorem generateNonce_spec (rnd : RandSource) :
  match generateNonce rnd with
  | Value nonce =>
      rand_failure rnd = None /\
      String.length nonce = 44 /\
      generateCodeVerifier rnd = Value (GoString.take 43 nonce) /\
      GoString.drop 43 nonce = "="
  | Error e =>
      exists cause, rand_failure rnd = Some cause /\
        e = "could not generate nonce: " +:+ cause
  end.
Proof.
  unfold generateNonce, generateCodeVerifier, rand_Read.
  destruct (rand_failure rnd) as [cause|].
  - exists cause. split; reflexivity.
  - set (bytes := fill (rand_byte rnd) 0 32).
    assert (Hlen : String.length (RawURLEncoding_EncodeToString bytes) = 43).
    { rewrite length_RawURLEncoding. unfold bytes. now rewrite length_fill. }
    assert (Hpad : URLEncoding_EncodeToString bytes
                   = RawURLEncoding_EncodeToString bytes +:+ "=").
    { rewrite URLEncoding_padding. unfold bytes. now rewrite length_fill. }
    split; [reflexivity |]. rewrite Hpad.
    pose proof (GoStringFacts.take_drop 43
                  (RawURLEncoding_EncodeToString bytes +:+ "=")) as Htd.
    assert (Htake : GoString.take 43 (RawURLEncoding_EncodeToString bytes +:+ "=")
                    = RawURLEncoding_EncodeToString bytes).
    { revert Hlen. generalize (RawURLEncoding_EncodeToString bytes) as e.
      generalize 43 as n. induction n as [|n IH]; intros [|c e] Hlen;
        try discriminate; [reflexivity |].
      rewrite GoStringFacts.app_cons. simpl. f_equal. apply IH.
      simpl in Hlen. lia. }
    split; [rewrite GoStringFacts.length_app, Hlen; reflexivity |].
    split; [now rewrite Htake |].
    rewrite Htake in Htd.
    now apply (inj (String.append (RawURLEncoding_EncodeToString bytes))) in Htd.
Qed.

(** X6.  [deriveCodeChallenge] yields 43 characters of the URL-safe base64
    alphabet, without padding, whatever the verifier is. *)
Theorem deriveCodeChallenge_shape {H : Sha256} {HL : Sha256Laws H}
    (codeVerifier : string) :
  String.length (deriveCodeChallenge codeVerifier) = 43 /\
  all_chars is_url_safe (deriveCodeChallenge codeVerifier) = true.
Proof.
  unfold deriveCodeChallenge. split.
  - rewrite length_RawURLEncoding, sha256_Size. reflexivity.
  - apply RawURLEncoding_safe.
Qed.

(** ** [extractClaims] *)

Example strings_Split_vectors :
  strings_Split "a.b.c" "." = ["a"; "b"; "c"] /\
  strings_Split "" "." = [""] /\
  strings_Split "a." "." = ["a"; ""] /\
  strings_Split ".." "." = [""; ""; ""] /\
  strings_Split "abc" "." = ["abc"].
Proof. repeat split; reflexivity. Qed.

Lemma strings_Split_length (s : string) (sep : ascii) :
  length (strings_Split s sep) = S (count_char sep s).
Proof.
  induction s as [|c s IH]; [reflexivity |].
  cbn [strings_Split count_char].
  destruct (Ascii.eqb c sep); simpl; [now rewrite IH |].
  destruct (strings_Split s sep) as [|piece more]; simpl in *; [lia | exact IH].
Qed.

Lemma strings_Split_none (s : string) (sep : ascii) :
  count_char sep s = 0 -> strings_Split s sep = [s].
Proof.
  induction s as [|c s IH]; [reflexivity |].
  cbn [strings_Split count_char].
  destruct (Ascii.eqb c sep); [discriminate |].
  intros H. now rewrite IH.
Qed.

Lemma strings_Split_app (s rest : string) (sep : ascii) :
  count_char sep s = 0 ->
  strings_Split (s +:+ String sep rest) sep = s :: strings_Split rest sep.
Proof.
  induction s as [|c s IH].
  - intros _. rewrite GoStringFacts.app_nil. cbn [strings_Split].
    now rewrite Ascii.eqb_refl.
  - cbn [count_char]. rewrite GoStringFacts.app_cons. cbn [strings_Split].
    destruct (Ascii.eqb c sep); [discriminate |].
    intros H. now rewrite IH.
Qed.

(** X7.  [extractClaims] rejects with "invalid token format" every string
    that does not consist of exactly three dot-separated segments, before
    anything is decoded. *)
Theorem extractClaims_format {C : ClaimsCodec} (tokenString : string) :
  count_char "." tokenString <> 2 ->
  extractClaims tokenString = Error "invalid token format".
Proof.
  intros H. unfold extractClaims.
  rewrite strings_Split_length.
  destruct (S (count_char "." tokenString) =? 3) eqn:E; [|reflexivity].
  apply Nat.eqb_eq in E. lia.
Qed.

(** X8.  On a token of three segments [extractClaims] reads the middle
    segment only: the claims are the JSON value of the base64url-decoded
    payload, and neither the header nor the signature is looked at. *)
Theorem extractClaims_payload_only {C : ClaimsCodec}
    (header payload signature : string) :
  count_char "." header = 0 ->
  count_char "." payload = 0 ->
  count_char "." signature = 0 ->
  extractClaims (header +:+ "." +:+ payload +:+ "." +:+ signature)
  = match RawURLEncoding_DecodeString payload with
    | Error e => Error ("failed to decode token payload: " +:+ e)
    | Value bytes =>
        match json_Unmarshal bytes with
        | Error e => Error ("failed to unmarshal claims: " +:+ e)
        | Value c => Value c
        end
    end.
Proof.
  intros Hh Hp Hs. unfold extractClaims.
  change ("." +:+ payload +:+ "." +:+ signature)
    with (String "." (payload +:+ String "." signature)).
  rewrite (strings_Split_app _ _ _ Hh), (strings_Split_app _ _ _ Hp),
    (strings_Split_none _ _ Hs).
  reflexivity.
Qed.

(** ** [createStringMap] *)

Lemma createStringMap_fold (keys : list string) (acc : gmap string unit) (k : string) :
  is_Some (foldl (fun result key => <[key := tt]> result) acc keys !! k)
  <-> k ∈ keys \/ is_Some (acc !! k).
Proof.
  revert acc. induction keys as [|key keys IH]; intros acc; simpl.
  - rewrite elem_of_nil. tauto.
  - rewrite IH, elem_of_cons.
    destruct (decide (key = k)) as [->|Hne].
    + rewrite lookup_insert_eq. split; [eauto | intros _; right; eauto].
    + rewrite lookup_insert_ne by exact Hne. split.
      * intros [?|?]; eauto.
      * intros [[?|?]|?]; eauto. congruence.
Qed.

(** X9.  The map [createStringMap] builds holds a key exactly when the slice
    holds it; duplicates in the slice collapse, so the map has as many
    entries as the slice has distinct strings. *)
Theorem createStringMap_spec (keys : list string) :
  (forall k, is_Some (createStringMap keys !! k) <-> k ∈ keys) /\
  size (createStringMap keys) = length (remove_dups keys).
Proof.
  assert (Hmem : forall k, is_Some (createStringMap keys !! k) <-> k ∈ keys).
  { intros k. unfold createStringMap. rewrite createStringMap_fold.
    rewrite lookup_empty. split; [intros [?|[? ?]]; [assumption | discriminate] | eauto]. }
  split; [exact Hmem |].
  rewrite <- (size_dom (D := gset string)).
  assert (Hdom : dom (createStringMap keys)
                 = list_to_set (C := gset string) (remove_dups keys)).
  { apply set_eq. intros k.
    rewrite elem_of_dom, Hmem, elem_of_list_to_set, elem_of_remove_dups. tauto. }
  rewrite Hdom. apply size_list_to_set, NoDup_remove_dups.
Qed.

(** ** Token exchange *)

(** X10.  The request [exchangeCodeForToken] posts: its body is the
    encoding of a form of the grant type [authorization_code] in which
    [code] and [redirect_uri] carry the arguments, there is no
    [refresh_token], and [code_verifier] is sent exactly when PKCE is enabled
    and the verifier is not empty; no other field is sent.  For a grant type
    [exchangeTokens] does not know, the form it posts has the three client
    fields only. *)
Theorem authorization_code_form {urllib : UrlLib} {net : Net}
    (t : TraefikOidc) (code redirectURL codeVerifier : string) :
  let pkce := enablePKCE t && negb (String.eqb codeVerifier "") in
  (exists data : url_Values,
     let req := mkTokenRequest "POST" (tokenURL t)
                  "application/x-www-form-urlencoded" (Values_Encode data) in
     exchangeCodeForToken t code redirectURL codeVerifier
     = match
         match url_Parse (tokenURL t) with
         | Error e => Error (wrap "failed to create token request" e)
         | Value _ =>
             match http_Do CheckRedirect req with
             | Error e => Error (wrap "failed to exchange tokens" e)
             | Value resp => exchange_response resp
             end
         end
       with
       | Error e => Error (wrap "failed to exchange code for token" e)
       | Value tokenResponse => Value tokenResponse
       end /\
     data !! "grant_type" = Some ["authorization_code"] /\
     data !! "code" = Some [code] /\
     data !! "redirect_uri" = Some [redirectURL] /\
     data !! "refresh_token" = None /\
     data !! "code_verifier" = (if pkce then Some [codeVerifier] else None) /\
     dom data
     = {[ "grant_type"; "client_id"; "client_secret"; "code"; "redirect_uri" ]}
       ∪ (if pkce then {[ "code_verifier" ]} else ∅)) /\
  (forall grantType codeOrToken verifier,
     grantType <> "authorization_code" -> grantType <> "refresh_token" ->
     exists data : url_Values,
       let req := mkTokenRequest "POST" (tokenURL t)
                    "application/x-www-form-urlencoded" (Values_Encode data) in
       exchangeTokens t grantType codeOrToken redirectURL verifier
       = match url_Parse (tokenURL t) with
         | Error e => Error (wrap "failed to create token request" e)
         | Value _ =>
             match http_Do CheckRedirect req with
             | Error e => Error (wrap "failed to exchange tokens" e)
             | Value resp => exchange_response resp
             end
         end /\
       dom data = {[ "grant_type"; "client_id"; "client_secret" ]}).
Proof.
  cbv zeta.
  assert (Hform : forall v,
    exchange_form t "authorization_code" code redirectURL v
    = let data : url_Values :=
        <["redirect_uri" := [redirectURL]]>
          (<["code" := [code]]>
            (<["client_secret" := [clientSecret t]]>
              (<["client_id" := [clientID t]]>
                (<["grant_type" := ["authorization_code"]]> ∅)))) in
      if negb (String.eqb v "") then <["code_verifier" := [v]]> data else data)
    by reflexivity.
  split.
  - exists (exchange_form t "authorization_code" code redirectURL
              (effectiveCodeVerifier t codeVerifier)).
    split.
    { unfold exchangeCodeForToken. now rewrite exchangeTokens_posts. }
    unfold effectiveCodeVerifier.
    split; [|split; [|split; [|split; [|split]]]].
    + rewrite Hform. cbv zeta.
      destruct (negb _); repeat (rewrite lookup_insert_ne by discriminate);
        apply lookup_insert_eq.
    + rewrite Hform. cbv zeta.
      destruct (negb _); repeat (rewrite lookup_insert_ne by discriminate);
        apply lookup_insert_eq.
    + rewrite Hform. cbv zeta.
      destruct (negb _); repeat (rewrite lookup_insert_ne by discriminate);
        apply lookup_insert_eq.
    + rewrite Hform. cbv zeta.
      destruct (negb _); now repeat (rewrite lookup_insert_ne by discriminate).
    + rewrite Hform. cbv zeta.
      destruct (enablePKCE t); cbn [andb];
        [destruct (String.eqb_spec codeVerifier "") as [->|Hne]; cbn [negb] |].
      * now repeat (rewrite lookup_insert_ne by discriminate).
      * destruct (String.eqb_spec codeVerifier ""); [contradiction |].
        cbn [negb]. apply lookup_insert_eq.
      * now repeat (rewrite lookup_insert_ne by discriminate).
    + rewrite Hform. cbv zeta.
      destruct (enablePKCE t); cbn [andb];
        [destruct (String.eqb_spec codeVerifier "") as [->|Hne]; cbn [negb] |].
      * cbn [String.eqb negb]. rewrite !dom_insert_L, dom_empty_L. set_solver.
      * destruct (String.eqb_spec codeVerifier ""); [contradiction |].
        cbn [negb]. rewrite !dom_insert_L, dom_empty_L. set_solver.
      * cbn [String.eqb negb]. rewrite !dom_insert_L, dom_empty_L. set_solver.
  - intros grantType codeOrToken verifier Hac Hrt.
    exists (exchange_form t grantType codeOrToken redirectURL verifier).
    split; [apply exchangeTokens_posts |]. unfold exchange_form.
    destruct (String.eqb_spec grantType "authorization_code"); [contradiction |].
    destruct (String.eqb_spec grantType "refresh_token"); [contradiction |].
    cbv zeta. rewrite !dom_insert_L, dom_empty_L. set_solver.
Qed.

(** X11.  [exchangeTokens] returns a token response in one case only: the
    token URL parses, the POST to it is answered, the status is exactly 200
    and the body decodes; the response is then the decoded body.  A token URL
    that does not parse and a transport failure give the errors "failed to
    create token request: ..." and "failed to exchange tokens: ...". *)
Theorem exchangeTokens_success {urllib : UrlLib} {net : Net} (t : TraefikOidc)
    (grantType codeOrToken redirectURL codeVerifier : string) :
  let data := exchange_form t grantType codeOrToken redirectURL codeVerifier in
  let req := mkTokenRequest "POST" (tokenURL t)
               "application/x-www-form-urlencoded" (Values_Encode data) in
  (forall tokenResponse,
     exchangeTokens t grantType codeOrToken redirectURL codeVerifier
       = Value tokenResponse
     <-> exists u resp,
           url_Parse (tokenURL t) = Value u /\
           http_Do CheckRedirect req = Value resp /\
           StatusCode resp = 200%Z /\
           json_Decode (Body resp) = Value tokenResponse) /\
  (forall e, url_Parse (tokenURL t) = Error e ->
     exchangeTokens t grantType codeOrToken redirectURL codeVerifier
       = Error ("failed to create token request: " +:+ e)) /\
  (forall u e, url_Parse (tokenURL t) = Value u ->
     http_Do CheckRedirect req = Error e ->
     exchangeTokens t grantType codeOrToken redirectURL codeVerifier
       = Error ("failed to exchange tokens: " +:+ e)).
Proof.
  cbv zeta. unfold exchangeTokens, exchange_request, exchange_response.
  split; [|split].
  - intros tokenResponse.
    destruct (url_Parse (tokenURL t)) as [u|e]; cbn [bind].
    + destruct (http_Do CheckRedirect _) as [resp|e].
      * unfold http_StatusOK.
        destruct (Z.eqb_spec (StatusCode resp) 200) as [Hok|Hno]; cbn [negb].
        -- destruct (json_Decode (Body resp)) as [tr|e] eqn:Hdec; split.
           ++ intros [= <-]. exists u, resp. auto.
           ++ intros (u' & resp' & _ & [= <-] & _ & Hd).
              rewrite Hdec in Hd. exact Hd.
           ++ discriminate.
           ++ intros (u' & resp' & _ & [= <-] & _ & Hd).
              rewrite Hdec in Hd. discriminate.
        -- split; [discriminate |].
           intros (u' & resp' & _ & [= <-] & Hs & _). contradiction.
      * split; [discriminate |].
        intros (u' & resp' & _ & Hdo & _). discriminate.
    + split; [discriminate |].
      intros (u' & resp' & Hp & _). discriminate.
  - intros e He. now rewrite He.
  - intros u e Hu He. now rewrite Hu, He.
Qed.

(** ** The main session's fields *)

(** Writing one key of the main session and reading one. *)
Lemma set_then_get_key (sd : SessionData) (w : World) (p : ptr) (main : Session)
    (k k' : string) (v : string) :
  mainSession sd = Some p ->
  session_at w p = Some main ->
  exists w',
    modify (mainSession sd) (set_value k (VString v)) w = Ok tt w' /\
    session_at w' p = Some (set_value k (VString v) main) /\
    (forall q, q <> p -> session_at w' q = session_at w q) /\
    (main' <- deref (mainSession sd) ;; ret (as_string (Values main' !! k'))) w'
    = Ok (if decide (k = k') then v else as_string (Values main !! k')) w'.
Proof.
  intros Hp Hmain. rewrite Hp.
  exists (write_at p (set_value k (VString v) main) w).
  split; [now apply modify_Some |].
  split; [apply session_at_write_same |].
  split; [intros q Hq; now apply session_at_write_other |].
  rewrite (bind_Ok _ _ _ _ _ (deref_Some _ _ _ (session_at_write_same p _ w))).
  cbn [ret Values set_value with_Values]. f_equal.
  destruct (decide (k = k')) as [->|Hne].
  - now rewrite lookup_insert_eq.
  - now rewrite lookup_insert_ne.
Qed.

Lemma get_key (sd : SessionData) (w : World) (p : ptr) (main : Session) (k : string) :
  mainSession sd = Some p ->
  session_at w p = Some main ->
  (main' <- deref (mainSession sd) ;; ret (as_string (Values main' !! k))) w
  = Ok (as_string (Values main !! k)) w.
Proof.
  intros Hp Hmain. rewrite Hp.
  now rewrite (bind_Ok _ _ _ _ _ (deref_Some _ _ _ Hmain)).
Qed.

(** [GetAuthenticated] reads the keys [authenticated] and [created_at] of
    the main session and nothing else. *)
Lemma GetAuthenticated_reads (sd : SessionData) (w w' : World) (p : ptr)
    (main main' : Session) (now : Z) :
  mainSession sd = Some p ->
  session_at w p = Some main ->
  session_at w' p = Some main' ->
  Values main' !! "authenticated" = Values main !! "authenticated" ->
  Values main' !! "created_at" = Values main !! "created_at" ->
  exists b, GetAuthenticated sd now w = Ok b w /\
            GetAuthenticated sd now w' = Ok b w'.
Proof.
  intros Hp Hmain Hmain' Ha Hc. unfold GetAuthenticated. rewrite Hp.
  rewrite (bind_Ok _ _ _ _ _ (deref_Some _ _ _ Hmain)),
    (bind_Ok _ _ _ _ _ (deref_Some _ _ _ Hmain')).
  rewrite Ha, Hc.
  destruct (negb _); [eexists; split; reflexivity |].
  destruct (as_int64 _); eexists; split; reflexivity.
Qed.

Lemma string_fields_keys (i : nat) (a : accessor) :
  string_fields !! i = Some a ->
  exists k,
    ["csrf"; "nonce"; "code_verifier"; "email"; "incoming_path"] !! i = Some k /\
    (forall sd v, setter a sd v
       = modify (mainSession sd) (set_value k (VString v))) /\
    (forall sd w, getter a sd w
       = (main' <- deref (mainSession sd) ;;
          ret (as_string (Values main' !! k))) w) /\
    k <> "authenticated" /\ k <> "created_at".
Proof.
  intros H. destruct i as [|[|[|[|[|i]]]]]; try discriminate;
    injection H as <-; eexists; (split; [reflexivity |]);
    (split; [reflexivity |]); (split; [reflexivity |]); split; discriminate.
Qed.

(** X12.  The five string fields of the main session (CSRF token, nonce,
    code verifier, email, incoming path) are independent cells: after a
    setter, the getter of the same field returns the value set, the getter of
    any other field returns what it returned before, [GetAuthenticated]
    answers as before, and no other session is touched. *)
Theorem string_fields_set_get (sd : SessionData) (w : World) (p : ptr)
    (main : Session) (i j : nat) (a b : accessor) (v : string) :
  mainSession sd = Some p ->
  session_at w p = Some main ->
  string_fields !! i = Some a ->
  string_fields !! j = Some b ->
  exists w' old,
    getter b sd w = Ok old w /\
    setter a sd v w = Ok tt w' /\
    getter b sd w' = Ok (if decide (i = j) then v else old) w' /\
    (forall now, exists auth,
       GetAuthenticated sd now w = Ok auth w /\
       GetAuthenticated sd now w' = Ok auth w') /\
    (forall q, q <> p -> session_at w' q = session_at w q).
Proof.
  intros Hp Hmain Ha Hb.
  destruct (string_fields_keys i a Ha) as (k & Hki & Hset & _ & Hk1 & Hk2).
  destruct (string_fields_keys j b Hb) as (k' & Hkj & _ & Hget & _ & _).
  assert (Hiff : k = k' <-> i = j).
  { split; [intros <- | intros <-; congruence].
    eapply NoDup_lookup; [|exact Hki | exact Hkj].
    apply (bool_decide_unpack _). vm_compute. reflexivity. }
  specialize (Hset sd v).
  destruct (set_then_get_key sd w p main k k' v Hp Hmain)
    as (w' & Hrun & Hat & Hframe & Hread).
  exists w', (as_string (Values main !! k')).
  split; [rewrite Hget; now apply (get_key sd w p) |].
  split; [now rewrite Hset |].
  split.
  { rewrite Hget, Hread.
    destruct (decide (k = k')) as [Hkk|Hkk], (decide (i = j)) as [Hij|Hij];
      try reflexivity; exfalso; tauto. }
  split; [|exact Hframe].
  intros now.
  apply (GetAuthenticated_reads sd w w' p main _ now Hp Hmain Hat);
    cbn [Values set_value with_Values]; now rewrite lookup_insert_ne.
Qed.

(** ** Logging in and out *)

Lemma SetAuthenticated_true_run (sd : SessionData) (w : World) (p : ptr)
    (main : Session) (now : Z) (rnd : RandSource) :
  mainSession sd = Some p ->
  session_at w p = Some main ->
  rand_failure rnd = None ->
  exists w',
    SetAuthenticated sd true now rnd w = Ok None w' /\
    session_at w' p
    = Some (set_value "authenticated" (VBool true)
              (set_value "created_at" (VInt64 (Time_Unix now))
                 (with_ID (hex_EncodeToString (fill (rand_byte rnd) 0 32)) main))) /\
    (forall q, q <> p -> session_at w' q = session_at w q).
Proof.
  intros Hp Hmain Hrand. unfold SetAuthenticated. rewrite Hp.
  rewrite (generateSecureRandomString_ok rnd 32 Hrand).
  unfold bind at 1.
  rewrite (bind_Ok _ _ _ _ _ (modify_Some _ _ _ _ Hmain)).
  rewrite (bind_Ok _ _ _ _ _
             (modify_Some _ _ _ _ (session_at_write_same p _ w))).
  cbn [ret].
  rewrite (bind_Ok _ _ _ _ _
             (modify_Some _ _ _ _ (session_at_write_same p _ _))).
  eexists. split; [reflexivity |].
  split; [apply session_at_write_same |].
  intros q Hq. now rewrite !session_at_write_other.
Qed.

Lemma SetAuthenticated_false_run (sd : SessionData) (w : World) (p : ptr)
    (main : Session) (now : Z) (rnd : RandSource) :
  mainSession sd = Some p ->
  session_at w p = Some main ->
  exists w',
    SetAuthenticated sd false now rnd w = Ok None w' /\
    session_at w' p = Some (set_value "authenticated" (VBool false) main) /\
    (forall q, q <> p -> session_at w' q = session_at w q).
Proof.
  intros Hp Hmain. unfold SetAuthenticated. rewrite Hp.
  unfold bind at 1. cbn [ret].
  rewrite (bind_Ok _ _ _ _ _ (modify_Some _ _ _ _ Hmain)).
  eexists. split; [reflexivity |].
  split; [apply session_at_write_same |].
  intros q Hq. now rewrite session_at_write_other.
Qed.

(** [time.Unix(t.Unix(), 0)] is [t] cut to whole seconds, for every time
    Go can hold. *)
Lemma time_Unix_Time_Unix (now : Z) :
  representable now ->
  time_Unix (Time_Unix now) = (now / time_Second * time_Second)%Z.
Proof.
  intros Hrep. unfold time_Unix, Time_Unix. rewrite int64_add.
  replace (Time_sec now + internalToUnix + unixToInternal)%Z
    with (Time_sec now) by (unfold internalToUnix; lia).
  rewrite (int64_small _ Hrep). unfold Time_sec. lia.
Qed.

(** The stamp [SetAuthenticated] writes is the clock reading cut to whole
    seconds: at most one second before the reading. *)
Lemma stamp_near (now : Z) :
  representable now ->
  (time_Unix (Time_Unix now) <= now < time_Unix (Time_Unix now) + time_Second)%Z.
Proof.
  intros Hrep. rewrite (time_Unix_Time_Unix now Hrep). unfold time_Second.
  pose proof (Z.mul_div_le now 1000000000 ltac:(lia)).
  pose proof (Z.mul_succ_div_gt now 1000000000 ltac:(lia)).
  lia.
Qed.

(** X13.  After [SetAuthenticated(true)] at the instant [now], a time Go
    can hold, [GetAuthenticated] answers true at every instant up to 24 hours
    less one second after [now] (the stamp is cut to whole seconds) and false
    at every instant more than 24 hours after [now]; after
    [SetAuthenticated(false)] it answers false at every instant. *)
Theorem login_then_GetAuthenticated (sd : SessionData) (w : World) (p : ptr)
    (main : Session) (now : Z) (rnd : RandSource) :
  mainSession sd = Some p ->
  session_at w p = Some main ->
  rand_failure rnd = None ->
  representable now ->
  exists w',
    SetAuthenticated sd true now rnd w = Ok None w' /\
    (forall later,
       (later - now <= absoluteSessionTimeout - time_Second)%Z ->
       GetAuthenticated sd later w' = Ok true w') /\
    (forall later,
       (absoluteSessionTimeout < later - now)%Z ->
       GetAuthenticated sd later w' = Ok false w') /\
    (forall now' rnd', exists w'',
       SetAuthenticated sd false now' rnd' w' = Ok None w'' /\
       forall later, GetAuthenticated sd later w'' = Ok false w'').
Proof.
  intros Hp Hmain Hrand Hrep.
  destruct (SetAuthenticated_true_run sd w p main now rnd Hp Hmain Hrand)
    as (w' & Hrun & Hat & _).
  exists w'. split; [exact Hrun |].
  pose proof (stamp_near now Hrep) as Hstamp.
  assert (Hget : forall later,
    GetAuthenticated sd later w'
    = Ok (time_Since later (time_Unix (Time_Unix now)) <=? absoluteSessionTimeout)%Z w').
  { intros later. unfold GetAuthenticated. rewrite Hp.
    rewrite (bind_Ok _ _ _ _ _ (deref_Some _ _ _ Hat)).
    cbn [Values set_value with_Values with_ID].
    rewrite lookup_insert_eq. cbn [as_bool negb].
    rewrite lookup_insert_ne by discriminate. rewrite lookup_insert_eq.
    reflexivity. }
  split; [|split].
  - intros later Hlater. rewrite Hget. do 2 f_equal.
    apply Z.leb_le, elapsed_within. lia.
  - intros later Hlater. rewrite Hget. do 2 f_equal.
    apply Z.leb_gt, elapsed_beyond. lia.
  - intros now' rnd'.
    destruct (SetAuthenticated_false_run sd w' p _ now' rnd' Hp Hat)
      as (w'' & Hrun' & Hat' & _).
    exists w''. split; [exact Hrun' |].
    intros later. unfold GetAuthenticated. rewrite Hp.
    rewrite (bind_Ok _ _ _ _ _ (deref_Some _ _ _ Hat')).
    cbn [Values set_value with_Values]. rewrite lookup_insert_eq. reflexivity.
Qed.

(** ** Loading a session *)

Section LoadingMore.
Context {cc : CookieCodec}.
Variable sm : SessionManager.
Variable r : httpRequest.

(** With no entry in the registry, the store has a partition exactly when
    the request carries a cookie of that name that decodes. *)
Lemma present_cookie (w : World) (n : string) :
  registry w !! n = None ->
  present sm r w n = true <-> exists vals, Cookies r !! n = Some (Decodes vals).
Proof.
  intros Hreg. unfold present, loaded, store_New. rewrite Hreg. cbn [default].
  destruct (Cookies r !! n) as [[vals|e]|]; cbn; split; eauto;
    try discriminate; intros [? ?]; discriminate.
Qed.

(** The probing loop misses no partition: an index whose partitions up to
    it are all present is in the map it returns. *)
Lemma getTokenChunkSessions_loop_complete (baseName : string) :
  forall fuel i chunks w m' w',
    getTokenChunkSessions_loop sm fuel r baseName chunks i w = Ok m' w' ->
    (forall j, j < i -> is_Some (chunks !! j)) ->
    forall t, (forall j, j <= t -> present sm r w (sessionName baseName j) = true) ->
              is_Some (m' !! t).
Proof.
  induction fuel as [|fuel IH]; intros i chunks w m' w';
    rewrite getTokenChunkSessions_loop_unfold;
    destruct (present sm r w (sessionName baseName i)) eqn:Hp;
    try discriminate.
  - intros [= <- <-] Hbelow t Ht.
    destruct (decide (t < i)) as [Hlt|Hge]; [now apply Hbelow |].
    rewrite Ht in Hp by lia. discriminate.
  - intros Hrun Hbelow t Ht.
    apply (IH _ _ _ _ _ Hrun).
    + intros j Hj. destruct (decide (j = i)) as [->|Hne].
      * rewrite lookup_insert_eq. eauto.
      * rewrite lookup_insert_ne by lia. apply Hbelow. lia.
    + intros j Hj. rewrite present_touch. now apply Ht.
  - intros [= <- <-] Hbelow t Ht.
    destruct (decide (t < i)) as [Hlt|Hge]; [now apply Hbelow |].
    rewrite Ht in Hp by lia. discriminate.
Qed.

(** [getTokenChunkSessions] into an empty map: the map it returns holds
    index [i] exactly when the partitions [0 .. i] are all present. *)
Lemma getTokenChunkSessions_exact (baseName : string) (w : World) :
  exists m' w',
    getTokenChunkSessions sm r baseName ∅ w = Ok m' w' /\
    chunks_from_store sm r w baseName m' /\
    (forall i, is_Some (m' !! i) <->
       forall j, j <= i -> present sm r w (sessionName baseName j) = true) /\
    (forall i p, m' !! i = Some p -> is_Some (session_at w' p)) /\
    (forall n, loaded sm r w' n = loaded sm r w n) /\
    (forall n, is_Some (registry w !! n) -> is_Some (registry w' !! n)) /\
    retired w' = retired w /\ pool w' = pool w /\ response w' = response w.
Proof.
  destruct (getTokenChunkSessions_spec sm r baseName w)
    as (m' & w' & Hrun & Hshape & Hvalid & Hload & Hmono & Hframe).
  exists m', w'. split; [exact Hrun |]. split; [exact Hshape |].
  split; [|now repeat split].
  intros i. split.
  - intros [p Hp]. now apply (Hshape i p Hp).
  - intros Hall. unfold getTokenChunkSessions in Hrun.
    apply bind_inv in Hrun as (fuel & w0 & Hfuel & Hrun).
    injection Hfuel as <- <-.
    apply (getTokenChunkSessions_loop_complete _ _ _ _ _ _ _ Hrun);
      [intros j Hj; lia | exact Hall].
Qed.

(** The second half of [GetSession], in full: which result it returns and
    what it leaves behind. *)
Lemma GetSession_tokens_run (sd : SessionData) (w : World) :
  request sd = Some r ->
  mainSession sd = Some (Reg mainCookieName) ->
  is_Some (registry w !! mainCookieName) ->
  exists res w',
    GetSession_tokens sm sd r w = Ok res w' /\
    (forall n, loaded sm r w' n = loaded sm r w n) /\
    (forall n, is_Some (registry w !! n) -> is_Some (registry w' !! n)) /\
    retired w' = retired w /\ response w' = response w /\
    match snd (loaded sm r w accessTokenCookie),
          snd (loaded sm r w refreshTokenCookie) with
    | Some cause, _ =>
        res = Error (wrap "failed to get access token session" cause) /\
        exists back, pool w' = back :: pool w /\ request back = Some r
    | None, Some cause =>
        res = Error (wrap "failed to get refresh token session" cause) /\
        exists back, pool w' = back :: pool w /\ request back = Some r
    | None, None =>
        exists sd', res = Value sd' /\ loaded_session sm r sd' w' /\
          pool w' = pool w /\
          (forall i, is_Some (accessTokenChunks sd' !! i) <->
             forall j, j <= i ->
               present sm r w (sessionName accessTokenCookie j) = true) /\
          (forall i, is_Some (refreshTokenChunks sd' !! i) <->
             forall j, j <= i ->
               present sm r w (sessionName refreshTokenCookie j) = true)
    end.
Proof.
  intros Hr Hmain Hreg. unfold GetSession_tokens.
  rewrite (bind_Ok _ _ _ _ _ (store_Get_Some sm r accessTokenCookie w)).
  cbn [fst snd].
  set (w1 := update_entry sm r accessTokenCookie (fun s => s) w).
  assert (Hload1 : forall n, loaded sm r w1 n = loaded sm r w n)
    by (intros n; apply loaded_touch).
  assert (Hmono1 : forall n, is_Some (registry w !! n) ->
                             is_Some (registry w1 !! n))
    by (intros n; apply registered_update).
  destruct (snd (loaded sm r w accessTokenCookie)) as [e|] eqn:Hea.
  { eexists. eexists. split; [reflexivity |].
    split; [exact Hload1 |]. split; [exact Hmono1 |].
    split; [reflexivity |]. split; [reflexivity |].
    split; [reflexivity |]. eexists. split; [reflexivity | exact Hr]. }
  rewrite (bind_Ok _ _ _ _ _ (store_Get_Some sm r refreshTokenCookie w1)).
  cbn [fst snd].
  set (w2 := update_entry sm r refreshTokenCookie (fun s => s) w1).
  assert (Hload2 : forall n, loaded sm r w2 n = loaded sm r w n)
    by (intros n; subst w2; now rewrite loaded_touch).
  assert (Hmono2 : forall n, is_Some (registry w !! n) ->
                             is_Some (registry w2 !! n))
    by (intros n Hn; subst w2; now apply registered_update, Hmono1).
  rewrite Hload1.
  destruct (snd (loaded sm r w refreshTokenCookie)) as [e|] eqn:Her.
  { eexists. eexists. split; [reflexivity |].
    split; [exact Hload2 |]. split; [exact Hmono2 |].
    split; [reflexivity |]. split; [reflexivity |].
    split; [reflexivity |]. eexists. split; [reflexivity | exact Hr]. }
  cbn [accessTokenChunks refreshTokenChunks with_accessTokenChunks
         with_refreshTokenChunks with_accessSession with_refreshSession].
  destruct (getTokenChunkSessions_exact accessTokenCookie w2)
    as (a & w3 & Ha & Hashape & Haexact & Havalid & Haload & Hamono
          & Haret & Hapool & Haresp).
  rewrite (bind_Ok _ _ _ _ _ Ha).
  destruct (getTokenChunkSessions_exact refreshTokenCookie w3)
    as (b & w4 & Hb & Hbshape & Hbexact & Hbvalid & Hbload & Hbmono
          & Hbret & Hbpool & Hbresp).
  rewrite (bind_Ok _ _ _ _ _ Hb).
  assert (Hload4 : forall n, loaded sm r w4 n = loaded sm r w n)
    by (intros n; now rewrite Hbload, Haload, Hload2).
  assert (Hmono4 : forall n, is_Some (registry w !! n) ->
                             is_Some (registry w4 !! n))
    by (intros n Hn; now apply Hbmono, Hamono, Hmono2).
  assert (Hacc : is_Some (registry w4 !! accessTokenCookie)).
  { apply Hbmono, Hamono. subst w2. apply registered_update.
    subst w1. rewrite registry_update_same. eauto. }
  assert (Href : is_Some (registry w4 !! refreshTokenCookie)).
  { apply Hbmono, Hamono. subst w2. rewrite registry_update_same. eauto. }
  eexists. eexists. split; [reflexivity |].
  split; [exact Hload4 |]. split; [exact Hmono4 |].
  split; [now rewrite Hbret, Haret |].
  split; [now rewrite Hbresp, Haresp |].
  eexists. split; [reflexivity |].
  split; [|split; [now rewrite Hbpool, Hapool | split]].
  - unfold loaded_session. cbn.
    split; [exact Hr |]. split; [exact Hmain |].
    split; [reflexivity |]. split; [reflexivity |].
    split; [now apply Hmono4 |]. split; [exact Hacc |]. split; [exact Href |].
    split; [|split; [|split]].
    + apply (chunks_from_store_loaded sm r w2); [|exact Hashape].
      intros n. now rewrite Hbload, Haload.
    + apply (chunks_from_store_loaded sm r w3); [exact Hbload | exact Hbshape].
    + intros i p Hp. destruct (Havalid i p Hp) as [s Hs].
      destruct p as [n|q]; simpl in *.
      * destruct (registry w3 !! n) as [se|] eqn:Hn; [|discriminate].
        destruct (Hbmono n) as [se' Hse']; [eauto |]. rewrite Hse'. eauto.
      * rewrite Hbret. eauto.
    + exact Hbvalid.
  - cbn. intros i. rewrite Haexact. unfold present.
    split; intros H j Hj; specialize (H j Hj);
      [rewrite <- !Hload2 | rewrite !Hload2]; exact H.
  - cbn. intros i. rewrite Hbexact. unfold present.
    split; intros H j Hj; specialize (H j Hj);
      [rewrite <- !Hload2, <- !Haload | rewrite !Haload, !Hload2]; exact H.
Qed.

(** The session [store.Get] creates and registers. *)
Lemma registered_loaded (w : World) (n : string) :
  is_Some (registry w !! n) ->
  registry w !! n = Some (loaded sm r w n).
Proof. intros [se Hse]. now rewrite (loaded_registered sm r _ _ _ Hse). Qed.

(** [GetSession] on a request whose main cookie is not older than the
    absolute timeout, in full. *)
Lemma GetSession_run (pooled : SessionData) (now : Z) (w : World) :
  (forall createdAt,
     snd (loaded sm r w mainCookieName) = None ->
     as_int64 (Values (fst (loaded sm r w mainCookieName)) !! "created_at")
       = Some createdAt ->
     (now - time_Unix createdAt <= absoluteSessionTimeout)%Z) ->
  exists res w',
    GetSession sm pooled now r w = Ok res w' /\
    (forall n, loaded sm r w' n = loaded sm r w n) /\
    (forall n, is_Some (registry w !! n) -> is_Some (registry w' !! n)) /\
    retired w' = retired w /\ response w' = response w /\
    match snd (loaded sm r w mainCookieName),
          snd (loaded sm r w accessTokenCookie),
          snd (loaded sm r w refreshTokenCookie) with
    | Some cause, _, _ =>
        res = Error (wrap "failed to get main session" cause) /\
        exists back, pool w' = back :: pool w /\ request back = Some r
    | None, Some cause, _ =>
        res = Error (wrap "failed to get access token session" cause) /\
        exists back, pool w' = back :: pool w /\ request back = Some r
    | None, None, Some cause =>
        res = Error (wrap "failed to get refresh token session" cause) /\
        exists back, pool w' = back :: pool w /\ request back = Some r
    | None, None, None =>
        exists sd', res = Value sd' /\ loaded_session sm r sd' w' /\
          pool w' = pool w /\
          (forall i, is_Some (accessTokenChunks sd' !! i) <->
             forall j, j <= i ->
               present sm r w (sessionName accessTokenCookie j) = true) /\
          (forall i, is_Some (refreshTokenChunks sd' !! i) <->
             forall j, j <= i ->
               present sm r w (sessionName refreshTokenCookie j) = true)
    end.
Proof.
  intros Hfresh. unfold GetSession.
  rewrite (bind_Ok _ _ _ _ _ (store_Get_Some sm r mainCookieName w)).
  cbn [fst snd].
  pose (w1 := update_entry sm r mainCookieName (fun s => s) w).
  assert (Hload1 : forall n, loaded sm r w1 n = loaded sm r w n)
    by (intros n; apply loaded_touch).
  assert (Hmono1 : forall n, is_Some (registry w !! n) ->
                             is_Some (registry w1 !! n))
    by (intros n; apply registered_update).
  destruct (snd (loaded sm r w mainCookieName)) as [e|] eqn:Hem.
  { eexists. eexists. split; [reflexivity |].
    split; [exact Hload1 |]. split; [exact Hmono1 |].
    split; [reflexivity |]. split; [reflexivity |].
    split; [reflexivity |]. eexists. split; reflexivity. }
  cbn [mainSession with_mainSession].
  rewrite (bind_Ok _ _ _ _ _ (deref_Some _ _ _ (session_at_update sm r _ _ w))).
  pose (sd1 := with_mainSession (Some (Reg mainCookieName))
                (with_request (Some r) pooled)).
  assert (Htokens : exists res w',
    GetSession_tokens sm sd1 r w1 = Ok res w' /\
    (forall n, loaded sm r w' n = loaded sm r w n) /\
    (forall n, is_Some (registry w !! n) -> is_Some (registry w' !! n)) /\
    retired w' = retired w /\ response w' = response w /\
    match snd (loaded sm r w accessTokenCookie),
          snd (loaded sm r w refreshTokenCookie) with
    | Some cause, _ =>
        res = Error (wrap "failed to get access token session" cause) /\
        exists back, pool w' = back :: pool w /\ request back = Some r
    | None, Some cause =>
        res = Error (wrap "failed to get refresh token session" cause) /\
        exists back, pool w' = back :: pool w /\ request back = Some r
    | None, None =>
        exists sd', res = Value sd' /\ loaded_session sm r sd' w' /\
          pool w' = pool w /\
          (forall i, is_Some (accessTokenChunks sd' !! i) <->
             forall j, j <= i ->
               present sm r w (sessionName accessTokenCookie j) = true) /\
          (forall i, is_Some (refreshTokenChunks sd' !! i) <->
             forall j, j <= i ->
               present sm r w (sessionName refreshTokenCookie j) = true)
    end).
  { destruct (GetSession_tokens_run sd1 w1) as (res & w' & Hrun & Hl & Hm & Hret & Hresp & Hcase);
      [reflexivity | reflexivity | |].
    - subst w1. rewrite registry_update_same. eauto.
    - exists res, w'. split; [exact Hrun |].
      split; [intros n; now rewrite Hl |].
      split; [intros n Hn; now apply Hm, Hmono1 |].
      split; [exact Hret |]. split; [exact Hresp |].
      rewrite !Hload1 in Hcase. unfold present in *.
      destruct (snd (loaded sm r w accessTokenCookie));
        [exact Hcase |].
      destruct (snd (loaded sm r w refreshTokenCookie));
        [exact Hcase |].
      destruct Hcase as (sd' & Hres & Hls & Hpool & Hac & Hrc).
      exists sd'. split; [exact Hres |]. split; [exact Hls |].
      split; [exact Hpool |]. split.
      + intros i. rewrite Hac. split; intros H j Hj; specialize (H j Hj);
          [rewrite <- !Hload1 | rewrite !Hload1]; exact H.
      + intros i. rewrite Hrc. split; intros H j Hj; specialize (H j Hj);
          [rewrite <- !Hload1 | rewrite !Hload1]; exact H. }
  destruct (as_int64 _) as [createdAt|] eqn:Hc; [|exact Htokens].
  destruct (absoluteSessionTimeout <? _)%Z eqn:Hlate; [|exact Htokens].
  exfalso. apply Z.ltb_lt, elapsed_beyond in Hlate.
  specialize (Hfresh createdAt eq_refl eq_refl). lia.
Qed.

End LoadingMore.

(** X14.  [GetSession] returns, whatever object the pool hands out, when
    the main cookie is not older than 24 hours, its age counted from
    [time.Unix(created_at, 0)] (a stamp on which [time.Unix] overflows counts
    as older): with the error of the first
    of the main, access and refresh cookies that the store cannot decode
    (the object then goes back to the pool, still attached to the request),
    and otherwise with a session bound to the request whose three partitions
    are registered; no header is written either way. *)
Theorem GetSession_returns {cc : CookieCodec} (sm : SessionManager)
    (pooled : SessionData) (now : Z) (r : httpRequest) (w : World) :
  (forall createdAt,
     snd (loaded sm r w mainCookieName) = None ->
     as_int64 (Values (fst (loaded sm r w mainCookieName)) !! "created_at")
       = Some createdAt ->
     (now - time_Unix createdAt <= absoluteSessionTimeout)%Z) ->
  exists res w',
    GetSession sm pooled now r w = Ok res w' /\
    response w' = response w /\
    match snd (loaded sm r w mainCookieName),
          snd (loaded sm r w accessTokenCookie),
          snd (loaded sm r w refreshTokenCookie) with
    | Some cause, _, _ =>
        res = Error ("failed to get main session: " +:+ cause) /\
        exists back, pool w' = back :: pool w /\ request back = Some r
    | None, Some cause, _ =>
        res = Error ("failed to get access token session: " +:+ cause) /\
        exists back, pool w' = back :: pool w /\ request back = Some r
    | None, None, Some cause =>
        res = Error ("failed to get refresh token session: " +:+ cause) /\
        exists back, pool w' = back :: pool w /\ request back = Some r
    | None, None, None =>
        exists sd, res = Value sd /\ loaded_session sm r sd w' /\ pool w' = pool w
    end.
Proof.
  intros Hfresh.
  destruct (GetSession_run sm r pooled now w Hfresh)
    as (res & w' & Hrun & _ & _ & _ & Hresp & Hcase).
  exists res, w'. split; [exact Hrun |]. split; [exact Hresp |].
  destruct (snd (loaded sm r w mainCookieName)); [exact Hcase |].
  destruct (snd (loaded sm r w accessTokenCookie)); [exact Hcase |].
  destruct (snd (loaded sm r w refreshTokenCookie)); [exact Hcase |].
  destruct Hcase as (sd & Hres & Hls & Hpool & _). eauto.
Qed.

(** X15.  At the start of a request (empty registry) the chunk maps of the
    session [GetSession] returns hold index [i] exactly when the request
    carries decodable cookies [<base>_0] to [<base>_i] without a gap; the
    entry then points to the registry's session of that name, which holds
    the cookie's values.  A chunk cookie behind a gap is never loaded. *)
Theorem GetSession_chunks_contiguous {cc : CookieCodec} (sm : SessionManager)
    (pooled : SessionData) (now : Z) (r : httpRequest) (w w' : World)
    (sd : SessionData) :
  registry w = ∅ ->
  GetSession sm pooled now r w = Ok (Value sd) w' ->
  forall baseName chunks,
    (baseName = accessTokenCookie /\ chunks = accessTokenChunks sd) \/
    (baseName = refreshTokenCookie /\ chunks = refreshTokenChunks sd) ->
    forall i,
      (is_Some (chunks !! i) <->
       forall j, j <= i ->
         exists vals, Cookies r !! sessionName baseName j = Some (Decodes vals)) /\
      (forall p, chunks !! i = Some p ->
         p = Reg (sessionName baseName i) /\
         exists s vals, session_at w' p = Some s /\
           Cookies r !! sessionName baseName i = Some (Decodes vals) /\
           Values s = vals).
Proof.
  intros Hempty Hrun.
  assert (Hnone : forall n, registry w !! n = None)
    by (intros n; rewrite Hempty; apply lookup_empty).
  assert (Hfresh : forall createdAt,
     snd (loaded sm r w mainCookieName) = None ->
     as_int64 (Values (fst (loaded sm r w mainCookieName)) !! "created_at")
       = Some createdAt ->
     (now - time_Unix createdAt <= absoluteSessionTimeout)%Z).
  { intros createdAt He Hc.
    destruct (Z_le_gt_dec (now - time_Unix createdAt) absoluteSessionTimeout)
      as [Hle|Hgt]; [exact Hle |].
    exfalso. revert Hrun. unfold GetSession.
    rewrite (bind_Ok _ _ _ _ _ (store_Get_Some sm r mainCookieName w)).
    cbn [fst snd]. rewrite He. cbn [mainSession with_mainSession].
    rewrite (bind_Ok _ _ _ _ _ (deref_Some _ _ _ (session_at_update sm r _ _ w))).
    rewrite Hc.
    assert (Hlate : (absoluteSessionTimeout
                     <? time_Since now (time_Unix createdAt))%Z = true)
      by (apply Z.ltb_lt, elapsed_beyond; lia).
    rewrite Hlate. intros H. apply bind_inv in H as (? & ? & _ & H).
    discriminate. }
  destruct (GetSession_run sm r pooled now w Hfresh)
    as (res & w0 & Hrun' & Hload & _ & _ & _ & Hcase).
  rewrite Hrun in Hrun'. injection Hrun' as <- <-.
  destruct (snd (loaded sm r w mainCookieName)); [destruct Hcase; discriminate |].
  destruct (snd (loaded sm r w accessTokenCookie)); [destruct Hcase; discriminate |].
  destruct (snd (loaded sm r w refreshTokenCookie)); [destruct Hcase; discriminate |].
  destruct Hcase as (sd' & [= <-] & Hls & _ & Hac & Hrc).
  destruct Hls as (_ & _ & _ & _ & _ & _ & _ & Hashape & Hrshape & Havalid & Hrvalid).
  assert (Hboth : forall baseName chunks,
    chunks_from_store sm r w' baseName chunks ->
    (forall i p, chunks !! i = Some p -> is_Some (session_at w' p)) ->
    (forall i, is_Some (chunks !! i) <->
       forall j, j <= i -> present sm r w (sessionName baseName j) = true) ->
    forall i,
      (is_Some (chunks !! i) <->
       forall j, j <= i ->
         exists vals, Cookies r !! sessionName baseName j = Some (Decodes vals)) /\
      (forall p, chunks !! i = Some p ->
         p = Reg (sessionName baseName i) /\
         exists s vals, session_at w' p = Some s /\
           Cookies r !! sessionName baseName i = Some (Decodes vals) /\
           Values s = vals)).
  { intros baseName chunks Hshape Hvalid Hexact i. split.
    - rewrite Hexact. split; intros H j Hj; specialize (H j Hj);
        now apply (present_cookie sm r w _ (Hnone _)).
    - intros p Hp. destruct (Hshape i p Hp) as [-> _].
      split; [reflexivity |].
      destruct (Hvalid i _ Hp) as [s Hs]. exists s.
      assert (Hpres : present sm r w (sessionName baseName i) = true)
        by (apply (proj1 (Hexact i)); eauto).
      apply (present_cookie sm r w _ (Hnone _)) in Hpres as [vals Hvals].
      exists vals. split; [exact Hs |]. split; [exact Hvals |].
      simpl in Hs.
      destruct (registry w' !! sessionName baseName i) as [se|] eqn:Hse;
        [|discriminate].
      injection Hs as <-.
      rewrite <- (loaded_registered sm r _ _ _ Hse), Hload.
      unfold loaded, store_New. rewrite Hnone, Hvals. reflexivity. }
  intros baseName chunks [[-> ->]|[-> ->]]; now apply Hboth.
Qed.

(** ** Clearing a session *)

Section Clearing.
Context {cc : CookieCodec}.
Variable sm : SessionManager.
Variable r : httpRequest.

Lemma cleared_trans (T E1 V1 E2 V2 : string -> Prop) (w1 w2 w3 : World) :
  cleared_within T E1 V1 w1 w2 ->
  cleared_within T E2 V2 w2 w3 ->
  cleared_within T (fun n => E1 n \/ E2 n) (fun n => V1 n \/ V2 n) w1 w3.
Proof.
  intros (Hr1 & Hp1 & Hh1 & H1) (Hr2 & Hp2 & Hh2 & H2).
  split; [congruence |]. split; [congruence |]. split; [congruence |].
  intros n. specialize (H1 n). specialize (H2 n).
  destruct (registry w1 !! n) as [[s e]|].
  - destruct H1 as (s1 & Hs1 & Hsame1 & Hn1 & Hi1 & Hnew1 & Hv1 & Hm1).
    rewrite Hs1 in H2.
    destruct H2 as (s2 & Hs2 & Hsame2 & Hn2 & Hi2 & Hnew2 & Hv2 & Hm2).
    exists s2. split; [exact Hs2 |].
    split; [intros HT; rewrite Hsame2, Hsame1 by exact HT; reflexivity |].
    split; [congruence |]. split; [congruence |]. split; [congruence |].
    split; [intros [Hv|[Hv|Hv]]; auto | intros [Hm|[Hm|Hm]]; auto].
  - now rewrite H1 in H2.
Qed.

Lemma cleared_weaken (T E V E' V' : string -> Prop) (w w' : World) :
  (forall n, E' n -> E n) -> (forall n, V' n -> V n) ->
  cleared_within T E V w w' -> cleared_within T E' V' w w'.
Proof.
  intros HE HV (Hr & Hp & Hh & H).
  split; [exact Hr |]. split; [exact Hp |]. split; [exact Hh |].
  intros n. specialize (H n). destruct (registry w !! n) as [[s e]|]; [|exact H].
  destruct H as (s' & Hs' & Hsame & Hn & Hi & Hnew & Hv & Hm).
  exists s'. repeat (split; [assumption |]).
  split; [intros [?|?]; auto | intros [?|?]; auto].
Qed.

Lemma cleared_registered (T E V : string -> Prop) (w w' : World) (n : string) :
  cleared_within T E V w w' ->
  is_Some (registry w !! n) -> is_Some (registry w' !! n).
Proof.
  intros (_ & _ & _ & H) [[s e] Hse]. specialize (H n). rewrite Hse in H.
  destruct H as (s' & Hs' & _). eauto.
Qed.

(** One assignment of [Clear] to a registered session: [f] is
    [expire_options] or the emptying of the values. *)
Lemma update_cleared (T E V : string -> Prop) (f : Session -> Session)
    (n : string) (w : World) :
  T n -> is_Some (registry w !! n) ->
  (forall s, name (f s) = name s /\ ID (f s) = ID s /\ IsNew (f s) = IsNew s) ->
  (forall s, Values s = ∅ \/ V n -> Values (f s) = ∅) ->
  (forall s, MaxAge (Opts s) = (-1)%Z \/ E n -> MaxAge (Opts (f s)) = (-1)%Z) ->
  (forall m, E m -> m = n) -> (forall m, V m -> m = n) ->
  cleared_within T E V w (update_entry sm r n f w).
Proof.
  intros HT [[s e] Hse] Hid Hv Hm HE HV.
  destruct (update_frame sm r n f w) as (Hr & Hp & Hh).
  split; [exact Hr |]. split; [exact Hp |]. split; [exact Hh |].
  intros m. destruct (decide (n = m)) as [<-|Hne].
  - rewrite Hse, registry_update_same, (loaded_registered sm r _ _ _ Hse).
    exists (f s). split; [reflexivity |]. split; [tauto |].
    destruct (Hid s) as (? & ? & ?).
    repeat (split; [assumption |]). split; [apply Hv | apply Hm].
  - rewrite registry_update_other by exact Hne.
    destruct (registry w !! m) as [[s' e']|]; [|reflexivity].
    exists s'. split; [reflexivity |]. split; [reflexivity |].
    split; [reflexivity |]. split; [reflexivity |]. split; [reflexivity |].
    split; [intros [?|HVm]; [assumption | apply HV in HVm; congruence] |
            intros [?|HEm]; [assumption | apply HE in HEm; congruence]].
Qed.

Lemma expire_cleared (T : string -> Prop) (n : string) (w : World) :
  T n -> is_Some (registry w !! n) ->
  cleared_within T (fun m => m = n) (fun _ => False) w
    (update_entry sm r n expire_options w).
Proof.
  intros HT Hreg.
  apply update_cleared;
    [exact HT | exact Hreg | intros s; now repeat split
    | intros s [H|[]]; exact H | intros s _; reflexivity
    | intros m H; exact H | intros m []].
Qed.

Lemma empty_cleared (T : string -> Prop) (n : string) (w : World) :
  T n -> is_Some (registry w !! n) ->
  cleared_within T (fun _ => False) (fun m => m = n) w
    (update_entry sm r n (with_Values ∅) w).
Proof.
  intros HT Hreg.
  apply update_cleared;
    [exact HT | exact Hreg | intros s; now repeat split
    | intros s _; reflexivity | intros s [H|[]]; exact H
    | intros m [] | intros m H; exact H].
Qed.

(** The loop of [clearTokenChunks] over registered sessions. *)
Lemma clear_list_run (T : string -> Prop) (ps : list ptr) :
  forall w,
    (forall p, p ∈ ps ->
       exists n, p = Reg n /\ T n /\ is_Some (registry w !! n)) ->
    exists w',
      for_each ps (fun p =>
        modify (Some p) expire_options ;; modify (Some p) (with_Values ∅)) w
        = Ok tt w' /\
      cleared_within T (fun n => Reg n ∈ ps) (fun n => Reg n ∈ ps) w w'.
Proof.
  induction ps as [|p ps IH]; intros w Hps.
  - exists w. split; [reflexivity |].
    split; [reflexivity |]. split; [reflexivity |]. split; [reflexivity |].
    intros n. destruct (registry w !! n) as [[s e]|]; [|reflexivity].
    exists s. repeat (split; [reflexivity |]).
    split; (intros [H|H]; [exact H | now apply elem_of_nil in H]).
  - destruct (Hps p) as (n & -> & HT & Hreg); [apply elem_of_cons; auto |].
    cbn [for_each].
    pose proof (expire_cleared T n w HT Hreg) as H1.
    set (w1 := update_entry sm r n expire_options w) in *.
    assert (Hreg1 : is_Some (registry w1 !! n))
      by (eapply cleared_registered; eauto).
    pose proof (empty_cleared T n w1 HT Hreg1) as H2.
    set (w2 := update_entry sm r n (with_Values ∅) w1) in *.
    destruct (IH w2) as (w' & Hrun & H3).
    { intros q Hq. destruct (Hps q) as (m & -> & HTm & Hm);
        [apply elem_of_cons; auto |].
      exists m. split; [reflexivity |]. split; [exact HTm |].
      eapply cleared_registered; [exact H2 |].
      eapply cleared_registered; [exact H1 | exact Hm]. }
    exists w'. split.
    + unfold bind at 1. unfold bind at 1.
      rewrite (modify_registered sm r n expire_options w Hreg).
      fold w1. rewrite (modify_registered sm r n (with_Values ∅) w1 Hreg1).
      fold w2. exact Hrun.
    + pose proof (cleared_trans _ _ _ _ _ _ _ _
                    (cleared_trans _ _ _ _ _ _ _ _ H1 H2) H3) as H.
      revert H. apply cleared_weaken; intros m Hm; cbv beta;
        apply elem_of_cons in Hm as [[= ->]|Hm]; auto.
Qed.

Lemma chunk_sessions_elem (chunks : gmap nat ptr) (p : ptr) :
  p ∈ chunk_sessions chunks <-> exists i, chunks !! i = Some p.
Proof.
  unfold chunk_sessions. rewrite list_elem_of_fmap. split.
  - intros ([i q] & -> & Hin). apply elem_of_map_to_list in Hin. eauto.
  - intros [i Hi]. exists (i, p). split; [reflexivity |].
    now apply elem_of_map_to_list.
Qed.

(** [clearTokenChunks] on a chunk map of the shape [GetSession] returns. *)
Lemma clearTokenChunks_run (T : string -> Prop) (baseName : string)
    (chunks : gmap nat ptr) (w0 w : World) :
  chunks_from_store sm r w0 baseName chunks ->
  (forall i, is_Some (chunks !! i) ->
     T (sessionName baseName i) /\
     is_Some (registry w !! sessionName baseName i)) ->
  exists w',
    clearTokenChunks chunks w = Ok tt w' /\
    cleared_within T
      (fun n => exists i, is_Some (chunks !! i) /\ n = sessionName baseName i)
      (fun n => exists i, is_Some (chunks !! i) /\ n = sessionName baseName i)
      w w'.
Proof.
  intros Hshape Hreg. unfold clearTokenChunks.
  destruct (clear_list_run T (chunk_sessions chunks) w) as (w' & Hrun & H).
  - intros p Hp. apply chunk_sessions_elem in Hp as [i Hi].
    destruct (Hshape i p Hi) as [-> _].
    exists (sessionName baseName i). split; [reflexivity |].
    apply Hreg. eauto.
  - exists w'. split; [exact Hrun |].
    revert H. apply cleared_weaken; intros n (i & [p Hi] & ->);
      apply chunk_sessions_elem; exists i;
      destruct (Hshape i p Hi) as [-> _]; exact Hi.
Qed.

Lemma loaded_chunk_registered (baseName : string) (chunks : gmap nat ptr)
    (w : World) (i : nat) :
  chunks_from_store sm r w baseName chunks ->
  (forall i p, chunks !! i = Some p -> is_Some (session_at w p)) ->
  is_Some (chunks !! i) ->
  is_Some (registry w !! sessionName baseName i).
Proof.
  intros Hshape Hvalid [p Hp]. destruct (Hshape i p Hp) as [-> _].
  destruct (Hvalid i _ Hp) as [s Hs]. simpl in Hs.
  destruct (registry w !! sessionName baseName i); [eauto | discriminate].
Qed.

(** The assignments of [Clear] on a loaded session, up to the call of
    [Save]. *)
Lemma Clear_steps_run (sd : SessionData) (wr : option httpResponseWriter)
    (w : World) :
  loaded_session sm r sd w ->
  exists w0,
    Clear sm sd r wr w
    = (err <- match wr with
              | Some wr => Save sm sd r wr
              | None => ret None
              end ;;
       sessionPool_Put (with_request None sd) ;;
       ret (with_request None sd, err)) w0 /\
    cleared_within (partition_names sd) (partition_names sd)
      (partition_names sd) w w0.
Proof.
  intros (Hr & Hm & Ha & Hf & Hrm & Hra & Hrf & Hashape & Hfshape
            & Havalid & Hfvalid).
  set (T := partition_names sd).
  assert (HTm : T mainCookieName) by (left; reflexivity).
  assert (HTa : T accessTokenCookie) by (right; left; reflexivity).
  assert (HTf : T refreshTokenCookie) by (right; right; left; reflexivity).
  pose proof (expire_cleared T _ w HTm Hrm) as H1.
  set (w1 := update_entry sm r mainCookieName expire_options w) in *.
  assert (Hra1 : is_Some (registry w1 !! accessTokenCookie))
    by (eapply cleared_registered; eauto).
  pose proof (expire_cleared T _ w1 HTa Hra1) as H2.
  set (w2 := update_entry sm r accessTokenCookie expire_options w1) in *.
  pose proof (cleared_trans _ _ _ _ _ _ _ _ H1 H2) as H12.
  assert (Hrf2 : is_Some (registry w2 !! refreshTokenCookie))
    by (eapply cleared_registered; eauto).
  pose proof (expire_cleared T _ w2 HTf Hrf2) as H3.
  set (w3 := update_entry sm r refreshTokenCookie expire_options w2) in *.
  pose proof (cleared_trans _ _ _ _ _ _ _ _ H12 H3) as H13.
  assert (Hrm3 : is_Some (registry w3 !! mainCookieName))
    by (eapply cleared_registered; eauto).
  pose proof (empty_cleared T _ w3 HTm Hrm3) as H4.
  set (w4 := update_entry sm r mainCookieName (with_Values ∅) w3) in *.
  pose proof (cleared_trans _ _ _ _ _ _ _ _ H13 H4) as H14.
  assert (Hra4 : is_Some (registry w4 !! accessTokenCookie))
    by (eapply cleared_registered; eauto).
  pose proof (empty_cleared T _ w4 HTa Hra4) as H5.
  set (w5 := update_entry sm r accessTokenCookie (with_Values ∅) w4) in *.
  pose proof (cleared_trans _ _ _ _ _ _ _ _ H14 H5) as H15.
  assert (Hrf5 : is_Some (registry w5 !! refreshTokenCookie))
    by (eapply cleared_registered; eauto).
  pose proof (empty_cleared T _ w5 HTf Hrf5) as H6.
  set (w6 := update_entry sm r refreshTokenCookie (with_Values ∅) w5) in *.
  pose proof (cleared_trans _ _ _ _ _ _ _ _ H15 H6) as H16.
  destruct (clearTokenChunks_run T accessTokenCookie (accessTokenChunks sd) w w6
              Hashape) as (w7 & Hrun7 & H7).
  { intros i Hi. split; [right; right; right; left; eauto |].
    eapply cleared_registered; [exact H16 |].
    eapply loaded_chunk_registered; eauto. }
  pose proof (cleared_trans _ _ _ _ _ _ _ _ H16 H7) as H17.
  destruct (clearTokenChunks_run T refreshTokenCookie (refreshTokenChunks sd) w w7
              Hfshape) as (w8 & Hrun8 & H8).
  { intros i Hi. split; [right; right; right; right; eauto |].
    eapply cleared_registered; [exact H17 |].
    eapply loaded_chunk_registered; eauto. }
  pose proof (cleared_trans _ _ _ _ _ _ _ _ H17 H8) as H18.
  exists w8. split.
  - unfold Clear. rewrite Hm, Ha, Hf.
    rewrite (bind_Ok _ _ _ _ _ (modify_registered sm r _ expire_options w Hrm)).
    fold w1.
    rewrite (bind_Ok _ _ _ _ _ (modify_registered sm r _ expire_options w1 Hra1)).
    fold w2.
    rewrite (bind_Ok _ _ _ _ _ (modify_registered sm r _ expire_options w2 Hrf2)).
    fold w3.
    rewrite (bind_Ok _ _ _ _ _ (modify_registered sm r _ (with_Values ∅) w3 Hrm3)).
    fold w4.
    rewrite (bind_Ok _ _ _ _ _ (modify_registered sm r _ (with_Values ∅) w4 Hra4)).
    fold w5.
    rewrite (bind_Ok _ _ _ _ _ (modify_registered sm r _ (with_Values ∅) w5 Hrf5)).
    fold w6.
    rewrite (bind_Ok _ _ _ _ _ Hrun7), (bind_Ok _ _ _ _ _ Hrun8).
    reflexivity.
  - revert H18. apply cleared_weaken; intros n Hn; cbv beta;
      destruct Hn as [->|[->|[->|[Hn|Hn]]]]; tauto.
Qed.

(** [Clear] without a response writer, on a loaded session. *)
Lemma Clear_nil_run (sd : SessionData) (w : World) :
  loaded_session sm r sd w ->
  exists w0,
    Clear sm sd r None w
    = Ok (with_request None sd, None)
         (with_pool (with_request None sd :: pool w0) w0) /\
    cleared_within (partition_names sd) (partition_names sd)
      (partition_names sd) w w0.
Proof.
  intros Hls. destruct (Clear_steps_run sd None w Hls) as (w0 & Hrun & Hc).
  exists w0. split; [rewrite Hrun; reflexivity | exact Hc].
Qed.

End Clearing.

(** A session of the registry after [Clear]. *)
Lemma cleared_session (T E V : string -> Prop) (w w' : World) (p : ptr)
    (s : Session) :
  cleared_within T E V w w' ->
  session_at w p = Some s ->
  exists s', session_at w' p = Some s' /\
    name s' = name s /\ ID s' = ID s /\ IsNew s' = IsNew s /\
    (forall n, p = Reg n -> ~ T n -> s' = s) /\
    (forall n, p = Reg n -> V n -> Values s' = ∅) /\
    (forall n, p = Reg n -> E n -> MaxAge (Opts s') = (-1)%Z) /\
    (forall k, p = Retired k -> s' = s).
Proof.
  intros (Hr & _ & _ & H) Hs. destruct p as [n|k]; simpl in *.
  - specialize (H n). destruct (registry w !! n) as [[s0 e]|]; [|discriminate].
    injection Hs as ->.
    destruct H as (s' & Hs' & Hsame & Hn & Hi & Hnew & Hv & Hm).
    exists s'. rewrite Hs'. split; [reflexivity |].
    split; [exact Hn |]. split; [exact Hi |]. split; [exact Hnew |].
    split; [intros ? [= <-]; exact Hsame |].
    split; [intros ? [= <-] ?; auto |].
    split; [intros ? [= <-] ?; auto | discriminate].
  - exists s. rewrite Hr. split; [exact Hs |].
    repeat (split; [reflexivity || discriminate |]). reflexivity.
Qed.

(** What a session data points to, for a loaded session: registry sessions
    under the partition names. *)
Lemma points_to_partition {cc : CookieCodec} (sm : SessionManager)
    (r : httpRequest) (sd : SessionData) (w : World) (p : ptr) :
  loaded_session sm r sd w ->
  points_to sd p <->
  exists n, p = Reg n /\ partition_names sd n.
Proof.
  intros (Hr & Hm & Ha & Hf & _ & _ & _ & Hashape & Hfshape & _).
  unfold points_to, partition_names. rewrite Hm, Ha, Hf. split.
  - intros [[= <-]|[[= <-]|[[= <-]|[[i Hi]|[i Hi]]]]].
    + eexists. split; [reflexivity |]. auto.
    + eexists. split; [reflexivity |]. auto.
    + eexists. split; [reflexivity |]. auto.
    + destruct (Hashape i p Hi) as [-> _]. eexists. split; [reflexivity |].
      right; right; right; left. eauto.
    + destruct (Hfshape i p Hi) as [-> _]. eexists. split; [reflexivity |].
      right; right; right; right. eauto.
  - intros (n & -> & [->|[->|[->|[(i & [q Hi] & ->)|(i & [q Hi] & ->)]]]]); auto.
    + right; right; right; left. exists i.
      destruct (Hashape i q Hi) as [-> _]. exact Hi.
    + right; right; right; right. exists i.
      destruct (Hfshape i q Hi) as [-> _]. exact Hi.
Qed.

Lemma loaded_points_valid {cc : CookieCodec} (sm : SessionManager)
    (r : httpRequest) (sd : SessionData) (w : World) (p : ptr) :
  loaded_session sm r sd w -> points_to sd p -> is_Some (session_at w p).
Proof.
  intros (Hr & Hm & Ha & Hf & Hrm & Hra & Hrf & _ & _ & Havalid & Hfvalid).
  unfold points_to. rewrite Hm, Ha, Hf.
  intros [[= <-]|[[= <-]|[[= <-]|[[i Hi]|[i Hi]]]]]; simpl; eauto.
  - destruct Hrm as [se ->]. eauto.
  - destruct Hra as [se ->]. eauto.
  - destruct Hrf as [se ->]. eauto.
Qed.

(** X16.  [Clear(r, nil)] on a loaded session returns without error and
    leaves every partition the session data points to (main, access,
    refresh and every chunk) with no values and [MaxAge = -1].  The session
    identifiers stay as they were, the values of all other sessions are
    untouched, no header is written, and the object goes back to the pool
    detached from its request. *)
Theorem Clear_expires_everything {cc : CookieCodec} (sm : SessionManager)
    (r : httpRequest) (sd : SessionData) (w : World) :
  loaded_session sm r sd w ->
  exists w',
    Clear sm sd r None w = Ok (with_request None sd, None) w' /\
    pool w' = with_request None sd :: pool w /\
    response w' = response w /\
    (forall p, points_to sd p ->
       exists s, session_at w' p = Some s /\ expired s) /\
    (forall p s, session_at w p = Some s ->
       exists s', session_at w' p = Some s' /\ ID s' = ID s /\
         (~ points_to sd p -> Values s' = Values s)).
Proof.
  intros Hls. destruct (Clear_nil_run sm r sd w Hls) as (w0 & Hrun & Hc).
  eexists. split; [exact Hrun |].
  pose proof Hc as (_ & Hpool & Hresp & _).
  split; [cbn; now rewrite Hpool |]. split; [exact Hresp |]. split.
  - intros p Hp.
    destruct (loaded_points_valid sm r sd w p Hls Hp) as [s Hs].
    destruct (cleared_session _ _ _ _ _ _ _ Hc Hs)
      as (s' & Hs' & _ & _ & _ & _ & Hv & Hm & _).
    apply (points_to_partition sm r sd w p Hls) in Hp as (n & -> & Hn).
    exists s'. split; [exact Hs' |]. split; eauto.
  - intros p s Hs.
    destruct (cleared_session _ _ _ _ _ _ _ Hc Hs)
      as (s' & Hs' & _ & Hid & _ & Hsame & _ & _ & Hret).
    exists s'. split; [exact Hs' |]. split; [exact Hid |].
    intros Hnot. destruct p as [n|k].
    + rewrite (Hsame n eq_refl); [reflexivity |].
      intros Hn. apply Hnot.
      apply (points_to_partition sm r sd w _ Hls). eauto.
    + now rewrite (Hret k eq_refl).
Qed.

(** ** Reading an empty session *)

Section Blank.
Context {codec : Codec}.

(** The collecting loop over chunk sessions without values. *)
Lemma GetAccessToken_loop_blank (m : gmap nat ptr) (w : World) :
  (forall j p, m !! j = Some p ->
     exists s, session_at w p = Some s /\ Values s = ∅) ->
  forall fuel i acc,
    (forall j, j < i -> is_Some (m !! j)) -> size m <= i + fuel ->
    exists l, GetAccessToken_loop fuel m i acc w = Ok l w /\
              GoString.Join l = GoString.Join acc.
Proof.
  intros Hblank. induction fuel as [|fuel IH]; intros i acc Hbelow Hsize;
    cbn [GetAccessToken_loop]; destruct (m !! i) as [p|] eqn:Hm;
    try (eexists; split; reflexivity).
  - exfalso. assert (S i <= size m); [|lia].
    apply prefix_size. intros j Hj.
    destruct (decide (j = i)) as [->|]; [eauto | apply Hbelow; lia].
  - destruct (Hblank i p Hm) as (s & Hs & Hv).
    rewrite (bind_Ok _ _ _ _ _ (deref_Some _ _ _ Hs)).
    rewrite Hv, lookup_empty. cbn [as_string].
    destruct (IH (S i) (acc ++ [""])) as (l & Hl & Hjoin); [|lia|].
    + intros j Hj.
      destruct (decide (j = i)) as [->|]; [eauto | apply Hbelow; lia].
    + exists l. split; [exact Hl |].
      rewrite Hjoin, GoStringFacts.Join_app. cbn [GoString.Join].
      now rewrite GoStringFacts.app_empty_r.
Qed.

Lemma GetAccessToken_blank (sd : SessionData) (w : World) (a : ptr)
    (s : Session) :
  accessSession sd = Some a ->
  session_at w a = Some s -> Values s = ∅ ->
  (forall j p, accessTokenChunks sd !! j = Some p ->
     exists s', session_at w p = Some s' /\ Values s' = ∅) ->
  GetAccessToken sd w = Ok "" w.
Proof.
  intros Ha Hs Hv Hblank. unfold GetAccessToken. rewrite Ha.
  rewrite (bind_Ok _ _ _ _ _ (deref_Some _ _ _ Hs)).
  rewrite Hv, !lookup_empty. cbn [as_string as_bool String.eqb negb].
  destruct (size (accessTokenChunks sd) =? 0); [reflexivity |].
  destruct (GetAccessToken_loop_blank (accessTokenChunks sd) w Hblank
              (size (accessTokenChunks sd)) 0 [])
    as (l & Hl & Hjoin); [intros j Hj; lia | lia |].
  rewrite (bind_Ok _ _ _ _ _ Hl).
  rewrite (bind_Ok _ _ _ _ _ (deref_Some _ _ _ Hs)).
  rewrite Hjoin, Hv, lookup_empty. reflexivity.
Qed.

(** [GetRefreshToken] is [GetAccessToken] read on the refresh slot. *)
Lemma GetRefreshToken_as_access (sd : SessionData) (w : World) :
  GetRefreshToken sd w
  = GetAccessToken
      (mkSessionData (request sd) (mainSession sd) (refreshSession sd)
         (accessSession sd) (refreshTokenChunks sd) (accessTokenChunks sd)) w.
Proof. reflexivity. Qed.

Lemma GetRefreshToken_blank (sd : SessionData) (w : World) (a : ptr)
    (s : Session) :
  refreshSession sd = Some a ->
  session_at w a = Some s -> Values s = ∅ ->
  (forall j p, refreshTokenChunks sd !! j = Some p ->
     exists s', session_at w p = Some s' /\ Values s' = ∅) ->
  GetRefreshToken sd w = Ok "" w.
Proof.
  intros Ha Hs Hv Hblank. rewrite GetRefreshToken_as_access.
  now apply (GetAccessToken_blank _ w a s).
Qed.

(** A session all of whose partitions are without values reads as
    empty. *)
Lemma blank_reads (sd : SessionData) (w : World) :
  (forall p, points_to sd p ->
     exists s, session_at w p = Some s /\ Values s = ∅) ->
  is_Some (mainSession sd) -> is_Some (accessSession sd) ->
  is_Some (refreshSession sd) ->
  GetAccessToken sd w = Ok "" w /\
  GetRefreshToken sd w = Ok "" w /\
  (forall now, GetAuthenticated sd now w = Ok false w) /\
  (forall a, a ∈ string_fields -> getter a sd w = Ok "" w).
Proof.
  intros Hblank [pm Hm] [pa Ha] [pf Hf].
  destruct (Hblank pm) as (sm' & Hsm & Hvm); [left; exact Hm |].
  destruct (Hblank pa) as (sa & Hsa & Hva); [right; left; exact Ha |].
  destruct (Hblank pf) as (sf & Hsf & Hvf); [right; right; left; exact Hf |].
  split; [|split; [|split]].
  - apply (GetAccessToken_blank sd w pa sa Ha Hsa Hva).
    intros j p Hp. apply Hblank. right; right; right; left. eauto.
  - apply (GetRefreshToken_blank sd w pf sf Hf Hsf Hvf).
    intros j p Hp. apply Hblank. right; right; right; right. eauto.
  - intros now. unfold GetAuthenticated. rewrite Hm.
    rewrite (bind_Ok _ _ _ _ _ (deref_Some _ _ _ Hsm)).
    now rewrite Hvm, lookup_empty.
  - intros a Hin. apply list_elem_of_lookup in Hin as [i Hi].
    destruct (string_fields_keys i a Hi) as (k & _ & _ & Hget & _).
    rewrite Hget, (get_key sd w pm sm' k Hm Hsm).
    now rewrite Hvm, lookup_empty.
Qed.

End Blank.

(** X17.  After [Clear(r, nil)] the session reads as empty: the access and
    the refresh token are the empty string, [GetAuthenticated] answers false
    at every instant, and all five string fields are empty. *)
Theorem Clear_then_reads_empty {codec : Codec} {cc : CookieCodec}
    (sm : SessionManager) (r : httpRequest) (sd : SessionData) (w : World) :
  loaded_session sm r sd w ->
  exists sd' w',
    Clear sm sd r None w = Ok (sd', None) w' /\
    request sd' = None /\
    GetAccessToken sd' w' = Ok "" w' /\
    GetRefreshToken sd' w' = Ok "" w' /\
    (forall now, GetAuthenticated sd' now w' = Ok false w') /\
    (forall a, a ∈ string_fields -> getter a sd' w' = Ok "" w').
Proof.
  intros Hls. destruct (Clear_nil_run sm r sd w Hls) as (w0 & Hrun & Hc).
  eexists. eexists. split; [exact Hrun |]. split; [reflexivity |].
  pose proof Hls as (_ & Hm & Ha & Hf & _).
  apply blank_reads; cbn; try (rewrite ?Hm, ?Ha, ?Hf; eauto; fail).
  intros p Hp. change (points_to sd p) in Hp.
  destruct (loaded_points_valid sm r sd w p Hls Hp) as [s Hs].
  destruct (cleared_session _ _ _ _ _ _ _ Hc Hs)
    as (s' & Hs' & _ & _ & _ & _ & Hv & _).
  apply (points_to_partition sm r sd w p Hls) in Hp as (n & -> & Hn).
  exists s'. split; [exact Hs' | eauto].
Qed.

(** [GetSession] on a request without cookies, in full. *)
Lemma GetSession_blank_run {cc : CookieCodec}
    (sm : SessionManager) (pooled : SessionData) (now : Z) (r : httpRequest)
    (w : World) :
  Cookies r = ∅ ->
  registry w = ∅ ->
  exists sd w',
    GetSession sm pooled now r w = Ok (Value sd) w' /\
    loaded_session sm r sd w' /\
    response w' = response w /\
    accessTokenChunks sd = ∅ /\ refreshTokenChunks sd = ∅ /\
    (forall p, points_to sd p ->
       exists s, session_at w' p = Some s /\ IsNew s = true /\ Values s = ∅).
Proof.
  intros Hcookies Hempty.
  assert (Hnew : forall n,
    loaded sm r w n = (mkSession n "" ∅ (store_Options sm) true, None)).
  { intros n. unfold loaded, store_New.
    now rewrite Hempty, lookup_empty, Hcookies, lookup_empty. }
  assert (Habsent : forall n, present sm r w n = false).
  { intros n. unfold present. now rewrite Hnew. }
  destruct (GetSession_run sm r pooled now w)
    as (res & w' & Hrun & Hload & _ & _ & Hresp & Hcase).
  { intros createdAt _. rewrite Hnew. cbn. rewrite lookup_empty. discriminate. }
  rewrite !Hnew in Hcase. cbn [snd] in Hcase.
  destruct Hcase as (sd & -> & Hls & _ & Hac & Hrc).
  assert (Hnone : forall (chunks : gmap nat ptr) baseName,
    (forall i, is_Some (chunks !! i) <->
       forall j, j <= i -> present sm r w (sessionName baseName j) = true) ->
    chunks = ∅).
  { intros chunks baseName Hexact. apply map_empty. intros i.
    destruct (chunks !! i) as [p|] eqn:Hp; [|reflexivity].
    exfalso. assert (Hall := proj1 (Hexact i) (ex_intro _ p Hp)).
    specialize (Hall 0 ltac:(lia)). rewrite Habsent in Hall. discriminate. }
  exists sd, w'. split; [exact Hrun |]. split; [exact Hls |].
  split; [exact Hresp |].
  split; [exact (Hnone _ _ Hac) |]. split; [exact (Hnone _ _ Hrc) |].
  intros p Hp.
  destruct (loaded_points_valid sm r sd w' p Hls Hp) as [s Hs].
  apply (points_to_partition sm r sd w' p Hls) in Hp as (n & -> & _).
  exists s. split; [exact Hs |]. simpl in Hs.
  destruct (registry w' !! n) as [se|] eqn:Hse; [|discriminate].
  injection Hs as <-.
  rewrite <- (loaded_registered sm r _ _ _ Hse), Hload, Hnew. auto.
Qed.

(** X18.  On a request without cookies, at the start of the request,
    [GetSession] returns a session, whatever object the pool hands out and
    whatever the clock reads, and that session is blank: its chunk maps are
    empty, every partition is new and without values, both tokens read as
    the empty string, [GetAuthenticated] answers false and the string fields
    are empty. *)
Theorem GetSession_first_visit {codec : Codec} {cc : CookieCodec}
    (sm : SessionManager) (pooled : SessionData) (now : Z) (r : httpRequest)
    (w : World) :
  Cookies r = ∅ ->
  registry w = ∅ ->
  exists sd w',
    GetSession sm pooled now r w = Ok (Value sd) w' /\
    request sd = Some r /\
    accessTokenChunks sd = ∅ /\ refreshTokenChunks sd = ∅ /\
    (forall p, points_to sd p ->
       exists s, session_at w' p = Some s /\ IsNew s = true /\ Values s = ∅) /\
    GetAccessToken sd w' = Ok "" w' /\
    GetRefreshToken sd w' = Ok "" w' /\
    (forall later, GetAuthenticated sd later w' = Ok false w') /\
    (forall a, a ∈ string_fields -> getter a sd w' = Ok "" w').
Proof.
  intros Hcookies Hempty.
  destruct (GetSession_blank_run sm pooled now r w Hcookies Hempty)
    as (sd & w' & Hrun & Hls & _ & Hac & Hrc & Hblank).
  pose proof Hls as (Hr & Hm & Ha & Hf & _).
  exists sd, w'. split; [exact Hrun |]. split; [exact Hr |].
  split; [exact Hac |]. split; [exact Hrc |]. split; [exact Hblank |].
  apply blank_reads; rewrite ?Hm, ?Ha, ?Hf; eauto.
  intros p Hp. destruct (Hblank p Hp) as (s & Hs & _ & Hv). eauto.
Qed.

(** ** Saving a session *)

Lemma with_Opts_same (s : Session) : with_Opts (Opts s) s = s.
Proof. now destruct s. Qed.

Lemma session_at_with_response (h : list SetCookie) (w : World) (q : ptr) :
  session_at (with_response h w) q = session_at w q.
Proof. now destruct q. Qed.

Lemma pool_write_at (q : ptr) (s : Session) (w : World) :
  pool (write_at q s w) = pool w /\ response (write_at q s w) = response w.
Proof. now destruct q. Qed.

Lemma ptr_eq_dec (p q : ptr) : p = q \/ p <> q.
Proof.
  destruct p as [n|k], q as [m|j]; try (right; discriminate).
  - destruct (decide (n = m)) as [->|]; [left | right]; congruence.
  - destruct (decide (k = j)) as [->|]; [left | right]; congruence.
Qed.

Section Saving.
Context {cc : CookieCodec}.
Variable options : Options.
Variable sd : SessionData.
Variable w0 : World.

Lemma saving_session (w : World) (acc : list SetCookie) (q : ptr) (s0 : Session) :
  saving options sd w0 w acc ->
  session_at w0 q = Some s0 ->
  exists x, session_at w q = Some x /\
    name x = name s0 /\ ID x = ID s0 /\ Values x = Values s0 /\
    IsNew x = IsNew s0 /\
    with_Opts options x = with_Opts options s0.
Proof.
  intros ((_ & H) & _) Hs0. specialize (H q). rewrite Hs0 in H.
  destruct H as [H|H]; eexists; (split; [exact H |]); now repeat split.
Qed.

(** The assignment [session.Options = options]. *)
Lemma assign_step (w : World) (acc : list SetCookie) (q : ptr) :
  saving options sd w0 w acc ->
  is_Some (session_at w0 q) ->
  exists w1 x,
    modify (Some q) (with_Opts options) w = Ok tt w1 /\
    saving options sd w0 w1 acc /\
    session_at w1 q = Some x /\ Opts x = options /\
    (forall q' x', session_at w q' = Some x' -> Opts x' = options ->
       session_at w1 q' = Some x').
Proof.
  intros Hsav [s0 Hs0].
  destruct (saving_session w acc q s0 Hsav Hs0)
    as (x & Hx & _ & _ & _ & _ & Hsame).
  destruct Hsav as ((Hpool & H) & Hresp & Hacc).
  destruct (pool_write_at q (with_Opts options x) w) as [Hp Hr].
  exists (write_at q (with_Opts options x) w), (with_Opts options x).
  split; [now apply modify_Some |]. split; [|split; [|split]].
  - split; [|split; [congruence | exact Hacc]].
    split; [congruence |].
    intros q'. destruct (ptr_eq_dec q q') as [<-|Hne].
    + rewrite Hs0, session_at_write_same. right. now rewrite Hsame.
    + rewrite session_at_write_other by exact Hne. apply H.
  - apply session_at_write_same.
  - reflexivity.
  - intros q' x' Hx' Ho. destruct (ptr_eq_dec q q') as [<-|Hne].
    + rewrite session_at_write_same. rewrite Hx in Hx'. injection Hx' as <-.
      now rewrite <- Ho, with_Opts_same.
    + now rewrite session_at_write_other.
Qed.

(** [session.Save(r, w)] on a session that has the options. *)
Lemma save_step (w : World) (acc : list SetCookie) (q : ptr) (x : Session) :
  saving options sd w0 w acc ->
  points_to sd q ->
  session_at w q = Some x -> Opts x = options ->
  exists s0, session_at w0 q = Some s0 /\
    match securecookie_Encode (name s0) (Values s0) with
    | Error e => session_Save (Some q) w = Ok (Some e) w
    | Value enc =>
        exists w1 h,
          session_Save (Some q) w = Ok None w1 /\
          saving options sd w0 w1 (acc ++ [h]) /\
          (forall q', session_at w1 q' = session_at w q')
    end.
Proof.
  intros Hsav Hq Hx Ho.
  destruct (session_at w0 q) as [s0|] eqn:Hs0.
  2:{ destruct Hsav as ((_ & H) & _). specialize (H q).
      rewrite Hs0 in H. congruence. }
  destruct (saving_session w acc q s0 Hsav Hs0)
    as (x' & Hx' & Hname & _ & Hvals & _).
  rewrite Hx in Hx'. injection Hx' as <-.
  exists s0. split; [reflexivity |].
  unfold session_Save. rewrite (bind_Ok _ _ _ _ _ (deref_Some _ _ _ Hx)).
  rewrite Hname, Hvals.
  destruct (securecookie_Encode (name s0) (Values s0)) as [enc|e] eqn:Henc;
    [|reflexivity].
  eexists. eexists. split; [reflexivity |].
  destruct Hsav as ((Hpool & H) & Hresp & Hacc).
  split; [|intros q'; apply session_at_with_response].
  split; [|split].
  - split; [exact Hpool |]. intros q'.
    rewrite session_at_with_response. apply H.
  - cbn. now rewrite Hresp, app_assoc.
  - apply Forall_app. split; [exact Hacc |].
    apply Forall_singleton. split; [exact Ho |].
    exists q, s0. auto.
Qed.

(** The chunk loops of [Save]. *)
Lemma Save_chunks_run (what : string) (ps : list ptr) :
  forall w acc,
    (forall q, q ∈ ps -> points_to sd q /\ is_Some (session_at w0 q)) ->
    saving options sd w0 w acc ->
    exists e w' acc',
      Save_chunks what options ps w = Ok e w' /\
      saving options sd w0 w' (acc ++ acc') /\
      (e = None -> length acc' = length ps) /\
      (is_Some e -> length acc' < length ps) /\
      ((forall q s, q ∈ ps -> session_at w0 q = Some s ->
          exists enc, securecookie_Encode (name s) (Values s) = Value enc) ->
       e = None).
Proof.
  induction ps as [|p ps IH]; intros w acc Hps Hsav.
  - exists None, w, []. split; [reflexivity |].
    rewrite app_nil_r. split; [exact Hsav |].
    split; [reflexivity |]. split; [intros [? ?]; discriminate | reflexivity].
  - destruct (Hps p) as [Hpt Hvalid]; [apply elem_of_cons; auto |].
    destruct (assign_step w acc p Hsav Hvalid)
      as (w1 & x & Hmod & Hsav1 & Hx & Ho & _).
    destruct (save_step w1 acc p x Hsav1 Hpt Hx Ho) as (s0 & Hs0 & Hsave).
    cbn [Save_chunks]. rewrite (bind_Ok _ _ _ _ _ Hmod).
    destruct (securecookie_Encode (name s0) (Values s0)) as [enc|e] eqn:Henc.
    + destruct Hsave as (w2 & h & Hsave & Hsav2 & _).
      rewrite (bind_Ok _ _ _ _ _ Hsave).
      destruct (IH w2 (acc ++ [h])) as (e & w' & acc' & Hrun & Hsav' & Hok & Hbad & Htot).
      { intros q Hq. apply Hps, elem_of_cons. auto. }
      { exact Hsav2. }
      exists e, w', (h :: acc'). split; [exact Hrun |].
      split; [now rewrite <- app_assoc in Hsav' |].
      split; [intros He; cbn; now rewrite Hok |].
      split; [intros He; cbn; specialize (Hbad He); lia |].
      intros Hall. apply Htot. intros q s Hq. apply Hall, elem_of_cons. auto.
    + rewrite (bind_Ok _ _ _ _ _ Hsave).
      exists (Some (wrap what e)), w1, []. split; [reflexivity |].
      rewrite app_nil_r. split; [exact Hsav1 |].
      split; [discriminate |]. split; [intros _; cbn; lia |].
      intros Hall. destruct (Hall p s0) as [enc Henc'];
        [apply elem_of_cons; auto | exact Hs0 |]. congruence.
Qed.

End Saving.

Lemma saving_start {cc : CookieCodec} (options : Options) (sd : SessionData)
    (w : World) :
  saving options sd w w [].
Proof.
  split; [|split; [now rewrite app_nil_r | constructor]].
  split; [reflexivity |]. intros q. destruct (session_at w q); auto.
Qed.

Lemma getSessionOptions_value (sm : SessionManager) (secure : bool) :
  getSessionOptions sm (secure || forceHTTPS sm)
  = mkOptions "/" 86400 (secure || forceHTTPS sm) true SameSiteLaxMode.
Proof.
  unfold getSessionOptions. f_equal.
  destruct secure, (forceHTTPS sm); reflexivity.
Qed.

Lemma chunk_sessions_length (chunks : gmap nat ptr) :
  length (chunk_sessions chunks) = size chunks.
Proof.
  unfold chunk_sessions. rewrite length_fmap. apply length_map_to_list.
Qed.

(** [Save] on a session data whose pointers are valid, in full. *)
Lemma Save_run {cc : CookieCodec} (sm : SessionManager) (sd : SessionData)
    (r : httpRequest) (wr : httpResponseWriter) (w : World) :
  (forall p, points_to sd p -> is_Some (session_at w p)) ->
  is_Some (mainSession sd) -> is_Some (accessSession sd) ->
  is_Some (refreshSession sd) ->
  let options :=
    mkOptions "/" 86400
      (GoString.HasPrefix (URL_Scheme r) "https" || forceHTTPS sm)
      true SameSiteLaxMode in
  exists e w' added,
    Save sm sd r wr w = Ok e w' /\
    saving options sd w w' added /\
    (e = None ->
     length added
     = 3 + size (accessTokenChunks sd) + size (refreshTokenChunks sd)) /\
    (is_Some e ->
     length added
     < 3 + size (accessTokenChunks sd) + size (refreshTokenChunks sd)) /\
    (forall cause, e = Some cause -> added = [] ->
       exists enc_err, cause = "failed to save main session: " +:+ enc_err) /\
    ((forall q s, points_to sd q -> session_at w q = Some s ->
        exists enc, securecookie_Encode (name s) (Values s) = Value enc) ->
     e = None).
Proof.
  intros Hvalid [pm Hm] [pa Ha] [pf Hf] options.
  assert (Hpm : points_to sd pm) by (left; exact Hm).
  assert (Hpa : points_to sd pa) by (right; left; exact Ha).
  assert (Hpf : points_to sd pf) by (right; right; left; exact Hf).
  unfold Save. rewrite getSessionOptions_value. fold options.
  rewrite Hm, Ha, Hf.
  destruct (assign_step options sd w w [] pm (saving_start _ _ _) (Hvalid _ Hpm))
    as (w1 & xm & Hmod1 & Hsav1 & Hxm1 & Hom & _).
  destruct (assign_step options sd w w1 [] pa Hsav1 (Hvalid _ Hpa))
    as (w2 & xa & Hmod2 & Hsav2 & Hxa2 & Hoa & Hkeep2).
  destruct (assign_step options sd w w2 [] pf Hsav2 (Hvalid _ Hpf))
    as (w3 & xf & Hmod3 & Hsav3 & Hxf3 & Hof & Hkeep3).
  rewrite (bind_Ok _ _ _ _ _ Hmod1), (bind_Ok _ _ _ _ _ Hmod2),
    (bind_Ok _ _ _ _ _ Hmod3).
  assert (Hxm3 : session_at w3 pm = Some xm) by auto.
  assert (Hxa3 : session_at w3 pa = Some xa) by auto.
  set (total := 3 + size (accessTokenChunks sd) + size (refreshTokenChunks sd)).
  (* main *)
  destruct (save_step options sd w w3 [] pm xm Hsav3 Hpm Hxm3 Hom)
    as (sm0 & Hsm0 & Hsave).
  destruct (securecookie_Encode (name sm0) (Values sm0)) as [enc|e] eqn:Hencm.
  2:{ rewrite (bind_Ok _ _ _ _ _ Hsave).
      exists (Some (wrap "failed to save main session" e)), w3, [].
      split; [reflexivity |]. split; [exact Hsav3 |].
      split; [discriminate |]. split; [intros _; cbn; lia |].
      split; [intros cause [= <-] _; eauto |].
      intros Hall. destruct (Hall pm sm0 Hpm Hsm0). congruence. }
  destruct Hsave as (w4 & hm & Hsave4 & Hsav4 & Hsame4).
  rewrite (bind_Ok _ _ _ _ _ Hsave4). cbn [app] in Hsav4.
  (* access *)
  assert (Hxa4 : session_at w4 pa = Some xa) by (now rewrite Hsame4).
  destruct (save_step options sd w w4 [hm] pa xa Hsav4 Hpa Hxa4 Hoa)
    as (sa0 & Hsa0 & Hsave).
  destruct (securecookie_Encode (name sa0) (Values sa0)) as [enc'|e] eqn:Henca.
  2:{ rewrite (bind_Ok _ _ _ _ _ Hsave).
      exists (Some (wrap "failed to save access token session" e)), w4, [hm].
      split; [reflexivity |]. split; [exact Hsav4 |].
      split; [discriminate |]. split; [intros _; cbn; lia |].
      split; [intros cause _ [=] |].
      intros Hall. destruct (Hall pa sa0 Hpa Hsa0). congruence. }
  destruct Hsave as (w5 & ha & Hsave5 & Hsav5 & Hsame5).
  rewrite (bind_Ok _ _ _ _ _ Hsave5). cbn [app] in Hsav5.
  (* refresh *)
  assert (Hxf5 : session_at w5 pf = Some xf) by (now rewrite Hsame5, Hsame4).
  destruct (save_step options sd w w5 [hm; ha] pf xf Hsav5 Hpf Hxf5 Hof)
    as (sf0 & Hsf0 & Hsave).
  destruct (securecookie_Encode (name sf0) (Values sf0)) as [enc''|e] eqn:Hencf.
  2:{ rewrite (bind_Ok _ _ _ _ _ Hsave).
      exists (Some (wrap "failed to save refresh token session" e)), w5, [hm; ha].
      split; [reflexivity |]. split; [exact Hsav5 |].
      split; [discriminate |]. split; [intros _; cbn; lia |].
      split; [intros cause _ [=] |].
      intros Hall. destruct (Hall pf sf0 Hpf Hsf0). congruence. }
  destruct Hsave as (w6 & hf & Hsave6 & Hsav6 & Hsame6).
  rewrite (bind_Ok _ _ _ _ _ Hsave6). cbn [app] in Hsav6.
  (* chunks *)
  destruct (Save_chunks_run options sd w
              "failed to save access token chunk session"
              (chunk_sessions (accessTokenChunks sd)) w6 [hm; ha; hf])
    as (e1 & w7 & acc1 & Hrun7 & Hsav7 & Hok7 & Hbad7 & Htot7).
  { intros q Hq. apply chunk_sessions_elem in Hq.
    assert (points_to sd q) by (right; right; right; left; exact Hq). auto. }
  { exact Hsav6. }
  rewrite (bind_Ok _ _ _ _ _ Hrun7).
  rewrite chunk_sessions_length in Hok7, Hbad7.
  destruct e1 as [e1|].
  { exists (Some e1), w7, ([hm; ha; hf] ++ acc1).
    split; [reflexivity |]. split; [exact Hsav7 |].
    split; [discriminate |].
    split; [intros _; rewrite length_app; cbn;
            specialize (Hbad7 (ex_intro _ _ eq_refl)); lia |].
    split; [intros cause _ [=] |].
    intros Hall. apply Htot7. intros q s Hq. apply Hall.
    apply chunk_sessions_elem in Hq. right; right; right; left. exact Hq. }
  destruct (Save_chunks_run options sd w
              "failed to save refresh token chunk session"
              (chunk_sessions (refreshTokenChunks sd)) w7 ([hm; ha; hf] ++ acc1))
    as (e2 & w8 & acc2 & Hrun8 & Hsav8 & Hok8 & Hbad8 & Htot8).
  { intros q Hq. apply chunk_sessions_elem in Hq.
    assert (points_to sd q) by (right; right; right; right; exact Hq). auto. }
  { exact Hsav7. }
  rewrite chunk_sessions_length in Hok8, Hbad8.
  specialize (Hok7 eq_refl).
  exists e2, w8, (([hm; ha; hf] ++ acc1) ++ acc2).
  split; [exact Hrun8 |]. split; [exact Hsav8 |].
  split; [intros He; rewrite !length_app, Hok8, Hok7 by exact He; reflexivity |].
  split; [intros He; rewrite !length_app, Hok7; cbn; specialize (Hbad8 He); lia |].
  split; [intros cause _ [=] |].
  intros Hall. apply Htot8. intros q s Hq. apply Hall.
  apply chunk_sessions_elem in Hq. right; right; right; right. exact Hq.
Qed.

(** X19.  [Save] on a session whose partitions exist returns; every header
    it writes carries the options of [getSessionOptions] ([Path=/],
    [MaxAge=86400], [HttpOnly], [SameSite=Lax], [Secure] exactly when the
    request scheme starts with "https" or HTTPS is forced) together with the
    name of a partition and the encoding of that partition's values.  It
    writes one header per partition, three plus the number of chunks, when it
    succeeds, and fewer when an encoding fails; it succeeds when every
    partition encodes; and it changes no session's values or identifier. *)
Theorem Save_headers {cc : CookieCodec} (sm : SessionManager) (sd : SessionData)
    (r : httpRequest) (wr : httpResponseWriter) (w : World) :
  (forall p, points_to sd p -> is_Some (session_at w p)) ->
  is_Some (mainSession sd) -> is_Some (accessSession sd) ->
  is_Some (refreshSession sd) ->
  let options :=
    mkOptions "/" 86400
      (GoString.HasPrefix (URL_Scheme r) "https" || forceHTTPS sm)
      true SameSiteLaxMode in
  let partitions :=
    3 + size (accessTokenChunks sd) + size (refreshTokenChunks sd) in
  exists e w' added,
    Save sm sd r wr w = Ok e w' /\
    response w' = response w ++ added /\
    Forall (saved_header options w sd) added /\
    (e = None -> length added = partitions) /\
    (is_Some e -> length added < partitions) /\
    ((forall q s, points_to sd q -> session_at w q = Some s ->
        exists enc, securecookie_Encode (name s) (Values s) = Value enc) ->
     e = None) /\
    (forall q s, session_at w q = Some s ->
       exists s', session_at w' q = Some s' /\
         Values s' = Values s /\ ID s' = ID s /\ IsNew s' = IsNew s).
Proof.
  intros Hvalid Hm Ha Hf options partitions.
  destruct (Save_run sm sd r wr w Hvalid Hm Ha Hf)
    as (e & w' & added & Hrun & Hsav & Hok & Hbad & _ & Htot).
  exists e, w', added. split; [exact Hrun |].
  pose proof Hsav as (_ & Hresp & Hacc).
  split; [exact Hresp |]. split; [exact Hacc |].
  split; [exact Hok |]. split; [exact Hbad |]. split; [exact Htot |].
  intros q s Hs.
  destruct (saving_session _ _ _ _ _ _ _ Hsav Hs) as (x & Hx & _ & Hid & Hv & Hnew & _).
  eauto.
Qed.

(** ** Clearing with a response writer, and logout *)

(** [Clear] with a response writer on a loaded session, in full. *)
Lemma Clear_writer_run {cc : CookieCodec} (sm : SessionManager)
    (r : httpRequest) (sd : SessionData) (wr : httpResponseWriter) (w : World) :
  loaded_session sm r sd w ->
  let options :=
    mkOptions "/" 86400
      (GoString.HasPrefix (URL_Scheme r) "https" || forceHTTPS sm)
      true SameSiteLaxMode in
  exists e w' added,
    Clear sm sd r (Some wr) w = Ok (with_request None sd, e) w' /\
    pool w' = with_request None sd :: pool w /\
    response w' = response w ++ added /\
    Forall (fun h =>
      cookie_options h = options /\
      exists q s, points_to sd q /\ session_at w q = Some s /\
        cookie_name h = name s /\
        securecookie_Encode (name s) ∅ = Value (cookie_value h)) added /\
    (e = None ->
     length added
     = 3 + size (accessTokenChunks sd) + size (refreshTokenChunks sd)) /\
    (is_Some e ->
     length added
     < 3 + size (accessTokenChunks sd) + size (refreshTokenChunks sd)) /\
    ((forall q s, points_to sd q -> session_at w q = Some s ->
        exists enc, securecookie_Encode (name s) ∅ = Value enc) ->
     e = None) /\
    (forall p, points_to sd p ->
       exists s, session_at w' p = Some s /\ Values s = ∅).
Proof.
  intros Hls options.
  destruct (Clear_steps_run sm r sd (Some wr) w Hls) as (w0 & Hrun & Hc).
  pose proof Hc as (_ & Hpool0 & Hresp0 & _).
  pose proof Hls as (_ & Hm & Ha & Hf & _).
  assert (Hcleared : forall q, points_to sd q ->
    exists s s0, session_at w q = Some s /\ session_at w0 q = Some s0 /\
      name s0 = name s /\ Values s0 = ∅).
  { intros q Hq.
    destruct (loaded_points_valid sm r sd w q Hls Hq) as [s Hs].
    destruct (cleared_session _ _ _ _ _ _ _ Hc Hs)
      as (s0 & Hs0 & Hname & _ & _ & _ & Hv & _).
    apply (points_to_partition sm r sd w q Hls) in Hq as (n & -> & Hn).
    exists s, s0. eauto. }
  destruct (Save_run sm sd r wr w0)
    as (e & w1 & added & Hsave & Hsav & Hok & Hbad & _ & Htot).
  { intros p Hp. destruct (Hcleared p Hp) as (s & s0 & _ & Hs0 & _). eauto. }
  { rewrite Hm. eauto. }
  { rewrite Ha. eauto. }
  { rewrite Hf. eauto. }
  fold options in Hsav.
  pose proof Hsav as ((Hpool1 & _) & Hresp1 & Hacc).
  exists e, (with_pool (with_request None sd :: pool w1) w1), added.
  split; [rewrite Hrun, (bind_Ok _ _ _ _ _ Hsave); reflexivity |].
  split; [cbn; congruence |].
  split; [cbn; congruence |].
  split; [|split; [exact Hok | split; [exact Hbad | split]]].
  - eapply Forall_impl; [exact Hacc |].
    intros h (Ho & q & s0 & Hq & Hs0 & Hname & Henc).
    split; [exact Ho |].
    destruct (Hcleared q Hq) as (s & s0' & Hs & Hs0' & Hn & Hv).
    rewrite Hs0 in Hs0'. injection Hs0' as <-.
    exists q, s. rewrite <- Hn, <- Hv. auto.
  - intros Hall. apply Htot. intros q s0 Hq Hs0.
    destruct (Hcleared q Hq) as (s & s0' & Hs & Hs0' & Hn & Hv).
    rewrite Hs0 in Hs0'. injection Hs0' as <-.
    rewrite Hn, Hv. now apply (Hall q).
  - intros p Hp. destruct (Hcleared p Hp) as (s & s0 & _ & Hs0 & _ & Hv).
    destruct (saving_session _ _ _ _ _ _ _ Hsav Hs0)
      as (x & Hx & _ & _ & Hvx & _).
    exists x. split; [|congruence].
    destruct p; exact Hx.
Qed.

(** X20.  [Clear(r, w)] with a response writer empties every partition
    and writes their cookies through [Save], which gives them the options of
    [getSessionOptions] again: every header carries the encoding of an empty
    value map and [MaxAge = 86400], none carries [MaxAge = -1].  One header
    per partition is written when the empty map encodes, and the object goes
    back to the pool detached from its request. *)
Theorem Clear_writes_emptied_cookies {cc : CookieCodec} (sm : SessionManager)
    (r : httpRequest) (sd : SessionData) (wr : httpResponseWriter) (w : World) :
  loaded_session sm r sd w ->
  exists e w' added,
    Clear sm sd r (Some wr) w = Ok (with_request None sd, e) w' /\
    pool w' = with_request None sd :: pool w /\
    response w' = response w ++ added /\
    Forall (fun h =>
      MaxAge (cookie_options h) = 86400%Z /\
      Secure (cookie_options h)
        = (GoString.HasPrefix (URL_Scheme r) "https" || forceHTTPS sm) /\
      exists q s, points_to sd q /\ session_at w q = Some s /\
        cookie_name h = name s /\
        securecookie_Encode (name s) ∅ = Value (cookie_value h)) added /\
    ((forall q s, points_to sd q -> session_at w q = Some s ->
        exists enc, securecookie_Encode (name s) ∅ = Value enc) ->
     e = None /\
     length added
     = 3 + size (accessTokenChunks sd) + size (refreshTokenChunks sd)) /\
    (forall p, points_to sd p ->
       exists s, session_at w' p = Some s /\ Values s = ∅).
Proof.
  intros Hls.
  destruct (Clear_writer_run sm r sd wr w Hls)
    as (e & w' & added & Hrun & Hpool & Hresp & Hacc & Hok & _ & Htot & Hvals).
  exists e, w', added. split; [exact Hrun |]. split; [exact Hpool |].
  split; [exact Hresp |]. split; [|split; [|exact Hvals]].
  - eapply Forall_impl; [exact Hacc |].
    intros h (-> & Hq). split; [reflexivity |]. split; [reflexivity | exact Hq].
  - intros Hall. specialize (Htot Hall). split; [exact Htot | now apply Hok].
Qed.

(** X21.  [handleLogout] answers every request whose main cookie is not
    older than 24 hours, its age counted from [time.Unix(created_at, 0)] (a
    stamp on which [time.Unix] overflows counts as older): with status 500
    and "Session error" when one of
    the main, access and refresh cookies does not decode (no header is
    written then); otherwise it reads the access token, clears the session,
    and answers with the redirect of [logout_redirect] for that token, or
    with status 500 and "Session error" if saving the cleared session
    fails, which does not happen when the empty value map encodes. *)
Theorem handleLogout_answers
    {codec : Codec} {cc : CookieCodec} {urllib : UrlLib}
    (determineHost determineScheme : TraefikOidc -> httpRequest -> string)
    (t : TraefikOidc) (pooled : SessionData) (now : Z) (req : httpRequest)
    (w : World) :
  let sm := sessionManager t in
  (forall createdAt,
     snd (loaded sm req w mainCookieName) = None ->
     as_int64 (Values (fst (loaded sm req w mainCookieName)) !! "created_at")
       = Some createdAt ->
     (now - time_Unix createdAt <= absoluteSessionTimeout)%Z) ->
  exists rep w',
    handleLogout determineHost determineScheme t pooled now req w = Ok rep w' /\
    if is_error (snd (loaded sm req w mainCookieName))
       || is_error (snd (loaded sm req w accessTokenCookie))
       || is_error (snd (loaded sm req w refreshTokenCookie))
    then rep = http_Error "Session error" 500 /\ response w' = response w
    else
      exists sd w1 token,
        GetSession sm pooled now req w = Ok (Value sd) w1 /\
        GetAccessToken sd w1 = Ok token w1 /\
        (rep = logout_redirect determineHost determineScheme t req token \/
         rep = http_Error "Session error" 500) /\
        ((forall n, exists enc, securecookie_Encode n ∅ = Value enc) ->
         rep = logout_redirect determineHost determineScheme t req token /\
         length (response w')
         = length (response w) + 3 + size (accessTokenChunks sd)
           + size (refreshTokenChunks sd)).
Proof.
  intros sm Hfresh.
  destruct (GetSession_run sm req pooled now w Hfresh)
    as (res & w1 & Hget & _ & _ & _ & Hresp1 & Hcase).
  unfold handleLogout. fold sm. rewrite (bind_Ok _ _ _ _ _ Hget).
  destruct (snd (loaded sm req w mainCookieName)) as [c|].
  { destruct Hcase as (-> & _). eexists. eexists.
    split; [reflexivity |]. split; [reflexivity | exact Hresp1]. }
  destruct (snd (loaded sm req w accessTokenCookie)) as [c|].
  { destruct Hcase as (-> & _). eexists. eexists.
    split; [reflexivity |]. split; [reflexivity | exact Hresp1]. }
  destruct (snd (loaded sm req w refreshTokenCookie)) as [c|].
  { destruct Hcase as (-> & _). eexists. eexists.
    split; [reflexivity |]. split; [reflexivity | exact Hresp1]. }
  destruct Hcase as (sd & -> & Hls & _).
  pose proof Hls as (_ & _ & Ha & _ & _ & Hra & _ & _ & _ & Havalid & _).
  destruct (GetAccessToken_total sd w1 (Reg accessTokenCookie) Ha)
    as [token Htoken]; [simpl; destruct Hra as [se ->]; eauto | exact Havalid |].
  rewrite (bind_Ok _ _ _ _ _ Htoken).
  destruct (Clear_writer_run sm req sd ResponseWriter w1 Hls)
    as (e & w' & added & Hclear & _ & Hresp & _ & Hok & _ & Htot & _).
  rewrite (bind_Ok _ _ _ _ _ Hclear). cbn [snd is_error orb].
  destruct e as [e|].
  - eexists. eexists. split; [reflexivity |].
    exists sd, w1, token. split; [exact Hget |]. split; [exact Htoken |].
    split; [right; reflexivity |].
    intros Henc. discriminate (Htot (fun q s _ _ => Henc (name s))).
  - eexists. eexists. split; [reflexivity |].
    exists sd, w1, token. split; [exact Hget |]. split; [exact Htoken |].
    split; [left; reflexivity |].
    intros _. split; [reflexivity |].
    rewrite Hresp, length_app, Hok, Hresp1 by reflexivity. lia.
Qed.

(** ** [SetAccessToken] in full *)

Section AccessTokenRun.
Context {codec : Codec} {cc : CookieCodec}.
Variable sm : SessionManager.
Variable r : httpRequest.

(** [SetAccessToken] on a session bound to a request whose access
    partition is the registry's: it returns, the chunk map then holds the
    chunks of the new token under the slot's names, [GetAccessToken] reads
    [readback token], and outside the slot's names nothing changes. *)
Lemma SetAccessToken_run (sd : SessionData) (token : string) (w : World) :
  request sd = Some r ->
  accessSession sd = Some (Reg accessTokenCookie) ->
  is_Some (registry w !! accessTokenCookie) ->
  exists m' w',
    SetAccessToken sm sd token w = Ok (with_accessTokenChunks m' sd) w' /\
    (forall i, m' !! i
               = if decide (i < length (token_chunks token))
                 then Some (Reg (sessionName accessTokenCookie i)) else None) /\
    size m' = length (token_chunks token) /\
    GetAccessToken (with_accessTokenChunks m' sd) w' = Ok (readback token) w' /\
    retired w' = retired w /\ pool w' = pool w /\ response w' = response w /\
    is_Some (registry w' !! accessTokenCookie) /\
    (forall n, ~ slot_names accessTokenCookie n ->
       registry w' !! n = registry w !! n) /\
    (forall n, is_Some (registry w !! n) -> is_Some (registry w' !! n)) /\
    (forall i, i < length (token_chunks token) ->
       is_Some (registry w' !! sessionName accessTokenCookie i)).
Proof.
  intros Hr Ha Hreg.
  destruct (expireAccessTokenChunks_spec sm r sd w Hr)
    as (w1 & k & Hexp & _ & _ & Hret1 & Hpool1 & Hresp1 & _ & _ & Hframe1).
  assert (Hreg1 : is_Some (registry w1 !! accessTokenCookie)).
  { rewrite Hframe1; [exact Hreg |]. intros j _. apply sessionName_not_base. }
  destruct (SetAccessToken_store_spec sm r sd token w1 Hr Ha Hreg1)
    as (m' & w' & Hrun & Hin & Hout & Hret & Hpool & Hresp & Hval & Hacc & Hframe).
  exists m', w'.
  split; [now rewrite (SetAccessToken_bound sm sd r token w w1 Hr Hexp) |].
  assert (Hm : forall i, m' !! i
               = if decide (i < length (token_chunks token))
                 then Some (Reg (sessionName accessTokenCookie i)) else None).
  { intros i. destruct (decide (i < length (token_chunks token))) as [Hi|Hi];
      [now apply Hin | apply Hout; lia]. }
  split; [exact Hm |].
  split; [|split; [|split; [|split; [|split; [|split; [|split; [|split]]]]]]].
  - rewrite <- (size_dom (D := gset nat)).
    rewrite <- (size_set_seq (C := gset nat) 0 (length (token_chunks token))).
    f_equal. apply set_eq. intros j.
    rewrite elem_of_dom, elem_of_set_seq, Hm.
    destruct (decide (j < length (token_chunks token))) as [Hj|Hj].
    + split; [intros _; lia | eauto].
    + split; [intros [? ?]; discriminate | lia].
  - exact (GetAccessToken_after_store sd token m' w' _ _ (loaded sm r w1)
             Ha Hin Hout Hval Hacc).
  - congruence.
  - congruence.
  - congruence.
  - rewrite Hacc. eauto.
  - intros n Hn. rewrite Hframe, Hframe1.
    + reflexivity.
    + intros j _ ->. apply Hn. right. eauto.
    + intros ->. apply Hn. now left.
    + intros j _ ->. apply Hn. right. eauto.
  - intros n Hn.
    assert (Hn1 : is_Some (registry w1 !! n)).
    { pose proof (expireAccessTokenChunks_valid sm r sd w w1 (Reg n) Hr Hexp)
        as Hv. simpl in Hv.
      destruct (registry w1 !! n); [eauto |].
      destruct Hv as [? Hv]; [destruct Hn as [se ->]; eauto | discriminate]. }
    destruct (decide (n = accessTokenCookie)) as [->|Hna];
      [rewrite Hacc; eauto |].
    destruct (decide (n ∈ sessionName accessTokenCookie
                           <$> seq 0 (length (token_chunks token))))
      as [Hin'|Hno].
    + apply list_elem_of_fmap in Hin' as (j & -> & Hj).
      apply elem_of_seq in Hj.
      destruct (lookup_lt_is_Some_2 (token_chunks token) j) as [c Hc]; [lia |].
      rewrite (Hval j c Hc). eauto.
    + rewrite Hframe; [exact Hn1 | exact Hna |].
      intros j Hj ->. apply Hno. apply list_elem_of_fmap.
      exists j. split; [reflexivity |]. apply elem_of_seq. lia.
  - intros i Hi.
    destruct (lookup_lt_is_Some_2 (token_chunks token) i Hi) as [c Hc].
    rewrite (Hval i c Hc). eauto.
Qed.

End AccessTokenRun.

(** ** The refresh slot

    The lemmas about [expireRefreshTokenChunks], [SetRefreshToken] and
    [GetRefreshToken], for their refresh-token twins. *)

Section RefreshExpire.
Context {codec : Codec} {cc : CookieCodec}.
Variable sm : SessionManager.
Variable r : httpRequest.

Abbreviation chunk_name := (sessionName refreshTokenCookie).

(** One turn of the loop: it stops at a partition the store does not
    have, and expires the one it has. *)
Lemma expire_refresh_loop_unfold (fuel : nat) (sd : SessionData) (i : nat) (w : World) :
  request sd = Some r ->
  expireRefreshTokenChunks_loop sm fuel sd None i w =
    if present sm r w (chunk_name i) then
      match fuel with
      | O => OutOfFuel
      | S fuel' =>
          expireRefreshTokenChunks_loop sm fuel' sd None (S i)
            (update_entry sm r (chunk_name i) expire_session w)
      end
    else Ok tt (update_entry sm r (chunk_name i) (fun s => s) w).
Proof.
  intros Hr.
  assert (Hstep : forall k : ptr * option string -> M unit,
    bind (store_Get sm (request sd) (chunk_name i)) k w
    = k (Reg (chunk_name i), snd (loaded sm r w (chunk_name i)))
        (update_entry sm r (chunk_name i) (fun s => s) w)).
  { intros k. rewrite Hr. apply bind_Ok, store_Get_Some. }
  assert (Hderef :
    deref (Some (Reg (chunk_name i)))
      (update_entry sm r (chunk_name i) (fun s => s) w)
    = Ok (fst (loaded sm r w (chunk_name i)))
         (update_entry sm r (chunk_name i) (fun s => s) w)).
  { apply deref_Some, session_at_update. }
  destruct fuel as [|fuel']; cbn [expireRefreshTokenChunks_loop];
    rewrite Hstep; cbn [fst snd];
    rewrite (bind_Ok _ _ _ _ _ Hderef); unfold present;
    destruct (is_error (snd (loaded sm r w (chunk_name i)))
              || IsNew (fst (loaded sm r w (chunk_name i)))); cbn [negb];
    try reflexivity.
  rewrite (bind_Ok _ _ _ _ _ (modify_update sm r _ _ expire_options w)).
  rewrite (bind_Ok _ _ _ _ _ (modify_update sm r _ _ (with_Values ∅) w)).
  reflexivity.
Qed.

(** The loop from index [i]: it returns, having expired the partitions
    [i .. k-1] that the store had and touched nothing else. *)
Lemma expire_refresh_loop_spec (sd : SessionData) (K : gset string) :
  request sd = Some r ->
  forall fuel i w,
    (forall n, present sm r w n = true -> n ∈ K) ->
    (forall j, j < i -> chunk_name j ∈ K) ->
    size K <= i + fuel ->
    exists w' k,
      expireRefreshTokenChunks_loop sm fuel sd None i w = Ok tt w' /\
      i <= k /\
      (forall j, i <= j < k -> present sm r w (chunk_name j) = true) /\
      present sm r w (chunk_name k) = false /\
      retired w' = retired w /\ pool w' = pool w /\ response w' = response w /\
      (forall j, i <= j < k ->
         registry w' !! chunk_name j
         = Some (expire_session (fst (loaded sm r w (chunk_name j))),
                 snd (loaded sm r w (chunk_name j)))) /\
      registry w' !! chunk_name k = Some (loaded sm r w (chunk_name k)) /\
      (forall n, (forall j, i <= j <= k -> n <> chunk_name j) ->
         registry w' !! n = registry w !! n).
Proof.
  intros Hr.
  assert (Hstopped : forall i w,
    present sm r w (chunk_name i) = false ->
    exists w' k,
      Ok tt (update_entry sm r (chunk_name i) (fun s => s) w) = Ok tt w' /\
      i <= k /\
      (forall j, i <= j < k -> present sm r w (chunk_name j) = true) /\
      present sm r w (chunk_name k) = false /\
      retired w' = retired w /\ pool w' = pool w /\ response w' = response w /\
      (forall j, i <= j < k ->
         registry w' !! chunk_name j
         = Some (expire_session (fst (loaded sm r w (chunk_name j))),
                 snd (loaded sm r w (chunk_name j)))) /\
      registry w' !! chunk_name k = Some (loaded sm r w (chunk_name k)) /\
      (forall n, (forall j, i <= j <= k -> n <> chunk_name j) ->
         registry w' !! n = registry w !! n)).
  { intros i w Hp.
    exists (update_entry sm r (chunk_name i) (fun s => s) w), i.
    split; [reflexivity |]. split; [lia |]. split; [intros j Hj; lia |].
    split; [exact Hp |]. split; [reflexivity |]. split; [reflexivity |].
    split; [reflexivity |]. split; [intros j Hj; lia |]. split.
    + rewrite registry_update_same. f_equal. symmetry. apply surjective_pairing.
    + intros n Hn. apply registry_update_other. intros <-. now apply (Hn i). }
  induction fuel as [|fuel IH]; intros i w HK Hbelow Hsize;
    rewrite (expire_refresh_loop_unfold _ _ _ _ Hr);
    destruct (present sm r w (chunk_name i)) eqn:Hp.
  - exfalso.
    assert (S i <= size K); [|lia].
    apply (names_size K refreshTokenCookie). intros j Hj.
    destruct (decide (j = i)) as [->|]; [now apply HK | apply Hbelow; lia].
  - now apply Hstopped.
  - set (w1 := update_entry sm r (chunk_name i) expire_session w).
    destruct (IH (S i) w1) as
      (w' & k & Hrun & Hik & Hpres & Hstop & Hret & Hpool & Hresp
         & Hexp & Hlast & Hframe).
    + intros n Hn. apply HK.
      destruct (decide (chunk_name i = n)) as [<-|Hne]; [exact Hp |].
      subst w1. now rewrite present_update_other in Hn.
    + intros j Hj. destruct (decide (j = i)) as [->|];
        [now apply HK | apply Hbelow; lia].
    + lia.
    + assert (Hother : forall j, S i <= j -> chunk_name i <> chunk_name j).
      { intros j Hj Heq. apply sessionName_inj in Heq. lia. }
      exists w', k. split; [exact Hrun |]. split; [lia |].
      split; [|split; [|split; [|split; [|split; [|split; [|split]]]]]].
      * intros j Hj. destruct (decide (j = i)) as [->|]; [exact Hp |].
        rewrite <- (Hpres j) by lia. subst w1.
        symmetry. apply present_update_other, Hother. lia.
      * rewrite <- Hstop. subst w1.
        symmetry. apply present_update_other, Hother. lia.
      * exact Hret.
      * exact Hpool.
      * exact Hresp.
      * intros j Hj. destruct (decide (j = i)) as [->|].
        -- rewrite Hframe.
           ++ subst w1. apply registry_update_same.
           ++ intros j Hj'. apply Hother. lia.
        -- rewrite Hexp by lia. subst w1.
           rewrite loaded_update_other; [reflexivity | apply Hother; lia].
      * rewrite Hlast. subst w1.
        rewrite loaded_update_other; [reflexivity | apply Hother; lia].
      * intros n Hn. rewrite Hframe.
        -- subst w1. apply registry_update_other. intros <-. apply (Hn i); [lia | reflexivity].
        -- intros j Hj. apply Hn. lia.
  - now apply Hstopped.
Qed.

(** [expireRefreshTokenChunks(nil)] on a session bound to a request
    returns; [k] is the number of chunk partitions the store had. *)
Lemma expireRefreshTokenChunks_spec (sd : SessionData) (w : World) :
  request sd = Some r ->
  exists w' k,
    expireRefreshTokenChunks sm sd None w = Ok tt w' /\
    (forall j, j < k -> present sm r w (chunk_name j) = true) /\
    present sm r w (chunk_name k) = false /\
    retired w' = retired w /\ pool w' = pool w /\ response w' = response w /\
    (forall j, j < k ->
       registry w' !! chunk_name j
       = Some (expire_session (fst (loaded sm r w (chunk_name j))),
               snd (loaded sm r w (chunk_name j)))) /\
    registry w' !! chunk_name k = Some (loaded sm r w (chunk_name k)) /\
    (forall n, (forall j, j <= k -> n <> chunk_name j) ->
       registry w' !! n = registry w !! n).
Proof.
  intros Hr.
  destruct (expire_refresh_loop_spec sd (known_names r w) Hr
              (size (registry w) + size (Cookies r)) 0 w)
    as (w' & k & Hrun & _ & Hpres & Hstop & Hret & Hpool & Hresp
          & Hexp & Hlast & Hframe).
  - apply loaded_known.
  - intros j Hj; lia.
  - apply known_names_size.
  - exists w', k. split.
    + unfold expireRefreshTokenChunks, probe_budget. rewrite Hr. exact Hrun.
    + split; [intros j Hj; apply Hpres; lia |]. split; [exact Hstop |].
      split; [exact Hret |]. split; [exact Hpool |]. split; [exact Hresp |].
      split; [intros j Hj; apply Hexp; lia |]. split; [exact Hlast |].
      intros n Hn. apply Hframe. intros j Hj. apply Hn. lia.
Qed.

(** Pointers that were valid stay valid. *)
Lemma expireRefreshTokenChunks_valid (sd : SessionData) (w w' : World) (p : ptr) :
  request sd = Some r ->
  expireRefreshTokenChunks sm sd None w = Ok tt w' ->
  is_Some (session_at w p) -> is_Some (session_at w' p).
Proof.
  intros Hr Hrun.
  destruct (expireRefreshTokenChunks_spec sd w Hr)
    as (w1 & k & Hrun1 & _ & _ & Hret & _ & _ & Hexp & Hlast & Hframe).
  rewrite Hrun in Hrun1. injection Hrun1 as <-.
  destruct p as [n|q]; simpl; [|now rewrite Hret].
  intros Hn.
  destruct (decide (n ∈ chunk_name <$> seq 0 (S k))) as [Hin|Hno].
  - apply list_elem_of_fmap in Hin as (j & -> & Hj). apply elem_of_seq in Hj.
    destruct (decide (j = k)) as [->|].
    + rewrite Hlast. eauto.
    + rewrite Hexp by lia. eauto.
  - rewrite Hframe; [exact Hn |]. intros j Hj ->. apply Hno.
    apply list_elem_of_fmap. exists j. split; [reflexivity |].
    apply elem_of_seq. lia.
Qed.

End RefreshExpire.

Section RefreshChunks.
Context {codec : Codec} {cc : CookieCodec}.
Variable sm : SessionManager.
Variable r : httpRequest.

Abbreviation chunk_name := (sessionName refreshTokenCookie).

(** The loop [for i, chunk := range chunks] from index [i]: chunk [j]
    goes to the registry's session [<base>_(i+j)], which the chunk map
    then holds under [i+j]; nothing else changes. *)
Lemma SetRefreshToken_chunks_spec (chunks : list string) :
  forall sd i w,
    request sd = Some r ->
    exists m' w',
      SetRefreshToken_chunks sm sd i chunks w
        = Ok (with_refreshTokenChunks m' sd) w' /\
      (forall j, i <= j < i + length chunks ->
         m' !! j = Some (Reg (chunk_name j))) /\
      (forall j, ~ (i <= j < i + length chunks) ->
         m' !! j = refreshTokenChunks sd !! j) /\
      retired w' = retired w /\ pool w' = pool w /\ response w' = response w /\
      (forall j c, chunks !! j = Some c ->
         registry w' !! chunk_name (i + j)
         = Some (set_value "token_chunk" (VString c)
                   (fst (loaded sm r w (chunk_name (i + j)))),
                 snd (loaded sm r w (chunk_name (i + j))))) /\
      (forall n, (forall j, j < length chunks -> n <> chunk_name (i + j)) ->
         registry w' !! n = registry w !! n).
Proof.
  induction chunks as [|chunk rest IH]; intros sd i w Hr.
  - exists (refreshTokenChunks sd), w. simpl.
    split; [now destruct sd |]. split; [intros j Hj; lia |].
    split; [reflexivity |]. split; [reflexivity |]. split; [reflexivity |].
    split; [reflexivity |]. split; [intros j c Hc; discriminate |].
    reflexivity.
  - cbn [SetRefreshToken_chunks]. rewrite Hr.
    rewrite (bind_Ok _ _ _ _ _ (store_Get_Some sm r (chunk_name i) w)).
    cbn [fst snd].
    rewrite (bind_Ok _ _ _ _ _
               (modify_update sm r _ _ (set_value "token_chunk" (VString chunk)) w)).
    set (w1 := update_entry sm r (chunk_name i)
                 (fun s => set_value "token_chunk" (VString chunk) s) w).
    set (sd1 := with_refreshTokenChunks
                  (<[i := Reg (chunk_name i)]> (refreshTokenChunks sd)) sd).
    destruct (IH sd1 (S i) w1 Hr)
      as (m' & w' & Hrun & Hin & Hout & Hret & Hpool & Hresp & Hval & Hframe).
    assert (Hother : forall j, chunk_name i <> chunk_name (S i + j)).
    { intros j Heq. apply sessionName_inj in Heq. lia. }
    exists m', w'. split; [exact Hrun |].
    split; [|split; [|split; [|split; [|split; [|split]]]]].
    + intros j Hj. simpl in Hj. destruct (decide (j = i)) as [->|].
      * rewrite Hout by lia. subst sd1. simpl. apply lookup_insert_eq.
      * apply Hin. lia.
    + intros j Hj. simpl in Hj. rewrite Hout by lia.
      subst sd1. simpl. apply lookup_insert_ne. lia.
    + exact Hret.
    + exact Hpool.
    + exact Hresp.
    + intros [|j] c Hc; simpl in Hc.
      * injection Hc as ->. rewrite Nat.add_0_r.
        rewrite Hframe; [subst w1; apply registry_update_same |].
        intros j _. apply Hother.
      * replace (i + S j) with (S i + j) by lia.
        rewrite (Hval j c Hc). subst w1.
        rewrite loaded_update_other; [reflexivity | apply Hother].
    + intros n Hn. rewrite Hframe.
      * subst w1. apply registry_update_other. intros <-.
        apply (Hn 0); [simpl; lia | now rewrite Nat.add_0_r].
      * intros j Hj. replace (S i + j) with (i + S j) by lia.
        apply Hn. simpl. lia.
Qed.

(** The collecting loop of [GetRefreshToken] over a map that holds
    exactly the chunks [l] under [0 .. len(l)-1]. *)
Lemma GetRefreshToken_loop_reads (m : gmap nat ptr) (w : World) (l : list string) :
  (forall j c, l !! j = Some c ->
     exists p s, m !! j = Some p /\ session_at w p = Some s /\
                 as_string (Values s !! "token_chunk") = c) ->
  m !! length l = None ->
  forall fuel i acc, i <= length l -> length l <= i + fuel ->
    GetRefreshToken_loop fuel m i acc w = Ok (acc ++ drop i l) w.
Proof.
  intros Hl Hend. induction fuel as [|fuel IH]; intros i acc Hi Hfuel.
  - assert (i = length l) as -> by lia. simpl. rewrite Hend.
    now rewrite drop_all, app_nil_r.
  - destruct (decide (i = length l)) as [->|Hne].
    + simpl. rewrite Hend. now rewrite drop_all, app_nil_r.
    + destruct (lookup_lt_is_Some_2 l i) as [c Hc]; [lia |].
      destruct (Hl i c Hc) as (p & s & Hm & Hs & Hchunk).
      cbn [GetRefreshToken_loop]. rewrite Hm.
      rewrite (bind_Ok _ _ _ _ _ (deref_Some _ _ _ Hs)).
      rewrite Hchunk, IH by lia.
      rewrite (drop_S l c i Hc), <- app_assoc. reflexivity.
Qed.

End RefreshChunks.

Section RefreshStore.
Context {codec : Codec} {cc : CookieCodec}.
Variable sm : SessionManager.
Variable r : httpRequest.

Abbreviation chunk_name := (sessionName refreshTokenCookie).

(** The part of [SetRefreshToken] after the expiry, on a session whose
    refresh partition is the registry's: the inline fields and the chunk
    partitions are written, the chunk map is rebuilt, and nothing else
    changes. *)
Lemma SetRefreshToken_store_spec (sd : SessionData) (token : string) (w : World) :
  request sd = Some r ->
  refreshSession sd = Some (Reg refreshTokenCookie) ->
  is_Some (registry w !! refreshTokenCookie) ->
  exists m' w',
    SetRefreshToken_store sm sd token w = Ok (with_refreshTokenChunks m' sd) w' /\
    (forall j, j < length (token_chunks token) ->
       m' !! j = Some (Reg (chunk_name j))) /\
    (forall j, length (token_chunks token) <= j -> m' !! j = None) /\
    retired w' = retired w /\ pool w' = pool w /\ response w' = response w /\
    (forall j c, token_chunks token !! j = Some c ->
       registry w' !! chunk_name j
       = Some (set_value "token_chunk" (VString c)
                 (fst (loaded sm r w (chunk_name j))),
               snd (loaded sm r w (chunk_name j)))) /\
    registry w' !! refreshTokenCookie
    = Some (set_value "compressed" (VBool true)
              (set_value "token"
                 (VString (if String.length (compressToken token) <=? maxCookieSize
                           then compressToken token else ""))
                 (fst (loaded sm r w refreshTokenCookie))),
            snd (loaded sm r w refreshTokenCookie)) /\
    (forall n, n <> refreshTokenCookie ->
       (forall j, j < length (token_chunks token) -> n <> chunk_name j) ->
       registry w' !! n = registry w !! n).
Proof.
  intros Hr Ha Hreg. unfold SetRefreshToken_store.
  cbn [refreshSession with_refreshTokenChunks]. rewrite Ha.
  pose proof (modify_registered sm r refreshTokenCookie) as Hmod.
  destruct (Nat.leb_spec (String.length (compressToken token)) maxCookieSize)
    as [Hfit|Hbig].
  - rewrite (bind_Ok _ _ _ _ _ (Hmod _ w Hreg)).
    rewrite (bind_Ok _ _ _ _ _ (modify_update sm r _ _ _ w)).
    rewrite (token_chunks_inline _ Hfit).
    exists ∅. eexists. split; [reflexivity |].
    split; [intros j Hj; simpl in Hj; lia |].
    split; [intros j _; apply lookup_empty |].
    split; [reflexivity |]. split; [reflexivity |]. split; [reflexivity |].
    split; [intros j c Hc; discriminate |].
    split; [apply registry_update_same |].
    intros n Hn _. now apply registry_update_other.
  - rewrite (bind_Ok _ _ _ _ _ (Hmod _ w Hreg)).
    rewrite (bind_Ok _ _ _ _ _ (modify_update sm r _ _ _ w)).
    rewrite (token_chunks_chunked _ Hbig).
    set (w3 := update_entry sm r refreshTokenCookie _ w).
    destruct (SetRefreshToken_chunks_spec sm r
                (splitIntoChunks (compressToken token) maxCookieSize)
                (with_refreshTokenChunks ∅ sd) 0 w3 Hr)
      as (m' & w' & Hrun & Hin & Hout & Hret & Hpool & Hresp & Hval & Hframe).
    exists m', w'.
    split; [rewrite Hrun; now destruct sd |].
    split; [intros j Hj; apply Hin; lia |].
    split; [intros j Hj; rewrite Hout by lia; apply lookup_empty |].
    split; [exact Hret |]. split; [exact Hpool |]. split; [exact Hresp |].
    split; [|split].
    + intros j c Hc. pose proof (Hval j c Hc) as Hv. cbn [Nat.add] in Hv.
      rewrite Hv. subst w3.
      rewrite loaded_update_other; [reflexivity | apply sessionName_not_base].
    + rewrite Hframe.
      * subst w3. apply registry_update_same.
      * intros j _. apply sessionName_not_base.
    + intros n Hn Hnot. rewrite Hframe by (intros j Hj; now apply Hnot).
      subst w3. now apply registry_update_other.
Qed.

(** What [GetRefreshToken] reads from a session in the state
    [SetRefreshToken_store] leaves. *)
Lemma GetRefreshToken_after_store (sd : SessionData) (token : string)
    (m' : gmap nat ptr) (w' : World) (sa : Session) (ea : option string)
    (old : string -> Session * option string) :
  refreshSession sd = Some (Reg refreshTokenCookie) ->
  (forall j, j < length (token_chunks token) ->
     m' !! j = Some (Reg (chunk_name j))) ->
  (forall j, length (token_chunks token) <= j -> m' !! j = None) ->
  (forall j c, token_chunks token !! j = Some c ->
     registry w' !! chunk_name j
     = Some (set_value "token_chunk" (VString c) (fst (old (chunk_name j))),
             snd (old (chunk_name j)))) ->
  registry w' !! refreshTokenCookie
  = Some (set_value "compressed" (VBool true)
            (set_value "token"
               (VString (if String.length (compressToken token) <=? maxCookieSize
                         then compressToken token else ""))
               sa), ea) ->
  GetRefreshToken (with_refreshTokenChunks m' sd) w' = Ok (readback token) w'.
Proof.
  intros Ha Hin Hout Hval Hacc. unfold GetRefreshToken.
  cbn [refreshSession refreshTokenChunks with_refreshTokenChunks]. rewrite Ha.
  assert (Hs : session_at w' (Reg refreshTokenCookie)
               = Some (set_value "compressed" (VBool true)
                         (set_value "token"
                            (VString (if String.length (compressToken token)
                                           <=? maxCookieSize
                                      then compressToken token else "")) sa))).
  { simpl. now rewrite Hacc. }
  rewrite (bind_Ok _ _ _ _ _ (deref_Some _ _ _ Hs)).
  assert (Htok : Values (set_value "compressed" (VBool true)
                   (set_value "token"
                      (VString (if String.length (compressToken token)
                                     <=? maxCookieSize
                                then compressToken token else "")) sa)) !! "token"
                 = Some (VString (if String.length (compressToken token)
                                       <=? maxCookieSize
                                  then compressToken token else ""))).
  { simpl. rewrite lookup_insert_ne by discriminate. apply lookup_insert_eq. }
  assert (Hflag : Values (set_value "compressed" (VBool true)
                   (set_value "token"
                      (VString (if String.length (compressToken token)
                                     <=? maxCookieSize
                                then compressToken token else "")) sa)) !! "compressed"
                  = Some (VBool true)).
  { simpl. apply lookup_insert_eq. }
  rewrite Htok, Hflag. cbn [as_string as_bool].
  assert (Hempty : size m' = length (token_chunks token)).
  { rewrite <- (size_dom (D := gset nat)).
    rewrite <- (size_set_seq (C := gset nat) 0 (length (token_chunks token))).
    f_equal. apply set_eq. intros j.
    rewrite elem_of_dom, elem_of_set_seq.
    destruct (decide (j < length (token_chunks token))) as [Hj|Hj].
    - rewrite Hin by exact Hj. split; [intros _; lia | eauto].
    - rewrite Hout by lia. split; [intros [? ?]; discriminate | lia]. }
  destruct (Nat.leb_spec (String.length (compressToken token)) maxCookieSize)
    as [Hfit|Hbig].
  - unfold readback.
    destruct (String.eqb_spec (compressToken token) "") as [He|Hne]; cbn [negb].
    + rewrite Hempty, (token_chunks_inline _ Hfit). reflexivity.
    + reflexivity.
  - unfold readback.
    destruct (String.eqb_spec (compressToken token) "") as [He|Hne].
    { rewrite He in Hbig. simpl in Hbig. lia. }
    cbn [String.eqb negb].
    assert (Hpos : 0 < length (token_chunks token)).
    { rewrite (token_chunks_length _ Hbig).
      rewrite ceil_div_step by (unfold maxCookieSize in *; lia). lia. }
    rewrite Hempty.
    destruct (Nat.eqb_spec (length (token_chunks token)) 0) as [Hz|_]; [lia |].
    assert (Hloop :
      GetRefreshToken_loop (length (token_chunks token)) m' 0 [] w'
      = Ok ([] ++ drop 0 (token_chunks token)) w').
    { apply GetRefreshToken_loop_reads; [| apply Hout; lia | lia | lia].
      intros j c Hc. exists (Reg (chunk_name j)). eexists.
      split; [apply Hin; eapply lookup_lt_Some; eauto |].
      split; [simpl; rewrite (Hval j c Hc); reflexivity |].
      simpl. now rewrite lookup_insert_eq. }
    rewrite drop_0, app_nil_l in Hloop.
    rewrite (bind_Ok _ _ _ _ _ Hloop).
    rewrite (bind_Ok _ _ _ _ _ (deref_Some _ _ _ Hs)).
    rewrite Hflag. cbn [as_bool].
    now rewrite (token_chunks_Join _ Hbig).
Qed.

End RefreshStore.

Section RefreshBound.
Context {codec : Codec} {cc : CookieCodec}.
Variable sm : SessionManager.

(** [SetRefreshToken] on a session bound to a request: the expiry, then
    the store. *)
Lemma SetRefreshToken_bound (sd : SessionData) (r : httpRequest)
    (token : string) (w w1 : World) :
  request sd = Some r ->
  expireRefreshTokenChunks sm sd None w = Ok tt w1 ->
  SetRefreshToken sm sd token w = SetRefreshToken_store sm sd token w1.
Proof.
  intros Hr Hexp. unfold SetRefreshToken. rewrite Hr.
  now rewrite (bind_Ok _ _ _ _ _ Hexp).
Qed.

Lemma SetRefreshToken_unbound (sd : SessionData) (token : string) (w : World) :
  request sd = None ->
  SetRefreshToken sm sd token w = SetRefreshToken_store sm sd token w.
Proof. intros Hr. unfold SetRefreshToken. now rewrite Hr. Qed.

End RefreshBound.

Section RefreshRun.
Context {codec : Codec} {cc : CookieCodec}.
Variable sm : SessionManager.
Variable r : httpRequest.

(** [SetRefreshToken] on a session bound to a request whose refresh
    partition is the registry's: it returns, the chunk map then holds the
    chunks of the new token under the slot's names, [GetRefreshToken] reads
    [readback token], and outside the slot's names nothing changes. *)
Lemma SetRefreshToken_run (sd : SessionData) (token : string) (w : World) :
  request sd = Some r ->
  refreshSession sd = Some (Reg refreshTokenCookie) ->
  is_Some (registry w !! refreshTokenCookie) ->
  exists m' w',
    SetRefreshToken sm sd token w = Ok (with_refreshTokenChunks m' sd) w' /\
    (forall i, m' !! i
               = if decide (i < length (token_chunks token))
                 then Some (Reg (sessionName refreshTokenCookie i)) else None) /\
    size m' = length (token_chunks token) /\
    GetRefreshToken (with_refreshTokenChunks m' sd) w' = Ok (readback token) w' /\
    retired w' = retired w /\ pool w' = pool w /\ response w' = response w /\
    is_Some (registry w' !! refreshTokenCookie) /\
    (forall n, ~ slot_names refreshTokenCookie n ->
       registry w' !! n = registry w !! n) /\
    (forall n, is_Some (registry w !! n) -> is_Some (registry w' !! n)) /\
    (forall i, i < length (token_chunks token) ->
       is_Some (registry w' !! sessionName refreshTokenCookie i)).
Proof.
  intros Hr Ha Hreg.
  destruct (expireRefreshTokenChunks_spec sm r sd w Hr)
    as (w1 & k & Hexp & _ & _ & Hret1 & Hpool1 & Hresp1 & _ & _ & Hframe1).
  assert (Hreg1 : is_Some (registry w1 !! refreshTokenCookie)).
  { rewrite Hframe1; [exact Hreg |]. intros j _. apply sessionName_not_base. }
  destruct (SetRefreshToken_store_spec sm r sd token w1 Hr Ha Hreg1)
    as (m' & w' & Hrun & Hin & Hout & Hret & Hpool & Hresp & Hval & Hacc & Hframe).
  exists m', w'.
  split; [now rewrite (SetRefreshToken_bound sm sd r token w w1 Hr Hexp) |].
  assert (Hm : forall i, m' !! i
               = if decide (i < length (token_chunks token))
                 then Some (Reg (sessionName refreshTokenCookie i)) else None).
  { intros i. destruct (decide (i < length (token_chunks token))) as [Hi|Hi];
      [now apply Hin | apply Hout; lia]. }
  split; [exact Hm |].
  split; [|split; [|split; [|split; [|split; [|split; [|split; [|split]]]]]]].
  - rewrite <- (size_dom (D := gset nat)).
    rewrite <- (size_set_seq (C := gset nat) 0 (length (token_chunks token))).
    f_equal. apply set_eq. intros j.
    rewrite elem_of_dom, elem_of_set_seq, Hm.
    destruct (decide (j < length (token_chunks token))) as [Hj|Hj].
    + split; [intros _; lia | eauto].
    + split; [intros [? ?]; discriminate | lia].
  - exact (GetRefreshToken_after_store sd token m' w' _ _ (loaded sm r w1)
             Ha Hin Hout Hval Hacc).
  - congruence.
  - congruence.
  - congruence.
  - rewrite Hacc. eauto.
  - intros n Hn. rewrite Hframe, Hframe1.
    + reflexivity.
    + intros j _ ->. apply Hn. right. eauto.
    + intros ->. apply Hn. now left.
    + intros j _ ->. apply Hn. right. eauto.
  - intros n Hn.
    assert (Hn1 : is_Some (registry w1 !! n)).
    { pose proof (expireRefreshTokenChunks_valid sm r sd w w1 (Reg n) Hr Hexp)
        as Hv. simpl in Hv.
      destruct (registry w1 !! n); [eauto |].
      destruct Hv as [? Hv]; [destruct Hn as [se ->]; eauto | discriminate]. }
    destruct (decide (n = refreshTokenCookie)) as [->|Hna];
      [rewrite Hacc; eauto |].
    destruct (decide (n ∈ sessionName refreshTokenCookie
                           <$> seq 0 (length (token_chunks token))))
      as [Hin'|Hno].
    + apply list_elem_of_fmap in Hin' as (j & -> & Hj).
      apply elem_of_seq in Hj.
      destruct (lookup_lt_is_Some_2 (token_chunks token) j) as [c Hc]; [lia |].
      rewrite (Hval j c Hc). eauto.
    + rewrite Hframe; [exact Hn1 | exact Hna |].
      intros j Hj ->. apply Hno. apply list_elem_of_fmap.
      exists j. split; [reflexivity |]. apply elem_of_seq. lia.
  - intros i Hi.
    destruct (lookup_lt_is_Some_2 (token_chunks token) i Hi) as [c Hc].
    rewrite (Hval i c Hc). eauto.
Qed.

End RefreshRun.

(** ** The two token slots and the main session *)

Lemma take_app_length (s t : string) :
  GoString.take (String.length s) (s +:+ t) = s.
Proof.
  induction s as [|c s IH]; [now destruct t |].
  rewrite GoStringFacts.app_cons. simpl. now rewrite IH.
Qed.

(** The names of a slot start with the slot's cookie name. *)
Lemma slot_names_prefix (baseName n : string) :
  slot_names baseName n -> GoString.take (String.length baseName) n = baseName.
Proof.
  intros [->|[i ->]].
  - rewrite <- (GoStringFacts.app_empty_r baseName) at 2. apply take_app_length.
  - unfold sessionName. apply take_app_length.
Qed.

Lemma slots_apart (n : string) :
  slot_names accessTokenCookie n -> slot_names refreshTokenCookie n -> False.
Proof.
  intros Ha Hr. apply slot_names_prefix in Ha, Hr.
  change (String.length refreshTokenCookie)
    with (String.length accessTokenCookie) in Hr.
  rewrite Ha in Hr. discriminate.
Qed.

Lemma main_outside_slots :
  ~ slot_names accessTokenCookie mainCookieName /\
  ~ slot_names refreshTokenCookie mainCookieName.
Proof.
  split; intros H; apply slot_names_prefix in H; discriminate.
Qed.

Section Reads.
Context {codec : Codec}.

(** The collecting loop reads the chunk sessions and nothing else. *)
Lemma GetAccessToken_loop_ext (m : gmap nat ptr) (w w' : World) :
  (forall i p, m !! i = Some p -> session_at w' p = session_at w p) ->
  forall fuel i acc l w0,
    GetAccessToken_loop fuel m i acc w = Ok l w0 ->
    w0 = w /\ GetAccessToken_loop fuel m i acc w' = Ok l w'.
Proof.
  intros Hsame. induction fuel as [|fuel IH]; intros i acc l w0;
    cbn [GetAccessToken_loop]; destruct (m !! i) as [p|] eqn:Hm.
  - unfold bind, deref. rewrite (Hsame i p Hm).
    destruct (session_at w p); discriminate.
  - intros [= <- <-]. split; reflexivity.
  - unfold bind, deref. rewrite (Hsame i p Hm).
    destruct (session_at w p) as [s|]; [|discriminate]. apply IH.
  - intros [= <- <-]. split; reflexivity.
Qed.

(** [GetAccessToken] reads the access partition and the sessions of the
    chunk map, and nothing else. *)
Lemma GetAccessToken_ext (sd sd' : SessionData) (w w' : World) (t : string) :
  accessSession sd' = accessSession sd ->
  accessTokenChunks sd' = accessTokenChunks sd ->
  (forall p, accessSession sd = Some p -> session_at w' p = session_at w p) ->
  (forall i p, accessTokenChunks sd !! i = Some p ->
     session_at w' p = session_at w p) ->
  GetAccessToken sd w = Ok t w ->
  GetAccessToken sd' w' = Ok t w'.
Proof.
  intros Ha Hc Hsa Hsc. unfold GetAccessToken. rewrite Ha, Hc.
  destruct (accessSession sd) as [a|]; [|discriminate].
  unfold bind at 1 4. unfold deref at 1 3. rewrite (Hsa a eq_refl).
  destruct (session_at w a) as [s|] eqn:Hs; [|discriminate].
  destruct (negb _).
  - destruct (as_bool _); intros [= <-]; reflexivity.
  - destruct (size (accessTokenChunks sd) =? 0); [intros [= <-]; reflexivity |].
    intros H. apply bind_inv in H as (l & w0 & Hloop & H).
    destruct (GetAccessToken_loop_ext _ w w' Hsc _ _ _ _ _ Hloop) as [-> Hloop'].
    rewrite (bind_Ok _ _ _ _ _ Hloop').
    rewrite (bind_Ok _ _ _ _ _ (deref_Some _ _ _ Hs)) in H.
    assert (Hs' : session_at w' a = Some s) by (now rewrite (Hsa a eq_refl)).
    rewrite (bind_Ok _ _ _ _ _ (deref_Some _ _ _ Hs')).
    destruct (as_bool _); injection H as <-; reflexivity.
Qed.

Lemma GetRefreshToken_ext (sd sd' : SessionData) (w w' : World) (t : string) :
  refreshSession sd' = refreshSession sd ->
  refreshTokenChunks sd' = refreshTokenChunks sd ->
  (forall p, refreshSession sd = Some p -> session_at w' p = session_at w p) ->
  (forall i p, refreshTokenChunks sd !! i = Some p ->
     session_at w' p = session_at w p) ->
  GetRefreshToken sd w = Ok t w ->
  GetRefreshToken sd' w' = Ok t w'.
Proof.
  intros Ha Hc Hsa Hsc. rewrite !GetRefreshToken_as_access.
  now apply GetAccessToken_ext.
Qed.

(** [GetAuthenticated] and the string getters read the main session and
    nothing else. *)
Lemma main_reads_ext (sd sd' : SessionData) (w w' : World) :
  mainSession sd' = mainSession sd ->
  (forall p, mainSession sd = Some p -> session_at w' p = session_at w p) ->
  (forall now b, GetAuthenticated sd now w = Ok b w ->
                 GetAuthenticated sd' now w' = Ok b w') /\
  (forall a v, a ∈ string_fields -> getter a sd w = Ok v w ->
               getter a sd' w' = Ok v w').
Proof.
  intros Hm Hsame. split.
  - intros now b. unfold GetAuthenticated. rewrite Hm.
    destruct (mainSession sd) as [p|]; [|discriminate].
    unfold bind, deref. rewrite (Hsame p eq_refl).
    destruct (session_at w p); [|discriminate].
    destruct (negb _); [intros [= <-]; reflexivity |].
    destruct (as_int64 _); intros [= <-]; reflexivity.
  - intros a v Hin. apply list_elem_of_lookup in Hin as [i Hi].
    destruct (string_fields_keys i a Hi) as (k & _ & _ & Hget & _).
    rewrite !Hget, Hm.
    destruct (mainSession sd) as [p|]; [|discriminate].
    unfold bind, deref. rewrite (Hsame p eq_refl).
    destruct (session_at w p); [|discriminate].
    intros [= <-]. reflexivity.
Qed.

End Reads.

(** The pointers of a slot of a loaded session designate registry sessions
    under the slot's names. *)
Lemma loaded_slots {cc : CookieCodec} (sm : SessionManager) (r : httpRequest)
    (sd : SessionData) (w : World) :
  loaded_session sm r sd w ->
  (forall i p, accessTokenChunks sd !! i = Some p ->
     exists n, p = Reg n /\ slot_names accessTokenCookie n) /\
  (forall i p, refreshTokenChunks sd !! i = Some p ->
     exists n, p = Reg n /\ slot_names refreshTokenCookie n).
Proof.
  intros (_ & _ & _ & _ & _ & _ & _ & Ha & Hf & _). split; intros i p Hp.
  - destruct (Ha i p Hp) as [-> _]. eexists. split; [reflexivity |]. right. eauto.
  - destruct (Hf i p Hp) as [-> _]. eexists. split; [reflexivity |]. right. eauto.
Qed.

(** X22.  [SetRefreshToken] followed by [GetRefreshToken] returns the token,
    whatever its size: when the compressed form fits one cookie the chunk
    map is empty, and otherwise it holds [ceil(len/2000)] chunks in the
    partitions [_oidc_raczylo_r_<i>]. *)
Theorem SetRefreshToken_roundtrip
    {codec : Codec} {laws : CodecLaws codec} {cc : CookieCodec}
    (sm : SessionManager) (sd : SessionData) (r : httpRequest) (w : World)
    (token : string) (gz : gzipWriter) (z : string) :
  request sd = Some r ->
  refreshSession sd = Some (Reg refreshTokenCookie) ->
  is_Some (registry w !! refreshTokenCookie) ->
  gzip_Write token = Some gz ->
  gzip_Close gz = Some z ->
  exists sd' w',
    SetRefreshToken sm sd token w = Ok sd' w' /\
    size (refreshTokenChunks sd')
    = (if String.length (base64_EncodeToString z) <=? maxCookieSize then 0
       else ceil_div (String.length (base64_EncodeToString z)) maxCookieSize) /\
    (forall i p, refreshTokenChunks sd' !! i = Some p ->
       p = Reg (sessionName refreshTokenCookie i)) /\
    GetRefreshToken sd' w' = Ok token w'.
Proof.
  intros Hr Hf Hreg Hw Hc.
  pose proof (compressToken_ok token gz z Hw Hc) as Hcomp.
  destruct (SetRefreshToken_run sm r sd token w Hr Hf Hreg)
    as (m' & w' & Hrun & Hm & Hsize & Hget & _).
  exists (with_refreshTokenChunks m' sd), w'.
  split; [exact Hrun |]. split; [|split].
  - cbn [refreshTokenChunks with_refreshTokenChunks]. rewrite Hsize.
    rewrite <- Hcomp.
    destruct (Nat.leb_spec (String.length (compressToken token)) maxCookieSize)
      as [Hfit|Hbig].
    + now rewrite (token_chunks_inline _ Hfit).
    + apply token_chunks_length, Hbig.
  - cbn [refreshTokenChunks with_refreshTokenChunks]. intros i p.
    rewrite Hm. destruct (decide _); [now intros [= <-] | discriminate].
  - rewrite Hget. f_equal. eapply readback_ok; eauto.
Qed.

(** X23.  [SetAccessToken] touches the access slot only: on a loaded
    session it returns, and afterwards [GetRefreshToken], [GetAuthenticated]
    and the string getters return what they returned before; no header is
    written. *)
Theorem SetAccessToken_leaves_rest {codec : Codec} {cc : CookieCodec}
    (sm : SessionManager) (r : httpRequest) (sd : SessionData) (w : World)
    (token : string) :
  loaded_session sm r sd w ->
  exists sd' w',
    SetAccessToken sm sd token w = Ok sd' w' /\
    response w' = response w /\
    (forall t, GetRefreshToken sd w = Ok t w ->
               GetRefreshToken sd' w' = Ok t w') /\
    (forall now b, GetAuthenticated sd now w = Ok b w ->
                   GetAuthenticated sd' now w' = Ok b w') /\
    (forall a v, a ∈ string_fields -> getter a sd w = Ok v w ->
                 getter a sd' w' = Ok v w').
Proof.
  intros Hls.
  pose proof (loaded_slots sm r sd w Hls) as [_ Hslot].
  destruct Hls as (Hr & Hm & Ha & Hf & _ & Hra & _).
  destruct (SetAccessToken_run sm r sd token w Hr Ha Hra)
    as (m' & w' & Hrun & _ & _ & _ & Hret & _ & Hresp & _ & Hframe & _).
  assert (Hsame : forall n, ~ slot_names accessTokenCookie n ->
            session_at w' (Reg n) = session_at w (Reg n)).
  { intros n Hn. simpl. now rewrite Hframe. }
  exists (with_accessTokenChunks m' sd), w'.
  split; [exact Hrun |]. split; [exact Hresp |]. split.
  - intros t. apply GetRefreshToken_ext; try reflexivity.
    + rewrite Hf. intros p [= <-]. apply Hsame.
      intros H. apply (slots_apart _ H). now left.
    + intros i p Hp. destruct (Hslot i p Hp) as (n & -> & Hn).
      apply Hsame. intros H. exact (slots_apart _ H Hn).
  - apply main_reads_ext; [reflexivity |].
    rewrite Hm. intros p [= <-]. apply Hsame, main_outside_slots.
Qed.

(** X24.  [SetRefreshToken] touches the refresh slot only: on a loaded
    session it returns, and afterwards [GetAccessToken], [GetAuthenticated]
    and the string getters return what they returned before; no header is
    written. *)
Theorem SetRefreshToken_leaves_rest {codec : Codec} {cc : CookieCodec}
    (sm : SessionManager) (r : httpRequest) (sd : SessionData) (w : World)
    (token : string) :
  loaded_session sm r sd w ->
  exists sd' w',
    SetRefreshToken sm sd token w = Ok sd' w' /\
    response w' = response w /\
    (forall t, GetAccessToken sd w = Ok t w ->
               GetAccessToken sd' w' = Ok t w') /\
    (forall now b, GetAuthenticated sd now w = Ok b w ->
                   GetAuthenticated sd' now w' = Ok b w') /\
    (forall a v, a ∈ string_fields -> getter a sd w = Ok v w ->
                 getter a sd' w' = Ok v w').
Proof.
  intros Hls.
  pose proof (loaded_slots sm r sd w Hls) as [Hslot _].
  destruct Hls as (Hr & Hm & Ha & Hf & _ & _ & Hrf & _).
  destruct (SetRefreshToken_run sm r sd token w Hr Hf Hrf)
    as (m' & w' & Hrun & _ & _ & _ & Hret & _ & Hresp & _ & Hframe & _).
  assert (Hsame : forall n, ~ slot_names refreshTokenCookie n ->
            session_at w' (Reg n) = session_at w (Reg n)).
  { intros n Hn. simpl. now rewrite Hframe. }
  exists (with_refreshTokenChunks m' sd), w'.
  split; [exact Hrun |]. split; [exact Hresp |]. split.
  - intros t. apply GetAccessToken_ext; try reflexivity.
    + rewrite Ha. intros p [= <-]. apply Hsame.
      intros H. apply (slots_apart accessTokenCookie); [now left | exact H].
    + intros i p Hp. destruct (Hslot i p Hp) as (n & -> & Hn).
      apply Hsame. intros H. exact (slots_apart _ Hn H).
  - apply main_reads_ext; [reflexivity |].
    rewrite Hm. intros p [= <-]. apply Hsame, main_outside_slots.
Qed.

(** X25.  Both tokens can be stored in one session: after
    [SetAccessToken(a)] and then [SetRefreshToken(b)] on a loaded session,
    [GetAccessToken] returns [a] and [GetRefreshToken] returns [b], whatever
    their sizes. *)
Theorem both_tokens_roundtrip
    {codec : Codec} {laws : CodecLaws codec} {cc : CookieCodec}
    (sm : SessionManager) (r : httpRequest) (sd : SessionData) (w : World)
    (accessToken refreshToken : string) :
  loaded_session sm r sd w ->
  is_Some (gzip_Write accessToken ≫= gzip_Close) ->
  is_Some (gzip_Write refreshToken ≫= gzip_Close) ->
  exists sd1 w1 sd2 w2,
    SetAccessToken sm sd accessToken w = Ok sd1 w1 /\
    SetRefreshToken sm sd1 refreshToken w1 = Ok sd2 w2 /\
    GetAccessToken sd2 w2 = Ok accessToken w2 /\
    GetRefreshToken sd2 w2 = Ok refreshToken w2.
Proof.
  intros (Hr & Hm & Ha & Hf & _ & Hra & Hrf & _) [za Hza] [zf Hzf].
  destruct (gzip_Write accessToken) as [gza|] eqn:Hwa; [|discriminate].
  destruct (gzip_Write refreshToken) as [gzf|] eqn:Hwf; [|discriminate].
  cbn in Hza, Hzf.
  destruct (SetAccessToken_run sm r sd accessToken w Hr Ha Hra)
    as (m1 & w1 & Hrun1 & Hm1 & _ & Hget1 & _ & _ & _ & _ & Hframe1 & _).
  set (sd1 := with_accessTokenChunks m1 sd) in *.
  assert (Hrf1 : is_Some (registry w1 !! refreshTokenCookie)).
  { rewrite Hframe1; [exact Hrf |].
    intros H. apply (slots_apart _ H). now left. }
  destruct (SetRefreshToken_run sm r sd1 refreshToken w1 Hr Hf Hrf1)
    as (m2 & w2 & Hrun2 & _ & _ & Hget2 & _ & _ & _ & _ & Hframe2 & _).
  exists sd1, w1, (with_refreshTokenChunks m2 sd1), w2.
  split; [exact Hrun1 |]. split; [exact Hrun2 |]. split.
  - rewrite (readback_ok accessToken gza za Hwa Hza) in Hget1.
    assert (Hsame : forall n, slot_names accessTokenCookie n ->
              session_at w2 (Reg n) = session_at w1 (Reg n)).
    { intros n Hn. simpl. rewrite Hframe2; [reflexivity |].
      intros H. exact (slots_apart _ Hn H). }
    revert Hget1. apply GetAccessToken_ext; try reflexivity.
    + cbn. rewrite Ha. intros p [= <-]. apply Hsame. now left.
    + cbn. intros i p. rewrite Hm1.
      destruct (decide _); [intros [= <-] | discriminate].
      apply Hsame. right. eauto.
  - rewrite Hget2. f_equal. eapply readback_ok; eauto.
Qed.

(** ** Further compositions *)

(** X26.  When the pool hands out an object that served an earlier request
    and the main cookie is older than 24 hours, [GetSession] returns the
    error "session expired": the main partition is emptied and marked for
    deletion, the access and refresh partitions of this request are never
    loaded, and no header is written. *)
Theorem GetSession_expired_on_recycled_object {cc : CookieCodec}
    (sm : SessionManager) (r : httpRequest) (pooled : SessionData) (w : World)
    (now : Z) (vals : gmap string value) (createdAt : Z) :
  registry w = ∅ ->
  Cookies r !! mainCookieName = Some (Decodes vals) ->
  vals !! "created_at" = Some (VInt64 createdAt) ->
  (absoluteSessionTimeout < now - time_Unix createdAt)%Z ->
  recycled pooled w ->
  exists w' main,
    GetSession sm pooled now r w = Ok (Error "session expired") w' /\
    session_at w' (Reg mainCookieName) = Some main /\ expired main /\
    registry w' !! accessTokenCookie = None /\
    registry w' !! refreshTokenCookie = None /\
    response w' = response w.
Proof.
  intros Hempty Hcookie Hcreated Hold Hrec.
  destruct (GetSession_expired_recycled sm r pooled w now vals createdAt)
    as (w' & Hrun & Hreg & Hresp); try assumption.
  { rewrite Hempty. apply lookup_empty. }
  exists w'. eexists. split; [exact Hrun |].
  split; [simpl; rewrite Hreg, lookup_insert_eq; reflexivity |].
  split; [split; reflexivity |].
  rewrite Hreg, Hempty.
  split; [now rewrite lookup_insert_ne by discriminate |].
  split; [now rewrite lookup_insert_ne by discriminate | exact Hresp].
Qed.

(** X27.  [decompressToken] inverts [compressToken] on every token that
    gzip can write, and the compressed form is never empty; when gzip fails,
    [compressToken] hands the token back as it is. *)
Theorem compressToken_roundtrip {codec : Codec} {laws : CodecLaws codec}
    (token : string) :
  (is_Some (gzip_Write token ≫= gzip_Close) ->
   decompressToken (compressToken token) = token /\
   compressToken token <> "") /\
  (gzip_Write token ≫= gzip_Close = None -> compressToken token = token).
Proof.
  split.
  - intros [z Hz]. destruct (gzip_Write token) as [gz|] eqn:Hw; [|discriminate].
    cbn in Hz. rewrite (compressToken_ok token gz z Hw Hz). split.
    + eapply decompress_compress; eauto.
    + eapply compressed_nonempty; eauto.
  - unfold compressToken. destruct (gzip_Write token) as [gz|]; [|reflexivity].
    cbn. now intros ->.
Qed.

(** X28.  [SetAccessToken] followed by [Save]: with an encoder that does
    not fail, [Save] succeeds and writes exactly one header per partition the
    session data then points to, that is three, one per chunk of the new
    token, and one per refresh chunk.  A chunk partition of the token stored
    before gets a header only if the new token has a chunk of that index. *)
Theorem SetAccessToken_then_Save {codec : Codec} {cc : CookieCodec}
    (sm : SessionManager) (r : httpRequest) (sd : SessionData)
    (wr : httpResponseWriter) (w : World) (token : string) :
  loaded_session sm r sd w ->
  (forall n vals, exists enc, securecookie_Encode n vals = Value enc) ->
  let options :=
    mkOptions "/" 86400
      (GoString.HasPrefix (URL_Scheme r) "https" || forceHTTPS sm)
      true SameSiteLaxMode in
  exists sd' w' w'' added,
    SetAccessToken sm sd token w = Ok sd' w' /\
    Save sm sd' r wr w' = Ok None w'' /\
    response w'' = response w ++ added /\
    length added
    = 3 + length (token_chunks token) + size (refreshTokenChunks sd) /\
    Forall (saved_header options w' sd') added.
Proof.
  intros Hls Henc options.
  pose proof (loaded_slots sm r sd w Hls) as [_ Hslot].
  pose proof Hls as (Hr & Hm & Ha & Hf & Hrm & Hra & Hrf & _ & _ & _ & Hfvalid).
  destruct (SetAccessToken_run sm r sd token w Hr Ha Hra)
    as (m' & w' & Hrun & Hm' & Hsize & _ & _ & _ & Hresp & _ & _ & Hmono & Hnew).
  set (sd' := with_accessTokenChunks m' sd) in *.
  assert (Hreg : forall n, is_Some (registry w' !! n) ->
                           is_Some (session_at w' (Reg n))).
  { intros n [se Hse]. simpl. rewrite Hse. eauto. }
  destruct (Save_run sm sd' r wr w')
    as (e & w'' & added & Hsave & Hsav & Hok & _ & _ & Htot).
  { intros p [Hp|[Hp|[Hp|[[i Hp]|[i Hp]]]]]; cbn in Hp.
    - rewrite Hm in Hp. injection Hp as <-. auto.
    - rewrite Ha in Hp. injection Hp as <-. auto.
    - rewrite Hf in Hp. injection Hp as <-. auto.
    - rewrite Hm' in Hp.
      destruct (decide _); [injection Hp as <- | discriminate]. auto.
    - destruct (Hslot i p Hp) as (n & -> & _).
      apply Hreg, Hmono. destruct (Hfvalid i _ Hp) as [s Hs]. simpl in Hs.
      destruct (registry w !! n); [eauto | discriminate]. }
  { cbn. rewrite Hm. eauto. }
  { cbn. rewrite Ha. eauto. }
  { cbn. rewrite Hf. eauto. }
  assert (He : e = None) by (apply Htot; intros q s _ _; apply Henc).
  subst e. fold options in Hsav. destruct Hsav as (_ & Hresp' & Hacc).
  exists sd', w', w'', added. split; [exact Hrun |]. split; [exact Hsave |].
  split; [congruence |]. split; [|exact Hacc].
  rewrite Hok by reflexivity. cbn. now rewrite Hsize.
Qed.

(** X29.  [BuildLogoutURL] fails only when the end-session URL does not
    parse.  Otherwise the URL it returns is the parsed URL with a new query:
    [id_token_hint] is the token, [post_logout_redirect_uri] is the redirect
    URI when that is not empty (and what the URL already had otherwise), and
    every other parameter of the end-session URL is kept. *)
Theorem BuildLogoutURL_spec {urllib : UrlLib}
    (endSessionURL idToken postLogoutRedirectURI : string) :
  match url_Parse endSessionURL with
  | Error e =>
      BuildLogoutURL endSessionURL idToken postLogoutRedirectURI
      = Error ("failed to parse end session URL: " +:+ e)
  | Value u =>
      exists q,
        BuildLogoutURL endSessionURL idToken postLogoutRedirectURI
        = Value (URL_String (URL_set_RawQuery (Values_Encode q) u)) /\
        q !! "id_token_hint" = Some [idToken] /\
        q !! "post_logout_redirect_uri"
        = (if String.eqb postLogoutRedirectURI ""
           then URL_Query u !! "post_logout_redirect_uri"
           else Some [postLogoutRedirectURI]) /\
        (forall k, k <> "id_token_hint" -> k <> "post_logout_redirect_uri" ->
           q !! k = URL_Query u !! k)
  end.
Proof.
  unfold BuildLogoutURL. destruct (url_Parse endSessionURL) as [u|e];
    [|reflexivity].
  eexists. split; [reflexivity |]. unfold BuildLogoutURL_query.
  destruct (String.eqb postLogoutRedirectURI ""); cbn [negb].
  - split; [apply lookup_insert_eq |].
    split; [now rewrite lookup_insert_ne by discriminate |].
    intros k Hk _. now rewrite lookup_insert_ne by congruence.
  - split; [rewrite lookup_insert_ne by discriminate; apply lookup_insert_eq |].
    split; [apply lookup_insert_eq |].
    intros k Hk Hk'. now rewrite !lookup_insert_ne by congruence.
Qed.
(** ** What the client keeps *)

Lemma bits_pos_bits (p : positive) : bits_pos (pos_bits p) = p.
Proof. induction p as [p IH|p IH|]; cbn; now rewrite ?IH. Qed.

Lemma Demo_cookie_laws : CookieLaws Demo.jar_cookies Demo.jar_decoder.
Proof.
  split. intros n vals encoded [= <-]. cbn.
  now rewrite bits_pos_bits, decode_encode.
Qed.

Section Jar.
Context {cd : CookieDecoder}.

(** A name no header carries keeps its cookie. *)
Lemma jar_untouched (n : string) (headers : list SetCookie) :
  forall jar,
    Forall (fun h => cookie_name h <> n) headers ->
    foldl jar_set jar headers !! n = jar !! n.
Proof.
  induction headers as [|h hs IH]; intros jar Hall; [reflexivity |].
  rewrite Forall_cons in Hall. destruct Hall as [Hh Hhs]. cbn [foldl].
  rewrite (IH _ Hhs). unfold jar_set.
  destruct (MaxAge (cookie_options h) <? 0)%Z.
  - now apply lookup_delete_ne.
  - now apply lookup_insert_ne.
Qed.

(** A name some header carries gets the cookie of the headers of that
    name, when these all carry the same cookie and do not delete it. *)
Lemma jar_touched (n : string) (c : cookie) (headers : list SetCookie) :
  forall jar,
    Forall (fun h => cookie_name h = n ->
              (0 <= MaxAge (cookie_options h))%Z /\ cookie_of h = c) headers ->
    Exists (fun h => cookie_name h = n) headers ->
    foldl jar_set jar headers !! n = Some c.
Proof.
  induction headers as [|h hs IH] using rev_ind; intros jar Hall Hex.
  - now apply Exists_nil in Hex.
  - rewrite Forall_app, Forall_singleton in Hall. destruct Hall as [Hhs Hh].
    rewrite foldl_app. cbn [foldl].
    destruct (decide (cookie_name h = n)) as [Hn|Hn].
    + destruct (Hh Hn) as [Hage Hc]. unfold jar_set.
      destruct (Z.ltb_spec (MaxAge (cookie_options h)) 0); [lia |].
      rewrite Hn, Hc. apply lookup_insert_eq.
    + assert (Hrest : Exists (fun h => cookie_name h = n) hs).
      { rewrite Exists_app, Exists_cons, Exists_nil in Hex. tauto. }
      unfold jar_set at 1.
      destruct (MaxAge (cookie_options h) <? 0)%Z.
      * rewrite lookup_delete_ne by exact Hn. now apply IH.
      * rewrite lookup_insert_ne by exact Hn. now apply IH.
Qed.
End Jar.

(** ** The headers of [Save], one by one *)

Section SavingExact.
Context {cc : CookieCodec}.
Variable options : Options.
Variable sd : SessionData.
Variable w0 : World.
Hypothesis encodes :
  forall n vals, exists enc, securecookie_Encode n vals = Value enc.

(** [session.Save(r, w)] on a session that has the options writes the
    header of that session. *)
Lemma save_step_exact (w : World) (acc : list SetCookie) (q : ptr) (x : Session) :
  saving options sd w0 w acc ->
  points_to sd q ->
  session_at w q = Some x -> Opts x = options ->
  exists w1 h,
    session_Save (Some q) w = Ok None w1 /\
    saving options sd w0 w1 (acc ++ [h]) /\
    (forall q', session_at w1 q' = session_at w q') /\
    header_for options w0 q h.
Proof.
  intros Hsav Hq Hx Ho.
  destruct (save_step options sd w0 w acc q x Hsav Hq Hx Ho)
    as (s0 & Hs0 & Hsave).
  destruct (encodes (name s0) (Values s0)) as [enc Henc].
  rewrite Henc in Hsave. destruct Hsave as (w1 & h & Hrun & Hsav1 & Hsame).
  exists w1, h. split; [exact Hrun |]. split; [exact Hsav1 |].
  split; [exact Hsame |].
  destruct (saving_session options sd w0 w acc q s0 Hsav Hs0)
    as (x' & Hx' & Hname & _ & Hvals & _).
  rewrite Hx in Hx'. injection Hx' as <-.
  revert Hrun. unfold session_Save.
  rewrite (bind_Ok _ _ _ _ _ (deref_Some _ _ _ Hx)).
  rewrite Hname, Hvals, Henc. intros [= <-].
  destruct Hsav as (_ & Hresp & _). destruct Hsav1 as (_ & Hresp1 & _).
  cbn in Hresp1. rewrite Hresp, <- app_assoc in Hresp1.
  apply app_inv_head, app_inv_head in Hresp1. injection Hresp1 as <-.
  split; [exact Ho |]. exists s0. cbn. auto.
Qed.

(** The chunk loops of [Save] write the headers of the sessions they are
    given, in that order. *)
Lemma Save_chunks_exact (what : string) (ps : list ptr) :
  forall w acc,
    (forall q, q ∈ ps -> points_to sd q /\ is_Some (session_at w0 q)) ->
    saving options sd w0 w acc ->
    exists w' acc',
      Save_chunks what options ps w = Ok None w' /\
      saving options sd w0 w' (acc ++ acc') /\
      Forall2 (header_for options w0) ps acc'.
Proof.
  induction ps as [|p ps IH]; intros w acc Hps Hsav.
  - exists w, []. split; [reflexivity |].
    rewrite app_nil_r. split; [exact Hsav | constructor].
  - destruct (Hps p) as [Hpt Hvalid]; [apply elem_of_cons; auto |].
    destruct (assign_step options sd w0 w acc p Hsav Hvalid)
      as (w1 & x & Hmod & Hsav1 & Hx & Ho & _).
    destruct (save_step_exact w1 acc p x Hsav1 Hpt Hx Ho)
      as (w2 & h & Hsave & Hsav2 & _ & Hh).
    cbn [Save_chunks]. rewrite (bind_Ok _ _ _ _ _ Hmod).
    rewrite (bind_Ok _ _ _ _ _ Hsave).
    destruct (IH w2 (acc ++ [h])) as (w' & acc' & Hrun & Hsav' & Hall).
    { intros q Hq. apply Hps, elem_of_cons. auto. }
    { exact Hsav2. }
    exists w', (h :: acc'). split; [exact Hrun |].
    split; [now rewrite <- app_assoc in Hsav' |].
    constructor; assumption.
Qed.
End SavingExact.

(** [Save] with an encoder that does not fail writes the headers of the
    main, the access and the refresh partition and then those of the chunk
    partitions of the two chunk maps. *)
Lemma Save_exact {cc : CookieCodec} (sm : SessionManager) (sd : SessionData)
    (r : httpRequest) (wr : httpResponseWriter) (w : World) (pm pa pf : ptr) :
  (forall p, points_to sd p -> is_Some (session_at w p)) ->
  mainSession sd = Some pm -> accessSession sd = Some pa ->
  refreshSession sd = Some pf ->
  (forall n vals, exists enc, securecookie_Encode n vals = Value enc) ->
  let options :=
    mkOptions "/" 86400
      (GoString.HasPrefix (URL_Scheme r) "https" || forceHTTPS sm)
      true SameSiteLaxMode in
  exists w' added,
    Save sm sd r wr w = Ok None w' /\
    response w' = response w ++ added /\
    Forall2 (header_for options w)
      (pm :: pa :: pf :: chunk_sessions (accessTokenChunks sd)
         ++ chunk_sessions (refreshTokenChunks sd)) added.
Proof.
  intros Hvalid Hm Ha Hf Henc options.
  assert (Hpm : points_to sd pm) by (left; exact Hm).
  assert (Hpa : points_to sd pa) by (right; left; exact Ha).
  assert (Hpf : points_to sd pf) by (right; right; left; exact Hf).
  unfold Save. rewrite getSessionOptions_value. fold options.
  rewrite Hm, Ha, Hf.
  destruct (assign_step options sd w w [] pm (saving_start _ _ _) (Hvalid _ Hpm))
    as (w1 & xm & Hmod1 & Hsav1 & Hxm1 & Hom & _).
  destruct (assign_step options sd w w1 [] pa Hsav1 (Hvalid _ Hpa))
    as (w2 & xa & Hmod2 & Hsav2 & Hxa2 & Hoa & Hkeep2).
  destruct (assign_step options sd w w2 [] pf Hsav2 (Hvalid _ Hpf))
    as (w3 & xf & Hmod3 & Hsav3 & Hxf3 & Hof & Hkeep3).
  rewrite (bind_Ok _ _ _ _ _ Hmod1), (bind_Ok _ _ _ _ _ Hmod2),
    (bind_Ok _ _ _ _ _ Hmod3).
  assert (Hxm3 : session_at w3 pm = Some xm) by auto.
  assert (Hxa3 : session_at w3 pa = Some xa) by auto.
  destruct (save_step_exact options sd w Henc w3 [] pm xm Hsav3 Hpm Hxm3 Hom)
    as (w4 & hm & Hsave4 & Hsav4 & Hsame4 & Hhm).
  rewrite (bind_Ok _ _ _ _ _ Hsave4). cbn [app] in Hsav4.
  assert (Hxa4 : session_at w4 pa = Some xa) by (now rewrite Hsame4).
  destruct (save_step_exact options sd w Henc w4 [hm] pa xa Hsav4 Hpa Hxa4 Hoa)
    as (w5 & ha & Hsave5 & Hsav5 & Hsame5 & Hha).
  rewrite (bind_Ok _ _ _ _ _ Hsave5). cbn [app] in Hsav5.
  assert (Hxf5 : session_at w5 pf = Some xf) by (now rewrite Hsame5, Hsame4).
  destruct (save_step_exact options sd w Henc w5 [hm; ha] pf xf Hsav5 Hpf Hxf5 Hof)
    as (w6 & hf & Hsave6 & Hsav6 & Hsame6 & Hhf).
  rewrite (bind_Ok _ _ _ _ _ Hsave6). cbn [app] in Hsav6.
  destruct (Save_chunks_exact options sd w Henc
              "failed to save access token chunk session"
              (chunk_sessions (accessTokenChunks sd)) w6 [hm; ha; hf])
    as (w7 & acc1 & Hrun7 & Hsav7 & Hall7).
  { intros q Hq. apply chunk_sessions_elem in Hq.
    assert (points_to sd q) by (right; right; right; left; exact Hq). auto. }
  { exact Hsav6. }
  rewrite (bind_Ok _ _ _ _ _ Hrun7).
  destruct (Save_chunks_exact options sd w Henc
              "failed to save refresh token chunk session"
              (chunk_sessions (refreshTokenChunks sd)) w7 ([hm; ha; hf] ++ acc1))
    as (w8 & acc2 & Hrun8 & Hsav8 & Hall8).
  { intros q Hq. apply chunk_sessions_elem in Hq.
    assert (points_to sd q) by (right; right; right; right; exact Hq). auto. }
  { exact Hsav7. }
  exists w8, (([hm; ha; hf] ++ acc1) ++ acc2).
  split; [exact Hrun8 |]. destruct Hsav8 as (_ & Hresp & _).
  split; [exact Hresp |].
  rewrite <- app_assoc. cbn [app].
  repeat (constructor; [assumption |]).
  now apply Forall2_app.
Qed.

(** ** A shorter token after a chunked one *)

Lemma store_New_name (sm : SessionManager) (r : httpRequest) (n : string) :
  name (fst (store_New sm r n)) = n.
Proof. unfold store_New. now destruct (Cookies r !! n) as [[vals|e]|]. Qed.

Lemma store_New_values (sm : SessionManager) (r : httpRequest) (n : string)
    (vals : gmap string value) :
  Cookies r !! n = Some (Decodes vals) ->
  store_New sm r n = (mkSession n "" vals (store_Options sm) false, None).
Proof. intros H. unfold store_New. now rewrite H. Qed.

Section Overwrite.
Context {codec : Codec} {cc : CookieCodec}.
Variable sm : SessionManager.
Variable r : httpRequest.

Abbreviation chunk_name := (sessionName accessTokenCookie).

(** While the registry holds what the store loaded from the request, a
    partition is present exactly when its cookie decodes. *)
Lemma present_start (w : World) (n : string) :
  (forall n, loaded sm r w n = store_New sm r n) ->
  present sm r w n = true <-> exists vals, Cookies r !! n = Some (Decodes vals).
Proof.
  intros Hload. unfold present. rewrite Hload. unfold store_New.
  destruct (Cookies r !! n) as [[vals|e]|]; cbn; split; eauto;
    try discriminate; intros [? ?]; discriminate.
Qed.

Lemma names_kept_start (w : World) :
  (forall n, loaded sm r w n = store_New sm r n) -> names_kept w.
Proof.
  intros Hload n s e Hn.
  apply (loaded_registered sm r) in Hn. rewrite Hload in Hn.
  rewrite <- (store_New_name sm r n). now rewrite Hn.
Qed.

Lemma loaded_name (w : World) (n : string) :
  names_kept w -> name (fst (loaded sm r w n)) = n.
Proof.
  intros Hnames. unfold loaded.
  destruct (registry w !! n) as [[s e]|] eqn:Hn; cbn [default fst].
  - exact (Hnames n s e Hn).
  - apply store_New_name.
Qed.

(** [GetSession] at the start of a request: the registry then holds what
    the store loaded from the request, and the chunk maps the runs of
    chunk cookies that decode. *)
Lemma GetSession_start (pooled : SessionData) (now : Z) (w w' : World)
    (sd : SessionData) :
  registry w = ∅ ->
  GetSession sm pooled now r w = Ok (Value sd) w' ->
  loaded_session sm r sd w' /\
  (forall n, loaded sm r w' n = store_New sm r n) /\
  response w' = response w /\
  (forall i, is_Some (accessTokenChunks sd !! i) <->
     forall j, j <= i ->
       exists vals, Cookies r !! chunk_name j = Some (Decodes vals)) /\
  (forall i, is_Some (refreshTokenChunks sd !! i) <->
     forall j, j <= i ->
       exists vals,
         Cookies r !! sessionName refreshTokenCookie j = Some (Decodes vals)).
Proof.
  intros Hempty Hrun.
  assert (Hnone : forall n, registry w !! n = None)
    by (intros n; rewrite Hempty; apply lookup_empty).
  assert (Hfresh : forall createdAt,
     snd (loaded sm r w mainCookieName) = None ->
     as_int64 (Values (fst (loaded sm r w mainCookieName)) !! "created_at")
       = Some createdAt ->
     (now - time_Unix createdAt <= absoluteSessionTimeout)%Z).
  { intros createdAt He Hc.
    destruct (Z_le_gt_dec (now - time_Unix createdAt) absoluteSessionTimeout)
      as [Hle|Hgt]; [exact Hle |].
    exfalso. revert Hrun. unfold GetSession.
    rewrite (bind_Ok _ _ _ _ _ (store_Get_Some sm r mainCookieName w)).
    cbn [fst snd]. rewrite He. cbn [mainSession with_mainSession].
    rewrite (bind_Ok _ _ _ _ _ (deref_Some _ _ _ (session_at_update sm r _ _ w))).
    rewrite Hc.
    assert (Hlate : (absoluteSessionTimeout
                     <? time_Since now (time_Unix createdAt))%Z = true)
      by (apply Z.ltb_lt, elapsed_beyond; lia).
    rewrite Hlate. intros H. apply bind_inv in H as (? & ? & _ & H).
    discriminate. }
  destruct (GetSession_run sm r pooled now w Hfresh)
    as (res & w1 & Hrun' & Hload & _ & _ & Hresp & Hcase).
  rewrite Hrun in Hrun'. injection Hrun' as <- <-.
  destruct (snd (loaded sm r w mainCookieName)); [destruct Hcase; discriminate |].
  destruct (snd (loaded sm r w accessTokenCookie)); [destruct Hcase; discriminate |].
  destruct (snd (loaded sm r w refreshTokenCookie)); [destruct Hcase; discriminate |].
  destruct Hcase as (sd' & [= <-] & Hls & _ & Hac & Hrc).
  assert (Hstart : forall n, loaded sm r w' n = store_New sm r n).
  { intros n. rewrite Hload. unfold loaded. now rewrite Hnone. }
  split; [exact Hls |]. split; [exact Hstart |]. split; [exact Hresp |].
  split; intros i.
  - rewrite Hac. split; intros H j Hj; specialize (H j Hj);
      now apply (present_cookie sm r w _ (Hnone _)).
  - rewrite Hrc. split; intros H j Hj; specialize (H j Hj);
      now apply (present_cookie sm r w _ (Hnone _)).
Qed.

(** [SetAccessToken] with a chunked token on a request that carries [n]
    chunk cookies, not fewer than the token has chunks: the registry
    afterwards. *)
Lemma SetAccessToken_over_chunks (sd : SessionData) (token : string)
    (w : World) (n : nat) :
  loaded_session sm r sd w ->
  (forall nm, loaded sm r w nm = store_New sm r nm) ->
  (forall j, j < n ->
     exists vals, Cookies r !! chunk_name j = Some (Decodes vals)) ->
  (forall vals, Cookies r !! chunk_name n <> Some (Decodes vals)) ->
  maxCookieSize < String.length (compressToken token) ->
  length (token_chunks token) <= n ->
  exists m' w',
    SetAccessToken sm sd token w = Ok (with_accessTokenChunks m' sd) w' /\
    (forall i, m' !! i
               = if decide (i < length (token_chunks token))
                 then Some (Reg (chunk_name i)) else None) /\
    response w' = response w /\
    names_kept w' /\
    (forall nm, ~ slot_names accessTokenCookie nm ->
       registry w' !! nm = registry w !! nm) /\
    (exists s e,
       registry w' !! accessTokenCookie = Some (s, e) /\
       Values s !! "token" = Some (VString "") /\
       Values s !! "compressed" = Some (VBool true)) /\
    (forall j c, token_chunks token !! j = Some c ->
       exists s e,
         registry w' !! chunk_name j = Some (s, e) /\
         Values s = <["token_chunk" := VString c]> ∅) /\
    (forall j, length (token_chunks token) <= j < n ->
       exists s e, registry w' !! chunk_name j = Some (s, e) /\ expired s).
Proof.
  intros Hls Hstart Hold Hend Hbig Hfew.
  pose proof Hls as (Hr & _ & Ha & _ & _ & Hreg & _).
  pose proof (names_kept_start w Hstart) as Hnames.
  destruct (expireAccessTokenChunks_spec sm r sd w Hr)
    as (w1 & k & Hexp & Hpres & Hnot & _ & _ & Hresp1 & Hexpd & Hlast & Hframe1).
  assert (Hk : k = n).
  { destruct (Nat.lt_trichotomy k n) as [Hlt|[Heq|Hgt]]; [|exact Heq|].
    - apply Hold, (present_start w _ Hstart) in Hlt. congruence.
    - specialize (Hpres n Hgt). apply (present_start w _ Hstart) in Hpres.
      destruct Hpres as [vals Hvals]. now destruct (Hend vals). }
  subst k.
  assert (Hnames1 : names_kept w1).
  { intros nm s e Hnm.
    destruct (decide (nm ∈ chunk_name <$> seq 0 (S n))) as [Hin|Hno].
    - apply list_elem_of_fmap in Hin as (j & -> & Hj). apply elem_of_seq in Hj.
      destruct (decide (j < n)) as [Hjn|Hjn].
      + rewrite (Hexpd j Hjn) in Hnm. injection Hnm as <- _.
        cbn. now apply loaded_name.
      + assert (j = n) by lia. subst j. rewrite Hlast in Hnm.
        injection Hnm as Hnm.
        pose proof (loaded_name w (chunk_name n) Hnames) as H.
        now rewrite Hnm in H.
    - rewrite Hframe1 in Hnm; [exact (Hnames nm s e Hnm) |].
      intros j Hj ->. apply Hno, list_elem_of_fmap.
      exists j. split; [reflexivity |]. apply elem_of_seq. lia. }
  assert (Hreg1 : is_Some (registry w1 !! accessTokenCookie)).
  { rewrite Hframe1; [exact Hreg |]. intros j _. apply sessionName_not_base. }
  destruct (SetAccessToken_store_spec sm r sd token w1 Hr Ha Hreg1)
    as (m' & w' & Hrun & Hin & Hout & _ & _ & Hresp & Hval & Hacc & Hframe).
  exists m', w'.
  split; [now rewrite (SetAccessToken_bound sm sd r token w w1 Hr Hexp) |].
  split.
  { intros i. destruct (decide (i < length (token_chunks token))) as [Hi|Hi];
      [now apply Hin | apply Hout; lia]. }
  split; [congruence |].
  assert (Hchunk : forall nm,
    nm <> accessTokenCookie ->
    nm ∉ chunk_name <$> seq 0 (length (token_chunks token)) ->
    registry w' !! nm = registry w1 !! nm).
  { intros nm Hna Hno. apply Hframe; [exact Hna |].
    intros j Hj ->. apply Hno, list_elem_of_fmap.
    exists j. split; [reflexivity |]. apply elem_of_seq. lia. }
  split; [|split; [|split; [|split]]].
  - intros nm s e Hnm.
    destruct (decide (nm = accessTokenCookie)) as [->|Hna].
    { rewrite Hacc in Hnm. injection Hnm as <- _. cbn.
      now apply loaded_name. }
    destruct (decide (nm ∈ chunk_name <$> seq 0 (length (token_chunks token))))
      as [Hin'|Hno].
    + apply list_elem_of_fmap in Hin' as (j & -> & Hj). apply elem_of_seq in Hj.
      destruct (lookup_lt_is_Some_2 (token_chunks token) j) as [c Hc]; [lia |].
      rewrite (Hval j c Hc) in Hnm. injection Hnm as <- _. cbn.
      now apply loaded_name.
    + rewrite (Hchunk nm Hna Hno) in Hnm. exact (Hnames1 nm s e Hnm).
  - intros nm Hnm. rewrite Hframe, Hframe1.
    + reflexivity.
    + intros j _ ->. apply Hnm. right. eauto.
    + intros ->. apply Hnm. now left.
    + intros j _ ->. apply Hnm. right. eauto.
  - eexists. eexists. split; [exact Hacc |].
    destruct (Nat.leb_spec (String.length (compressToken token)) maxCookieSize);
      [lia |].
    cbn [set_value with_Values Values]. split.
    + rewrite lookup_insert_ne by discriminate. apply lookup_insert_eq.
    + apply lookup_insert_eq.
  - intros j c Hc. eexists. eexists. split; [exact (Hval j c Hc) |].
    assert (Hj : j < n).
    { apply lookup_lt_Some in Hc. lia. }
    rewrite (loaded_registered sm r w1 _ _ (Hexpd j Hj)). reflexivity.
  - intros j [Hlo Hhi].
    assert (Hsame : registry w' !! chunk_name j = registry w1 !! chunk_name j).
    { apply Hchunk; [intros H; symmetry in H; now apply sessionName_not_base in H |].
      intros Hin'. apply list_elem_of_fmap in Hin' as (i & Hi & Hseq).
      apply sessionName_inj in Hi. subst i. apply elem_of_seq in Hseq. lia. }
    rewrite Hsame, (Hexpd j Hhi). eexists. eexists. split; [reflexivity |].
    split; reflexivity.
Qed.
End Overwrite.

(** ** The request that follows *)

Section Next.
Context {cc : CookieCodec} {cd : CookieDecoder} {laws : CookieLaws cc cd}.
Variable r : httpRequest.
Variable options : Options.
Variable w : World.
Variable ptrs : list ptr.
Variable added : list SetCookie.
Hypothesis written : Forall2 (header_for options w) ptrs added.
Hypothesis kept : (0 <= MaxAge options)%Z.
Hypothesis names : names_kept w.
Hypothesis registered : forall q, q ∈ ptrs -> exists n, q = Reg n.

(** A header that was written is the header of a partition, under the
    partition's name, and the store decodes it to the partition's
    values. *)
Lemma written_header (h : SetCookie) :
  h ∈ added ->
  exists s e,
    Reg (cookie_name h) ∈ ptrs /\
    registry w !! cookie_name h = Some (s, e) /\
    (0 <= MaxAge (cookie_options h))%Z /\
    cookie_of h = Decodes (Values s).
Proof.
  intros Hh. apply list_elem_of_lookup in Hh as [i Hi].
  destruct (Forall2_lookup_r _ _ _ _ _ written Hi)
    as (q & Hq & Ho & s & Hs & Hname & Henc).
  assert (Hin : q ∈ ptrs) by (apply list_elem_of_lookup; eauto).
  destruct (registered q Hin) as [n ->]. cbn in Hs.
  destruct (registry w !! n) as [[s' e]|] eqn:Hn; [|discriminate].
  injection Hs as ->. pose proof (names n s e Hn) as Hsn.
  rewrite Hsn in Hname, Henc. rewrite Hname.
  exists s, e. split; [exact Hin |]. split; [exact Hn |].
  split; [now rewrite Ho |].
  unfold cookie_of. rewrite Hname.
  now rewrite (securecookie_Decode_Encode _ _ _ Henc).
Qed.

(** The cookie of a partition that was saved decodes to the values the
    partition had. *)
Lemma next_cookie_saved (n : string) (s : Session) (e : option string) :
  Reg n ∈ ptrs -> registry w !! n = Some (s, e) ->
  Cookies (next_request r added) !! n = Some (Decodes (Values s)).
Proof.
  intros Hin Hn. cbn. apply jar_touched.
  - apply Forall_forall. intros h Hh Hname.
    destruct (written_header h Hh) as (s' & e' & _ & Hn' & Hage & Hc).
    rewrite Hname, Hn in Hn'. injection Hn' as <- <-. auto.
  - apply Exists_exists.
    apply list_elem_of_lookup in Hin as [i Hi].
    destruct (Forall2_lookup_l _ _ _ _ _ written Hi)
      as (h & Hh & _ & s' & Hs' & Hname & _).
    exists h. split; [apply list_elem_of_lookup; eauto |].
    cbn in Hs'. rewrite Hn in Hs'. injection Hs' as <-.
    rewrite Hname. exact (names n s e Hn).
Qed.

(** The cookie of a name that was not saved is the one the client sent. *)
Lemma next_cookie_kept (n : string) :
  Reg n ∉ ptrs ->
  Cookies (next_request r added) !! n = Cookies r !! n.
Proof.
  intros Hout. cbn. apply jar_untouched.
  apply Forall_forall. intros h Hh Hname.
  destruct (written_header h Hh) as (_ & _ & Hin & _).
  now rewrite Hname in Hin.
Qed.

Lemma no_header (n : string) :
  Reg n ∉ ptrs -> Forall (fun h => cookie_name h <> n) added.
Proof.
  intros Hout. apply Forall_forall. intros h Hh Hname.
  destruct (written_header h Hh) as (_ & _ & Hin & _).
  now rewrite Hname in Hin.
Qed.
End Next.

Lemma Reg_inj (n n' : string) : Reg n = Reg n' -> n = n'.
Proof. congruence. Qed.

Lemma token_chunks_chunked_pos {codec : Codec} (token : string) :
  0 < length (token_chunks token) ->
  maxCookieSize < String.length (compressToken token).
Proof.
  unfold token_chunks.
  destruct (Nat.leb_spec (String.length (compressToken token)) maxCookieSize);
    cbn; lia.
Qed.

Lemma size_prefix {A : Type} (m : gmap nat A) (n : nat) :
  (forall i, is_Some (m !! i) <-> i < n) -> size m = n.
Proof.
  intros Hm. rewrite <- (size_dom (D := gset nat)).
  rewrite <- (size_set_seq (C := gset nat) 0 n).
  f_equal. apply set_eq. intros j.
  rewrite elem_of_dom, elem_of_set_seq, Hm. lia.
Qed.

(** C3.  The chunk cookies of the token stored before outlive a shorter
    token.  A request carries [n] chunk cookies of the access slot;
    [SetAccessToken] stores a token of fewer chunks, [k], and [Save] writes
    the session.  The chunk partitions from [k] on are expired in the
    registry, but no header is written for them, so the client keeps their
    cookies; on its next request [GetSession] loads [n] chunks again and
    [GetAccessToken] returns what [decompressToken] makes of the new
    token's encoded form followed by the old chunks from [k] on. *)
Theorem SetAccessToken_old_chunks_survive
    {codec : Codec} {cc : CookieCodec} {cd : CookieDecoder}
    {laws : CookieLaws cc cd}
    (sm : SessionManager) (r : httpRequest) (wr : httpResponseWriter)
    (pooled pooled' : SessionData) (now now' : Z) (w0 w1 w0' : World)
    (sd : SessionData) (token : string) (n : nat) :
  registry w0 = ∅ -> response w0 = [] ->
  GetSession sm pooled now r w0 = Ok (Value sd) w1 ->
  (forall j, j < n ->
     exists vals,
       Cookies r !! sessionName accessTokenCookie j = Some (Decodes vals)) ->
  (forall vals,
     Cookies r !! sessionName accessTokenCookie n <> Some (Decodes vals)) ->
  0 < length (token_chunks token) < n ->
  (forall nm vals, exists enc, securecookie_Encode nm vals = Value enc) ->
  registry w0' = ∅ ->
  (forall vals createdAt,
     Cookies r !! mainCookieName = Some (Decodes vals) ->
     vals !! "created_at" = Some (VInt64 createdAt) ->
     (now' - time_Unix createdAt <= absoluteSessionTimeout)%Z) ->
  let k := length (token_chunks token) in
  exists sd2 w2 w3 sd' w1',
    SetAccessToken sm sd token w1 = Ok sd2 w2 /\
    Save sm sd2 r wr w2 = Ok None w3 /\
    (forall j, k <= j < n ->
       (exists s,
          session_at w2 (Reg (sessionName accessTokenCookie j)) = Some s /\
          expired s) /\
       Forall (fun h => cookie_name h <> sessionName accessTokenCookie j)
         (response w3)) /\
    GetSession sm pooled' now' (next_request r (response w3)) w0'
    = Ok (Value sd') w1' /\
    (forall i, is_Some (accessTokenChunks sd' !! i) <-> i < n) /\
    GetAccessToken sd' w1'
    = Ok (decompressToken
            (compressToken token
             +:+ GoString.Join (cookie_chunk r <$> seq k (n - k)))) w1'.
Proof.
  intros Hempty Hquiet Hget Hold Hend [Hpos Hfew] Henc Hempty' Hyoung k.
  pose proof (token_chunks_chunked_pos token Hpos) as Hbig.
  destruct (GetSession_start sm r pooled now w0 w1 sd Hempty Hget)
    as (Hls & Hstart & Hresp1 & _ & Hrc).
  pose proof Hls as (Hr & Hm & Ha & Hf & Hregm & Hrega & Hregf & _ & Hfshape
                     & _ & Hfvalid).
  destruct (SetAccessToken_over_chunks sm r sd token w1 n Hls Hstart Hold Hend
              Hbig ltac:(lia))
    as (m' & w2 & Hset & Hm' & Hresp2 & Hnames2 & Hframe2 & Hacc2 & Hnew2 & Hold2).
  set (sd2 := with_accessTokenChunks m' sd) in *.
  fold k in Hm', Hold2.
  (* the partitions [Save] writes *)
  set (ptrs := Reg mainCookieName :: Reg accessTokenCookie
               :: Reg refreshTokenCookie
               :: chunk_sessions (accessTokenChunks sd2)
                  ++ chunk_sessions (refreshTokenChunks sd2)).
  assert (Hptrs : forall q, q ∈ ptrs <->
    q = Reg mainCookieName \/ q = Reg accessTokenCookie \/
    q = Reg refreshTokenCookie \/
    (exists i, i < k /\ q = Reg (sessionName accessTokenCookie i)) \/
    (exists i, is_Some (refreshTokenChunks sd !! i) /\
               q = Reg (sessionName refreshTokenCookie i))).
  { intros q. unfold ptrs.
    rewrite !elem_of_cons, elem_of_app, !chunk_sessions_elem. cbn.
    split.
    - intros [->|[->|[->|[[i Hi]|[i Hi]]]]]; auto.
      + rewrite Hm' in Hi. destruct (decide (i < k)); [|discriminate].
        injection Hi as <-. right; right; right; left. eauto.
      + destruct (Hfshape i q Hi) as [-> _].
        right; right; right; right. eauto.
    - intros [->|[->|[->|[(i & Hi & ->)|(i & [p Hi] & ->)]]]]; auto.
      + right; right; right; left. exists i. rewrite Hm'.
        now destruct (decide (i < k)).
      + right; right; right; right. exists i.
        destruct (Hfshape i p Hi) as [-> _]. exact Hi. }
  assert (Hregd : forall q, q ∈ ptrs -> exists nm, q = Reg nm).
  { intros q Hq. apply Hptrs in Hq
      as [->|[->|[->|[(i & _ & ->)|(i & _ & ->)]]]]; eauto. }
  assert (Hout : forall nm, slot_names refreshTokenCookie nm \/ nm = mainCookieName ->
                            registry w2 !! nm = registry w1 !! nm).
  { intros nm Hnm. apply Hframe2. intros Hslot. destruct Hnm as [Hnm| ->].
    - exact (slots_apart nm Hslot Hnm).
    - now apply (proj1 main_outside_slots). }
  assert (Hvalid : forall q, q ∈ ptrs -> is_Some (session_at w2 q)).
  { intros q Hq. apply Hptrs in Hq
      as [->|[->|[->|[(i & Hi & ->)|(i & [p Hi] & ->)]]]]; cbn.
    - rewrite Hout by auto. destruct Hregm as [se ->]. eauto.
    - destruct Hacc2 as (s & e & -> & _). eauto.
    - rewrite Hout by (left; now left). destruct Hregf as [se ->]. eauto.
    - destruct (lookup_lt_is_Some_2 (token_chunks token) i Hi) as [c Hc].
      destruct (Hnew2 i c Hc) as (s & e & -> & _). eauto.
    - rewrite Hout by (left; right; eauto).
      destruct (Hfvalid i p Hi) as [s Hs].
      destruct (Hfshape i p Hi) as [-> _]. cbn in Hs.
      destruct (registry w1 !! sessionName refreshTokenCookie i) as [se|];
        cbn in *; [eauto | discriminate]. }
  destruct (Save_exact sm sd2 r wr w2 (Reg mainCookieName)
              (Reg accessTokenCookie) (Reg refreshTokenCookie))
    as (w3 & added & Hsave & Hresp3 & Hwritten); try assumption.
  { intros p Hp. apply Hvalid, Hptrs.
    destruct Hp as [Hp|[Hp|[Hp|[[i Hp]|[i Hp]]]]]; cbn in Hp.
    - rewrite Hm in Hp. injection Hp as <-. auto.
    - rewrite Ha in Hp. injection Hp as <-. auto.
    - rewrite Hf in Hp. injection Hp as <-. auto.
    - rewrite Hm' in Hp. destruct (decide (i < k)); [|discriminate].
      injection Hp as <-. right; right; right; left. eauto.
    - destruct (Hfshape i p Hp) as [-> _].
      right; right; right; right. eauto. }
  fold ptrs in Hwritten.
  assert (Hheaders : response w3 = added)
    by (rewrite Hresp3, Hresp2, Hresp1, Hquiet; reflexivity).
  set (options := mkOptions "/" 86400
         (GoString.HasPrefix (URL_Scheme r) "https" || forceHTTPS sm)
         true SameSiteLaxMode) in *.
  assert (Hkept : (0 <= MaxAge options)%Z) by (cbn; lia).
  (* the old chunk partitions are not among them *)
  assert (Hstale : forall j, k <= j -> Reg (sessionName accessTokenCookie j) ∉ ptrs).
  { intros j Hj Hin. apply Hptrs in Hin
      as [Hin|[Hin|[Hin|[(i & Hi & Hin)|(i & _ & Hin)]]]];
      apply Reg_inj in Hin.
    - apply (proj1 main_outside_slots). rewrite <- Hin. right. eauto.
    - symmetry in Hin. now apply sessionName_not_base in Hin.
    - apply (slots_apart refreshTokenCookie); [|now left].
      rewrite <- Hin. right. eauto.
    - apply sessionName_inj in Hin. lia.
    - apply (slots_apart (sessionName accessTokenCookie j)); [right; eauto |].
      rewrite Hin. right. eauto. }
  (* the cookies of the next request *)
  set (r' := next_request r added).
  assert (Hsaved : forall nm s e,
    Reg nm ∈ ptrs -> registry w2 !! nm = Some (s, e) ->
    Cookies r' !! nm = Some (Decodes (Values s))).
  { intros nm s e. now apply (next_cookie_saved r options w2 ptrs added). }
  assert (Hcookie_m : exists vals,
    Cookies r' !! mainCookieName = Some (Decodes vals) /\
    vals = Values (fst (store_New sm r mainCookieName))).
  { destruct Hregm as [[s e] Hs]. exists (Values s). split.
    - apply (Hsaved _ s e); [apply Hptrs; auto |]. now rewrite Hout by auto.
    - apply (loaded_registered sm r) in Hs. rewrite Hstart in Hs. now rewrite Hs. }
  assert (Hcookie_a : exists vals,
    Cookies r' !! accessTokenCookie = Some (Decodes vals) /\
    vals !! "token" = Some (VString "") /\
    vals !! "compressed" = Some (VBool true)).
  { destruct Hacc2 as (s & e & Hs & Htok & Hcomp). exists (Values s).
    split; [|auto]. apply (Hsaved _ s e); [apply Hptrs; auto | exact Hs]. }
  assert (Hcookie_f : exists vals,
    Cookies r' !! refreshTokenCookie = Some (Decodes vals)).
  { destruct Hregf as [[s e] Hs]. exists (Values s).
    apply (Hsaved _ s e); [apply Hptrs; auto |].
    now rewrite Hout by (left; now left). }
  assert (Hcookie_new : forall j c, token_chunks token !! j = Some c ->
    Cookies r' !! sessionName accessTokenCookie j
    = Some (Decodes (<["token_chunk" := VString c]> ∅))).
  { intros j c Hc. destruct (Hnew2 j c Hc) as (s & e & Hs & Hvals).
    rewrite <- Hvals. apply (Hsaved _ s e); [|exact Hs].
    apply Hptrs. right; right; right; left. exists j.
    split; [|reflexivity]. apply lookup_lt_Some in Hc. exact Hc. }
  assert (Hcookie_old : forall j, k <= j ->
    Cookies r' !! sessionName accessTokenCookie j
    = Cookies r !! sessionName accessTokenCookie j).
  { intros j Hj.
    apply (next_cookie_kept r options w2 ptrs added); auto. }
  assert (Hdecodes : forall j, j < n ->
    exists vals, Cookies r' !! sessionName accessTokenCookie j
                 = Some (Decodes vals)).
  { intros j Hj. destruct (decide (j < k)) as [Hjk|Hjk].
    - destruct (lookup_lt_is_Some_2 (token_chunks token) j Hjk) as [c Hc].
      rewrite (Hcookie_new j c Hc). eauto.
    - rewrite Hcookie_old by lia. now apply Hold. }
  (* the next request is served *)
  assert (Hnone' : forall nm, registry w0' !! nm = None)
    by (intros nm; rewrite Hempty'; apply lookup_empty).
  assert (Hload' : forall nm, loaded sm r' w0' nm = store_New sm r' nm).
  { intros nm. unfold loaded. now rewrite Hnone'. }
  destruct Hcookie_m as (vals_m & Hcm & Hvals_m).
  destruct Hcookie_a as (vals_a & Hca & Htok & Hcomp).
  destruct Hcookie_f as (vals_f & Hcf).
  destruct (GetSession_run sm r' pooled' now' w0') as (res & w1' & Hget' & _ & _ & _ & _ & Hcase).
  { intros createdAt _. rewrite Hload', (store_New_values sm r' _ _ Hcm).
    cbn [fst Values]. subst vals_m. unfold store_New.
    destruct (Cookies r !! mainCookieName) as [[vals|e]|] eqn:Hcr;
      cbn [fst Values]; try (rewrite lookup_empty; discriminate).
    destruct (vals !! "created_at") as [[b|c|s]|] eqn:Hc; try discriminate.
    intros [= <-]. exact (Hyoung vals c eq_refl Hc). }
  rewrite !Hload', (store_New_values sm r' _ _ Hcm),
    (store_New_values sm r' _ _ Hca), (store_New_values sm r' _ _ Hcf) in Hcase.
  cbn [snd] in Hcase. destruct Hcase as (sd' & -> & _).
  destruct (GetSession_start sm r' pooled' now' w0' w1' sd' Hempty' Hget')
    as (Hls' & Hstart' & _ & Hac' & _).
  pose proof Hls' as (_ & _ & Ha' & _ & _ & Hrega' & _ & Hashape' & _
                      & Havalid' & _).
  assert (Hdom : forall i, is_Some (accessTokenChunks sd' !! i) <-> i < n).
  { intros i. rewrite Hac'. split.
    - intros H. destruct (decide (i < n)) as [Hi|Hi]; [exact Hi |].
      destruct (H n ltac:(lia)) as [vals Hvals].
      rewrite Hcookie_old in Hvals by lia. now destruct (Hend vals).
    - intros Hi j Hj. apply Hdecodes. lia. }
  exists sd2, w2, w3, sd', w1'.
  split; [exact Hset |]. split; [exact Hsave |].
  split.
  { intros j Hj. split.
    - destruct (Hold2 j Hj) as (s & e & Hs & Hexp). exists s.
      cbn. rewrite Hs. auto.
    - rewrite Hheaders.
      apply (no_header options w2 ptrs added); auto. apply Hstale. lia. }
  rewrite Hheaders. fold r'.
  split; [exact Hget' |]. split; [exact Hdom |].
  (* what [GetAccessToken] reads *)
  assert (Hsession : forall nm vals se,
    Cookies r' !! nm = Some (Decodes vals) ->
    registry w1' !! nm = Some se -> Values (fst se) = vals).
  { intros nm vals se Hc Hse.
    apply (loaded_registered sm r') in Hse.
    rewrite Hstart', (store_New_values sm r' _ _ Hc) in Hse. now subst se. }
  set (l := token_chunks token ++ (cookie_chunk r <$> seq k (n - k))).
  assert (Hlen : length l = n).
  { unfold l. rewrite length_app, length_fmap, length_seq. fold k. lia. }
  assert (Hloop :
    GetAccessToken_loop (size (accessTokenChunks sd')) (accessTokenChunks sd')
      0 [] w1' = Ok l w1').
  { rewrite (GetAccessToken_loop_reads (accessTokenChunks sd') w1' l);
      [reflexivity | | | lia |].
    - intros j c Hc.
      assert (Hj : j < n) by (apply lookup_lt_Some in Hc; lia).
      destruct (proj2 (Hdom j) Hj) as [p Hp].
      destruct (Hashape' j p Hp) as [-> _].
      destruct (Havalid' j _ Hp) as [s Hs]. cbn in Hs.
      destruct (registry w1' !! sessionName accessTokenCookie j)
        as [se|] eqn:Hse; [|discriminate].
      injection Hs as <-.
      exists (Reg (sessionName accessTokenCookie j)), (fst se).
      split; [exact Hp |]. split; [cbn; now rewrite Hse |].
      unfold l in Hc. destruct (decide (j < k)) as [Hjk|Hjk].
      + rewrite lookup_app_l in Hc by exact Hjk.
        rewrite (Hsession _ _ se (Hcookie_new j c Hc) Hse).
        now rewrite lookup_insert_eq.
      + rewrite lookup_app_r in Hc by (fold k; lia). fold k in Hc.
        rewrite list_lookup_fmap in Hc.
        destruct (seq k (n - k) !! (j - k)) as [i|] eqn:Hi; [|discriminate].
        apply lookup_seq in Hi as [-> _]. cbn in Hc. injection Hc as <-.
        replace (k + (j - k)) with j by lia.
        destruct (Hold j Hj) as [vals Hvals].
        assert (Hc' : Cookies r' !! sessionName accessTokenCookie j
                      = Some (Decodes vals))
          by (rewrite Hcookie_old by lia; exact Hvals).
        rewrite (Hsession _ _ se Hc' Hse). unfold cookie_chunk.
        now rewrite Hvals.
    - rewrite Hlen. apply eq_None_not_Some. rewrite Hdom. lia.
    - rewrite (size_prefix _ n Hdom). lia. }
  destruct Hrega' as [sea Hsea].
  pose proof (Hsession _ _ sea Hca Hsea) as Hva.
  assert (Hderef : deref (Some (Reg accessTokenCookie)) w1' = Ok (fst sea) w1').
  { apply deref_Some. cbn. now rewrite Hsea. }
  unfold GetAccessToken. rewrite Ha'.
  rewrite (bind_Ok _ _ _ _ _ Hderef). rewrite Hva, Htok.
  cbn [as_string String.eqb negb].
  rewrite (size_prefix _ n Hdom).
  destruct (Nat.eqb_spec n 0); [lia |].
  rewrite <- (size_prefix _ n Hdom) at 1.
  rewrite (bind_Ok _ _ _ _ _ Hloop). rewrite (bind_Ok _ _ _ _ _ Hderef).
  rewrite Hva, Hcomp. cbn [as_bool].
  unfold l. rewrite GoStringFacts.Join_app.
  now rewrite (token_chunks_Join token Hbig).
Qed.

(** ** The further properties at concrete inputs *)

Lemma Demo_sha256_laws : Sha256Laws Demo.sha256.
Proof. split. intros data. apply length_fill. Qed.

Lemma returning_visit_loaded :
  loaded_session (Sample.sm) Sample.returning_request
    (Sample.session_of Sample.returning_visit)
    (Sample.world_of Sample.returning_visit).
Proof.
  exact (GetSession_loaded (cc := Sample.cookies) Sample.sm
           Sample.returning_request sessionPool_New Sample.now
           Sample.empty_world _ _ returning_visit_ok).
Qed.

Lemma chunked_visit_loaded :
  loaded_session (Sample.sm) Sample.chunked_request
    (Sample.session_of Sample.chunked_visit)
    (Sample.world_of Sample.chunked_visit).
Proof.
  exact (GetSession_loaded (cc := Sample.cookies) Sample.sm
           Sample.chunked_request sessionPool_New Sample.now
           Sample.empty_world _ _ chunked_visit_ok).
Qed.

(** Eight bytes in chunks of three. *)
Lemma splitIntoChunks_partition_witness :
  GoString.Join (splitIntoChunks "abcdefgh" 3) = "abcdefgh" /\
  length (splitIntoChunks "abcdefgh" 3) = 3.
Proof.
  destruct (splitIntoChunks_partition "abcdefgh" 3) as (Hjoin & Hlen & _);
    [lia |].
  split; [exact Hjoin | rewrite Hlen; reflexivity].
Defined.

(** One byte and chunk size 0. *)
Lemma splitIntoChunks_zero_never_returns_witness :
  splitIntoChunks_fuel 1000 "a" 0 = None.
Proof. apply (splitIntoChunks_zero_never_returns "a"). discriminate. Defined.

(** The challenge of a verifier under the stand-in digest. *)
Lemma deriveCodeChallenge_shape_witness :
  String.length (deriveCodeChallenge (H := Demo.sha256) "dBjftJeZ4CVP") = 43.
Proof.
  exact (proj1 (deriveCodeChallenge_shape (HL := Demo_sha256_laws) "dBjftJeZ4CVP")).
Defined.

(** A token of two segments. *)
Lemma extractClaims_format_witness :
  extractClaims (C := Demo.claims_codec) "header.payload"
  = Error "invalid token format".
Proof.
  apply (extractClaims_format (C := Demo.claims_codec) "header.payload").
  vm_compute. lia.
Defined.

(** A token of three segments: the claims are those of the middle one. *)
Lemma extractClaims_payload_only_witness :
  extractClaims (C := Demo.claims_codec) "header.payload.signature"
  = Value "payload".
Proof.
  exact (extractClaims_payload_only (C := Demo.claims_codec)
           "header" "payload" "signature" eq_refl eq_refl eq_refl).
Defined.

(** A returning visitor's CSRF token is set; the email stays. *)
Lemma string_fields_set_get_witness :
  exists w' old,
    GetEmail (Sample.session_of Sample.returning_visit)
      (Sample.world_of Sample.returning_visit)
    = Ok old (Sample.world_of Sample.returning_visit) /\
    SetCSRF (Sample.session_of Sample.returning_visit) "csrf-token"
      (Sample.world_of Sample.returning_visit) = Ok tt w' /\
    GetEmail (Sample.session_of Sample.returning_visit) w' = Ok old w'.
Proof.
  destruct (string_fields_set_get (Sample.session_of Sample.returning_visit)
              (Sample.world_of Sample.returning_visit) (Reg mainCookieName)
              (Sample.main_of (Sample.world_of Sample.returning_visit))
              0 3 (mkAccessor SetCSRF GetCSRF) (mkAccessor SetEmail GetEmail)
              "csrf-token")
    as (w' & old & Hold & Hset & Hget & _).
  - vm_compute. reflexivity.
  - vm_compute. reflexivity.
  - reflexivity.
  - reflexivity.
  - exists w', old. auto.
Defined.

(** Logging in, and asking an hour later. *)
Lemma login_then_GetAuthenticated_witness :
  exists w',
    SetAuthenticated (Sample.session_of Sample.returning_visit) true Sample.now
      Sample.counting_rand (Sample.world_of Sample.returning_visit)
    = Ok None w' /\
    GetAuthenticated (Sample.session_of Sample.returning_visit)
      (Sample.now + time_Hour) w' = Ok true w'.
Proof.
  destruct (login_then_GetAuthenticated
              (Sample.session_of Sample.returning_visit)
              (Sample.world_of Sample.returning_visit) (Reg mainCookieName)
              (Sample.main_of (Sample.world_of Sample.returning_visit))
              Sample.now Sample.counting_rand)
    as (w' & Hrun & Hsoon & _).
  - vm_compute. reflexivity.
  - vm_compute. reflexivity.
  - reflexivity.
  - vm_compute. split; [discriminate | reflexivity].
  - exists w'. split; [exact Hrun |]. apply Hsoon.
    vm_compute. discriminate.
Defined.

(** A request whose access-token cookie does not decode. *)
Lemma GetSession_returns_witness :
  exists w',
    GetSession (cc := Sample.cookies) Sample.sm sessionPool_New Sample.now
      Demo.garbled_request Sample.empty_world
    = Ok (Error "failed to get access token session: securecookie: the value is not valid")
         w'.
Proof.
  destruct (GetSession_returns (cc := Sample.cookies) Sample.sm sessionPool_New
              Sample.now Demo.garbled_request Sample.empty_world)
    as (res & w' & Hrun & _ & Hcase).
  - intros createdAt _ H. vm_compute in H. discriminate.
  - exists w'. rewrite Hrun.
    change (res = Error
              ("failed to get access token session: "
               +:+ "securecookie: the value is not valid") /\
            exists back, pool w' = back :: pool Sample.empty_world /\
                         request back = Some Demo.garbled_request) in Hcase.
    destruct Hcase as [-> _]. reflexivity.
Defined.

(** The two access-token chunk cookies of a request are both loaded. *)
Lemma GetSession_chunks_contiguous_witness :
  is_Some (accessTokenChunks (Sample.session_of Sample.chunked_visit) !! 1) /\
  ~ is_Some (accessTokenChunks (Sample.session_of Sample.chunked_visit) !! 2).
Proof.
  pose proof (fun i =>
    proj1 (GetSession_chunks_contiguous (cc := Sample.cookies) Sample.sm
             sessionPool_New Sample.now Sample.chunked_request
             Sample.empty_world (Sample.world_of Sample.chunked_visit)
             (Sample.session_of Sample.chunked_visit)
             eq_refl chunked_visit_ok accessTokenCookie _
             (or_introl (conj eq_refl eq_refl)) i)) as Hiff.
  split.
  - apply Hiff. intros j Hj.
    destruct j as [|[|j]]; [eexists; vm_compute; reflexivity .. | lia].
  - intros H. destruct (proj1 (Hiff 2) H 2) as [vals Hvals]; [lia |].
    vm_compute in Hvals. discriminate.
Defined.

(** Clearing a returning visitor's session. *)
Lemma Clear_expires_everything_witness :
  exists w' main,
    Clear (cc := Sample.cookies) Sample.sm
      (Sample.session_of Sample.returning_visit) Sample.returning_request None
      (Sample.world_of Sample.returning_visit)
    = Ok (with_request None (Sample.session_of Sample.returning_visit), None) w' /\
    session_at w' (Reg mainCookieName) = Some main /\ expired main.
Proof.
  destruct (Clear_expires_everything (cc := Sample.cookies) Sample.sm
              Sample.returning_request
              (Sample.session_of Sample.returning_visit)
              (Sample.world_of Sample.returning_visit) returning_visit_loaded)
    as (w' & Hrun & _ & _ & Hexpired & _).
  destruct (Hexpired (Reg mainCookieName)) as (main & Hmain & Hexp).
  - left. vm_compute. reflexivity.
  - exists w', main. auto.
Defined.

Lemma Clear_then_reads_empty_witness :
  exists sd' w',
    Clear (cc := Sample.cookies) Sample.sm
      (Sample.session_of Sample.returning_visit) Sample.returning_request None
      (Sample.world_of Sample.returning_visit)
    = Ok (sd', None) w' /\
    GetAccessToken (codec := Sample.codec) sd' w' = Ok "" w'.
Proof.
  destruct (Clear_then_reads_empty (codec := Sample.codec)
              (cc := Sample.cookies) Sample.sm Sample.returning_request
              (Sample.session_of Sample.returning_visit)
              (Sample.world_of Sample.returning_visit) returning_visit_loaded)
    as (sd' & w' & Hrun & _ & Htoken & _).
  exists sd', w'. auto.
Defined.

(** A first visit. *)
Lemma GetSession_first_visit_witness :
  exists sd w',
    GetSession (cc := Sample.cookies) Sample.sm sessionPool_New Sample.now
      Sample.fresh_request Sample.empty_world = Ok (Value sd) w' /\
    GetAccessToken (codec := Sample.codec) sd w' = Ok "" w' /\
    GetAuthenticated sd Sample.now w' = Ok false w'.
Proof.
  destruct (GetSession_first_visit (codec := Sample.codec)
              (cc := Sample.cookies) Sample.sm sessionPool_New Sample.now
              Sample.fresh_request Sample.empty_world eq_refl eq_refl)
    as (sd & w' & Hrun & _ & _ & _ & _ & Htoken & _ & Hauth & _).
  exists sd, w'. auto.
Defined.

(** Saving a returning visitor's session: three headers. *)
Lemma Save_headers_witness :
  exists w' added,
    Save (cc := Sample.cookies) Sample.sm
      (Sample.session_of Sample.returning_visit) Sample.returning_request
      ResponseWriter (Sample.world_of Sample.returning_visit)
    = Ok None w' /\
    response w' = response (Sample.world_of Sample.returning_visit) ++ added /\
    length added = 3.
Proof.
  destruct (Save_headers (cc := Sample.cookies) Sample.sm
              (Sample.session_of Sample.returning_visit)
              Sample.returning_request ResponseWriter
              (Sample.world_of Sample.returning_visit))
    as (e & w' & added & Hrun & Hresp & _ & Hok & _ & Htot & _).
  - intros p Hp.
    exact (loaded_points_valid (cc := Sample.cookies) Sample.sm
             Sample.returning_request _ _ p returning_visit_loaded Hp).
  - vm_compute. eauto.
  - vm_compute. eauto.
  - vm_compute. eauto.
  - assert (He : e = None)
      by (apply Htot; intros q s _ _; eexists; reflexivity).
    subst e. exists w', added. split; [exact Hrun |].
    split; [exact Hresp |]. rewrite Hok by reflexivity. vm_compute. reflexivity.
Defined.

(** Clearing a session whose access token came in two chunks, with a
    response writer: five cookies, none of them expiring. *)
Lemma Clear_writes_emptied_cookies_witness :
  exists w' added,
    Clear (cc := Sample.cookies) Sample.sm
      (Sample.session_of Sample.chunked_visit) Sample.chunked_request
      (Some ResponseWriter) (Sample.world_of Sample.chunked_visit)
    = Ok (with_request None (Sample.session_of Sample.chunked_visit), None) w' /\
    response w' = response (Sample.world_of Sample.chunked_visit) ++ added /\
    length added = 5 /\
    Forall (fun h => MaxAge (cookie_options h) = 86400%Z) added.
Proof.
  destruct (Clear_writes_emptied_cookies (cc := Sample.cookies) Sample.sm
              Sample.chunked_request (Sample.session_of Sample.chunked_visit)
              ResponseWriter (Sample.world_of Sample.chunked_visit)
              chunked_visit_loaded)
    as (e & w' & added & Hrun & _ & Hresp & Hacc & Htot & _).
  destruct Htot as [-> Hlen]; [intros q s _ _; eexists; reflexivity |].
  exists w', added. split; [exact Hrun |]. split; [exact Hresp |].
  split; [rewrite Hlen; vm_compute; reflexivity |].
  eapply Forall_impl; [exact Hacc |]. now intros h [Hmax _].
Defined.

(** A returning visitor logs out. *)
Lemma handleLogout_answers_witness :
  exists rep w',
    handleLogout (codec := Sample.codec) (cc := Sample.cookies)
      (urllib := Sample.urllib) Sample.host_of Sample.scheme_of
      Sample.oidc sessionPool_New Sample.now Sample.returning_request
      Sample.empty_world = Ok rep w' /\
    length (response w') = 3.
Proof.
  destruct (handleLogout_answers (codec := Sample.codec) (cc := Sample.cookies)
              (urllib := Sample.urllib) Sample.host_of Sample.scheme_of
              Sample.oidc sessionPool_New Sample.now Sample.returning_request
              Sample.empty_world)
    as (rep & w' & Hrun & Hcase).
  - intros createdAt _ H. vm_compute in H. injection H as <-.
    vm_compute. discriminate.
  - exists rep, w'. split; [exact Hrun |].
    change (exists sd w1 token,
      GetSession (cc := Sample.cookies) (sessionManager Sample.oidc)
        sessionPool_New Sample.now
        Sample.returning_request Sample.empty_world = Ok (Value sd) w1 /\
      GetAccessToken (codec := Sample.codec) sd w1 = Ok token w1 /\
      (rep = logout_redirect (urllib := Sample.urllib) Sample.host_of
               Sample.scheme_of Sample.oidc Sample.returning_request token \/
       rep = http_Error "Session error" 500) /\
      ((forall n, exists enc,
          securecookie_Encode (CookieCodec := Sample.cookies) n ∅ = Value enc) ->
       rep = logout_redirect (urllib := Sample.urllib) Sample.host_of
               Sample.scheme_of Sample.oidc Sample.returning_request token /\
       length (response w')
       = length (response Sample.empty_world) + 3
         + size (accessTokenChunks sd) + size (refreshTokenChunks sd))) in Hcase.
    destruct Hcase as (sd & w1 & token & Hget & _ & _ & Hok).
    destruct Hok as [_ Hlen]; [intros n; eexists; reflexivity |].
    rewrite Hlen.
    change (Sample.returning_visit = Ok (Value sd) w1) in Hget.
    assert (Hsd : Sample.session_of Sample.returning_visit = sd)
      by (rewrite Hget; reflexivity).
    rewrite <- Hsd. vm_compute. reflexivity.
Defined.

(** A 4500-byte refresh token goes into three chunks and comes back. *)
Lemma SetRefreshToken_roundtrip_witness :
  exists sd' w',
    SetRefreshToken (codec := Sample.codec) (cc := Sample.cookies) Sample.sm
      (Sample.session_of Sample.returning_visit) Sample.big_token
      (Sample.world_of Sample.returning_visit) = Ok sd' w' /\
    size (refreshTokenChunks sd') = 3 /\
    GetRefreshToken (codec := Sample.codec) sd' w' = Ok Sample.big_token w'.
Proof.
  destruct (SetRefreshToken_roundtrip (laws := Sample_codec_laws)
              (cc := Sample.cookies) Sample.sm
              (Sample.session_of Sample.returning_visit)
              Sample.returning_request
              (Sample.world_of Sample.returning_visit) Sample.big_token
              Sample.big_token (Sample.magic +:+ Sample.big_token))
    as (sd' & w' & Hrun & Hsize & _ & Hget).
  - vm_compute. reflexivity.
  - vm_compute. reflexivity.
  - vm_compute. eauto.
  - reflexivity.
  - reflexivity.
  - exists sd', w'. split; [exact Hrun |]. split; [|exact Hget].
    rewrite Hsize. vm_compute. reflexivity.
Defined.

(** Storing a new access token leaves the authentication state. *)
Lemma SetAccessToken_leaves_rest_witness :
  exists sd' w',
    SetAccessToken (codec := Sample.codec) (cc := Sample.cookies) Sample.sm
      (Sample.session_of Sample.returning_visit) Sample.small_token
      (Sample.world_of Sample.returning_visit) = Ok sd' w' /\
    GetAuthenticated sd' Sample.now w' = Ok true w'.
Proof.
  destruct (SetAccessToken_leaves_rest (codec := Sample.codec)
              (cc := Sample.cookies) Sample.sm Sample.returning_request
              (Sample.session_of Sample.returning_visit)
              (Sample.world_of Sample.returning_visit) Sample.small_token
              returning_visit_loaded)
    as (sd' & w' & Hrun & _ & _ & Hauth & _).
  exists sd', w'. split; [exact Hrun |]. apply Hauth.
  vm_compute. reflexivity.
Defined.

(** Storing a refresh token leaves the access token. *)
Lemma SetRefreshToken_leaves_rest_witness :
  exists sd' w',
    SetRefreshToken (codec := Sample.codec) (cc := Sample.cookies) Sample.sm
      (Sample.session_of Sample.returning_visit) Sample.small_token
      (Sample.world_of Sample.returning_visit) = Ok sd' w' /\
    GetAccessToken (codec := Sample.codec) sd' w' = Ok "opaque-access-token" w'.
Proof.
  destruct (SetRefreshToken_leaves_rest (codec := Sample.codec)
              (cc := Sample.cookies) Sample.sm Sample.returning_request
              (Sample.session_of Sample.returning_visit)
              (Sample.world_of Sample.returning_visit) Sample.small_token
              returning_visit_loaded)
    as (sd' & w' & Hrun & _ & Htoken & _).
  exists sd', w'. split; [exact Hrun |]. apply Htoken.
  vm_compute. reflexivity.
Defined.

(** A big access token and a small refresh token in one session. *)
Lemma both_tokens_roundtrip_witness :
  exists sd1 w1 sd2 w2,
    SetAccessToken (codec := Sample.codec) (cc := Sample.cookies) Sample.sm
      (Sample.session_of Sample.returning_visit) Sample.big_token
      (Sample.world_of Sample.returning_visit) = Ok sd1 w1 /\
    SetRefreshToken (codec := Sample.codec) (cc := Sample.cookies) Sample.sm
      sd1 Sample.small_token w1 = Ok sd2 w2 /\
    GetAccessToken (codec := Sample.codec) sd2 w2 = Ok Sample.big_token w2 /\
    GetRefreshToken (codec := Sample.codec) sd2 w2 = Ok Sample.small_token w2.
Proof.
  apply (both_tokens_roundtrip (laws := Sample_codec_laws)
           (cc := Sample.cookies) Sample.sm Sample.returning_request
           (Sample.session_of Sample.returning_visit)
           (Sample.world_of Sample.returning_visit)
           Sample.big_token Sample.small_token returning_visit_loaded).
  - eexists. reflexivity.
  - eexists. reflexivity.
Defined.

(** A used object from the pool meets a main cookie created at Unix
    time 0. *)
Lemma GetSession_expired_on_recycled_object_witness :
  exists w',
    GetSession (cc := Sample.cookies) Sample.sm Demo.used_object Sample.now
      Sample.stale_request Demo.used_world = Ok (Error "session expired") w'.
Proof.
  destruct (GetSession_expired_on_recycled_object (cc := Sample.cookies)
              Sample.sm Sample.stale_request Demo.used_object Demo.used_world
              Sample.now
              (<["created_at" := VInt64 0]> (<["authenticated" := VBool true]> ∅))
              0)
    as (w' & main & Hrun & _).
  - reflexivity.
  - vm_compute. reflexivity.
  - vm_compute. reflexivity.
  - vm_compute. reflexivity.
  - split; [exists 0; split; [reflexivity | vm_compute; eauto] |].
    split; [exists 1; split; [reflexivity | vm_compute; eauto] |].
    split; intros i p H; vm_compute in H; discriminate.
  - exists w'. exact Hrun.
Defined.

Lemma compressToken_roundtrip_witness :
  decompressToken (codec := Sample.codec)
    (compressToken (codec := Sample.codec) "opaque-access-token")
  = "opaque-access-token".
Proof.
  destruct (compressToken_roundtrip (laws := Sample_codec_laws)
              "opaque-access-token") as [Hok _].
  destruct Hok as [Hback _]; [eexists; reflexivity | exact Hback].
Defined.

(** A returning visitor stores a 4500-byte access token and saves: three
    more cookies than partitions. *)
Lemma SetAccessToken_then_Save_witness :
  exists sd' w' w'' added,
    SetAccessToken (codec := Sample.codec) (cc := Sample.cookies) Sample.sm
      (Sample.session_of Sample.returning_visit) Sample.big_token
      (Sample.world_of Sample.returning_visit) = Ok sd' w' /\
    Save (cc := Sample.cookies) Sample.sm sd' Sample.returning_request
      ResponseWriter w' = Ok None w'' /\
    response w'' = response (Sample.world_of Sample.returning_visit) ++ added /\
    length added = 6.
Proof.
  destruct (SetAccessToken_then_Save (codec := Sample.codec)
              (cc := Sample.cookies) Sample.sm Sample.returning_request
              (Sample.session_of Sample.returning_visit) ResponseWriter
              (Sample.world_of Sample.returning_visit) Sample.big_token
              returning_visit_loaded)
    as (sd' & w' & w'' & added & Hset & Hsave & Hresp & Hlen & _).
  - intros n vals. eexists. reflexivity.
  - exists sd', w', w'', added. split; [exact Hset |]. split; [exact Hsave |].
    split; [exact Hresp |]. rewrite Hlen. vm_compute. reflexivity.
Defined.

(** The token of 4500 bytes came in three chunk cookies; the token of 2500
    bytes takes two.  An hour later the client's next request still carries
    the third cookie, and [GetAccessToken] returns the new token followed by
    the last 502 bytes of the old one. *)
Lemma SetAccessToken_old_chunks_survive_witness :
  exists sd2 w2 w3 sd' w1',
    SetAccessToken (codec := Sample.codec) (cc := Demo.jar_cookies) Sample.sm
      (Sample.session_of Demo.three_chunk_visit) Demo.second_token
      (Sample.world_of Demo.three_chunk_visit) = Ok sd2 w2 /\
    Save (cc := Demo.jar_cookies) Sample.sm sd2 Demo.three_chunk_request
      ResponseWriter w2 = Ok None w3 /\
    Forall (fun h => cookie_name h <> sessionName accessTokenCookie 2)
      (response w3) /\
    GetSession (cc := Demo.jar_cookies) Sample.sm sessionPool_New
      (Sample.now + time_Hour)
      (next_request (cd := Demo.jar_decoder) Demo.three_chunk_request
         (response w3))
      Sample.empty_world = Ok (Value sd') w1' /\
    GetAccessToken (codec := Sample.codec) sd' w1'
    = Ok (Demo.second_token +:+ GoString.Repeat "a" 502) w1' /\
    Demo.second_token +:+ GoString.Repeat "a" 502 <> Demo.second_token.
Proof.
  destruct (SetAccessToken_old_chunks_survive
              (codec := Sample.codec) (laws := Demo_cookie_laws)
              Sample.sm Demo.three_chunk_request ResponseWriter
              sessionPool_New sessionPool_New
              Sample.now (Sample.now + time_Hour)
              Sample.empty_world (Sample.world_of Demo.three_chunk_visit)
              Sample.empty_world
              (Sample.session_of Demo.three_chunk_visit) Demo.second_token 3)
    as (sd2 & w2 & w3 & sd' & w1' & Hset & Hsave & Hstale & Hget & _ & Hread).
  - reflexivity.
  - reflexivity.
  - vm_compute. reflexivity.
  - intros j Hj. destruct j as [|[|[|j]]]; [| | |lia]; eexists;
      vm_compute; reflexivity.
  - intros vals. vm_compute. discriminate.
  - vm_compute. lia.
  - intros nm vals. eexists. reflexivity.
  - reflexivity.
  - intros vals createdAt Hvals Hc.
    assert (Hm : Cookies Demo.three_chunk_request !! mainCookieName
                 = Some (Decodes (<["created_at" := VInt64 1700000000]>
                                    (<["authenticated" := VBool true]> ∅))))
      by (vm_compute; reflexivity).
    rewrite Hm in Hvals. injection Hvals as <-.
    rewrite lookup_insert_eq in Hc. injection Hc as <-.
    vm_compute. discriminate.
  - exists sd2, w2, w3, sd', w1'.
    split; [exact Hset |]. split; [exact Hsave |].
    split; [apply (Hstale 2); vm_compute; lia |].
    split; [exact Hget |].
    split.
    + rewrite Hread. apply (f_equal (fun t => Ok t w1')).
      vm_compute. reflexivity.
    + intros H. apply (f_equal String.length) in H. revert H.
      vm_compute. discriminate.
Defined.
